(* ===== verification/_CoqProject ===== *)
-Q . S2P
Prelude.v
Prog.v
Std.v
Extern.v
State.v
Operations.v
Identity.v
IdentityFile.v
EndpointConfig.v
Endpoint.v
Connection.v
Stream.v
System.v
Invariants.v
Lifecycle.v
Safety.v
EndpointSpec.v
Loopback.v
StreamSpec.v
Witnesses.v
