(* ===== verification/Prelude.v ===== *)
(** * The native layer of IrohBeam

    A verification of the Rust NIF crate of IrohBeam,
    [native/iroh_beam_nif/src]: the part of the library that owns every shared
    resource, runs [iroh] on a Tokio runtime, and reports to Erlang processes
    by messages.  The Elixir sources call it through [IrohBeam.Native].

    ** The program

    - lib.rs: the runtime, panic containment, the operation resource
      [OperationResource] and the smoke operation.  An operation is [RUNNING],
      [COMPLETED] or [CANCELLED]; whoever wins the compare-exchange out of
      [RUNNING] decides whether a completion message is sent.
    - identity.rs: keys, endpoint IDs, addresses, tickets, and the identity file,
      written under a temporary name and published with a hard link.
    - endpoint.rs: validation of the options, the [iroh] builder, the registry of
      active identities, the endpoint resource with its limits, and
      [start_endpoint_operation], which runs a future beside a supervising task.
    - connection.rs: dialling, accepting with an allowlist, the connection
      resource with its single release.
    - stream.rs: the stream resource, the leases of its halves, queue accounting,
      chunked sends, receives, resets, stops and aborts, and datagrams.

    The parts share statics (counters, registry, runtime) and the resources that
    a [ResourceArc] points to; NIFs run on scheduler threads, futures and their
    supervisors on Tokio threads, [Drop] and [down] callbacks on any thread.

    ** The files

    - [Prelude]: results, [u64] arithmetic, sums over maps, list lemmas, tactics.
    - [Prog]: programs over a shared state.  One [Act] node is one atomic step:
      a read-modify-write, a critical section of a mutex, a call of [std::fs], or
      one poll of an external future; it lists its possible outcomes.  [eval] runs a
      program alone; [pool_step] interleaves a pool of threads with the
      environment in every order; [run_sched] follows one schedule.  [wp] is a
      logic for pools with ghost tokens (multisets) for what a thread still owes;
      [within] proves that every step respects a relation.
    - [Std]: what the crate computes with the Rust standard library (socket
      addresses, lossy UTF-8, paths, directory entries and inodes, mutexes).
    - [Extern]: the interfaces [IdentityApi] (pure functions of [iroh] and
      [iroh-tickets], and the map [RelayMap] that collects relays) and [NetApi]
      (network, BEAM, operating system).  All are parameters; the state of the
      outside world is a type [ext].  The only laws assumed of them are
      [AddrLaws] (the relay URLs of an address are those it was made from) and
      [SecretKeyLaws] (a secret key is its 32 bytes), both in [Identity].
    - [State]: constants, atoms, structs, and the record [world] of all statics
      and resources.  A [ResourceArc] is an index into the heap of its type, a
      [Notify] is its stored permit, an atomic is its value.
    - [Operations] (lib.rs, and [start_endpoint_operation] of endpoint.rs),
      [Identity] and [IdentityFile] (identity.rs), [EndpointConfig] and
      [Endpoint] (endpoint.rs), [Connection] (connection.rs), [Stream]
      (stream.rs): one definition per function or method of the source, under its
      name, and one per async block ([close_future], [accept_future], ...); each
      file ends with the invariant of its component and the rules of its steps.
    - [System]: all NIFs and resource callbacks as one type [nif_call], and
      [reaches]: the states that any calls reach in any interleaving.
    - [Invariants], [Lifecycle]: every call keeps every invariant, and changes
      the state only forwards.  [Safety]: what follows for reachable states.
    - [EndpointSpec], [StreamSpec]: what operations compute when run alone, and
      that a lease excludes others in every interleaving.
    - [Loopback]: a concrete outside world that satisfies the laws.
      [Witnesses]: the theorems applied to closed runs in it.

    ** The theorems

    - Protocol of operations (C1, C2, C3, C12, C22, C23, C24): at most one
      completion message, none after a cancellation, none lost, final states are
      final, the counter returns to zero.
    - Exclusive identities and limits (C4, C5, C8, C9, C29, C30, C37, C38, C39):
      no two live endpoints with one identity, never more connections or pending
      accepts than allowed, every claimed unit is given back exactly once.
    - Authentication and isolation (C6, C27, C28, C33, C34): a peer that is not on
      the allowlist never becomes a connection, and what becomes of a peer that
      calls is spelled out for every outcome; a profile configures just the relays
      and address lookup that it names; no credentials in accepted relay URLs.
    - Validation (C25, C32): accepted configurations and addresses are
      exactly the documented ones.
    - Identity file (C7, C36), secret keys (C35): whatever races and faults, a
      published file is complete, and no file that was there is changed.
    - Lifecycles (C13): what is released or closed stays so.
    - Streams (C10, C11, C14 to C21, C26, C40): a leased half is refused to everyone
      else, a send writes exactly the data without a slice out of range, busy
      flags and queued bytes are returned on every path, a reset or abort closes
      the half for good, and the code of a reset or stop reaches the operation
      that is blocked on the half.  C19 and C40 state two behaviours that lose an
      abort code: [stream_abort] overwrites it with 0, and the drop of a lease may
      put a stream back after its reset.

    C1 to C13 quantify over all finite sequences of calls, all arguments and all
    interleavings, with an environment that may change the outside world between
    any two steps; C15 over every interleaving that follows a lease, and C40
    exhibits one.  The others describe one operation, or two in sequence, run
    alone from any state that satisfies the stated conditions.

    ** Bounds and fuel

    Only two loops are not structural: the retry of [compare_exchange_weak] in
    [QueueGuard_new] and the write loop of a send.  Both are [Iter] nodes, so the
    interleaving semantics has no fuel.  [eval] takes fuel for them: C21 and C26
    need one round and C14 one more than the bytes of the data.  Integers are [Z] with
    [u64] wrap-around ([wrap64]) where the code adds or subtracts without a check;
    [usize] is 64 bits wide.

    ** What is not modelled

    - The collection of a [ResourceArc] is an explicit [Drop] call, possible at
      any time and repeatedly, which is more than the code does; a resource of a
      result that nobody received is dropped by the task itself.
    - [select!] may choose any ready branch; a future may be dropped at any await
      after an abort was requested.  Both are more than Tokio does.
    - Memory orderings weaker than sequential consistency.
    - Panics of the crate's own arithmetic (there are none in release mode).  A
      slice of the data that is out of range ends its future with a panic, and an
      external future may panic at any poll.
    - Encoding to and decoding from Erlang terms, done by [rustler], and logging.
    - In the file system: symbolic links, permissions, [..], trailing slashes, and
      the intermediate states of [create_dir_all].
    - The Elixir API, the Erlang distribution carrier, build files and tests,
      which are written in other languages. *)
From Stdlib Require Export ZArith Lia.
From stdpp Require Export base gmap gmultiset strings list fin_maps option.
From stdpp Require Import options.

Declare Scope iroh_scope.
Delimit Scope iroh_scope with iroh.

(** ** Rust's [Result] *)

Inductive result (A E : Type) : Type :=
  | Ok (a : A)
  | Err (e : E).
Arguments Ok {A E} _.
Arguments Err {A E} _.

#[export] Instance result_eq_dec {A E} `{EqDecision A, EqDecision E} :
  EqDecision (result A E).
Proof. solve_decision. Defined.

Definition is_ok {A E} (r : result A E) : bool :=
  match r with Ok _ => true | Err _ => false end.

Definition result_bind {A B E} (r : result A E) (f : A → result B E) : result B E :=
  match r with Ok a => f a | Err e => Err e end.

Definition map_err {A E F} (f : E → F) (r : result A E) : result A F :=
  match r with Ok a => Ok a | Err e => Err (f e) end.

Definition ok_or {A E} (o : option A) (e : E) : result A E :=
  match o with Some a => Ok a | None => Err e end.

(** The [?] operator: the error returns early. *)
Notation "'let?' x := r 'in' k" := (result_bind r (λ x, k))
  (at level 10, x name, r at level 200, k at level 200) : iroh_scope.

Lemma result_bind_ok {A B E} (r : result A E) (f : A → result B E) b :
  result_bind r f = Ok b ↔ ∃ a, r = Ok a ∧ f a = Ok b.
Proof. destruct r; simpl; [naive_solver|]. split; [done|by intros (? & ? & ?)]. Qed.

Lemma ok_or_ok {A E} (o : option A) (e : E) a : ok_or o e = Ok a ↔ o = Some a.
Proof. destruct o; simpl; naive_solver. Qed.

(** [collect::<Result<Vec<_>, _>>]: the first error wins. *)
Fixpoint collect {A E} (rs : list (result A E)) : result (list A) E :=
  match rs with
  | [] => Ok []
  | Ok a :: rs => match collect rs with Ok l => Ok (a :: l) | Err e => Err e end
  | Err e :: _ => Err e
  end.

Lemma collect_ok {A E} (rs : list (result A E)) l : collect rs = Ok l ↔ rs = Ok <$> l.
Proof.
  revert l. induction rs as [|[a|e] rs IH]; intros l; simpl.
  - destruct l; simpl; naive_solver.
  - destruct (collect rs) as [l'|e]; destruct l as [|b l]; simpl;
      (split; [intros ?; simplify_eq|]); try done.
    + f_equal. by apply IH.
    + intros [= -> H]. apply IH in H. by simplify_eq.
    + intros [= -> H]. apply IH in H. done.
  - split; [done|]. destruct l; done.
Qed.

Lemma collect_fmap_Forall2 {A B E} (f : A → result B E) l bs :
  collect (f <$> l) = Ok bs ↔ Forall2 (λ a b, f a = Ok b) l bs.
Proof.
  rewrite collect_ok. revert bs.
  induction l as [|a l IH]; intros [|b bs]; simpl; split; intros H0;
    try (by inversion H0); try (by constructor).
  - injection H0 as Ha Hl. constructor; [done|]. by apply IH.
  - inversion H0 as [|? ? ? ? Ha Hl]; subst. rewrite Ha. f_equal. by apply IH.
Qed.

(** When [f] succeeds exactly on the values related to some [c] by [R]. *)
Lemma collect_fmap_ok {A B C E} (f : A → result B E) (R : A → C → Prop) (h : C → B) l bs :
  (∀ a b, f a = Ok b ↔ ∃ c, b = h c ∧ R a c) →
  collect (f <$> l) = Ok bs ↔ ∃ cs, bs = h <$> cs ∧ Forall2 R l cs.
Proof.
  intros Hf. rewrite collect_fmap_Forall2. split.
  - induction 1 as [|a b l bs (c & -> & Hc)%Hf _ (cs & -> & Hcs)]; [by exists []|].
    exists (c :: cs). split; [done|by constructor].
  - intros (cs & -> & Hcs). induction Hcs; simpl; constructor; [apply Hf|]; eauto.
Qed.

(** ** Machine integers: [usize] and [u64] on a 64-bit target *)

Definition wrap64 (z : Z) : Z := z `mod` 2 ^ 64.
Definition U64_MAX : Z := 2 ^ 64 - 1.

Lemma wrap64_small z : (0 ≤ z < 2 ^ 64)%Z → wrap64 z = z.
Proof. apply Z.mod_small. Qed.

Lemma wrap64_add z n : wrap64 (wrap64 z + n) = wrap64 (z + n).
Proof. unfold wrap64. by rewrite Z.add_mod_idemp_l. Qed.

Lemma wrap64_sub z n : wrap64 (wrap64 z - n) = wrap64 (z - n).
Proof. unfold wrap64. by rewrite Zminus_mod_idemp_l. Qed.

Lemma wrap64_range z : (0 ≤ wrap64 z < 2 ^ 64)%Z.
Proof. unfold wrap64. apply Z.mod_pos_bound. lia. Qed.

Create HintDb iroh.
Create Rewrite HintDb iroh.
#[export] Hint Rewrite wrap64_add wrap64_sub : iroh.
#[export] Hint Resolve wrap64_range : iroh.

(** ** Heaps of resources *)

(** The index of the next resource. *)
Definition next_id {V} (m : gmap nat V) : nat :=
  map_fold (λ i _ n, S i `max` n)%nat 0%nat m.

Lemma next_id_gt {V} (m : gmap nat V) i : is_Some (m !! i) → (i < next_id m)%nat.
Proof.
  revert i. unfold next_id. apply (map_fold_weak_ind
    (λ n m, ∀ i, is_Some (m !! i) → (i < n)%nat)); clear m.
  - intros i [? H]. by rewrite lookup_empty in H.
  - intros j x m n Hj IH i Hi. destruct (decide (i = j)) as [->|]; [lia|].
    rewrite lookup_insert_ne in Hi by done. specialize (IH i Hi). lia.
Qed.

Lemma next_id_fresh {V} (m : gmap nat V) : m !! next_id m = None.
Proof.
  destruct (m !! next_id m) eqn:E; [|done].
  assert (next_id m < next_id m)%nat; [|lia]. apply next_id_gt. by rewrite E.
Qed.

Lemma lookup_insert_next {V} (m : gmap nat V) v i w :
  m !! i = Some w → <[next_id m := v]> m !! i = Some w.
Proof.
  intros Hi. rewrite lookup_insert_ne; [done|]. intros <-. by rewrite next_id_fresh in Hi.
Qed.

(** An update that [h] does not see. *)
Lemma fmap_insert_same {V W} (h : V → W) (m : gmap nat V) i v w :
  m !! i = Some v → h w = h v → h <$> <[i:=w]> m = h <$> m.
Proof.
  intros Hi Hh. rewrite fmap_insert, Hh. apply insert_id. by rewrite lookup_fmap, Hi.
Qed.

(** ** Sums over a heap of resources *)

Section msum.
Context {V : Type}.
Implicit Types (f : V → Z) (m : gmap nat V).

Definition msum f m : Z := map_fold (λ _ v acc, (f v + acc)%Z) 0%Z m.

Lemma msum_empty f : msum f ∅ = 0%Z.
Proof. apply map_fold_empty. Qed.

Lemma msum_insert_new f m i v : m !! i = None → msum f (<[i:=v]> m) = (f v + msum f m)%Z.
Proof.
  intros Hi. unfold msum. rewrite map_fold_insert_L; [done| |done].
  intros; lia.
Qed.

Lemma msum_delete f m i v : m !! i = Some v → msum f m = (f v + msum f (delete i m))%Z.
Proof.
  intros Hi. rewrite <-(insert_delete_id m i v Hi) at 1.
  apply msum_insert_new, lookup_delete_eq.
Qed.

Lemma msum_update f m i v w :
  m !! i = Some v → msum f (<[i:=w]> m) = (msum f m - f v + f w)%Z.
Proof.
  intros Hi. rewrite <-insert_delete_eq, msum_insert_new by apply lookup_delete_eq.
  rewrite (msum_delete f m i v Hi). lia.
Qed.

Lemma msum_nonneg f m : (∀ i v, m !! i = Some v → 0 ≤ f v)%Z → (0 ≤ msum f m)%Z.
Proof.
  induction m as [|i v m Hi IH] using map_ind; intros Hf; [by rewrite msum_empty|].
  rewrite msum_insert_new by done.
  assert (0 ≤ f v)%Z by (eapply (Hf i); apply lookup_insert_eq).
  assert (0 ≤ msum f m)%Z; [|lia].
  apply IH. intros j w Hj. eapply (Hf j). rewrite lookup_insert_ne; [done|congruence].
Qed.

Lemma msum_lookup_le f m i v :
  (∀ i v, m !! i = Some v → 0 ≤ f v)%Z → m !! i = Some v → (f v ≤ msum f m)%Z.
Proof.
  intros Hf Hi. rewrite (msum_delete f m i v Hi).
  assert (0 ≤ msum f (delete i m))%Z; [|lia].
  apply msum_nonneg. intros j w [_ Hj]%lookup_delete_Some. by eapply Hf.
Qed.

Lemma msum_lookup_le2 f m i j v w :
  (∀ i v, m !! i = Some v → 0 ≤ f v)%Z → i ≠ j →
  m !! i = Some v → m !! j = Some w → (f v + f w ≤ msum f m)%Z.
Proof.
  intros Hf Hij Hi Hj. rewrite (msum_delete f m i v Hi).
  assert (f w ≤ msum f (delete i m))%Z; [|lia].
  apply (msum_lookup_le _ _ j).
  - intros k u [_ Hk]%lookup_delete_Some. by eapply Hf.
  - by rewrite lookup_delete_ne.
Qed.
End msum.

(** The number of entries with a property. *)
Definition count {V} (P : V → bool) (m : gmap nat V) : Z :=
  Z.of_nat (size (filter (λ kv : nat * V, P kv.2 = true) m)).

Lemma count_insert_new {V} (P : V → bool) (m : gmap nat V) i v :
  m !! i = None → count P (<[i:=v]> m) = ((if P v then 1 else 0) + count P m)%Z.
Proof.
  intros Hi. unfold count. destruct (P v) eqn:HP.
  - rewrite map_filter_insert_True by done. rewrite map_size_insert_None; [lia|].
    rewrite map_lookup_filter, Hi. done.
  - rewrite map_filter_insert_not' by (simpl; congruence). lia.
Qed.

Lemma msum_count {V W} (f : W → Z) (h : V → W) (P : V → bool) (m : gmap nat V) :
  (∀ v, f (h v) = if P v then 1 else 0)%Z → msum f (h <$> m) = count P m.
Proof.
  intros Hf. induction m as [|i v m Hi IH] using map_ind.
  - rewrite fmap_empty, msum_empty. unfold count. by rewrite map_filter_empty.
  - rewrite fmap_insert, msum_insert_new by (rewrite lookup_fmap; rewrite Hi; done).
    by rewrite count_insert_new, IH, Hf.
Qed.

Lemma count_nonneg {V} (P : V → bool) (m : gmap nat V) : (0 ≤ count P m)%Z.
Proof. unfold count. lia. Qed.

#[export] Hint Rewrite @msum_empty : iroh.
