(* ===== verification/Prog.v ===== *)
(** Programs over a shared state, and their interleavings.

    A [prog S A] is code that runs on one thread and shares the state [S] with
    the other threads.  Each [Act] node is one atomic step (an atomic
    read-modify-write, a critical section of a mutex, the poll of an external
    future): it lists the outcomes it may have, none when the thread must wait.
    [eval] executes a program alone; [pool_step] interleaves the threads of a
    pool in every order.  [wp] is a logic for pools: one invariant on the
    shared state and on the ghost tokens that the threads hold. *)
From S2P Require Import Prelude.
From stdpp Require Import list options.

(** ** Programs *)

Inductive prog (S : Type) (A : Type) : Type :=
  | Ret (a : A)
  | Act {R : Type} (f : S → list (R * S)) (k : R → prog S A)
  | Fork (child : prog S unit) (k : prog S A)
  | Iter {X B : Type} (x : X) (body : X → prog S (X + B)) (k : B → prog S A).
Arguments Ret {S A} _.
Arguments Act {S A R} _ _.
Arguments Fork {S A} _ _.
Arguments Iter {S A X B} _ _ _.

Fixpoint bind {S A B} (p : prog S A) (h : A → prog S B) : prog S B :=
  match p with
  | Ret a => h a
  | Act f k => Act f (λ r, bind (k r) h)
  | Fork c k => Fork c (bind k h)
  | Iter x body k => Iter x body (λ b, bind (k b) h)
  end.

Declare Scope prog_scope.
Delimit Scope prog_scope with prog.
Notation "'let!' x := p 'in' q" := (bind p (λ x, q))
  (at level 10, x name, p at level 200, q at level 200) : prog_scope.
Notation "p ';!' q" := (bind p (λ _, q))
  (at level 100, q at level 200, right associativity) : prog_scope.
#[local] Open Scope prog_scope.

(** One atomic step with exactly one outcome. *)
Definition atomic {S R} (f : S → R * S) : prog S R := Act (λ s, [f s]) Ret.

(** One atomic step on an object that an [Arc] points to. *)
Definition atomic_opt {S R} (f : S → option (R * S)) : prog S R :=
  Act (λ s, option_list (f s)) Ret.

Definition read {S R} (f : S → R) : prog S R := atomic (λ s, (f s, s)).
Definition modify {S} (f : S → S) : prog S unit := atomic (λ s, (tt, f s)).
Definition fork {S} (c : prog S unit) : prog S unit := Fork c (Ret tt).
Definition looped {S X B} (x : X) (body : X → prog S (X + B)) : prog S B := Iter x body Ret.
Definition when {S} (b : bool) (p : prog S unit) : prog S unit := if b then p else Ret tt.

(** RAII: [d] runs when the scope of [p] is left, however it is left. *)
Definition finally {S A} (p : prog S A) (d : prog S unit) : prog S A :=
  let! a := p in d ;! Ret a.

(** ** Execution of a program alone

    The first outcome of every step is taken; the result lists the threads that
    were spawned.  [n] bounds the rounds of each loop. *)
Fixpoint eval_loop {S A X B} (body : X → S → option ((X + B) * S * list (prog S unit)))
    (k : B → S → option (A * S * list (prog S unit))) (m : nat) (x : X) (s : S)
    : option (A * S * list (prog S unit)) :=
  match m with
  | O => None
  | Datatypes.S m =>
      match body x s with
      | Some (inl x', s', cs) =>
          match eval_loop body k m x' s' with
          | Some (a, s'', cs') => Some (a, s'', cs ++ cs')
          | None => None
          end
      | Some (inr b, s', cs) =>
          match k b s' with
          | Some (a, s'', cs') => Some (a, s'', cs ++ cs')
          | None => None
          end
      | None => None
      end
  end.

Fixpoint eval {S A} (n : nat) (p : prog S A) (s : S) : option (A * S * list (prog S unit)) :=
  match p with
  | Ret a => Some (a, s, [])
  | Act f k =>
      match f s with
      | (r, s') :: _ => eval n (k r) s'
      | [] => None
      end
  | Fork c k =>
      match eval n k s with
      | Some (a, s', cs) => Some (a, s', c :: cs)
      | None => None
      end
  | Iter x body k => eval_loop (λ x, eval n (body x)) (λ b, eval n (k b)) n x s
  end.

(** What [eval] gives for a sequence: the threads of both parts, in order. *)
Definition and_then {S A B} (o : option (A * S * list (prog S unit)))
    (h : A → S → option (B * S * list (prog S unit))) : option (B * S * list (prog S unit)) :=
  match o with
  | Some (a, s, cs) =>
      match h a s with Some (b, s', cs') => Some (b, s', cs ++ cs') | None => None end
  | None => None
  end.

Lemma and_then_nil {S A B} (a : A) (s : S) (h : A → S → option (B * S * list (prog S unit))) :
  and_then (Some (a, s, [])) h = h a s.
Proof. simpl. by destruct (h a s) as [[[? ?] ?]|]. Qed.

Lemma eval_loop_bind {S A B X B'} (body : X → S → option ((X + B') * S * list (prog S unit)))
    (k : B' → S → option (A * S * list (prog S unit))) k'
    (h : A → S → option (B * S * list (prog S unit))) m x s :
  (∀ b s, k' b s = and_then (k b s) h) →
  eval_loop body k' m x s = and_then (eval_loop body k m x s) h.
Proof.
  intros Hk. revert x s. induction m as [|m IHm]; intros x s; simpl; [done|].
  destruct (body x s) as [[[[x'|b] s'] cs]|]; [| |done].
  - rewrite IHm. unfold and_then. repeat case_match; simplify_eq/=; by rewrite ?app_assoc.
  - rewrite Hk. unfold and_then. repeat case_match; simplify_eq/=; by rewrite ?app_assoc.
Qed.

Lemma eval_bind {S A B} n (p : prog S A) : ∀ (h : A → prog S B) s,
  eval n (bind p h) s = and_then (eval n p s) (λ a, eval n (h a)).
Proof.
  induction p as [A a|A R f k IH|A c IHc k IH|A X B' x body IHb k IH]; intros h s; simpl.
  - by destruct (eval n (h a) s) as [[[? ?] ?]|].
  - destruct (f s) as [|[r s'] l]; [done|]. apply IH.
  - rewrite IH. unfold and_then. by repeat case_match; simplify_eq/=.
  - apply eval_loop_bind. intros; apply IH.
Qed.

Lemma eval_ret {S A} n (a : A) (s : S) : eval n (Ret a) s = Some (a, s, []).
Proof. done. Qed.
Lemma eval_atomic {S R} n (f : S → R * S) s : eval n (atomic f) s = Some ((f s).1, (f s).2, []).
Proof. simpl. by destruct (f s). Qed.
Lemma eval_read {S R} n (f : S → R) s : eval n (read f) s = Some (f s, s, []).
Proof. done. Qed.
Lemma eval_modify {S} n (f : S → S) s : eval n (modify f) s = Some (tt, f s, []).
Proof. done. Qed.
Lemma eval_atomic_opt {S R} n (f : S → option (R * S)) s r s' :
  f s = Some (r, s') → eval n (atomic_opt f) s = Some (r, s', []).
Proof. intros Hf. simpl. by rewrite Hf. Qed.
Lemma eval_fork {S} n (c : prog S unit) s : eval n (fork c) s = Some (tt, s, [c]).
Proof. done. Qed.

(** ** Interleaving *)

(** All the ways in which one thread can take one step, with the threads it spawns. *)
Definition step {S A} (p : prog S A) (s : S) : list (prog S A * S * list (prog S unit)) :=
  match p with
  | Ret _ => []
  | Act f k => (λ o : _ * S, (k o.1, o.2, [])) <$> f s
  | Fork c k => [(k, s, [c])]
  | Iter x body k =>
      [(bind (body x) (λ r, match r with inl x' => Iter x' body k | inr b => k b end), s, [])]
  end.

Section pool.
Context {S : Type}.
(** What the environment may do to the state between two steps. *)
Variable env : S → S → Prop.

Definition pool : Type := list (prog S unit) * S.

Inductive pool_step : pool → pool → Prop :=
  | step_thread ps1 p ps2 s p' s' cs :
      (p', s', cs) ∈ step p s →
      pool_step (ps1 ++ p :: ps2, s) (ps1 ++ p' :: ps2 ++ cs, s')
  | step_env ps s s' : env s s' → pool_step (ps, s) (ps, s').

Definition finished (p : prog S unit) : bool := match p with Ret _ => true | _ => false end.

(** Run the threads named by a schedule: thread index, index of the outcome. *)
Fixpoint run_sched (sched : list (nat * nat)) (c : pool) : option pool :=
  match sched with
  | [] => Some c
  | (t, o) :: sched =>
      match c.1 !! t with
      | Some p =>
          match step p c.2 !! o with
          | Some (p', s', cs) =>
              run_sched sched (take t c.1 ++ p' :: drop (1 + t) c.1 ++ cs, s')
          | None => None
          end
      | None => None
      end
  end.

Lemma run_sched_steps sched c c' : run_sched sched c = Some c' → rtc pool_step c c'.
Proof.
  revert c. induction sched as [|[t o] sched IH]; intros [ps s]; simpl.
  - by intros [= ->].
  - destruct (ps !! t) as [p|] eqn:Ht; [|done].
    destruct (step p s !! o) as [[[p' s'] cs]|] eqn:Ho; [|done].
    intros Hrun%IH. eapply rtc_l; [|exact Hrun].
    rewrite <-(take_drop_middle ps t p Ht) at 1.
    apply step_thread. by eapply list_elem_of_lookup_2.
Qed.
End pool.

(** ** Ghost tokens *)

(** Tokens form a commutative monoid: each thread holds some of them. *)
Class Ghost (G : Type) := {
  gnil : G;
  gop : G → G → G;
  gop_assoc x y z : gop x (gop y z) = gop (gop x y) z;
  gop_comm x y : gop x y = gop y x;
  gop_nil_l x : gop gnil x = x;
}.

#[export] Program Instance Z_ghost : Ghost Z := {| gnil := 0%Z; gop := Z.add |}.
Solve All Obligations with (simpl; lia).

#[export] Program Instance gmultiset_ghost {T} `{Countable T} : Ghost (gmultiset T) :=
  {| gnil := ∅; gop := disj_union |}.
Next Obligation. intros. by rewrite (assoc_L (⊎)). Qed.
Next Obligation. intros. by rewrite (comm_L (⊎)). Qed.
Next Obligation. intros. by rewrite (left_id_L ∅ (⊎)). Qed.

#[export] Program Instance prod_ghost {G1 G2} `{Ghost G1, Ghost G2} : Ghost (G1 * G2) :=
  {| gnil := (gnil, gnil); gop x y := (gop x.1 y.1, gop x.2 y.2) |}.
Next Obligation. intros; simpl; by rewrite !gop_assoc. Qed.
Next Obligation. intros ???? [] []; simpl; f_equal; apply gop_comm. Qed.
Next Obligation. intros ???? []; simpl; by rewrite !gop_nil_l. Qed.

Fixpoint gsum {G} `{Ghost G} (gs : list G) : G :=
  match gs with [] => gnil | g :: gs => gop g (gsum gs) end.

Section gsum.
Context {G} `{Ghost G}.

Lemma gop_nil_r (g : G) : gop g gnil = g.
Proof. by rewrite gop_comm, gop_nil_l. Qed.

Lemma gsum_app (gs1 gs2 : list G) : gsum (gs1 ++ gs2) = gop (gsum gs1) (gsum gs2).
Proof.
  induction gs1 as [|g gs1 IH]; simpl; [by rewrite gop_nil_l|].
  by rewrite IH, gop_assoc.
Qed.

Lemma gsum_middle (gs1 : list G) g gs2 :
  gsum (gs1 ++ g :: gs2) = gop g (gop (gsum gs1) (gsum gs2)).
Proof. rewrite gsum_app. simpl. by rewrite gop_assoc, (gop_comm _ g), <-gop_assoc. Qed.

Lemma gsum_nil (gs : list G) : Forall (λ g, g = gnil) gs → gsum gs = gnil.
Proof. induction 1; simpl; [done|]. subst. by rewrite gop_nil_l. Qed.
End gsum.

(** The number of tokens [t]. *)
Section tok.
Context {T : Type} `{Countable T}.
Definition tok (t : T) (g : gmultiset T) : Z := Z.of_nat (multiplicity t g).

Lemma tok_union t g1 g2 : tok t (g1 ⊎ g2) = (tok t g1 + tok t g2)%Z.
Proof. unfold tok. rewrite multiplicity_disj_union. lia. Qed.
Lemma tok_single t t' : tok t {[+ t' +]} = if decide (t = t') then 1%Z else 0%Z.
Proof. unfold tok. rewrite multiplicity_singleton. by case_decide. Qed.
Lemma tok_empty t : tok t ∅ = 0%Z.
Proof. unfold tok. by rewrite multiplicity_empty. Qed.
Lemma tok_nonneg t g : (0 ≤ tok t g)%Z.
Proof. unfold tok. lia. Qed.
End tok.

(** Count the tokens of a union of multisets. *)
Ltac toks :=
  simpl in *; repeat match goal with
  | |- context [tok _ (_ ⊎ _)] => rewrite tok_union
  | H : context [tok _ (_ ⊎ _)] |- _ => rewrite tok_union in H
  | |- context [tok _ {[+ _ +]}] => rewrite tok_single
  | H : context [tok _ {[+ _ +]}] |- _ => rewrite tok_single in H
  | |- context [tok _ ∅] => rewrite tok_empty
  | H : context [tok _ ∅] |- _ => rewrite tok_empty in H
  | H : context [decide (?t = ?t)] |- _ => rewrite (decide_True (P := t = t)) in H by reflexivity
  | |- context [decide (?t = ?t)] => rewrite (decide_True (P := t = t)) by reflexivity
  | H : context [decide (?x = ?y)] |- _ => rewrite (decide_False (P := x = y)) in H by congruence
  | |- context [decide (?x = ?y)] => rewrite (decide_False (P := x = y)) by congruence
  end.

(** ** A logic for pools *)

Section wp.
Context {S G : Type} `{Ghost G}.
(** The invariant on the shared state and the tokens of all the threads. *)
Variable I : S → G → Prop.

(** A thread that finishes has given all its tokens back. *)
Definition fin (_ : unit) (g : G) : Prop := g = gnil.

(** [wp p Q g]: a thread that runs [p] with the tokens [g] keeps the invariant
    at each step, whatever the others do between two steps, and ends in [Q]. *)
Fixpoint wp {A} (p : prog S A) (Q : A → G → Prop) (g : G) : Prop :=
  match p with
  | Ret a => Q a g
  | Act f k => ∀ s F r s', I s (gop g F) → (r, s') ∈ f s →
      ∃ g', I s' (gop g' F) ∧ wp (k r) Q g'
  | Fork c k => ∃ g1 g2, g = gop g1 g2 ∧ wp c fin g1 ∧ wp k Q g2
  | Iter x body k => ∃ J : _ → G → Prop, J x g ∧
      ∀ x g, J x g → wp (body x) (λ r g, match r with
                                         | inl x => J x g
                                         | inr b => wp (k b) Q g
                                         end) g
  end.

Lemma wp_mono {A} (p : prog S A) : ∀ Q Q' g,
  (∀ a g, Q a g → Q' a g) → wp p Q g → wp p Q' g.
Proof.
  induction p as [A a|A R f k IH|A c IHc k IH|A X B x body IHb k IH];
    intros Q Q' g HQ; simpl.
  - apply HQ.
  - intros Hwp s F r s' HI Hr. destruct (Hwp s F r s' HI Hr) as (g' & ? & ?). eauto.
  - intros (g1 & g2 & ? & ? & ?). exists g1, g2. eauto.
  - intros (J & HJ & Hbody). exists J. split; [done|]. intros y h HJy.
    eapply IHb; [|by apply Hbody]. intros [x'|b]; eauto.
Qed.

Lemma wp_bind {A B} (p : prog S A) : ∀ (h : A → prog S B) Q g,
  wp p (λ a g, wp (h a) Q g) g → wp (bind p h) Q g.
Proof.
  induction p as [A a|A R f k IH|A c IHc k IH|A X B' x body IHb k IH];
    intros h Q g; simpl.
  - done.
  - intros Hwp s F r s' HI Hr. destruct (Hwp s F r s' HI Hr) as (g' & ? & ?). eauto.
  - intros (g1 & g2 & ? & ? & ?). exists g1, g2. eauto.
  - intros (J & HJ & Hbody). exists J. split; [done|]. intros y h' HJy.
    eapply wp_mono; [|by apply Hbody]. intros [x'|b]; eauto.
Qed.

(** Tokens that a program does not use stay with the thread. *)
Lemma wp_frame {A} (p : prog S A) : ∀ Q g g0,
  wp p Q g → wp p (λ a g', ∃ h, g' = gop h g0 ∧ Q a h) (gop g g0).
Proof.
  induction p as [A a|A R f k IH|A c IHc k IH|A X B x body IHb k IH];
    intros Q g g0; simpl.
  - eauto.
  - intros Hwp s F r s' HI Hr. rewrite <-gop_assoc in HI.
    destruct (Hwp s _ r s' HI Hr) as (g' & HI' & Hk).
    exists (gop g' g0). rewrite <-gop_assoc. eauto.
  - intros (g1 & g2 & -> & Hc & Hk). exists g1, (gop g2 g0).
    rewrite <-gop_assoc. eauto.
  - intros (J & HJ & Hbody). exists (λ x g', ∃ h, g' = gop h g0 ∧ J x h).
    split; [eauto|]. intros y ? (h & -> & HJh).
    eapply wp_mono; [|exact (IHb y _ h g0 (Hbody y h HJh))].
    intros [x'|b] g' (h' & -> & Hh); [eauto|]. by apply IH.
Qed.

Lemma wp_atomic {R} (f : S → R * S) (Q : R → G → Prop) g :
  (∀ s F, I s (gop g F) → ∃ g', I (f s).2 (gop g' F) ∧ Q (f s).1 g') →
  wp (atomic f) Q g.
Proof.
  intros Hf s F r s' HI Hr. apply list_elem_of_singleton in Hr.
  destruct (Hf s F HI) as (g' & ? & ?). rewrite <-Hr in *. simpl in *. eauto.
Qed.

Lemma wp_atomic_opt {R} (f : S → option (R * S)) (Q : R → G → Prop) g :
  (∀ s F r s', I s (gop g F) → f s = Some (r, s') → ∃ g', I s' (gop g' F) ∧ Q r g') →
  wp (atomic_opt f) Q g.
Proof.
  intros Hf s F r s' HI Hr. destruct (f s) as [[r0 s0]|] eqn:Hs; simpl in Hr;
    [|by apply not_elem_of_nil in Hr].
  apply list_elem_of_singleton in Hr as [= -> ->]. eauto.
Qed.

Lemma wp_fork (c : prog S unit) Q g1 g2 g :
  g = gop g1 g2 → wp c fin g1 → Q tt g2 → wp (fork c) Q g.
Proof. intros ???. exists g1, g2. eauto. Qed.

Lemma wp_fork_nil (c : prog S unit) Q g : wp c fin gnil → Q tt g → wp (fork c) Q g.
Proof. intros ??. exists gnil, g. by rewrite gop_nil_l. Qed.

Lemma wp_when b (p : prog S unit) Q g :
  (b = true → wp p Q g) → (b = false → Q tt g) → wp (when b p) Q g.
Proof. destruct b; simpl; auto. Qed.

Lemma wp_finally {A} (p : prog S A) d Q g :
  wp p (λ a g, wp d (λ _ g, Q a g) g) g → wp (finally p d) Q g.
Proof.
  intros Hp. apply wp_bind. eapply wp_mono; [|exact Hp].
  intros a h Hd. apply wp_bind. eapply wp_mono; [|exact Hd]. done.
Qed.

(** *** Soundness *)

Lemma wp_step {A} (p : prog S A) Q g s F p' s' cs :
  wp p Q g → I s (gop g F) → (p', s', cs) ∈ step p s →
  ∃ g' gcs, I s' (gop g' (gop (gsum gcs) F)) ∧ wp p' Q g' ∧
            Forall2 (λ c gc, wp c fin gc) cs gcs.
Proof.
  destruct p as [a|R f k|c k|X B x body k]; simpl; intros Hwp HI Hin.
  - by apply not_elem_of_nil in Hin.
  - apply list_elem_of_fmap in Hin as ([r s0] & [= -> -> ->] & Hin).
    destruct (Hwp s F r s0 HI Hin) as (g' & ? & ?).
    exists g', []. simpl. rewrite gop_nil_l. eauto.
  - apply list_elem_of_singleton in Hin as [= -> -> ->].
    destruct Hwp as (g1 & g2 & -> & ? & ?). exists g2, [g1]. simpl.
    rewrite gop_nil_r, gop_assoc, (gop_comm g2). eauto.
  - apply list_elem_of_singleton in Hin as [= -> -> ->].
    destruct Hwp as (J & HJ & Hbody). exists g, []. simpl. rewrite gop_nil_l.
    split_and!; [done| |done].
    apply wp_bind. eapply wp_mono; [|by apply Hbody]. intros [x'|b] h; simpl; eauto.
Qed.

(** A program run alone keeps the invariant: it ends with the tokens that [Q]
    asks for, those of the threads it spawned apart. *)
Lemma wp_eval {A} n (p : prog S A) : ∀ (Q : A → G → Prop) g s F a s' cs,
  wp p Q g → I s (gop g F) → eval n p s = Some (a, s', cs) →
  ∃ g' gcs, I s' (gop g' (gop (gsum gcs) F)) ∧ Q a g' ∧ Forall2 (λ c gc, wp c fin gc) cs gcs.
Proof.
  induction p as [A a0|A R f k IH|A c IHc k IH|A X B x body IHb k IH];
    intros Q g s F a s' cs; cbn [eval wp].
  - intros HQ HI [= <- <- <-]. exists g, []. simpl. by rewrite gop_nil_l.
  - intros Hwp HI He. destruct (f s) as [|[r s1] l] eqn:Hf; [done|].
    destruct (Hwp s F r s1 HI) as (g' & HI' & Hk); [rewrite Hf; by left|]. eapply IH; eauto.
  - intros (g1 & g2 & -> & Hc & Hk) HI He.
    destruct (eval n k s) as [[[a1 s1] cs1]|] eqn:Hev; [|done]. injection He as <- <- <-.
    rewrite <-gop_assoc, gop_comm, <-gop_assoc in HI.
    destruct (IH _ _ _ _ _ _ _ Hk HI Hev) as (g' & gcs & HI' & HQ & Hcs).
    exists g', (g1 :: gcs). simpl. split_and!; [|done|by constructor].
    rewrite (gop_comm F g1) in HI'. by rewrite (gop_comm g1), <-gop_assoc.
  - intros (J & HJ & Hbody). revert g x HJ s F a s' cs. generalize n at 3 as m.
    induction m as [|m IHm]; intros g x0 HJ s F a s' cs HI He; [done|]. cbn [eval_loop] in He.
    destruct (eval n (body x0) s) as [[[[x1|b] s1] cs1]|] eqn:Hev; [| |done].
    + destruct (eval_loop _ _ m x1 s1) as [[[a2 s2] cs2]|] eqn:Hl; [|done]. injection He as <- <- <-.
      destruct (IHb _ _ _ _ _ _ _ _ (Hbody x0 g HJ) HI Hev) as (g' & gcs & HI' & HJ' & Hcs).
      destruct (IHm _ _ HJ' _ _ _ _ _ HI' Hl) as (g2 & gcs2 & HI2 & HQ & Hcs2).
      exists g2, (gcs ++ gcs2). split_and!; [|done|by apply Forall2_app].
      rewrite gsum_app, (gop_comm (gsum gcs)). by rewrite <-gop_assoc.
    + destruct (eval n (k b) s1) as [[[a2 s2] cs2]|] eqn:Hl; [|done]. injection He as <- <- <-.
      destruct (IHb _ _ _ _ _ _ _ _ (Hbody x0 g HJ) HI Hev) as (g' & gcs & HI' & HJ' & Hcs).
      destruct (IH _ _ _ _ _ _ _ _ HJ' HI' Hl) as (g2 & gcs2 & HI2 & HQ & Hcs2).
      exists g2, (gcs ++ gcs2). split_and!; [|done|by apply Forall2_app].
      rewrite gsum_app, (gop_comm (gsum gcs)). by rewrite <-gop_assoc.
Qed.

Definition pool_ok (c : pool) : Prop :=
  ∃ gs, Forall2 (λ p g, wp p fin g) c.1 gs ∧ I c.2 (gsum gs).

Variable env : S → S → Prop.
Hypothesis env_ok : ∀ s s' g, env s s' → I s g → I s' g.

Lemma pool_ok_step c c' : pool_ok c → pool_step env c c' → pool_ok c'.
Proof using env_ok.
  intros (gs & Hps & HI) Hstep. destruct Hstep as [ps1 p ps2 s p' s' cs Hin|ps s s' Henv].
  - simpl in *. apply Forall2_app_inv_l in Hps as (gs1 & gs2' & H1 & H2 & ->).
    apply Forall2_cons_inv_l in H2 as (g & gs2 & Hp & H2 & ->).
    rewrite gsum_middle in HI.
    destruct (wp_step _ _ _ _ _ _ _ _ Hp HI Hin) as (g' & gcs & HI' & Hp' & Hcs).
    exists (gs1 ++ g' :: gs2 ++ gcs). split.
    + simpl. apply Forall2_app; [done|]. constructor; [done|]. by apply Forall2_app.
    + simpl. rewrite gsum_middle, gsum_app.
      rewrite (gop_comm (gsum gcs)), <-gop_assoc in HI'. done.
  - exists gs. split; [done|]. simpl in *. eauto.
Qed.

Lemma pool_ok_steps c c' : rtc (pool_step env) c c' → pool_ok c → pool_ok c'.
Proof using env_ok. induction 1; eauto using pool_ok_step. Qed.

(** The invariant holds in every state that an interleaving reaches. *)
Theorem pool_invariant ps s ps' s' gs :
  Forall2 (λ p g, wp p fin g) ps gs → I s (gsum gs) →
  rtc (pool_step env) (ps, s) (ps', s') → ∃ g, I s' g.
Proof using env_ok.
  intros Hps HI Hsteps.
  destruct (pool_ok_steps _ _ Hsteps) as (gs' & _ & HI'); [by exists gs|]. eauto.
Qed.

(** When all threads have finished, no token is held. *)
Theorem pool_quiescent ps s ps' s' gs :
  Forall2 (λ p g, wp p fin g) ps gs → I s (gsum gs) →
  rtc (pool_step env) (ps, s) (ps', s') → forallb finished ps' = true → I s' gnil.
Proof using env_ok.
  intros Hps HI Hsteps Hfin.
  destruct (pool_ok_steps _ _ Hsteps) as (gs' & Hps' & HI'); [by exists gs|].
  simpl in *. rewrite gsum_nil in HI'; [done|].
  clear -Hps' Hfin. induction Hps' as [|p g ps gs Hp _ IH]; [constructor|].
  simpl in Hfin. apply andb_prop in Hfin as [Hp' Hfin].
  constructor; [|by apply IH]. by destruct p as [[]| | |].
Qed.
End wp.

(** Tokens that are never given back do not get in the way of the others. *)
Lemma wp_withheld {S G} `{Ghost G} (I : S → G → Prop) (g0 : G) {A} (p : prog S A) : ∀ Q g,
  wp I p Q g → wp (λ s h, I s (gop g0 h)) p Q g.
Proof.
  induction p as [A a|A R f k IH|A c IHc k IH|A X B x body IHb k IH]; intros Q g; cbn [wp].
  - done.
  - intros Hwp s F r s' HI Hr. rewrite gop_assoc, (gop_comm g0), <-gop_assoc in HI.
    destruct (Hwp s _ r s' HI Hr) as (g' & HI' & Hk). exists g'.
    rewrite gop_assoc, (gop_comm g0), <-gop_assoc. eauto.
  - intros (g1 & g2 & -> & Hc & Hk). exists g1, g2. eauto.
  - intros (J & HJ & Hbody). exists J. split; [done|]. intros y h HJy.
    apply IHb. eapply wp_mono; [|by apply Hbody]. intros [x'|b]; eauto.
Qed.

(** ** Programs whose every step stays within a relation *)

Section within.
Context {S : Type}.
Variable Rel : S → S → Prop.

Fixpoint within {A} (p : prog S A) : Prop :=
  match p with
  | Ret _ => True
  | Act f k => (∀ s r s', (r, s') ∈ f s → Rel s s') ∧ ∀ r, within (k r)
  | Fork c k => within c ∧ within k
  | Iter _ body k => (∀ x, within (body x)) ∧ ∀ b, within (k b)
  end.

Lemma within_ret {A} (a : A) : within (Ret a).
Proof. done. Qed.

Lemma within_bind {A B} (p : prog S A) (h : A → prog S B) :
  within p → (∀ a, within (h a)) → within (bind p h).
Proof.
  induction p as [A a|A R f k IH|A c IHc k IH|A X B' x body IHb k IH]; simpl;
    naive_solver.
Qed.

Lemma within_finally {A} (p : prog S A) d : within p → within d → within (finally p d).
Proof. intros. apply within_bind; [done|]. intros a. by apply within_bind. Qed.

Lemma within_when b (p : prog S unit) : within p → within (when b p).
Proof. by destruct b. Qed.

Lemma within_fork (c : prog S unit) : within c → within (fork c).
Proof. by split. Qed.

Lemma within_act {R} (f : S → list (R * S)) :
  (∀ s r s', (r, s') ∈ f s → Rel s s') → within (Act f Ret).
Proof. by split. Qed.

Lemma within_atomic {R} (f : S → R * S) : (∀ s, Rel s (f s).2) → within (atomic f).
Proof.
  intros Hf. apply within_act. intros s r s' Hr%list_elem_of_singleton.
  generalize (Hf s). by rewrite <-Hr.
Qed.

Lemma within_atomic_opt {R} (f : S → option (R * S)) :
  (∀ s r s', f s = Some (r, s') → Rel s s') → within (atomic_opt f).
Proof.
  intros Hf. apply within_act. intros s r s'.
  destruct (f s) as [[r0 s0]|] eqn:Hs; simpl; [|by intros ?%not_elem_of_nil].
  intros [= -> ->]%list_elem_of_singleton. eauto.
Qed.

Lemma within_looped {X B} (x : X) (body : X → prog S (X + B)) :
  (∀ x, within (body x)) → within (looped x body).
Proof. by split. Qed.

(** A step of a thread stays within the relation, and so do its successors. *)
Lemma within_step {A} (p : prog S A) s p' s' cs :
  within p → (p', s', cs) ∈ step p s →
  (Rel s s' ∨ s' = s) ∧ within p' ∧ Forall within cs.
Proof.
  destruct p as [a|R f k|c k|X B x body k]; simpl; intros Hp Hin.
  - by apply not_elem_of_nil in Hin.
  - apply list_elem_of_fmap in Hin as ([r s0] & [= -> -> ->] & Hin).
    destruct Hp as [Hf Hk]. split_and!; [left; by eapply Hf|apply Hk|done].
  - apply list_elem_of_singleton in Hin as [= -> -> ->]. destruct Hp.
    split_and!; eauto.
  - apply list_elem_of_singleton in Hin as [= -> -> ->]. destruct Hp as [Hb Hk].
    split_and!; [by right| |done]. apply within_bind; [apply Hb|]. by intros [x'|b].
Qed.

Context `{!Reflexive Rel, !Transitive Rel}.

(** So does a program run alone, whatever it spawns. *)
Lemma within_eval {A} n (p : prog S A) : ∀ s a s' cs,
  within p → eval n p s = Some (a, s', cs) → Rel s s' ∧ Forall within cs.
Proof using All.
  induction p as [A a0|A R f k IH|A c IHc k IH|A X B x body IHb k IH];
    intros s a s' cs; cbn [eval within].
  - intros _ [= <- <- <-]. done.
  - intros [Hf Hk] He. destruct (f s) as [|[r s1] l] eqn:Hfs; [done|].
    destruct (IH _ _ _ _ _ (Hk r) He) as [HR Hcs]. split; [|done]. etrans; [|exact HR].
    eapply Hf. rewrite Hfs. by left.
  - intros [Hc Hk] He. destruct (eval n k s) as [[[a1 s1] cs1]|] eqn:Hev; [|done].
    injection He as <- <- <-. destruct (IH _ _ _ _ Hk Hev). split; [done|]. by constructor.
  - intros [Hb Hk]. revert x s a s' cs. generalize n at 3 as m.
    induction m as [|m IHm]; intros x0 s a s' cs He; [done|]. cbn [eval_loop] in He.
    destruct (eval n (body x0) s) as [[[[x1|b] s1] cs1]|] eqn:Hev; [| |done].
    + destruct (eval_loop _ _ m x1 s1) as [[[a2 s2] cs2]|] eqn:Hl; [|done]. injection He as <- <- <-.
      destruct (IHb _ _ _ _ _ (Hb x0) Hev), (IHm _ _ _ _ _ Hl).
      split; [by etrans|by apply Forall_app].
    + destruct (eval n (k b) s1) as [[[a2 s2] cs2]|] eqn:Hl; [|done]. injection He as <- <- <-.
      destruct (IHb _ _ _ _ _ (Hb x0) Hev), (IH _ _ _ _ _ (Hk b) Hl).
      split; [by etrans|by apply Forall_app].
Qed.
Variable env : S → S → Prop.
Hypothesis env_within : ∀ s s', env s s' → Rel s s'.

(** What every step of every thread respects, every interleaving respects. *)
Theorem pool_within c c' :
  Forall within c.1 → rtc (pool_step env) c c' → Rel c.2 c'.2 ∧ Forall within c'.1.
Proof using All.
  intros Hc Hsteps. induction Hsteps as [c|c1 c2 c3 Hstep _ IH]; [by split|].
  enough (Rel c1.2 c2.2 ∧ Forall within c2.1) as [H12 H2].
  { destruct (IH H2) as [H23 H3]. split; [by etrans|done]. }
  destruct Hstep as [ps1 p ps2 s p' s' cs Hin|ps s s' Henv]; simpl in *; [|eauto].
  apply Forall_app in Hc as [H1 [Hp H2]%Forall_cons].
  destruct (within_step _ _ _ _ _ Hp Hin) as (HR & Hp' & Hcs).
  split; [destruct HR as [?| ->]; [done|reflexivity]|].
  apply Forall_app; split; [done|]. apply Forall_cons; split; [done|].
  apply Forall_app; by split.
Qed.
End within.

(** Programs that leave a part of the state alone. *)
Section frames.
Context {S T : Type}.
Variable proj : S → T.
Definition same (s s' : S) : Prop := proj s' = proj s.

#[export] Instance same_refl : Reflexive same.
Proof. done. Qed.
#[export] Instance same_trans : Transitive same.
Proof. intros s1 s2 s3 H12 H23. unfold same in *. congruence. Qed.

Context {G : Type} `{Ghost G}.
Variable J : T → G → Prop.

(** An invariant on the part left alone costs nothing. *)
Lemma wp_frames {A} (p : prog S A) : ∀ (Q : A → G → Prop) g,
  within same p → (∀ a, Q a g) → wp (λ s, J (proj s)) p Q g.
Proof.
  induction p as [A a|A R f k IH|A c IHc k IH|A X B x body IHb k IH];
    intros Q g; simpl.
  - eauto.
  - intros [Hf Hk] HQ s F r s' HI Hr. exists g. rewrite (Hf s r s' Hr). eauto.
  - intros [Hc Hk] HQ. exists gnil, g. rewrite gop_nil_l.
    split_and!; [done| |by apply IH]. apply IHc; [done|]. by intros [].
  - intros [Hb Hk] HQ. exists (λ _ h, h = g). split; [done|]. intros y h ->.
    apply IHb; [done|]. intros [x'|b]; [done|]. by apply IH.
Qed.
End frames.
Abbreviation frames proj p := (within (same proj) p).

(** ** Automation *)

Create HintDb within.

(** What an outcome of a step can be. *)
Ltac outcome :=
  repeat match goal with
  | H : _ ∈ [] |- _ => by apply not_elem_of_nil in H
  | H : _ ∈ option_list ?x |- _ => destruct x eqn:?; simpl in H
  | H : _ ∈ [_] |- _ => apply list_elem_of_singleton in H
  | H : _ ∈ _ ++ _ |- _ => apply elem_of_app in H as [H|H]
  | H : _ ∈ _ <$> _ |- _ => apply list_elem_of_fmap in H as (? & ? & H)
  | H : Some _ = Some _ |- _ => injection H as H
  | H : (_, _) = (_, _) |- _ => injection H as ? ?; try subst
  | H : None = Some _ |- _ => discriminate H
  | H : _ ∈ (if ?b then _ else _) |- _ => destruct b eqn:?
  | H : _ ∈ match ?x with _ => _ end |- _ => destruct x eqn:?
  | H : (if ?b then _ else _) = Some _ |- _ => destruct b eqn:?
  | H : match ?x with _ => _ end = Some _ |- _ => destruct x eqn:?
  | H : mbind _ _ = Some _ |- _ => apply bind_Some in H as (? & ? & H)
  | p : (_ * _)%type |- _ => destruct p
  end; simplify_eq/=.

Ltac head_of t := lazymatch t with ?f _ => head_of f | _ => t end.

Ltac within_leaf :=
  first [ apply within_atomic; intros ?; simpl
        | apply within_atomic_opt; intros ? ? ? ?; outcome; simplify_eq/=
        | apply within_act; intros ? ? ? ?; outcome; simplify_eq/= ].

(** Decompose [within Rel p] along the structure of [p], unfolding definitions
    that have no hint; leaves are the atomic steps. *)
Ltac within_go :=
  repeat first
    [ progress intros
    | solve [eauto 1 with within nocore]
    | match goal with
      | |- within _ (Ret _) => exact I
      | |- within _ (bind _ _) => apply within_bind
      | |- within _ (finally _ _) => apply within_finally
      | |- within _ (when _ _) => apply within_when
      | |- within _ (fork _) => apply within_fork
      | |- within _ (looped _ _) => apply within_looped
      | |- within _ (if ?b then _ else _) => destruct b
      | |- within _ (match ?x with _ => _ end) => destruct x
      | |- within _ (atomic _) => fail 1
      | |- within _ (atomic_opt _) => fail 1
      | |- within _ (Act _ _) => fail 1
      | |- within _ ?p => let h := head_of p in progress unfold h
      end ];
  try match goal with |- within _ _ => within_leaf end.

(** Close the leaves of [within_go] by case analysis on the step. *)
Ltac by_cases := repeat case_match; simplify_eq/=; try done.
Ltac within_solve := within_go; unfold same; by_cases; try solve [eauto 2 with within nocore].

(** Execute a sequence step by step. *)
Create Rewrite HintDb eval.
#[export] Hint Rewrite @eval_bind @and_then_nil @eval_ret @eval_atomic @eval_read @eval_modify
  @eval_fork : eval.

(** *** Steps of [wp]

    [wp_go] walks through a program; [wp_leaf] closes the steps that leave the
    invariant's part of the state alone. *)
Create HintDb wp.

Ltac wp_skip := apply wp_frames; [by within_solve|intros].

Ltac wp_go :=
  repeat first
    [ match goal with
      | |- wp _ (Ret _) _ _ => simpl
      | |- wp _ (bind _ _) _ _ => apply wp_bind
      | |- wp _ (finally _ _) _ _ => apply wp_finally
      | |- wp _ (when _ _) _ _ => apply wp_when; intros
      | |- wp _ (if ?b then _ else _) _ _ => destruct b eqn:?
      | |- wp _ (match ?x with _ => _ end) _ _ => destruct x eqn:?
      end
    | wp_skip ].

(** Skip the rest of a sequence of steps that leave the invariant alone. *)
Ltac wp_skips :=
  repeat first [ assumption | discriminate | progress cbn beta
               | apply wp_when; intros | apply wp_bind | wp_skip ].
