(* ===== verification/Std.v ===== *)
(** The parts of the Rust standard library that the crate computes with:
    socket addresses (parser and [Display] of [core::net]), lossy UTF-8
    decoding, and Unix path components.  Strings are their UTF-8 bytes. *)
From Stdlib Require Import Ascii String.
From S2P Require Import Prelude.
From stdpp Require Import list options.
Local Open Scope Z_scope.

Abbreviation bytes := (list ascii).

Definition byte_val (c : ascii) : Z := Z.of_N (N_of_ascii c).
Definition byte_of (z : Z) : ascii := ascii_of_N (Z.to_N z).
Definition as_bytes (s : string) : bytes := list_ascii_of_string s.
Definition of_bytes (b : bytes) : string := string_of_list_ascii b.
(** [str::len] counts bytes. *)
Definition str_len (s : string) : Z := Z.of_nat (String.length s).
Definition blen (b : bytes) : Z := Z.of_nat (List.length b).
Definition is_empty_str (s : string) : bool := match s with EmptyString => true | _ => false end.
Definition has_byte (n : Z) (s : string) : bool := existsb (λ c, byte_val c =? n) (as_bytes s).

Lemma as_bytes_of_bytes b : as_bytes (of_bytes b) = b.
Proof. apply list_ascii_of_string_of_list_ascii. Qed.
Lemma of_bytes_as_bytes s : of_bytes (as_bytes s) = s.
Proof. apply string_of_list_ascii_of_string. Qed.
#[export] Hint Rewrite as_bytes_of_bytes of_bytes_as_bytes : iroh.

(** ** Socket addresses *)

Inductive SocketAddr : Type :=
  | V4 (octets : Z * Z * Z * Z) (port : Z)
  | V6 (segments : list Z) (port : Z) (scope_id : Z).

#[export] Instance SocketAddr_eq_dec : EqDecision SocketAddr.
Proof. solve_decision. Defined.

Definition is_ipv4 (a : SocketAddr) : bool := match a with V4 _ _ => true | V6 _ _ _ => false end.

Module Parser.
(** A parser consumes a prefix of the input or fails without consuming. *)
Definition parser (A : Type) : Type := bytes → option (A * bytes).

Definition read_given_char (c : ascii) : parser unit := λ i,
  match i with
  | d :: i' => if Ascii.eqb c d then Some (tt, i') else None
  | [] => None
  end.

Definition to_digit (radix : Z) (c : ascii) : option Z :=
  let v := byte_val c in
  let d := if (48 <=? v) && (v <=? 57) then v - 48
           else if (97 <=? v) && (v <=? 122) then v - 87
           else if (65 <=? v) && (v <=? 90) then v - 55
           else 99 in
  if d <? radix then Some d else None.

(** The digits read, their number and the value, stopping at a non-digit. *)
Fixpoint digits (radix : Z) (acc : Z) (n : nat) (i : bytes) : Z * nat * bytes :=
  match i with
  | c :: i' =>
      match to_digit radix c with
      | Some d => digits radix (acc * radix + d) (S n) i'
      | None => (acc, n, i)
      end
  | [] => (acc, n, [])
  end.

(** [read_number]: at most [max_digits] digits when given, value at most [max]. *)
Definition read_number (radix : Z) (max_digits : option nat) (allow_zero_prefix : bool)
    (max : Z) : parser Z := λ i,
  let leading_zero := match i with c :: _ => byte_val c =? 48 | [] => false end in
  let '(v, n, rest) := digits radix 0 0 i in
  let too_long := match max_digits with Some m => (m <? n)%nat | None => false end in
  if too_long || (n =? 0)%nat || (negb allow_zero_prefix && leading_zero && (1 <? n)%nat)
     || (max <? v)
  then None else Some (v, rest).

Definition pbind {A B} (p : parser A) (f : A → parser B) : parser B := λ i,
  match p i with Some (a, i') => f a i' | None => None end.
Definition pret {A} (a : A) : parser A := λ i, Some (a, i).
Notation "'let*' x := p 'in' k" := (pbind p (λ x, k))
  (at level 10, x name, p at level 200, k at level 200).

Definition read_separator {A} (sep : ascii) (index : nat) (inner : parser A) : parser A :=
  if (0 <? index)%nat then let* _ := read_given_char sep in inner else inner.

Definition read_octet (i : nat) : parser Z :=
  read_separator "."%char i (read_number 10 (Some 3%nat) false 255).

Definition read_ipv4_addr : parser (Z * Z * Z * Z) :=
  let* a := read_octet 0 in let* b := read_octet 1 in
  let* c := read_octet 2 in let* d := read_octet 3 in pret (a, b, c, d).

(** [read_groups]: [left] groups may still be read at index [idx]. *)
Fixpoint read_groups (left idx : nat) (i : bytes) : list Z * bool * bytes :=
  match left with
  | O => ([], false, i)
  | S left' =>
      let hex :=
        match read_separator ":"%char idx (read_number 16 (Some 4%nat) true 65535) i with
        | Some (g, i') =>
            let '(gs, v4, i'') := read_groups left' (S idx) i' in (g :: gs, v4, i'')
        | None => ([], false, i)
        end in
      if (0 <? left')%nat then
        match read_separator ":"%char idx read_ipv4_addr i with
        | Some ((a, b, c, d), i') => ([a * 256 + b; c * 256 + d], true, i')
        | None => hex
        end
      else hex
  end.

Definition read_ipv6_addr : parser (list Z) := λ i,
  let '(head, head_ipv4, i1) := read_groups 8 0 i in
  if (List.length head =? 8)%nat then Some (head, i1)
  else if head_ipv4 then None
  else match (let* _ := read_given_char ":"%char in read_given_char ":"%char) i1 with
       | Some (_, i2) =>
           let '(tail, _, i3) := read_groups (7 - List.length head) 0 i2 in
           Some (head ++ replicate (8 - List.length head - List.length tail) 0 ++ tail, i3)
       | None => None
       end.

Definition read_port : parser Z :=
  let* _ := read_given_char ":"%char in read_number 10 None true 65535.

Definition read_scope_id : parser Z := λ i,
  match (let* _ := read_given_char "%"%char in read_number 10 None true 4294967295) i with
  | Some r => Some r
  | None => Some (0, i)
  end.

Definition read_socket_addr_v4 : parser SocketAddr :=
  let* ip := read_ipv4_addr in let* port := read_port in pret (V4 ip port).

Definition read_socket_addr_v6 : parser SocketAddr :=
  let* _ := read_given_char "["%char in
  let* ip := read_ipv6_addr in
  let* scope := read_scope_id in
  let* _ := read_given_char "]"%char in
  let* port := read_port in pret (V6 ip port scope).

(** [SocketAddr::from_str]: the whole input must be consumed. *)
Definition socket_addr_from_str (s : string) : option SocketAddr :=
  let r := match read_socket_addr_v4 (as_bytes s) with
           | Some r => Some r
           | None => read_socket_addr_v6 (as_bytes s)
           end in
  match r with Some (a, []) => Some a | _ => None end.
End Parser.
Abbreviation socket_addr_from_str := Parser.socket_addr_from_str.

Example parse_v4 : socket_addr_from_str "127.0.0.1:80" = Some (V4 (127, 0, 0, 1) 80).
Proof. reflexivity. Qed.
Example parse_v4_zero : socket_addr_from_str "127.0.0.01:80" = None.
Proof. reflexivity. Qed.
Example parse_v6 :
  socket_addr_from_str "[2001:db8::10]:443" = Some (V6 [8193; 3512; 0; 0; 0; 0; 0; 16] 443 0).
Proof. reflexivity. Qed.
Example parse_v6_mapped :
  socket_addr_from_str "[::ffff:1.2.3.4%7]:1" = Some (V6 [0; 0; 0; 0; 0; 65535; 258; 772] 1 7).
Proof. reflexivity. Qed.

Module Display.
Definition digit (d : Z) : ascii := byte_of (if d <? 10 then 48 + d else 87 + d).

(** Digits of [z], most significant first; [fuel] bounds their number. *)
Fixpoint number (fuel : nat) (radix z : Z) (acc : bytes) : bytes :=
  match fuel with
  | O => acc
  | S fuel =>
      let acc := digit (z `mod` radix) :: acc in
      if z <? radix then acc else number fuel radix (z / radix) acc
  end.

Definition dec (z : Z) : string := of_bytes (number 20 10 z []).
Definition hex (z : Z) : string := of_bytes (number 16 16 z []).

Definition ipv4 (o : Z * Z * Z * Z) : string :=
  let '(a, b, c, d) := o in
  (dec a ++ "." ++ dec b ++ "." ++ dec c ++ "." ++ dec d)%string.

Definition groups (l : list Z) : string := String.concat ":" (hex <$> l).

(** The first longest run of zero segments: its start and length. *)
Fixpoint longest_zero_run (l : list Z) (i cur_start cur_len best_start best_len : nat)
    : nat * nat :=
  match l with
  | [] => (best_start, best_len)
  | z :: l =>
      if z =? 0 then
        let cur_start := if (cur_len =? 0)%nat then i else cur_start in
        let cur_len := S cur_len in
        if (best_len <? cur_len)%nat then longest_zero_run l (S i) cur_start cur_len cur_start cur_len
        else longest_zero_run l (S i) cur_start cur_len best_start best_len
      else longest_zero_run l (S i) 0 0 best_start best_len
  end.

Definition ipv6 (l : list Z) : string :=
  match l with
  | [0; 0; 0; 0; 0; 65535; h; w] =>
      ("::ffff:" ++ ipv4 (h / 256, h `mod` 256, w / 256, w `mod` 256))%string
  | _ =>
      let '(start, len) := longest_zero_run l 0 0 0 0 0 in
      if (1 <? len)%nat
      then (groups (take start l) ++ "::" ++ groups (drop (start + len) l))%string
      else groups l
  end.

Definition socket_addr_to_string (a : SocketAddr) : string :=
  match a with
  | V4 o port => (ipv4 o ++ ":" ++ dec port)%string
  | V6 l port scope =>
      if scope =? 0 then ("[" ++ ipv6 l ++ "]:" ++ dec port)%string
      else ("[" ++ ipv6 l ++ "%" ++ dec scope ++ "]:" ++ dec port)%string
  end.
End Display.
Abbreviation socket_addr_to_string := Display.socket_addr_to_string.

Example print_v6 :
  socket_addr_to_string (V6 [8193; 3512; 0; 0; 0; 0; 0; 16] 443 0) = "[2001:db8::10]:443"%string.
Proof. reflexivity. Qed.
Example print_v6_unspecified :
  socket_addr_to_string (V6 [0; 0; 0; 0; 0; 0; 0; 0] 0 0) = "[::]:0"%string.
Proof. reflexivity. Qed.

(** ** [String::from_utf8_lossy] *)

Definition in_range (lo hi : Z) (c : ascii) : bool := (lo <=? byte_val c) && (byte_val c <=? hi).
Definition replacement : bytes := [byte_of 239; byte_of 191; byte_of 189].

(** The range of the second byte of a sequence of 3 or 4 bytes. *)
Definition second_ok (b0 c : ascii) : bool :=
  let v := byte_val b0 in
  if v =? 224 then in_range 160 191 c
  else if v =? 237 then in_range 128 159 c
  else if v =? 240 then in_range 144 191 c
  else if v =? 244 then in_range 128 143 c
  else in_range 128 191 c.

Fixpoint utf8_lossy (b : bytes) : bytes :=
  match b with
  | [] => []
  | b0 :: r0 =>
      if in_range 0 127 b0 then b0 :: utf8_lossy r0
      else if in_range 194 223 b0 then
        match r0 with
        | b1 :: r1 => if in_range 128 191 b1 then b0 :: b1 :: utf8_lossy r1
                      else replacement ++ utf8_lossy r0
        | [] => replacement
        end
      else if in_range 224 239 b0 then
        match r0 with
        | b1 :: r1 =>
            if second_ok b0 b1 then
              match r1 with
              | b2 :: r2 => if in_range 128 191 b2 then b0 :: b1 :: b2 :: utf8_lossy r2
                            else replacement ++ utf8_lossy r1
              | [] => replacement
              end
            else replacement ++ utf8_lossy r0
        | [] => replacement
        end
      else if in_range 240 244 b0 then
        match r0 with
        | b1 :: r1 =>
            if second_ok b0 b1 then
              match r1 with
              | b2 :: r2 =>
                  if in_range 128 191 b2 then
                    match r2 with
                    | b3 :: r3 =>
                        if in_range 128 191 b3 then b0 :: b1 :: b2 :: b3 :: utf8_lossy r3
                        else replacement ++ utf8_lossy r2
                    | [] => replacement
                    end
                  else replacement ++ utf8_lossy r1
              | [] => replacement
              end
            else replacement ++ utf8_lossy r0
        | [] => replacement
        end
      else replacement ++ utf8_lossy r0
  end.

Definition from_utf8_lossy (b : bytes) : string := of_bytes (utf8_lossy b).

(** ** [std::path::Path] on Unix *)

Inductive component : Type :=
  | RootDir
  | CurDir
  | ParentDir
  | Normal (name : string).

#[export] Instance component_eq_dec : EqDecision component.
Proof. solve_decision. Defined.
#[export] Instance component_countable : Countable component.
Proof.
  refine (inj_countable'
    (λ c, match c with RootDir => inl 0 | CurDir => inl 1 | ParentDir => inl 2 | Normal n => inr n end)
    (λ x : Z + string,
       match x with inl 0 => RootDir | inl 1 => CurDir | inl _ => ParentDir | inr n => Normal n end) _).
  by intros [].
Defined.

(** A path is its normalized list of components, as [Path::components] gives it. *)
Abbreviation path := (list component).

Fixpoint split_slash (acc : bytes) (b : bytes) : list bytes :=
  match b with
  | [] => [reverse acc]
  | c :: b => if byte_val c =? 47 then reverse acc :: split_slash [] b else split_slash (c :: acc) b
  end.

(** A [.] is kept only as the first component of a relative path. *)
Fixpoint components_of (first : bool) (l : list bytes) : path :=
  match l with
  | [] => []
  | p :: l =>
      let s := of_bytes p in
      if bool_decide (s = ""%string) then components_of false l
      else if bool_decide (s = "."%string) then
        (if first then [CurDir] else []) ++ components_of false l
      else if bool_decide (s = ".."%string) then ParentDir :: components_of false l
      else Normal s :: components_of false l
  end.

Definition path_of_string (s : string) : path :=
  match as_bytes s with
  | c :: r => if byte_val c =? 47 then RootDir :: components_of false (split_slash [] r)
              else components_of true (split_slash [] (c :: r))
  | [] => []
  end.

Definition path_parent (p : path) : option path :=
  match last p with
  | Some RootDir | None => None
  | Some _ => Some (removelast p)
  end.

Definition path_file_name (p : path) : option string :=
  match last p with Some (Normal n) => Some n | _ => None end.

Definition path_join (p : path) (name : string) : path := p ++ [Normal name].

Example path_abs : path_of_string "/data//./api.iroh" = [RootDir; Normal "data"; Normal "api.iroh"].
Proof. reflexivity. Qed.
Example path_rel : path_of_string "./x/../id" = [CurDir; Normal "x"; ParentDir; Normal "id"].
Proof. reflexivity. Qed.

(** ** [std::fs]: directory entries that name inodes *)

Inductive node : Type :=
  | Dir
  | File (inode : nat).

Record fs : Type := Fs {
  fs_nodes : gmap path node;
  fs_inodes : gmap nat bytes;
  fs_next_inode : nat;
}.

(** The contents of a regular file. *)
Definition fs_file (f : fs) (p : path) : option bytes :=
  match fs_nodes f !! p with
  | Some (File i) => fs_inodes f !! i
  | _ => None
  end.

(** ** [std::sync::Mutex] *)

Record mutex (A : Type) : Type := Mutex { poisoned : bool; content : A }.
Arguments Mutex {A} _ _.
Arguments poisoned {A} _.
Arguments content {A} _.
