(* ===== verification/Extern.v ===== *)
(** The code that is not part of the repository: [iroh], [iroh-tickets],
    [rustler] with the BEAM behind it, and the operating system.

    Every type and function here is a parameter of the development.  What the
    outside world does is a state [ext] that each call may change; the
    interleavings of [System.v] let it change arbitrarily between two steps.
    An asynchronous call is a poll: the outcomes it may have now, none while it
    is pending, [None] for a panic inside the external code. *)
From S2P Require Import Prelude Std.
From stdpp Require Import list options.
Local Open Scope Z_scope.

(** Erlang process identifiers and terms that the crate only passes on. *)
Definition pid : Type := nat.
Definition term : Type := nat.

Inductive transport_addr (Url : Type) : Type :=
  | Relay (url : Url)
  | Ip (addr : SocketAddr)
  | OtherAddr (text : string).
Arguments Relay {Url} _.
Arguments Ip {Url} _.
Arguments OtherAddr {Url} _.

(** Keys, addresses and tickets: pure functions of [iroh] and [iroh-tickets]. *)
Class IdentityApi := {
  SecretKey : Type;
  EndpointId : Type;
  RelayUrl : Type;
  EndpointAddr : Type;
  EndpointTicket : Type;
  RelayMap : Type;
  secret_from_bytes : bytes → SecretKey;
  secret_to_bytes : SecretKey → bytes;
  secret_public : SecretKey → EndpointId;
  id_from_bytes_ext : bytes → option EndpointId;
  id_as_bytes : EndpointId → bytes;
  id_from_str : string → option EndpointId;
  id_to_string : EndpointId → string;
  url_from_str : string → option RelayUrl;
  url_to_string : RelayUrl → string;
  url_scheme : RelayUrl → string;
  url_host_str : RelayUrl → option string;
  url_username : RelayUrl → string;
  url_password : RelayUrl → option string;
  url_query : RelayUrl → option string;
  url_fragment : RelayUrl → option string;
  (** [RelayMap::from_iter] of configurations, each with its optional token *)
  relay_map_from_iter : list (RelayUrl * option string) → RelayMap;
  addr_from_parts : EndpointId → list (transport_addr RelayUrl) → EndpointAddr;
  addr_id : EndpointAddr → EndpointId;
  addr_relay_urls : EndpointAddr → list RelayUrl;
  addr_ip_addrs : EndpointAddr → list SocketAddr;
  addr_is_empty : EndpointAddr → bool;
  ticket_new : EndpointAddr → EndpointTicket;
  ticket_endpoint_addr : EndpointTicket → EndpointAddr;
  ticket_to_string : EndpointTicket → string;
  ticket_from_str : string → option EndpointTicket;
  ticket_encode_bytes : EndpointTicket → bytes;
  ticket_decode_bytes : bytes → option EndpointTicket;
}.

(** The presets and the calls made on an [iroh] endpoint builder, in order. *)
Inductive preset : Type := N0Preset | MinimalPreset | N0DisableRelayPreset.

(** [RelayConfig::from(url)], then [with_auth_token]. *)
Definition relay_config `{IdentityApi} : Type := RelayUrl * option string.
Definition RelayConfig `{IdentityApi} (url : RelayUrl) (token : option string) : relay_config := (url, token).

Inductive builder_call `{IdentityApi} : Type :=
  | relay_mode_disabled
  | relay_mode_custom (relays : RelayMap)
  | clear_address_lookup
  | with_secret_key (key : SecretKey)
  | with_alpns (alpns : list bytes)
  | clear_ip_transports
  | bind_addr (addr : SocketAddr).

Record builder `{IdentityApi} : Type := Builder {
  b_preset : preset;
  b_calls : list builder_call;
}.

Arguments Builder {_} _ _.

Record path_value `{IdentityApi} : Type := PathValue {
  is_selected : bool;
  is_ip : bool;
  is_relay : bool;
  remote_addr : transport_addr RelayUrl;
  rtt_micros : Z;
}.

Arguments PathValue {_} _ _ _ _ _.

Class NetApi `{IdentityApi} := {
  ext : Type;
  Endpoint : Type;
  IncomingConn : Type;
  Accepting : Type;
  Connection : Type;
  SendStream : Type;
  RecvStream : Type;
  VarInt : Type;
  (** BEAM and runtime *)
  runtime_build : ext → bool * ext;
  beam_monitor : pid → ext → bool * ext;
  beam_demonitor : pid → ext → ext;
  beam_send : pid → ext → bool * ext;
  (** the ways in which a sleeping task may wake up *)
  sleep_ext : Z → ext → list ext;
  binary_alloc : Z → ext → bool;
  binary_from_iolist : term → option bytes;
  (** operating system: does this call fail, and how much of a failed write got through *)
  os_fault : ext → bool * ext;
  os_written : ext → nat;
  os_pid : string;
  secret_generate : ext → option SecretKey * ext;
  (** endpoints *)
  builder_bind_addr : builder → SocketAddr → bool;
  builder_bind : builder → ext → list (option (option Endpoint) * ext);
  endpoint_close_ext : Endpoint → ext → list (option unit * ext);
  endpoint_online_ext : Endpoint → ext → list (option unit * ext);
  endpoint_closed_ext : Endpoint → ext → list (option unit * ext);
  endpoint_is_closed : Endpoint → ext → bool;
  endpoint_addr : Endpoint → ext → EndpointAddr;
  endpoint_home_relay_connected : Endpoint → ext → list bool;
  endpoint_bound_sockets : Endpoint → ext → list SocketAddr;
  endpoint_connect : Endpoint → EndpointAddr → bytes → ext → list (option (option Connection) * ext);
  endpoint_accept : Endpoint → ext → list (option (option IncomingConn) * ext);
  incoming_accept : IncomingConn → ext → option Accepting * ext;
  accepting_await : Accepting → ext → list (option (option Connection) * ext);
  (** connections *)
  conn_remote_id : Connection → EndpointId;
  conn_alpn : Connection → bytes;
  conn_side_is_client : Connection → bool;
  conn_stable_id : Connection → Z;
  conn_close_ext : Connection → ext → ext;
  conn_closed_ext : Connection → ext → list (option unit * ext);
  conn_close_reason : Connection → ext → option string;
  conn_paths : Connection → ext → list path_value;
  (** streams *)
  conn_open_uni : Connection → ext → list (option (option SendStream) * ext);
  conn_open_bi : Connection → ext → list (option (option (SendStream * RecvStream)) * ext);
  conn_accept_uni : Connection → ext → list (option (option RecvStream) * ext);
  conn_accept_bi : Connection → ext → list (option (option (SendStream * RecvStream)) * ext);
  send_id : SendStream → Z;
  recv_id : RecvStream → Z;
  varint_from_u64 : Z → option VarInt;
  send_write_all : SendStream → bytes → ext → list (option (option unit) * ext);
  send_write : SendStream → bytes → ext → list (option (option Z) * ext);
  send_finish : SendStream → ext → bool * ext;
  send_reset : SendStream → VarInt → ext → ext;
  recv_read_chunk : RecvStream → Z → ext → list (option (option (option bytes)) * ext);
  recv_stop : RecvStream → VarInt → ext → ext;
  (** datagrams *)
  conn_max_datagram_size : Connection → ext → option Z;
  conn_datagram_space : Connection → ext → Z;
  conn_send_datagram : Connection → bytes → ext → bool * ext;
  conn_send_datagram_wait : Connection → bytes → ext → list (option (option unit) * ext);
  conn_read_datagram : Connection → ext → list (option (option bytes) * ext);
}.
