(* ===== verification/State.v ===== *)
(** The state of the crate: its constants, atoms, structs and statics.

    A [ResourceArc] is an index into the heap of its resource type; an atomic
    is its value; a [Notify] is its stored permit; a [Mutex] is its content and
    its poison flag. *)
From S2P Require Import Prelude Prog Std Extern.
From stdpp Require Import list options.
Local Open Scope Z_scope.

(** ** [mod atoms] *)

(** An atom is its text. *)
Definition atom : Type := string.

Module atoms.
Definition ok : atom := "ok".
Definition error : atom := "error".
Definition completed : atom := "completed".
Definition cancelled : atom := "cancelled".
Definition internal : atom := "internal".
Definition invalid_argument : atom := "invalid_argument".
Definition io : atom := "io".
Definition native_failure : atom := "native_failure".
Definition native_smoke : atom := "native_smoke".
Definition native_versions : atom := "native_versions".
Definition identity_generate : atom := "identity_generate".
Definition identity_load : atom := "identity_load".
Definition secret_key_import : atom := "secret_key_import".
Definition secret_key_export : atom := "secret_key_export".
Definition endpoint_id : atom := "endpoint_id".
Definition endpoint_addr : atom := "endpoint_addr".
Definition endpoint_ticket : atom := "endpoint_ticket".
Definition endpoint_bind : atom := "endpoint_bind".
Definition endpoint_close : atom := "endpoint_close".
Definition endpoint_online : atom := "endpoint_online".
Definition endpoint_info : atom := "endpoint_info".
Definition bind_failed : atom := "bind_failed".
Definition closed : atom := "closed".
Definition duplicate_identity : atom := "duplicate_identity".
Definition n0 : atom := "n0".
Definition direct : atom := "direct".
Definition no_relay : atom := "no_relay".
Definition custom : atom := "custom".
Definition connection_connect : atom := "connection_connect".
Definition connection_accept : atom := "connection_accept".
Definition connection_close : atom := "connection_close".
Definition connection_closed : atom := "connection_closed".
Definition connection_info : atom := "connection_info".
Definition resolution : atom := "resolution".
Definition refused : atom := "refused".
Definition unauthorized : atom := "unauthorized".
Definition busy : atom := "busy".
Definition capacity : atom := "capacity".
Definition client : atom := "client".
Definition server : atom := "server".
Definition outgoing : atom := "outgoing".
Definition incoming : atom := "incoming".
Definition relay : atom := "relay".
Definition ip : atom := "ip".
Definition unknown : atom := "unknown".
Definition stream_open_uni : atom := "stream_open_uni".
Definition stream_open_bi : atom := "stream_open_bi".
Definition stream_accept_uni : atom := "stream_accept_uni".
Definition stream_accept_bi : atom := "stream_accept_bi".
Definition stream_send : atom := "stream_send".
Definition stream_recv : atom := "stream_recv".
Definition stream_finish : atom := "stream_finish".
Definition stream_reset : atom := "stream_reset".
Definition stream_stop : atom := "stream_stop".
Definition stream_abort : atom := "stream_abort".
Definition stream_info : atom := "stream_info".
Definition datagram_send : atom := "datagram_send".
Definition datagram_recv : atom := "datagram_recv".
Definition datagram_info : atom := "datagram_info".
Definition eof : atom := "eof".
Definition uni : atom := "uni".
Definition bi : atom := "bi".
Definition send : atom := "send".
Definition recv : atom := "recv".
Definition both : atom := "both".
Definition peer_aborted : atom := "peer_aborted".
Definition too_large : atom := "too_large".
Definition panic_outcome : atom := "panic".
Definition native_module : atom := "Elixir.IrohBeam.Native".
Definition nil : atom := "nil".
End atoms.

(** ** Constants *)

Definition RUNNING : Z := 0.
Definition COMPLETED : Z := 1.
Definition CANCELLED : Z := 2.
Definition NO_ABORT : Z := U64_MAX.
Definition MAX_ABORT_CODE : Z := Z.shiftl 1 62 - 1.

(** ** Errors and results of the NIFs *)

Record NativeError : Type := NativeErr {
  category : atom;
  operation : atom;
  message : string;
  context : gmap string string;
}.

#[export] Instance NativeError_eq_dec : EqDecision NativeError.
Proof. solve_decision. Defined.

Abbreviation nresult A := (result A NativeError).

(** [native_error] of lib.rs. *)
Definition native_error (cat op : atom) (msg : string) : NativeError := NativeErr cat op msg ∅.

(** A value encoded into an Erlang term for a completion message. *)
Inductive value : Type :=
  | VAtom (a : atom)
  | VUsize (n : Z)
  | VBinary (b : bytes)
  | VEndpoint (e : nat)
  | VConnection (c : nat)
  | VStream (s : nat).

#[export] Instance value_eq_dec : EqDecision value.
Proof. solve_decision. Defined.

(** [{native_module, ref, result}] sent to a process.  [m_op] is not part of the
    term: it records which operation resource the sending task belongs to;
    [m_delivered] is what [send_and_clear] returned. *)
Record mail : Type := Mail {
  m_to : pid;
  m_ref : term;
  m_result : nresult value;
  m_op : nat;
  m_delivered : bool;
}.

(** A spawned future seen through its [JoinHandle]: an abort was requested; the
    output once it has ended, [None] for a [JoinError]. *)
Record task (T : Type) : Type := Task {
  t_abort : bool;
  t_output : option (option T);
}.
Arguments Task {T} _ _.
Arguments t_abort {T} _.
Arguments t_output {T} _.

(** ** Resources *)

(** endpoint.rs: [ProfileKind] and its methods. *)
Module ProfileKind.
Inductive t : Type := N0 | Direct | NoRelay | Custom.

#[export] Instance t_eq_dec : EqDecision t.
Proof. solve_decision. Defined.

Definition atom (p : t) : string :=
  match p with
  | N0 => atoms.n0
  | Direct => atoms.direct
  | NoRelay => atoms.no_relay
  | Custom => atoms.custom
  end.

Definition relay_enabled (p : t) : bool :=
  match p with N0 | Custom => true | _ => false end.

Definition address_lookup_enabled (p : t) : bool :=
  match p with N0 | NoRelay => true | _ => false end.
End ProfileKind.
Abbreviation ProfileKind := ProfileKind.t.
#[export] Existing Instance ProfileKind.t_eq_dec.

Inductive ConnectionRole : Type := Outgoing | Incoming.

(** lib.rs: [state] and the permit of the [cancelled] notification. *)
Record OperationResource : Type := OperationRes {
  op_state : Z;
  op_cancelled : bool;
}.

Definition set_op_state (x : Z) (r : OperationResource) : OperationResource :=
  OperationRes x (op_cancelled r).
Definition set_op_cancelled (x : bool) (r : OperationResource) : OperationResource :=
  OperationRes (op_state r) x.

(** The setters are those of the fields that the code writes. *)
Section state.
Context `{net : NetApi}.

(** endpoint.rs: [EndpointResource]. *)
Record EndpointResource : Type := EndpointRes {
  ep_endpoint : mutex (option Endpoint);
  ep_endpoint_id : string;
  ep_profile : ProfileKind;
  ep_direct_ip : bool;
  ep_released : bool;
  ep_pending_accepts : Z;
  ep_max_pending_accepts : Z;
  ep_active_connections : Z;
  ep_max_connections : Z;
}.

Definition set_ep_endpoint (x : mutex (option Endpoint)) (r : EndpointResource) : EndpointResource :=
  EndpointRes x (ep_endpoint_id r) (ep_profile r) (ep_direct_ip r) (ep_released r) (ep_pending_accepts r) (ep_max_pending_accepts r) (ep_active_connections r) (ep_max_connections r).
Definition set_ep_released (x : bool) (r : EndpointResource) : EndpointResource :=
  EndpointRes (ep_endpoint r) (ep_endpoint_id r) (ep_profile r) (ep_direct_ip r) x (ep_pending_accepts r) (ep_max_pending_accepts r) (ep_active_connections r) (ep_max_connections r).
Definition set_ep_pending_accepts (x : Z) (r : EndpointResource) : EndpointResource :=
  EndpointRes (ep_endpoint r) (ep_endpoint_id r) (ep_profile r) (ep_direct_ip r) (ep_released r) x (ep_max_pending_accepts r) (ep_active_connections r) (ep_max_connections r).
Definition set_ep_active_connections (x : Z) (r : EndpointResource) : EndpointResource :=
  EndpointRes (ep_endpoint r) (ep_endpoint_id r) (ep_profile r) (ep_direct_ip r) (ep_released r) (ep_pending_accepts r) (ep_max_pending_accepts r) x (ep_max_connections r).

(** connection.rs: [ConnectionResource]. *)
Record ConnectionResource : Type := ConnectionRes {
  cr_connection : Connection;
  cr_endpoint : nat;
  cr_remote_id : string;
  cr_alpn : string;
  cr_role : ConnectionRole;
  cr_released : bool;
  cr_datagram_send_busy : bool;
  cr_datagram_recv_busy : bool;
}.

Definition set_cr_released (x : bool) (r : ConnectionResource) : ConnectionResource :=
  ConnectionRes (cr_connection r) (cr_endpoint r) (cr_remote_id r) (cr_alpn r) (cr_role r) x (cr_datagram_send_busy r) (cr_datagram_recv_busy r).
Definition set_cr_datagram_send_busy (x : bool) (r : ConnectionResource) : ConnectionResource :=
  ConnectionRes (cr_connection r) (cr_endpoint r) (cr_remote_id r) (cr_alpn r) (cr_role r) (cr_released r) x (cr_datagram_recv_busy r).
Definition set_cr_datagram_recv_busy (x : bool) (r : ConnectionResource) : ConnectionResource :=
  ConnectionRes (cr_connection r) (cr_endpoint r) (cr_remote_id r) (cr_alpn r) (cr_role r) (cr_released r) (cr_datagram_send_busy r) x.

(** stream.rs: [StreamResource]. *)
Record StreamResource : Type := StreamRes {
  st_send : mutex (option SendStream);
  st_recv : mutex (option RecvStream);
  st_connection : nat;
  st_id : Z;
  st_send_busy : bool;
  st_recv_busy : bool;
  st_send_closed : bool;
  st_recv_closed : bool;
  st_reset_code : Z;
  st_stop_code : Z;
  st_reset_notify : bool;
  st_stop_notify : bool;
  st_released : bool;
}.

Definition set_st_send (x : mutex (option SendStream)) (r : StreamResource) : StreamResource :=
  StreamRes x (st_recv r) (st_connection r) (st_id r) (st_send_busy r) (st_recv_busy r) (st_send_closed r) (st_recv_closed r) (st_reset_code r) (st_stop_code r) (st_reset_notify r) (st_stop_notify r) (st_released r).
Definition set_st_recv (x : mutex (option RecvStream)) (r : StreamResource) : StreamResource :=
  StreamRes (st_send r) x (st_connection r) (st_id r) (st_send_busy r) (st_recv_busy r) (st_send_closed r) (st_recv_closed r) (st_reset_code r) (st_stop_code r) (st_reset_notify r) (st_stop_notify r) (st_released r).
Definition set_st_send_busy (x : bool) (r : StreamResource) : StreamResource :=
  StreamRes (st_send r) (st_recv r) (st_connection r) (st_id r) x (st_recv_busy r) (st_send_closed r) (st_recv_closed r) (st_reset_code r) (st_stop_code r) (st_reset_notify r) (st_stop_notify r) (st_released r).
Definition set_st_recv_busy (x : bool) (r : StreamResource) : StreamResource :=
  StreamRes (st_send r) (st_recv r) (st_connection r) (st_id r) (st_send_busy r) x (st_send_closed r) (st_recv_closed r) (st_reset_code r) (st_stop_code r) (st_reset_notify r) (st_stop_notify r) (st_released r).
Definition set_st_send_closed (x : bool) (r : StreamResource) : StreamResource :=
  StreamRes (st_send r) (st_recv r) (st_connection r) (st_id r) (st_send_busy r) (st_recv_busy r) x (st_recv_closed r) (st_reset_code r) (st_stop_code r) (st_reset_notify r) (st_stop_notify r) (st_released r).
Definition set_st_recv_closed (x : bool) (r : StreamResource) : StreamResource :=
  StreamRes (st_send r) (st_recv r) (st_connection r) (st_id r) (st_send_busy r) (st_recv_busy r) (st_send_closed r) x (st_reset_code r) (st_stop_code r) (st_reset_notify r) (st_stop_notify r) (st_released r).
Definition set_st_reset_code (x : Z) (r : StreamResource) : StreamResource :=
  StreamRes (st_send r) (st_recv r) (st_connection r) (st_id r) (st_send_busy r) (st_recv_busy r) (st_send_closed r) (st_recv_closed r) x (st_stop_code r) (st_reset_notify r) (st_stop_notify r) (st_released r).
Definition set_st_stop_code (x : Z) (r : StreamResource) : StreamResource :=
  StreamRes (st_send r) (st_recv r) (st_connection r) (st_id r) (st_send_busy r) (st_recv_busy r) (st_send_closed r) (st_recv_closed r) (st_reset_code r) x (st_reset_notify r) (st_stop_notify r) (st_released r).
Definition set_st_reset_notify (x : bool) (r : StreamResource) : StreamResource :=
  StreamRes (st_send r) (st_recv r) (st_connection r) (st_id r) (st_send_busy r) (st_recv_busy r) (st_send_closed r) (st_recv_closed r) (st_reset_code r) (st_stop_code r) x (st_stop_notify r) (st_released r).
Definition set_st_stop_notify (x : bool) (r : StreamResource) : StreamResource :=
  StreamRes (st_send r) (st_recv r) (st_connection r) (st_id r) (st_send_busy r) (st_recv_busy r) (st_send_closed r) (st_recv_closed r) (st_reset_code r) (st_stop_code r) (st_reset_notify r) x (st_released r).
Definition set_st_released (x : bool) (r : StreamResource) : StreamResource :=
  StreamRes (st_send r) (st_recv r) (st_connection r) (st_id r) (st_send_busy r) (st_recv_busy r) (st_send_closed r) (st_recv_closed r) (st_reset_code r) (st_stop_code r) (st_reset_notify r) (st_stop_notify r) x.

(** The statics of the crate, the heaps of its resources, the spawned futures, the messages sent, and the outside world. *)
Record world : Type := World {
  w_ext : ext;
  w_fs : fs;
  w_runtime : option bool;
  w_tasks : gmap nat (task (nresult value));
  w_bind_tasks : gmap nat (task (option Endpoint));
  w_mail : list mail;
  w_operations : gmap nat OperationResource;
  w_active_operations : Z;
  w_temp_counter : Z;
  w_identities : mutex (gset string);
  w_active_endpoints : Z;
  w_endpoints : gmap nat EndpointResource;
  w_active_connections : Z;
  w_connections : gmap nat ConnectionResource;
  w_active_streams : Z;
  w_queued_bytes : Z;
  w_peak_queued_bytes : Z;
  w_streams : gmap nat StreamResource;
}.

Definition set_w_ext (x : ext) (r : world) : world :=
  World x (w_fs r) (w_runtime r) (w_tasks r) (w_bind_tasks r) (w_mail r) (w_operations r) (w_active_operations r) (w_temp_counter r) (w_identities r) (w_active_endpoints r) (w_endpoints r) (w_active_connections r) (w_connections r) (w_active_streams r) (w_queued_bytes r) (w_peak_queued_bytes r) (w_streams r).
Definition set_w_fs (x : fs) (r : world) : world :=
  World (w_ext r) x (w_runtime r) (w_tasks r) (w_bind_tasks r) (w_mail r) (w_operations r) (w_active_operations r) (w_temp_counter r) (w_identities r) (w_active_endpoints r) (w_endpoints r) (w_active_connections r) (w_connections r) (w_active_streams r) (w_queued_bytes r) (w_peak_queued_bytes r) (w_streams r).
Definition set_w_runtime (x : option bool) (r : world) : world :=
  World (w_ext r) (w_fs r) x (w_tasks r) (w_bind_tasks r) (w_mail r) (w_operations r) (w_active_operations r) (w_temp_counter r) (w_identities r) (w_active_endpoints r) (w_endpoints r) (w_active_connections r) (w_connections r) (w_active_streams r) (w_queued_bytes r) (w_peak_queued_bytes r) (w_streams r).
Definition set_w_tasks (x : gmap nat (task (nresult value))) (r : world) : world :=
  World (w_ext r) (w_fs r) (w_runtime r) x (w_bind_tasks r) (w_mail r) (w_operations r) (w_active_operations r) (w_temp_counter r) (w_identities r) (w_active_endpoints r) (w_endpoints r) (w_active_connections r) (w_connections r) (w_active_streams r) (w_queued_bytes r) (w_peak_queued_bytes r) (w_streams r).
Definition set_w_bind_tasks (x : gmap nat (task (option Endpoint))) (r : world) : world :=
  World (w_ext r) (w_fs r) (w_runtime r) (w_tasks r) x (w_mail r) (w_operations r) (w_active_operations r) (w_temp_counter r) (w_identities r) (w_active_endpoints r) (w_endpoints r) (w_active_connections r) (w_connections r) (w_active_streams r) (w_queued_bytes r) (w_peak_queued_bytes r) (w_streams r).
Definition set_w_mail (x : list mail) (r : world) : world :=
  World (w_ext r) (w_fs r) (w_runtime r) (w_tasks r) (w_bind_tasks r) x (w_operations r) (w_active_operations r) (w_temp_counter r) (w_identities r) (w_active_endpoints r) (w_endpoints r) (w_active_connections r) (w_connections r) (w_active_streams r) (w_queued_bytes r) (w_peak_queued_bytes r) (w_streams r).
Definition set_w_operations (x : gmap nat OperationResource) (r : world) : world :=
  World (w_ext r) (w_fs r) (w_runtime r) (w_tasks r) (w_bind_tasks r) (w_mail r) x (w_active_operations r) (w_temp_counter r) (w_identities r) (w_active_endpoints r) (w_endpoints r) (w_active_connections r) (w_connections r) (w_active_streams r) (w_queued_bytes r) (w_peak_queued_bytes r) (w_streams r).
Definition set_w_active_operations (x : Z) (r : world) : world :=
  World (w_ext r) (w_fs r) (w_runtime r) (w_tasks r) (w_bind_tasks r) (w_mail r) (w_operations r) x (w_temp_counter r) (w_identities r) (w_active_endpoints r) (w_endpoints r) (w_active_connections r) (w_connections r) (w_active_streams r) (w_queued_bytes r) (w_peak_queued_bytes r) (w_streams r).
Definition set_w_temp_counter (x : Z) (r : world) : world :=
  World (w_ext r) (w_fs r) (w_runtime r) (w_tasks r) (w_bind_tasks r) (w_mail r) (w_operations r) (w_active_operations r) x (w_identities r) (w_active_endpoints r) (w_endpoints r) (w_active_connections r) (w_connections r) (w_active_streams r) (w_queued_bytes r) (w_peak_queued_bytes r) (w_streams r).
Definition set_w_identities (x : mutex (gset string)) (r : world) : world :=
  World (w_ext r) (w_fs r) (w_runtime r) (w_tasks r) (w_bind_tasks r) (w_mail r) (w_operations r) (w_active_operations r) (w_temp_counter r) x (w_active_endpoints r) (w_endpoints r) (w_active_connections r) (w_connections r) (w_active_streams r) (w_queued_bytes r) (w_peak_queued_bytes r) (w_streams r).
Definition set_w_active_endpoints (x : Z) (r : world) : world :=
  World (w_ext r) (w_fs r) (w_runtime r) (w_tasks r) (w_bind_tasks r) (w_mail r) (w_operations r) (w_active_operations r) (w_temp_counter r) (w_identities r) x (w_endpoints r) (w_active_connections r) (w_connections r) (w_active_streams r) (w_queued_bytes r) (w_peak_queued_bytes r) (w_streams r).
Definition set_w_endpoints (x : gmap nat EndpointResource) (r : world) : world :=
  World (w_ext r) (w_fs r) (w_runtime r) (w_tasks r) (w_bind_tasks r) (w_mail r) (w_operations r) (w_active_operations r) (w_temp_counter r) (w_identities r) (w_active_endpoints r) x (w_active_connections r) (w_connections r) (w_active_streams r) (w_queued_bytes r) (w_peak_queued_bytes r) (w_streams r).
Definition set_w_active_connections (x : Z) (r : world) : world :=
  World (w_ext r) (w_fs r) (w_runtime r) (w_tasks r) (w_bind_tasks r) (w_mail r) (w_operations r) (w_active_operations r) (w_temp_counter r) (w_identities r) (w_active_endpoints r) (w_endpoints r) x (w_connections r) (w_active_streams r) (w_queued_bytes r) (w_peak_queued_bytes r) (w_streams r).
Definition set_w_connections (x : gmap nat ConnectionResource) (r : world) : world :=
  World (w_ext r) (w_fs r) (w_runtime r) (w_tasks r) (w_bind_tasks r) (w_mail r) (w_operations r) (w_active_operations r) (w_temp_counter r) (w_identities r) (w_active_endpoints r) (w_endpoints r) (w_active_connections r) x (w_active_streams r) (w_queued_bytes r) (w_peak_queued_bytes r) (w_streams r).
Definition set_w_active_streams (x : Z) (r : world) : world :=
  World (w_ext r) (w_fs r) (w_runtime r) (w_tasks r) (w_bind_tasks r) (w_mail r) (w_operations r) (w_active_operations r) (w_temp_counter r) (w_identities r) (w_active_endpoints r) (w_endpoints r) (w_active_connections r) (w_connections r) x (w_queued_bytes r) (w_peak_queued_bytes r) (w_streams r).
Definition set_w_queued_bytes (x : Z) (r : world) : world :=
  World (w_ext r) (w_fs r) (w_runtime r) (w_tasks r) (w_bind_tasks r) (w_mail r) (w_operations r) (w_active_operations r) (w_temp_counter r) (w_identities r) (w_active_endpoints r) (w_endpoints r) (w_active_connections r) (w_connections r) (w_active_streams r) x (w_peak_queued_bytes r) (w_streams r).
Definition set_w_peak_queued_bytes (x : Z) (r : world) : world :=
  World (w_ext r) (w_fs r) (w_runtime r) (w_tasks r) (w_bind_tasks r) (w_mail r) (w_operations r) (w_active_operations r) (w_temp_counter r) (w_identities r) (w_active_endpoints r) (w_endpoints r) (w_active_connections r) (w_connections r) (w_active_streams r) (w_queued_bytes r) x (w_streams r).
Definition set_w_streams (x : gmap nat StreamResource) (r : world) : world :=
  World (w_ext r) (w_fs r) (w_runtime r) (w_tasks r) (w_bind_tasks r) (w_mail r) (w_operations r) (w_active_operations r) (w_temp_counter r) (w_identities r) (w_active_endpoints r) (w_endpoints r) (w_active_connections r) (w_connections r) (w_active_streams r) (w_queued_bytes r) (w_peak_queued_bytes r) x.

(** Before the first call. *)
Definition initial_world (x : ext) (f : fs) : world :=
  World x f None ∅ ∅ [] ∅ 0 0 (Mutex false ∅) 0 ∅ 0 ∅ 0 0 0 ∅.

(** ** Atomic steps *)

Abbreviation nif A := (prog world A).

(** The outside world answers a call. *)
Definition external {R} (f : ext → R * ext) : nif R :=
  atomic (λ s, let '(r, x) := f (w_ext s) in (r, set_w_ext x s)).
Definition external_ (f : ext → ext) : nif unit := modify (λ s, set_w_ext (f (w_ext s)) s).
Definition observe {R} (f : ext → R) : nif R := read (λ s, f (w_ext s)).

(** One atomic step on a resource of each kind. *)
Definition on_operation {R} (o : nat) (f : OperationResource → R * OperationResource) : nif R :=
  atomic_opt (λ s, match w_operations s !! o with
                   | Some v => Some ((f v).1, set_w_operations (<[o := (f v).2]> (w_operations s)) s)
                   | None => None
                   end).
Definition on_endpoint {R} (e : nat) (f : EndpointResource → R * EndpointResource) : nif R :=
  atomic_opt (λ s, match w_endpoints s !! e with
                   | Some v => Some ((f v).1, set_w_endpoints (<[e := (f v).2]> (w_endpoints s)) s)
                   | None => None
                   end).
Definition on_connection {R} (c : nat) (f : ConnectionResource → R * ConnectionResource) : nif R :=
  atomic_opt (λ s, match w_connections s !! c with
                   | Some v => Some ((f v).1, set_w_connections (<[c := (f v).2]> (w_connections s)) s)
                   | None => None
                   end).
Definition on_stream {R} (st : nat) (f : StreamResource → R * StreamResource) : nif R :=
  atomic_opt (λ s, match w_streams s !! st with
                   | Some v => Some ((f v).1, set_w_streams (<[st := (f v).2]> (w_streams s)) s)
                   | None => None
                   end).

(** Reads of a resource: an atomic load, or the fields that never change. *)
Definition get_endpoint {R} (e : nat) (f : EndpointResource → R) : nif R :=
  atomic_opt (λ s, v ← w_endpoints s !! e; Some (f v, s)).
Definition get_connection {R} (c : nat) (f : ConnectionResource → R) : nif R :=
  atomic_opt (λ s, v ← w_connections s !! c; Some (f v, s)).
Definition get_stream {R} (st : nat) (f : StreamResource → R) : nif R :=
  atomic_opt (λ s, v ← w_streams s !! st; Some (f v, s)).

(** A critical section on the mutex of a resource that also calls out. *)
Definition on_stream_ext {R} (st : nat)
    (f : StreamResource → ext → R * StreamResource * ext) : nif R :=
  atomic_opt (λ s, match w_streams s !! st with
                   | Some v =>
                       let '(r, v', x) := f v (w_ext s) in
                       Some (r, set_w_ext x (set_w_streams (<[st := v']> (w_streams s)) s))
                   | None => None
                   end).

End state.

(** Futures under way refer to the world only through [nif]. *)
Abbreviation nif A := (prog world A).
