(* ===== verification/Operations.v ===== *)
(** Operations (lib.rs, and [start_endpoint_operation] of endpoint.rs): the
    runtime, panic containment, the cancellable operation resource, and the
    protocol by which a spawned future sends at most one completion message. *)
From S2P Require Import Prelude Prog Std Extern State.
From stdpp Require Import list options.
Local Open Scope Z_scope.
Local Open Scope prog_scope.

(** ** lib.rs: versions *)

Record VersionInfo : Type := {
  iroh : string;
  rustler : string;
  nif_ : string;
  crate_version : string;
}.

Definition IROH_VERSION : string := "1.0.3".
Definition RUSTLER_VERSION : string := "0.38.0".
Definition NIF_VERSION : string := "2.16".
(** [env!("CARGO_PKG_VERSION")], from Cargo.toml. *)
Definition CARGO_PKG_VERSION : string := "0.2.0".

Section operations.
Context `{net : NetApi}.

Definition native_versions : nresult VersionInfo :=
  Ok {| iroh := IROH_VERSION; rustler := RUSTLER_VERSION; nif_ := NIF_VERSION;
        crate_version := CARGO_PKG_VERSION |}.

(** ** lib.rs: runtime and panic containment *)

(** [OnceLock::get_or_init]: the builder runs once, its result is kept. *)
Definition runtime_get_or_init : nif bool :=
  atomic (λ s, match w_runtime s with
               | Some b => (b, s)
               | None => let '(b, x) := runtime_build (w_ext s) in
                         (b, set_w_runtime (Some b) (set_w_ext x s))
               end).

Definition runtime : nif (nresult unit) :=
  let! built := runtime_get_or_init in
  Ret (if built : bool then Ok tt
       else Err (native_error atoms.internal atoms.native_smoke
                   "managed native runtime could not be started")).

(** [operation] gives [None] when it panics. *)
Definition guarded {T E} (operation : nif (option (result T E))) (panic_error : E)
    : nif (result T E) :=
  let! r := operation in
  Ret (match r with Some r => r | None => Err panic_error end).

Definition failed_internally : string := "native operation failed internally".

Definition encode_guarded {T} (op : atom) (work : nif (option (nresult T))) : nif (nresult T) :=
  guarded work (native_error atoms.internal op failed_internally).

(** ** lib.rs: the operation resource *)

Definition OperationResource_new : OperationResource := OperationRes RUNNING false.

(** [ResourceArc::new(OperationResource::new())] *)
Definition new_operation : nif nat :=
  atomic (λ s, let o := next_id (w_operations s) in
               (o, set_w_operations (<[o := OperationResource_new]> (w_operations s)) s)).

(** [state.compare_exchange(old, new, ..).is_ok()] *)
Definition compare_exchange_state (o : nat) (old new : Z) : nif bool :=
  on_operation o (λ r, if op_state r =? old then (true, set_op_state new r) else (false, r)).

Definition notify_cancelled (o : nat) : nif unit :=
  on_operation o (λ r, (tt, set_op_cancelled true r)).

Definition cancel (o : nat) : nif bool :=
  let! cancelled := compare_exchange_state o RUNNING CANCELLED in
  when cancelled (notify_cancelled o) ;!
  Ret cancelled.

(** [impl Resource for OperationResource]: the monitored caller died. *)
Definition operation_down (o : nat) : nif unit := let! _ := cancel o in Ret tt.

Definition operation_cancel (o : nat) : nif bool := cancel o.
Definition operation_snapshot : nif Z := read w_active_operations.

(** [ACTIVE_OPERATIONS.fetch_add(1)] and [fetch_sub(1)] *)
Definition begin_operation : nif unit :=
  modify (λ s, set_w_active_operations (wrap64 (w_active_operations s + 1)) s).
Definition end_operation : nif unit :=
  modify (λ s, set_w_active_operations (wrap64 (w_active_operations s - 1)) s).

Definition monitor (p : pid) : nif bool := external (beam_monitor p).
Definition demonitor (p : pid) : nif unit := external_ (beam_demonitor p).

(** [send_and_clear] of the completion message: was it delivered? *)
Definition send_and_clear (o : nat) (caller : pid) (saved_ref : term) (r : nresult value)
    : nif bool :=
  atomic (λ s, let '(ok, x) := beam_send caller (w_ext s) in
               (ok, set_w_mail (w_mail s ++ [Mail caller saved_ref r o ok]) (set_w_ext x s))).

(** ** Futures *)

(** The outcomes of polling an external future. *)
Definition poll_ext {R} (f : ext → list (option R * ext)) : world → list (option R * world) :=
  λ s, (λ o : option R * ext, (o.1, set_w_ext o.2 s)) <$> f (w_ext s).

(** The spawned tasks of one output type. *)
Record task_heap (T : Type) : Type := TaskHeap {
  h_get : world → gmap nat (task T);
  h_set : gmap nat (task T) → world → world;
}.
Arguments h_get {T} _ _.
Arguments h_set {T} _ _ _.

Definition future_tasks : task_heap (nresult value) := TaskHeap _ w_tasks set_w_tasks.
Definition bind_tasks : task_heap (option Endpoint) := TaskHeap _ w_bind_tasks set_w_bind_tasks.

Definition abort_requested {T} (h : task_heap T) (tid : nat) (s : world) : bool :=
  match h_get h s !! tid with Some t => t_abort t | None => false end.

(** An await point of task [tid]: [None] when the awaited code panics or when
    the task, asked to abort, is dropped here. *)
Definition await_in {T R} (h : task_heap T) (tid : nat) (outs : world → list (option R * world))
    : nif (option R) :=
  Act (λ s, outs s ++ (if abort_requested h tid s then [(None, s)] else [])) Ret.

Definition await {R} (tid : nat) (outs : world → list (option R * world)) : nif (option R) :=
  await_in future_tasks tid outs.

(** The [?] operator inside a future. *)
Definition fut_bind {A B} (p : nif (option (nresult A))) (k : A → nif (option (nresult B)))
    : nif (option (nresult B)) :=
  let! r := p in
  match r with
  | Some (Ok a) => k a
  | Some (Err e) => Ret (Some (Err e))
  | None => Ret None
  end.

(** [call.await.map_err(|_| e)?] *)
Definition await_or {R} (tid : nat) (f : ext → list (option (option R) * ext)) (e : NativeError)
    : nif (option (nresult R)) :=
  let! r := await tid (poll_ext f) in Ret (option_map (λ o, ok_or o e) r).

(** An async block: its body, the drop glue of what it captured, and the drop
    glue of its output. *)
Record future : Type := Future {
  fut_body : nat → nif (option (nresult value));
  fut_captured : nif unit;
  fut_drop_output : value → nif unit;
}.

Definition no_drop {A} (_ : A) : nif unit := Ret tt.

Definition new_task {T} (h : task_heap T) : nif nat :=
  atomic (λ s, let tid := next_id (h_get h s) in
               (tid, h_set h (<[tid := Task false None]> (h_get h s)) s)).

Definition on_task {T R} (h : task_heap T) (tid : nat) (f : task T → R * task T) : nif R :=
  atomic_opt (λ s, match h_get h s !! tid with
                   | Some t => Some ((f t).1, h_set h (<[tid := (f t).2]> (h_get h s)) s)
                   | None => None
                   end).

Definition complete_task {T} (h : task_heap T) (tid : nat) (out : option T) : nif unit :=
  on_task h tid (λ t, (tt, Task (t_abort t) (Some out))).

(** A future may be dropped before its first poll; its captures are dropped in any case. *)
Definition run_future (tid : nat) (F : future) : nif (option (nresult value)) :=
  finally (let! start := await tid (λ s, [(Some tt, s)]) in
           match start with Some _ => fut_body F tid | None => Ret None end)
          (fut_captured F).

(** [runtime.spawn(future)] *)
Definition spawn (F : future) : nif nat :=
  let! tid := new_task future_tasks in
  fork (let! out := run_future tid F in complete_task future_tasks tid out) ;!
  Ret tid.

Definition task_output {T} (h : task_heap T) (tid : nat) (s : world) : option (option T) :=
  t ← h_get h s !! tid; t_output t.

(** [future_task.await] *)
Definition join {T} (h : task_heap T) (tid : nat) : nif (option T) :=
  atomic_opt (λ s, out ← task_output h tid s; Some (out, s)).

Definition abort_task {T} (h : task_heap T) (tid : nat) : nif unit :=
  on_task h tid (λ t, (tt, Task true (t_output t))).

(** [select! { r = &mut future_task => Some(r), _ = cancelled.notified() => None }] *)
Definition join_or_cancelled {T} (h : task_heap T) (o tid : nat) : nif (option (option T)) :=
  Act (λ s, match task_output h tid s with Some out => [(Some out, s)] | None => [] end ++
            match w_operations s !! o with
            | Some r => if op_cancelled r
                        then [(None, set_w_operations (<[o := set_op_cancelled false r]> (w_operations s)) s)]
                        else []
            | None => []
            end) Ret.

(** The drop of a result that nobody received. *)
Definition drop_result (drop_output : value → nif unit) (out : option (nresult value)) : nif unit :=
  match out with Some (Ok v) => drop_output v | _ => Ret tt end.

(** The select and, when it was cancelled, abort, wait for the task to end and
    drop what it returned. *)
Definition await_task {T} (h : task_heap T) (o tid : nat) (drop : option T → nif unit)
    : nif (option (option T)) :=
  let! r := join_or_cancelled h o tid in
  match r with
  | Some out => Ret (Some out)
  | None => abort_task h tid ;!
            let! cancelled := join h tid in
            drop cancelled ;!
            Ret None
  end.

Definition endpoint_error (cat op : atom) (msg : string) : NativeError := native_error cat op msg.

(** endpoint.rs [send_operation_result]: an undelivered result is dropped. *)
Definition send_operation_result (o : nat) (drop_output : value → nif unit) (caller : pid)
    (saved_ref : term) (r : nresult value) : nif unit :=
  let! delivered := send_and_clear o caller saved_ref r in
  when (negb delivered) (drop_result drop_output (Some r)).

(** What the supervising task reports once the select has ended. *)
Definition completion (operation_name : atom) (result : option (option (nresult value)))
    : nresult value :=
  match result with
  | Some (Some result) => result
  | Some None => Err (endpoint_error atoms.internal operation_name
                        "endpoint operation failed internally")
  | None => Err (endpoint_error atoms.cancelled operation_name "operation was cancelled")
  end.

(** The task spawned beside the future. *)
Definition supervise (o tid : nat) (caller : pid) (saved_ref : term) (operation_name : atom)
    (F : future) : nif unit :=
  let! result := await_task future_tasks o tid (drop_result (fut_drop_output F)) in
  let! should_complete := compare_exchange_state o RUNNING COMPLETED in
  when should_complete
    (send_operation_result o (fut_drop_output F) caller saved_ref (completion operation_name result)) ;!
  demonitor caller ;!
  end_operation ;!
  when (negb should_complete) (drop_result (fut_drop_output F) (default None result)).

Definition start_endpoint_operation (caller : pid) (operation_ref : term)
    (operation_name : atom) (F : future) : nif (nresult nat) :=
  let! rt := runtime in
  match rt with
  | Err error => fut_captured F ;! Ret (Err error)
  | Ok _ =>
      let! o := new_operation in
      let! monitored := monitor caller in
      if negb monitored then
        fut_captured F ;!
        Ret (Err (endpoint_error atoms.cancelled operation_name "caller is no longer available"))
      else
        begin_operation ;!
        let! tid := spawn F in
        fork (supervise o tid caller operation_ref operation_name F) ;!
        Ret (Ok o)
  end.

(** ** lib.rs: the smoke operation *)

(** [select!] of the sleep and the cancellation; both arms do nothing. *)
Definition sleep_or_cancelled (o : nat) (delay_ms : Z) : nif unit :=
  Act (λ s, ((λ x, (tt, set_w_ext x s)) <$> sleep_ext delay_ms (w_ext s)) ++
            match w_operations s !! o with
            | Some r => if op_cancelled r
                        then [(tt, set_w_operations (<[o := set_op_cancelled false r]> (w_operations s)) s)]
                        else []
            | None => []
            end) Ret.

Definition smoke_result (kind : atom) : nresult value :=
  if bool_decide (kind = atoms.panic_outcome) then
    Err (native_error atoms.internal atoms.native_smoke failed_internally)
  else if bool_decide (kind = atoms.error) then
    Err (native_error atoms.native_failure atoms.native_smoke "native smoke failure")
  else Ok (VAtom atoms.completed).

(** The task that [operation_start] spawns. *)
Definition smoke_task (o : nat) (caller : pid) (saved_ref : term) (kind : atom) (delay_ms : Z)
    : nif unit :=
  sleep_or_cancelled o delay_ms ;!
  let! should_complete := compare_exchange_state o RUNNING COMPLETED in
  when should_complete
    (let! result := guarded (Ret (Some (smoke_result kind)))
                      (native_error atoms.internal atoms.native_smoke failed_internally) in
     let! _ := send_and_clear o caller saved_ref result in Ret tt) ;!
  demonitor caller ;!
  end_operation.

Definition operation_start (caller : pid) (operation_ref : term) (kind : atom) (delay_ms : Z)
    : nif (nresult nat) :=
  let! rt := runtime in
  match rt with
  | Err error => Ret (Err error)
  | Ok _ =>
      if bool_decide (kind ≠ atoms.ok) && bool_decide (kind ≠ atoms.error)
         && negb (bool_decide (kind = atoms.panic_outcome)) then
        Ret (Err (native_error atoms.native_failure atoms.native_smoke "unsupported smoke outcome"))
      else
        let! o := new_operation in
        let! monitored := monitor caller in
        if negb monitored then
          Ret (Err (native_error atoms.cancelled atoms.native_smoke "caller is no longer available"))
        else
          begin_operation ;!
          fork (smoke_task o caller operation_ref kind delay_ms) ;!
          Ret (Ok o)
  end.

(** Polling an external future changes only the outside world. *)
Lemma within_await_ext {R T} (Rel : world → world → Prop) (h : task_heap T) tid
    (f : ext → list (option R * ext)) :
  (∀ s x, Rel s (set_w_ext x s)) → (∀ s, Rel s s) → within Rel (await_in h tid (poll_ext f)).
Proof.
  intros Hx HR. apply within_act. intros s r s'. unfold poll_ext. intros Hin. outcome; auto.
Qed.

(** ** Lifecycle of an operation *)

(** What a thread may do to the operations: a state leaves [RUNNING] at most
    once, messages are only appended, resources are never forgotten. *)
Definition op_final (s s' : world) : Prop :=
  (∀ o r, w_operations s !! o = Some r →
     ∃ r', w_operations s' !! o = Some r' ∧ (op_state r' = op_state r ∨ op_state r = RUNNING)) ∧
  w_mail s `prefix_of` w_mail s'.

#[export] Instance op_final_refl : Reflexive op_final.
Proof. intros s. split; [eauto|done]. Qed.
#[export] Instance op_final_trans : Transitive op_final.
Proof.
  intros s1 s2 s3 (H12 & ?) (H23 & ?). split; [|by etrans].
  intros o r Hr. destruct (H12 o r Hr) as (r2 & Hr2 & ?).
  destruct (H23 o r2 Hr2) as (r3 & Hr3 & ?). exists r3. split; [done|].
  destruct (decide (op_state r = RUNNING)); [by right|]. left. naive_solver congruence.
Qed.

Lemma op_final_same s s' :
  w_operations s' = w_operations s → w_mail s' = w_mail s → op_final s s'.
Proof. intros E1 E2. unfold op_final. rewrite E1, E2. split; eauto. Qed.

Lemma op_final_update s o r r' s' :
  w_operations s !! o = Some r → w_operations s' = <[o := r']> (w_operations s) →
  w_mail s' = w_mail s →
  op_state r' = op_state r ∨ op_state r = RUNNING → op_final s s'.
Proof.
  intros Ho E1 E2 Hr. unfold op_final. rewrite E1, E2. split; [|done].
  intros o' r0 Hr0. destruct (decide (o' = o)) as [->|].
  - rewrite lookup_insert_eq. simplify_eq. eauto.
  - rewrite lookup_insert_ne by done. eauto.
Qed.

#[local] Hint Extern 2 (op_final _ _) => apply op_final_same; reflexivity : within.

Lemma op_final_compare_exchange o new :
  within op_final (compare_exchange_state o RUNNING new).
Proof.
  within_go. eapply op_final_update; simpl; [done|done|done|].
  case_match eqn:E; simpl; [right; by apply Z.eqb_eq|by left].
Qed.

Lemma op_final_notify o : within op_final (notify_cancelled o).
Proof. within_go. eapply op_final_update; simpl; by eauto. Qed.

Lemma op_final_new_operation : within op_final new_operation.
Proof.
  apply within_atomic. intros s. split; simpl; [|done].
  intros o r Hr. exists r. split; [by apply lookup_insert_next|by left].
Qed.

Lemma op_final_send o caller ref r : within op_final (send_and_clear o caller ref r).
Proof.
  apply within_atomic. intros s. destruct (beam_send _ _) as [ok x]. simpl.
  split; simpl; [eauto|by apply prefix_app_r].
Qed.

Lemma op_final_join_or_cancelled {T} (h : task_heap T) o tid : within op_final (join_or_cancelled h o tid).
Proof.
  within_go; [by apply op_final_same|]. eapply op_final_update; simpl; by eauto.
Qed.

Lemma op_final_sleep o d : within op_final (sleep_or_cancelled o d).
Proof.
  within_go; [by apply op_final_same|]. eapply op_final_update; simpl; by eauto.
Qed.

#[local] Hint Resolve op_final_compare_exchange op_final_notify op_final_new_operation
  op_final_send op_final_join_or_cancelled op_final_sleep : within.

(** The obligations of a future that must stay within a relation. *)
Definition future_within (Rel : world → world → Prop) (F : future) : Prop :=
  (∀ tid, within Rel (fut_body F tid)) ∧ within Rel (fut_captured F) ∧
  ∀ v, within Rel (fut_drop_output F v).

Lemma op_final_cancel o : within op_final (cancel o).
Proof. by within_solve. Qed.

Lemma op_final_start_endpoint_operation caller ref name F :
  future_within op_final F → within op_final (start_endpoint_operation caller ref name F).
Proof. intros (? & ? & ?). within_solve. Qed.

Lemma op_final_operation_start caller ref kind d :
  within op_final (operation_start caller ref kind d).
Proof. within_solve. Qed.

(** ** At most one completion message *)

(** [TWon o]: the task of [o] has decided to send and has not sent;
    [TCancel o]: [cancel] has won and has not notified. *)
Inductive op_token : Type := TWon (o : nat) | TCancel (o : nat).

#[export] Instance op_token_eq_dec : EqDecision op_token.
Proof. solve_decision. Defined.
#[export] Instance op_token_countable : Countable op_token.
Proof.
  refine (inj_countable'
    (λ t, match t with TWon o => inl o | TCancel o => inr o end)
    (λ x, match x with inl o => TWon o | inr o => TCancel o end) _).
  by intros [].
Defined.

Definition sent (o : nat) (l : list mail) : nat := length (filter (λ m, m_op m = o) l).

(** What the state of an operation says about messages and tokens. *)
Definition op_consistent (r : OperationResource) (sent won can : nat) : Prop :=
  (op_state r = RUNNING ∧ sent = 0 ∧ won = 0 ∧ can = 0 ∧ op_cancelled r = false)%nat ∨
  (op_state r = CANCELLED ∧ sent = 0 ∧ won = 0)%nat ∨
  (op_state r = COMPLETED ∧ sent + won = 1 ∧ can = 0 ∧ op_cancelled r = false)%nat.

Definition op_view (s : world) : gmap nat OperationResource * list mail :=
  (w_operations s, w_mail s).

Definition op_inv (v : gmap nat OperationResource * list mail) (g : gmultiset op_token) : Prop :=
  ∀ o,
    let mult t := multiplicity t g in
    match v.1 !! o with
    | Some r => op_consistent r (sent o v.2) (mult (TWon o)) (mult (TCancel o))
    | None => (sent o v.2 = 0 ∧ mult (TWon o) = 0 ∧ mult (TCancel o) = 0)%nat
    end.

Abbreviation op_wp p Q g := (wp (λ s, op_inv (op_view s)) p Q g).

Lemma sent_app o l m : sent o (l ++ [m]) = (sent o l + if decide (m_op m = o) then 1 else 0)%nat.
Proof.
  unfold sent. rewrite filter_app, length_app. f_equal.
  rewrite filter_cons, filter_nil. by destruct (decide _).
Qed.

Lemma multiplicity_single (t t' : op_token) :
  multiplicity t {[+ t' +]} = if decide (t = t') then 1%nat else 0%nat.
Proof. apply multiplicity_singleton. Qed.

Ltac tokens :=
  simpl in *; repeat match goal with
  | |- context [multiplicity _ (_ ⊎ _)] => rewrite multiplicity_disj_union
  | H : context [multiplicity _ (_ ⊎ _)] |- _ => rewrite multiplicity_disj_union in H
  | |- context [multiplicity _ ∅] => rewrite multiplicity_empty
  | H : context [multiplicity _ ∅] |- _ => rewrite multiplicity_empty in H
  | |- context [multiplicity _ {[+ _ +]}] => rewrite multiplicity_single
  | H : context [multiplicity _ {[+ _ +]}] |- _ => rewrite multiplicity_single in H
  end; repeat case_decide; simplify_eq/=.

Ltac op_arith :=
  unfold op_consistent, OperationResource_new in *; tokens;
  unfold RUNNING, CANCELLED, COMPLETED in *; intuition (first [lia | congruence]).

Lemma op_wp_new (Q : nat → gmultiset op_token → Prop) g :
  (∀ o, Q o g) → op_wp new_operation Q g.
Proof.
  intros HQ. apply wp_atomic. intros s F HI. eexists. split; [|apply HQ].
  intros o. specialize (HI o). simpl in *. destruct (decide (o = next_id (w_operations s))) as [->|Hne].
  - rewrite next_id_fresh in HI. rewrite lookup_insert_eq. left. unfold OperationResource_new.
    tokens. lia.
  - rewrite lookup_insert_ne by done. destruct (w_operations s !! o) as [r|].
    + by op_arith.
    + by op_arith.
Qed.

(** One step on the operation [o]: only its own entry must be checked. *)
Ltac op_update HI o r Ho :=
  let o' := fresh "o'" in
  intros o'; specialize (HI o'); simpl in *;
  destruct (decide (o' = o)) as [->|];
  [ rewrite Ho in HI; rewrite ?lookup_insert_eq, ?Ho; by op_arith
  | rewrite ?lookup_insert_ne by done; case_match; by op_arith ].

Lemma op_wp_complete o (Q : bool → gmultiset op_token → Prop) g :
  Q true ({[+ TWon o +]} ⊎ g) → Q false g →
  op_wp (compare_exchange_state o RUNNING COMPLETED) Q g.
Proof.
  intros Ht Hf. apply wp_atomic_opt. intros s F b s' HI Hs.
  destruct (w_operations s !! o) as [r|] eqn:Ho; [|done].
  destruct (Z.eqb_spec (op_state r) RUNNING) as [E|E]; simpl in Hs; simplify_eq/=.
  all: eexists; (split; [|eassumption]); op_update HI o r Ho.
Qed.


Lemma op_wp_cancel o (Q : bool → gmultiset op_token → Prop) g :
  (∀ b, Q b g) → op_wp (cancel o) Q g.
Proof.
  intros HQ. apply wp_bind, wp_atomic_opt. intros s F b s' HI Hs.
  destruct (w_operations s !! o) as [r|] eqn:Ho; [|done].
  destruct (Z.eqb_spec (op_state r) RUNNING) as [E|E]; simpl in Hs; simplify_eq/=.
  - exists ({[+ TCancel o +]} ⊎ g). split; [op_update HI o r Ho|].
    clear s F HI r Ho E. intros s F [] s' HI Hs. outcome.
    match goal with E : w_operations s !! o = Some ?r0 |- _ => rename E into Ho; rename r0 into r end.
    exists g. split; [op_update HI o r Ho|apply HQ].
  - exists g. split; [op_update HI o r Ho|apply HQ].
Qed.

Lemma op_wp_send o caller ref res (Q : bool → gmultiset op_token → Prop) g :
  (∀ b, Q b g) → op_wp (send_and_clear o caller ref res) Q ({[+ TWon o +]} ⊎ g).
Proof.
  intros HQ. apply wp_atomic. intros s F HI. destruct (beam_send _ _) as [ok x].
  exists g. split; [|apply HQ]. intros o'. specialize (HI o'). simpl in *.
  rewrite sent_app. simpl. case_match; by op_arith.
Qed.

Lemma op_wp_join_or_cancelled {T} (h : task_heap T) o tid (Q : option (option T) → gmultiset op_token → Prop) g :
  (∀ r, Q r g) → op_wp (join_or_cancelled h o tid) Q g.
Proof.
  intros HQ s F r0 s' HI Hin. outcome; (exists g; split; [|apply HQ]); [by simplify_eq|].
  match goal with E : w_operations s !! o = Some ?r1 |- _ =>
    rename E into Ho; rename r1 into r end.
  op_update HI o r Ho.
Qed.

Lemma op_wp_sleep o d (Q : unit → gmultiset op_token → Prop) g :
  Q tt g → op_wp (sleep_or_cancelled o d) Q g.
Proof.
  intros HQ s F [] s' HI Hin. outcome; (exists g; split; [|apply HQ]); [by simplify_eq|].
  match goal with E : w_operations s !! o = Some ?r1 |- _ =>
    rename E into Ho; rename r1 into r end.
  op_update HI o r Ho.
Qed.

Lemma op_wp_drop_result F (Q : unit → gmultiset op_token → Prop) out g :
  future_within (same op_view) F → Q tt g → op_wp (drop_result (fut_drop_output F) out) Q g.
Proof.
  intros (_ & _ & Hdrop) HQ. destruct out as [[v|]|]; simpl; try done.
  apply wp_frames; [apply Hdrop|by intros []].
Qed.

Lemma within_run_future Rel tid F :
  future_within Rel F → (∀ s, Rel s s) → within Rel (run_future tid F).
Proof. intros (Hb & Hc & Hd) HR. within_go; by simplify_eq. Qed.

Lemma op_wp_spawn F (Q : nat → gmultiset op_token → Prop) g :
  future_within (same op_view) F → (∀ t, Q t g) → op_wp (spawn F) Q g.
Proof.
  intros HF HQ. apply wp_bind. wp_skip. apply wp_bind, wp_fork_nil; [|apply HQ].
  apply wp_frames; [|done]. apply within_bind; [|intros; by within_solve].
  by apply within_run_future.
Qed.

Lemma op_wp_supervise o tid caller ref name F (Q : unit → gmultiset op_token → Prop) g :
  future_within (same op_view) F → Q tt g → op_wp (supervise o tid caller ref name F) Q g.
Proof.
  intros HF HQ. apply wp_bind, wp_bind, op_wp_join_or_cancelled. intros r.
  assert (Htail : ∀ result, op_wp (let! should_complete := compare_exchange_state o RUNNING COMPLETED in
            when should_complete (send_operation_result o (fut_drop_output F) caller ref (completion name result)) ;!
            demonitor caller ;! end_operation ;!
            when (negb should_complete) (drop_result (fut_drop_output F) (default None result))) Q g).
  { intros result. apply wp_bind, op_wp_complete; apply wp_bind.
    - apply wp_when; [intros _|done]. apply wp_bind, op_wp_send. intros b.
      apply wp_when; intros _; [apply op_wp_drop_result; [done|]|]; by wp_skips.
    - apply wp_when; [done|intros _]. apply wp_bind. wp_skip. apply wp_bind. wp_skip.
      apply wp_when; intros _; [by apply op_wp_drop_result|done]. }
  destruct r as [out|]; [apply Htail|].
  apply wp_bind. wp_skip. apply wp_bind. wp_skip. apply wp_bind, op_wp_drop_result; [done|].
  apply Htail.
Qed.

Lemma op_wp_start_endpoint_operation caller ref name F (Q : nresult nat → gmultiset op_token → Prop) g :
  future_within (same op_view) F → (∀ r, Q r g) →
  op_wp (start_endpoint_operation caller ref name F) Q g.
Proof.
  intros HF HQ. assert (HF' := HF). destruct HF' as (_ & Hcap & _).
  assert (Hdrop : ∀ r, op_wp (fut_captured F ;! Ret r) Q g).
  { intros r. apply wp_bind, wp_frames; [done|]. intros; apply HQ. }
  apply wp_bind. wp_skip. destruct a as [[]|error]; [|apply Hdrop].
  apply wp_bind, op_wp_new. intros o. apply wp_bind. wp_skip. destruct a; cbn [negb]; [|apply Hdrop].
  apply wp_bind. wp_skip. apply wp_bind, op_wp_spawn; [done|]. intros tid.
  apply wp_bind, wp_fork_nil; [by apply op_wp_supervise|apply HQ].
Qed.

Lemma op_wp_operation_start caller ref kind d (Q : nresult nat → gmultiset op_token → Prop) g :
  (∀ r, Q r g) → op_wp (operation_start caller ref kind d) Q g.
Proof.
  intros HQ. apply wp_bind. wp_skip. destruct a as [[]|error]; [|apply HQ].
  case_match; [apply HQ|]. apply wp_bind, op_wp_new. intros o. apply wp_bind. wp_skip.
  destruct a; cbn [negb]; [|apply HQ].
  apply wp_bind. wp_skip. apply wp_bind, wp_fork_nil; [|apply HQ].
  apply wp_bind, op_wp_sleep, wp_bind, op_wp_complete.
  - apply wp_bind, wp_when; [intros _|done]. apply wp_bind, wp_bind, op_wp_send.
    intros b. by wp_skips.
  - apply wp_bind, wp_when; [done|intros _]. by wp_skips.
Qed.

(** ** The count of operations in flight *)

(** Each task that will call [end_operation] holds one unit. *)
Definition counter_inv (v : Z) (g : Z) : Prop := v = wrap64 g.

Abbreviation active_wp p Q g := (wp (λ s, counter_inv (w_active_operations s)) p Q g).

Lemma active_wp_begin (Q : unit → Z → Prop) g :
  Q tt (1 + g) → active_wp begin_operation Q g.
Proof.
  intros HQ. apply wp_atomic. intros s F HI. exists (1 + g). split; [|done].
  unfold counter_inv in *. simpl in *. rewrite HI, wrap64_add. f_equal. lia.
Qed.

Lemma active_wp_end (Q : unit → Z → Prop) g :
  Q tt g → active_wp end_operation Q (1 + g).
Proof.
  intros HQ. apply wp_atomic. intros s F HI. exists g. split; [|done].
  unfold counter_inv in *. simpl in *. rewrite HI, wrap64_sub. f_equal. lia.
Qed.

Lemma active_wp_drop_result F (Q : unit → Z → Prop) out g :
  future_within (same w_active_operations) F → Q tt g → active_wp (drop_result (fut_drop_output F) out) Q g.
Proof.
  intros (_ & _ & Hdrop) HQ. destruct out as [[v|]|]; simpl; try done.
  apply wp_frames; [apply Hdrop|by intros []].
Qed.

Lemma active_wp_spawn F (Q : nat → Z → Prop) g :
  future_within (same w_active_operations) F → (∀ t, Q t g) → active_wp (spawn F) Q g.
Proof.
  intros HF HQ. apply wp_bind. wp_skip. apply wp_bind, wp_fork_nil; [|apply HQ].
  apply wp_frames; [|done]. apply within_bind; [|intros; by within_solve].
  by apply within_run_future.
Qed.

Lemma active_wp_supervise o tid caller ref name F :
  future_within (same w_active_operations) F →
  active_wp (supervise o tid caller ref name F) fin 1.
Proof.
  intros HF. apply wp_bind, wp_bind. wp_skip.
  assert (Htail : ∀ result, active_wp (let! should_complete := compare_exchange_state o RUNNING COMPLETED in
            when should_complete (send_operation_result o (fut_drop_output F) caller ref (completion name result)) ;!
            demonitor caller ;! end_operation ;!
            when (negb should_complete) (drop_result (fut_drop_output F) (default None result))) fin 1).
  { intros result. apply wp_bind. wp_skip. apply wp_bind.
    apply (wp_mono _ _ (λ _ g, g = 1)).
    2: { apply wp_when; [intros _|done]. apply wp_bind. wp_skip.
         apply wp_when; [intros _|done]. by apply active_wp_drop_result. }
    intros [] ? ->. apply wp_bind. wp_skip. apply wp_bind, (active_wp_end _ 0).
    apply wp_when; [intros _|done]. by apply active_wp_drop_result. }
  destruct a as [out|]; [apply Htail|].
  apply wp_bind. wp_skip. apply wp_bind. wp_skip. apply wp_bind, active_wp_drop_result; [done|].
  apply Htail.
Qed.

Lemma active_wp_start_endpoint_operation caller ref name F (Q : nresult nat → Z → Prop) g :
  future_within (same w_active_operations) F → (∀ r, Q r g) →
  active_wp (start_endpoint_operation caller ref name F) Q g.
Proof.
  intros HF HQ. assert (HF' := HF). destruct HF' as (_ & Hcap & _).
  assert (Hdrop : ∀ r, active_wp (fut_captured F ;! Ret r) Q g).
  { intros r. apply wp_bind, wp_frames; [done|]. intros; apply HQ. }
  apply wp_bind. wp_skip. destruct a as [[]|error]; [|apply Hdrop].
  apply wp_bind. wp_skip. apply wp_bind. wp_skip. destruct a0; cbn [negb]; [|apply Hdrop].
  apply wp_bind, active_wp_begin, wp_bind, active_wp_spawn; [done|]. intros tid.
  apply wp_bind, (wp_fork _ _ _ 1 g); [done|by apply active_wp_supervise|apply HQ].
Qed.

Lemma active_wp_operation_start caller ref kind d (Q : nresult nat → Z → Prop) g :
  (∀ r, Q r g) → active_wp (operation_start caller ref kind d) Q g.
Proof.
  intros HQ. apply wp_bind. wp_skip. destruct a as [[]|error]; [|apply HQ].
  case_match; [apply HQ|]. apply wp_bind. wp_skip. apply wp_bind. wp_skip.
  destruct a0; cbn [negb]; [|apply HQ].
  apply wp_bind, active_wp_begin, wp_bind, (wp_fork _ _ _ 1 g); [done| |apply HQ].
  apply wp_bind. wp_skip. apply wp_bind. wp_skip. apply wp_bind.
  apply (wp_mono _ _ (λ _ g, g = 1)); [|by wp_skips].
  intros [] ? ->. apply wp_bind. wp_skip. by apply (active_wp_end _ 0).
Qed.

(** ** Futures that hold tokens of another component *)

(** The part of the world that [proj] shows is not used by the operation
    machinery itself: runtime, operations, tasks, messages and outside world. *)
Class Aside {T} (proj : world → T) : Prop := {
  aside_ext x s : proj (set_w_ext x s) = proj s;
  aside_runtime x s : proj (set_w_runtime x s) = proj s;
  aside_tasks x s : proj (set_w_tasks x s) = proj s;
  aside_bind_tasks x s : proj (set_w_bind_tasks x s) = proj s;
  aside_mail x s : proj (set_w_mail x s) = proj s;
  aside_operations x s : proj (set_w_operations x s) = proj s;
  aside_active_operations x s : proj (set_w_active_operations x s) = proj s;
}.

Ltac aside :=
  within_go; unfold same; repeat case_match; simplify_eq/=;
  repeat first [rewrite aside_ext | rewrite aside_runtime | rewrite aside_tasks
               | rewrite aside_bind_tasks | rewrite aside_mail | rewrite aside_operations
               | rewrite aside_active_operations];
  try done.

Section aside.
#[local] Set Default Proof Using "Type*".
Context {T : Type} (proj : world → T) `{!Aside proj}.
Lemma runtime_aside : frames proj runtime.
Proof. aside. Qed.
Lemma new_operation_aside : frames proj new_operation.
Proof. aside. Qed.
Lemma monitor_aside p : frames proj (monitor p).
Proof. aside. Qed.
Lemma demonitor_aside p : frames proj (demonitor p).
Proof. aside. Qed.
Lemma begin_operation_aside : frames proj begin_operation.
Proof. aside. Qed.
Lemma end_operation_aside : frames proj end_operation.
Proof. aside. Qed.
Lemma compare_exchange_aside o x y : frames proj (compare_exchange_state o x y).
Proof. aside. Qed.
Lemma send_aside o caller ref r : frames proj (send_and_clear o caller ref r).
Proof. aside. Qed.
Lemma new_task_aside : frames proj (new_task future_tasks).
Proof. aside. Qed.
Lemma new_bind_task_aside : frames proj (new_task bind_tasks).
Proof. aside. Qed.
Lemma complete_task_aside tid out : frames proj (complete_task future_tasks tid out).
Proof. aside. Qed.
Lemma complete_bind_task_aside tid out : frames proj (complete_task bind_tasks tid out).
Proof. aside. Qed.
Lemma abort_task_aside tid : frames proj (abort_task future_tasks tid).
Proof. aside. Qed.
Lemma abort_bind_task_aside tid : frames proj (abort_task bind_tasks tid).
Proof. aside. Qed.
Lemma join_aside {U} (h : task_heap U) tid : frames proj (join h tid).
Proof. aside. Qed.
Lemma join_or_cancelled_aside {U} (h : task_heap U) o tid : frames proj (join_or_cancelled h o tid).
Proof. aside. Qed.
Lemma await_ext_aside {R U} (h : task_heap U) tid (f : ext → list (option R * ext)) :
  frames proj (await_in h tid (poll_ext f)).
Proof. apply within_await_ext; intros; unfold same; [apply aside_ext|done]. Qed.
Lemma await_start_aside {U} (h : task_heap U) tid : frames proj (await_in h tid (λ s, [(Some tt, s)])).
Proof. aside. Qed.
Lemma external_aside {R} (f : ext → R * ext) : frames proj (external f).
Proof.
  apply within_atomic. intros s. destruct (f (w_ext s)). simpl. apply aside_ext.
Qed.
Lemma external__aside (f : ext → ext) : frames proj (external_ f).
Proof. aside. Qed.
Lemma operation_start_aside caller ref kind d : frames proj (operation_start caller ref kind d).
Proof. aside. Qed.
Lemma cancel_aside o : frames proj (cancel o).
Proof. aside. Qed.

Lemma start_endpoint_operation_aside caller ref name F :
  future_within (same proj) F → frames proj (start_endpoint_operation caller ref name F).
Proof. intros (? & ? & ?). aside. Qed.

Context {G : Type} `{Ghost G}.
Variable J : T → G → Prop.

(** A future that owns the tokens [g] while it has not dropped its captures. *)
Definition future_wp (F : future) (g : G) : Prop :=
  (∀ tid, wp (λ s, J (proj s)) (fut_body F tid) (λ _ g', g' = g) g) ∧
  wp (λ s, J (proj s)) (fut_captured F) fin g ∧
  ∀ v, wp (λ s, J (proj s)) (fut_drop_output F v) fin gnil.

Lemma wp_skip_step {A} (p : nif A) (Q : A → G → Prop) g :
  frames proj p → (∀ a, Q a g) → wp (λ s, J (proj s)) p Q g.
Proof using Type. apply wp_frames. Qed.

Lemma future_frames_wp F : future_within (same proj) F → future_wp F gnil.
Proof using Type.
  intros (Hb & Hc & Hd).
  split_and!; intros; (apply wp_frames; [first [apply Hb|apply Hc|apply Hd]|]); [done|by intros []..].
Qed.

Lemma wp_run_future tid F g : future_wp F g → wp (λ s, J (proj s)) (run_future tid F) (λ _ g', g' = gnil) g.
Proof.
  intros (Hb & Hc & _). apply wp_finally. apply wp_bind, wp_skip_step; [apply await_start_aside|].
  intros start. apply (wp_mono _ _ (λ _ g', g' = g)).
  - intros a ? ->. eapply wp_mono; [|exact Hc]. by intros ? ? ->.
  - by destruct start; [apply Hb|].
Qed.

Lemma wp_drop_result F g out (Q : unit → G → Prop) :
  future_wp F g → Q tt gnil → wp (λ s, J (proj s)) (drop_result (fut_drop_output F) out) Q gnil.
Proof.
  intros (_ & _ & Hd) HQ. destruct out as [[v|]|]; simpl; try done.
  eapply wp_mono; [|apply Hd]. by intros [] ? ->.
Qed.

Lemma wp_supervise o tid caller ref name F g :
  future_wp F g → wp (λ s, J (proj s)) (supervise o tid caller ref name F) fin gnil.
Proof.
  intros HF.
  assert (Htail : ∀ result, wp (λ s, J (proj s))
            (let! should_complete := compare_exchange_state o RUNNING COMPLETED in
             when should_complete (send_operation_result o (fut_drop_output F) caller ref (completion name result)) ;!
             demonitor caller ;! end_operation ;!
             when (negb should_complete) (drop_result (fut_drop_output F) (default None result))) fin gnil).
  { intros result. apply wp_bind, wp_skip_step; [apply compare_exchange_aside|]. intros b.
    apply wp_bind, (wp_mono _ _ (λ _ g, g = gnil)).
    - intros [] ? ->. apply wp_bind, wp_skip_step; [apply demonitor_aside|]. intros _.
      apply wp_bind, wp_skip_step; [apply end_operation_aside|]. intros _.
      apply wp_when; intros _; [by eapply wp_drop_result|done].
    - apply wp_when; intros _; [|done]. apply wp_bind, wp_skip_step; [apply send_aside|].
      intros d. apply wp_when; intros _; [by eapply wp_drop_result|done]. }
  apply wp_bind, wp_bind, wp_skip_step; [apply join_or_cancelled_aside|]. intros [out|]; [apply Htail|].
  apply wp_bind, wp_skip_step; [apply abort_task_aside|]. intros _.
  apply wp_bind, wp_skip_step; [apply join_aside|]. intros out.
  apply wp_bind. eapply wp_drop_result; [done|]. apply Htail.
Qed.

Lemma wp_start_endpoint_operation caller ref name F g g0 g1 (Q : nresult nat → G → Prop) :
  g1 = gop g g0 → future_wp F g → (∀ r, Q r g0) →
  wp (λ s, J (proj s)) (start_endpoint_operation caller ref name F) Q g1.
Proof.
  intros -> HF HQ.
  assert (Hdrop : ∀ r, wp (λ s, J (proj s)) (fut_captured F ;! Ret r) Q (gop g g0)).
  { intros r. destruct HF as (_ & Hc & _). apply wp_bind.
    eapply wp_mono; [|apply wp_frame, Hc]. intros [] ? (h & -> & ->). rewrite gop_nil_l. apply HQ. }
  apply wp_bind, wp_skip_step; [apply runtime_aside|]. intros [[]|error]; [|apply Hdrop].
  apply wp_bind, wp_skip_step; [apply new_operation_aside|]. intros o.
  apply wp_bind, wp_skip_step; [apply monitor_aside|]. intros []; cbn [negb]; [|apply Hdrop].
  apply wp_bind, wp_skip_step; [apply begin_operation_aside|]. intros _.
  apply wp_bind, wp_bind, wp_skip_step; [apply new_task_aside|]. intros tid.
  apply wp_bind, (wp_fork _ _ _ g g0); [done| |].
  - apply wp_bind. eapply wp_mono; [|by apply wp_run_future]. intros out ? ->.
    apply wp_skip_step; [apply complete_task_aside|]. by intros [].
  - apply wp_bind, wp_fork_nil; [by eapply wp_supervise|apply HQ].
Qed.
End aside.

(** ** Functional behaviour *)

Lemma eval_on_operation {R} n o (f : OperationResource → R * OperationResource) s r :
  w_operations s !! o = Some r →
  eval n (on_operation o f) s =
    Some ((f r).1, set_w_operations (<[o := (f r).2]> (w_operations s)) s, []).
Proof. intros Ho. apply eval_atomic_opt. by rewrite Ho. Qed.

Lemma eval_join_finished {T} (h : task_heap T) n o tid s out :
  task_output h tid s = Some out → eval n (join_or_cancelled h o tid) s = Some (Some out, s, []).
Proof. intros Ht. unfold join_or_cancelled. simpl. by rewrite Ht. Qed.

(** C22: [cancel] wins exactly when the operation is still running; it then marks
    it cancelled and stores the wake-up; otherwise it changes nothing. *)
Theorem cancel_spec n o s r :
  w_operations s !! o = Some r →
  eval n (cancel o) s =
    Some (op_state r =? RUNNING,
          set_w_operations
            (<[o := if op_state r =? RUNNING then OperationRes CANCELLED true else r]> (w_operations s)) s,
          []).
Proof.
  intros Ho. unfold cancel, compare_exchange_state.
  rewrite eval_bind, (eval_on_operation _ _ _ _ _ Ho), and_then_nil, eval_bind.
  destruct (op_state r =? RUNNING); simpl; [|done].
  rewrite lookup_insert_eq. simpl. by rewrite insert_insert_eq.
Qed.

(** The last steps of every supervising task. *)
Definition uncounted (caller : pid) (s : world) : world :=
  set_w_active_operations (wrap64 (w_active_operations s - 1))
    (set_w_ext (beam_demonitor caller (w_ext s)) s).

(** C23: A future that ends before any cancellation moves the operation to
    [COMPLETED] and produces one message with its result, or with the category
    [internal] when it panicked; a value whose message could not be delivered is
    dropped, one that was delivered is not; then the monitor is removed and the
    operation is no longer counted. *)
Theorem supervise_completes n o tid caller ref name F s out delivered x :
  w_operations s !! o = Some (OperationRes RUNNING false) →
  task_output future_tasks tid s = Some out →
  beam_send caller (w_ext s) = (delivered, x) →
  let result := match out with
                | Some result => result
                | None => Err (NativeErr "internal" name "endpoint operation failed internally" ∅)
                end in
  eval n (supervise o tid caller ref name F) s =
    and_then
      (eval n (match result with
               | Ok v => if delivered then Ret tt else fut_drop_output F v
               | Err _ => Ret tt
               end)
        (set_w_mail (w_mail s ++ [Mail caller ref result o delivered])
          (set_w_ext x (set_w_operations (<[o := OperationRes COMPLETED false]> (w_operations s)) s))))
      (λ _ s', Some (tt, uncounted caller s', [])).
Proof.
  intros Ho Ht Hsend result. unfold supervise, await_task.
  rewrite !eval_bind, (eval_join_finished _ _ _ _ _ _ Ht), !and_then_nil, eval_ret, and_then_nil.
  rewrite eval_bind. unfold compare_exchange_state.
  rewrite (eval_on_operation _ _ _ _ _ Ho), and_then_nil. cbn [fst snd op_state]. rewrite Z.eqb_refl.
  cbn [fst snd when negb]. unfold send_operation_result. rewrite !eval_bind. unfold send_and_clear.
  rewrite eval_atomic. simpl. rewrite Hsend. simpl.
  subst result. destruct out as [[v|]|], delivered; simpl; try done.
  unfold set_op_state. simpl. by destruct (eval n (fut_drop_output F v) _) as [[[[] s'] cs]|].
Qed.

(** C24: Once [cancel] has won, a supervising task that finds the future ended sends
    nothing: it removes the monitor, no longer counts the operation, and drops the
    value that the future produced.  When that drop touches neither operations nor
    messages (no future of the crate has another one) the operation stays
    [CANCELLED] and no message is added. *)
Theorem supervise_cancelled n o tid caller ref name F s out permit :
  w_operations s !! o = Some (OperationRes CANCELLED permit) →
  task_output future_tasks tid s = Some out →
  eval n (supervise o tid caller ref name F) s =
    eval n (match out with Some (Ok v) => fut_drop_output F v | _ => Ret tt end) (uncounted caller s) ∧
  (future_within (same op_view) F → ∀ s' cs,
     eval n (supervise o tid caller ref name F) s = Some (tt, s', cs) →
     w_operations s' = w_operations s ∧ w_mail s' = w_mail s).
Proof.
  intros Ho Ht.
  assert (E : eval n (supervise o tid caller ref name F) s =
    eval n (match out with Some (Ok v) => fut_drop_output F v | _ => Ret tt end) (uncounted caller s)).
  { unfold supervise, await_task.
    rewrite !eval_bind, (eval_join_finished _ _ _ _ _ _ Ht), !and_then_nil, eval_ret, and_then_nil.
    rewrite eval_bind. unfold compare_exchange_state.
    rewrite (eval_on_operation _ _ _ _ _ Ho), and_then_nil. simpl. rewrite insert_id by done.
    destruct out as [[v|]|], s; done. }
  split; [exact E|]. intros (_ & _ & Hdrop) s' cs Hs'. rewrite E in Hs'.
  assert (Hw : within (same op_view)
                 (match out with Some (Ok v) => fut_drop_output F v | _ => Ret tt end))
    by (destruct out as [[v|]|]; [apply Hdrop|done..]).
  destruct (within_eval _ _ _ _ _ _ _ Hw Hs') as [[= Eo Em] _]. done.
Qed.

End operations.

#[export] Hint Extern 1 (within _ (await_in _ _ (poll_ext _))) =>
  apply within_await_ext; intros; first [reflexivity | apply op_final_same; reflexivity] : within.
#[export] Hint Extern 1 (within _ (await _ (poll_ext _))) =>
  apply within_await_ext; intros; first [reflexivity | apply op_final_same; reflexivity] : within.
#[export] Hint Extern 2 (op_final _ _) => apply op_final_same; reflexivity : within.
#[export] Hint Resolve op_final_compare_exchange op_final_notify op_final_new_operation
  op_final_send op_final_join_or_cancelled op_final_sleep op_final_cancel
  op_final_start_endpoint_operation op_final_operation_start : within.

Create HintDb aside.
#[export] Hint Resolve runtime_aside new_operation_aside monitor_aside demonitor_aside
  begin_operation_aside end_operation_aside compare_exchange_aside send_aside new_task_aside
  new_bind_task_aside complete_task_aside complete_bind_task_aside abort_task_aside
  abort_bind_task_aside join_aside join_or_cancelled_aside await_ext_aside await_start_aside
  external_aside external__aside operation_start_aside cancel_aside : aside.

Notation "'let?!' x := p 'in' k" := (fut_bind p (λ x, k))
  (at level 10, x name, p at level 200, k at level 200) : prog_scope.

Abbreviation op_wp p Q g := (wp (λ s, op_inv (op_view s)) p Q g).
Abbreviation active_wp p Q g := (wp (λ s, counter_inv (w_active_operations s)) p Q g).

(** The parts of the future [f], one by one. *)
Ltac future_solve f :=
  unfold f, future_within; split_and!; intros; cbn [fut_body fut_captured fut_drop_output]; within_solve.

(** An update of an entry that a view does not show. *)
Ltac same_entry :=
  match goal with
  | E : _ !! _ = Some ?v |- _ => by rewrite (fmap_insert_same _ _ _ v)
  end.
