(* ===== verification/Identity.v ===== *)
(** Identity (identity.rs): endpoint IDs, addresses and tickets.  Validation of
    what Elixir passes in, and the NIFs that wrap the pure functions of [iroh]. *)
From S2P Require Import Prelude Prog Std Extern State Operations.
From stdpp Require Import list options.
Local Open Scope Z_scope.
Local Open Scope prog_scope.
Local Open Scope iroh_scope.

Definition KEY_SIZE : Z := 32.
Definition MAX_ADDRS : Z := 64.
Definition MAX_RELAY_URL_BYTES : Z := 2048.
Definition MAX_TICKET_BYTES : Z := 64 * 1024.
Definition MAX_TICKET_TEXT_BYTES : Z := 128 * 1024.

(** [Vec::len] *)
Definition vlen {A} (l : list A) : Z := Z.of_nat (List.length l).

Record NormalizedAddr : Type := {
  na_relay_urls : list string;
  na_ip_addrs : list string;
}.

Record ParsedTicket : Type := {
  pt_endpoint_id : string;
  pt_relay_urls : list string;
  pt_ip_addrs : list string;
  pt_text : string;
}.

Definition invalid (op : atom) (msg : string) : NativeError :=
  native_error atoms.invalid_argument op msg.

Definition io_error (msg : string) : NativeError := native_error atoms.io atoms.identity_load msg.

Section identity.
Context `{net : NetApi}.

(** [bytes.try_into::<&[u8; KEY_SIZE]>()] *)
Definition to_key_array (b : bytes) : option bytes :=
  if blen b =? KEY_SIZE then Some b else None.

Definition id_from_bytes (b : bytes) : nresult EndpointId :=
  let? arr := ok_or (to_key_array b)
                (invalid atoms.endpoint_id "endpoint ID must contain exactly 32 bytes") in
  ok_or (id_from_bytes_ext arr)
    (invalid atoms.endpoint_id "endpoint ID is not a valid public key").

Definition normalize_addr (addr : EndpointAddr) : NormalizedAddr :=
  {| na_relay_urls := url_to_string <$> addr_relay_urls addr;
     na_ip_addrs := socket_addr_to_string <$> addr_ip_addrs addr |}.

(** The test on a parsed relay URL, the same in [build_addr] and [parse_config]. *)
Definition relay_url_rejected (url : RelayUrl) : bool :=
  negb (bool_decide (url_scheme url = "http"%string) || bool_decide (url_scheme url = "https"%string))
  || bool_decide (url_host_str url = None)
  || negb (is_empty_str (url_username url))
  || bool_decide (url_password url ≠ None)
  || bool_decide (url_query url ≠ None)
  || bool_decide (url_fragment url ≠ None).

(** One round of the first loop of [build_addr]. *)
Definition relay_transport (value : string) : nresult (transport_addr RelayUrl) :=
  if MAX_RELAY_URL_BYTES <? str_len value then
    Err (invalid atoms.endpoint_addr "relay URL is too long")
  else
    let? url := ok_or (url_from_str value) (invalid atoms.endpoint_addr "relay URL is invalid") in
    if relay_url_rejected url then
      Err (invalid atoms.endpoint_addr "relay URL must be an HTTP(S) URL without credentials")
    else Ok (Relay url).

(** One round of the second loop. *)
Definition ip_transport (value : string) : nresult (transport_addr RelayUrl) :=
  let? addr := ok_or (socket_addr_from_str value)
                 (invalid atoms.endpoint_addr "IP socket address is invalid") in
  Ok (Ip addr).

Definition build_addr (endpoint_id : bytes) (relay_urls ip_addrs : list string)
    : nresult EndpointAddr :=
  if MAX_ADDRS <? vlen relay_urls + vlen ip_addrs then
    Err (invalid atoms.endpoint_addr "endpoint address contains too many transport addresses")
  else
    let? id := id_from_bytes endpoint_id in
    let? relays := collect (relay_transport <$> relay_urls) in
    let? ips := collect (ip_transport <$> ip_addrs) in
    Ok (addr_from_parts id (relays ++ ips)).

Definition parsed_ticket (ticket : EndpointTicket) : ParsedTicket :=
  let addr := ticket_endpoint_addr ticket in
  let normalized := normalize_addr addr in
  {| pt_endpoint_id := id_to_string (addr_id addr);
     pt_relay_urls := na_relay_urls normalized;
     pt_ip_addrs := na_ip_addrs normalized;
     pt_text := ticket_to_string ticket |}.

Definition allocate_binary (b : bytes) (op : atom) : nif (nresult bytes) :=
  let! ok := observe (binary_alloc (blen b)) in
  Ret (if ok : bool then Ok b else Err (native_error atoms.internal op "binary allocation failed")).

(** A closure that cannot panic. *)
Definition pure_work {T} (r : nresult T) : nif (option (nresult T)) := Ret (Some r).
Definition work {T} (p : nif (nresult T)) : nif (option (nresult T)) :=
  let! r := p in Ret (Some r).

(** ** NIFs *)

(** [SecretKey::generate] may panic; the resource only holds the key. *)
Definition identity_generate : nif (nresult SecretKey) :=
  encode_guarded atoms.identity_generate
    (let! key := external secret_generate in Ret (option_map Ok key)).

Definition import_key (b : bytes) : nresult SecretKey :=
  let? arr := ok_or (to_key_array b)
                (invalid atoms.secret_key_import "secret key must contain exactly 32 bytes") in
  Ok (secret_from_bytes arr).

Definition secret_key_import (b : bytes) : nif (nresult SecretKey) :=
  encode_guarded atoms.secret_key_import (pure_work (import_key b)).

Definition secret_key_export (key : SecretKey) : nif (nresult bytes) :=
  guarded (work (allocate_binary (secret_to_bytes key) atoms.secret_key_export))
    (native_error atoms.internal atoms.secret_key_export failed_internally).

Definition secret_key_endpoint_id (key : SecretKey) : nif (nresult string) :=
  encode_guarded atoms.endpoint_id (pure_work (Ok (id_to_string (secret_public key)))).

Definition parse_id (text : string) : nresult string :=
  if 128 <? str_len text then Err (invalid atoms.endpoint_id "endpoint ID is too long")
  else let? id := ok_or (id_from_str text) (invalid atoms.endpoint_id "endpoint ID is invalid") in
       Ok (id_to_string id).

Definition endpoint_id_parse (text : string) : nif (nresult string) :=
  encode_guarded atoms.endpoint_id (pure_work (parse_id text)).

Definition endpoint_id_from_bytes (b : bytes) : nif (nresult string) :=
  encode_guarded atoms.endpoint_id
    (pure_work (let? id := id_from_bytes b in Ok (id_to_string id))).

Definition endpoint_addr_normalize (endpoint_id : bytes) (relay_urls ip_addrs : list string)
    : nif (nresult NormalizedAddr) :=
  encode_guarded atoms.endpoint_addr
    (pure_work (let? addr := build_addr endpoint_id relay_urls ip_addrs in
                Ok (normalize_addr addr))).

Definition endpoint_ticket_from_addr_text (endpoint_id : bytes) (relay_urls ip_addrs : list string)
    : nif (nresult string) :=
  encode_guarded atoms.endpoint_ticket
    (pure_work (let? addr := build_addr endpoint_id relay_urls ip_addrs in
                Ok (ticket_to_string (ticket_new addr)))).

Definition endpoint_ticket_from_addr_bytes (endpoint_id : bytes) (relay_urls ip_addrs : list string)
    : nif (nresult bytes) :=
  guarded
    (work match build_addr endpoint_id relay_urls ip_addrs with
          | Ok addr => allocate_binary (ticket_encode_bytes (ticket_new addr)) atoms.endpoint_ticket
          | Err error => Ret (Err error)
          end)
    (native_error atoms.internal atoms.endpoint_ticket failed_internally).

Definition parse_ticket_text (text : string) : nresult EndpointTicket :=
  if MAX_TICKET_TEXT_BYTES <? str_len text then
    Err (invalid atoms.endpoint_ticket "endpoint ticket is too large")
  else ok_or (ticket_from_str text) (invalid atoms.endpoint_ticket "endpoint ticket is invalid").

Definition endpoint_ticket_parse_text (text : string) : nif (nresult ParsedTicket) :=
  encode_guarded atoms.endpoint_ticket
    (pure_work (let? ticket := parse_ticket_text text in Ok (parsed_ticket ticket))).

Definition parse_ticket_bytes (b : bytes) : nresult EndpointTicket :=
  if MAX_TICKET_BYTES <? blen b then
    Err (invalid atoms.endpoint_ticket "endpoint ticket is too large")
  else ok_or (ticket_decode_bytes b) (invalid atoms.endpoint_ticket "endpoint ticket is invalid").

Definition endpoint_ticket_parse_bytes (b : bytes) : nif (nresult ParsedTicket) :=
  encode_guarded atoms.endpoint_ticket
    (pure_work (let? ticket := parse_ticket_bytes b in Ok (parsed_ticket ticket))).

Definition endpoint_ticket_text_to_bytes (text : string) : nif (nresult bytes) :=
  guarded
    (work match parse_ticket_text text with
          | Ok ticket => allocate_binary (ticket_encode_bytes ticket) atoms.endpoint_ticket
          | Err error => Ret (Err error)
          end)
    (native_error atoms.internal atoms.endpoint_ticket failed_internally).

(** ** What [iroh] and [iroh-tickets] document *)

(** An address made from parts lists exactly the relay URLs among them. *)
Class AddrLaws : Prop := {
  addr_relay_urls_from_parts id l u :
    In u (addr_relay_urls (addr_from_parts id l)) ↔ In (Relay u) l;
}.

(** A secret key is its 32 bytes. *)
Class SecretKeyLaws : Prop := {
  secret_bytes_roundtrip b : blen b = KEY_SIZE → secret_to_bytes (secret_from_bytes b) = b;
  secret_from_to k : secret_from_bytes (secret_to_bytes k) = k;
  secret_to_bytes_length k : blen (secret_to_bytes k) = KEY_SIZE;
}.

(** ** Specifications *)

(** A relay URL that may be dialed: HTTP(S) with a host, and nothing that could
    carry a credential. *)
Definition plain_http_url (url : RelayUrl) : Prop :=
  (url_scheme url = "http"%string ∨ url_scheme url = "https"%string) ∧
  is_Some (url_host_str url) ∧ url_username url = ""%string ∧
  url_password url = None ∧ url_query url = None ∧ url_fragment url = None.

Definition relay_accepted (value : string) (url : RelayUrl) : Prop :=
  str_len value ≤ MAX_RELAY_URL_BYTES ∧ url_from_str value = Some url ∧ plain_http_url url.

Lemma relay_url_rejected_spec url : relay_url_rejected url = false ↔ plain_http_url url.
Proof.
  unfold relay_url_rejected, plain_http_url.
  rewrite !orb_false_iff, !negb_false_iff, orb_true_iff, !bool_decide_eq_true, !bool_decide_eq_false.
  rewrite <-not_eq_None_Some.
  assert (is_empty_str (url_username url) = true ↔ url_username url = ""%string) as ->
    by (destruct (url_username url); split; by intros).
  split; [intros (((((? & ?) & ?) & Hp) & Hq) & Hf)|intros (? & ? & ? & Hp & Hq & Hf)];
    split_and!; try done; try (by intros ?); apply dec_stable; naive_solver.
Qed.

Lemma relay_transport_ok value t :
  relay_transport value = Ok t ↔ ∃ url, t = Relay url ∧ relay_accepted value url.
Proof.
  unfold relay_transport, relay_accepted.
  destruct (Z.ltb_spec MAX_RELAY_URL_BYTES (str_len value)).
  { split; [done|]. intros (? & ? & ? & ?). lia. }
  cbv beta iota. rewrite result_bind_ok. setoid_rewrite ok_or_ok.
  setoid_rewrite <-relay_url_rejected_spec.
  split.
  - intros (url & Hurl & Ht). case_match; simplify_eq. eauto 6.
  - intros (url & -> & ? & Hurl & Hr). exists url. by rewrite Hr.
Qed.

Lemma ip_transport_ok value t :
  ip_transport value = Ok t ↔ ∃ a, t = Ip a ∧ socket_addr_from_str value = Some a.
Proof.
  unfold ip_transport. rewrite result_bind_ok. setoid_rewrite ok_or_ok. naive_solver.
Qed.

(** The address that [build_addr] makes of acceptable inputs. *)
Definition addr_accepted (eid : bytes) (relays ips : list string) (addr : EndpointAddr) : Prop :=
  vlen relays + vlen ips ≤ MAX_ADDRS ∧
  ∃ id urls socks,
    blen eid = KEY_SIZE ∧ id_from_bytes_ext eid = Some id ∧
    Forall2 relay_accepted relays urls ∧
    Forall2 (λ s a, socket_addr_from_str s = Some a) ips socks ∧
    addr = addr_from_parts id ((Relay <$> urls) ++ (Ip <$> socks)).

Lemma id_from_bytes_ok eid id :
  id_from_bytes eid = Ok id ↔ blen eid = KEY_SIZE ∧ id_from_bytes_ext eid = Some id.
Proof.
  unfold id_from_bytes, to_key_array.
  destruct (Z.eqb_spec (blen eid) KEY_SIZE); simpl; [rewrite ok_or_ok|]; naive_solver.
Qed.

Lemma relays_ok relays rs :
  collect (relay_transport <$> relays) = Ok rs ↔ ∃ urls, rs = Relay <$> urls ∧ Forall2 relay_accepted relays urls.
Proof. apply (collect_fmap_ok relay_transport relay_accepted Relay), relay_transport_ok. Qed.

Lemma ips_ok ips sas :
  collect (ip_transport <$> ips) = Ok sas ↔
  ∃ socks, sas = Ip <$> socks ∧ Forall2 (λ s a, socket_addr_from_str s = Some a) ips socks.
Proof. apply (collect_fmap_ok ip_transport (λ s a, socket_addr_from_str s = Some a) Ip), ip_transport_ok. Qed.

Lemma build_addr_sound eid relays ips addr :
  build_addr eid relays ips = Ok addr → addr_accepted eid relays ips addr.
Proof.
  unfold build_addr, addr_accepted. destruct (Z.ltb_spec MAX_ADDRS (vlen relays + vlen ips)); [done|].
  intros (id & [? ?]%id_from_bytes_ok & Hr)%result_bind_ok.
  apply result_bind_ok in Hr as (rs & (urls & -> & ?)%relays_ok & Hi).
  apply result_bind_ok in Hi as (sas & (socks & -> & ?)%ips_ok & [= <-]). eauto 10.
Qed.

(** C32: [build_addr] accepts exactly the bounded lists of plain HTTP(S) relay
    URLs and parsable socket addresses next to a valid 32-byte endpoint ID, and
    returns the address made of them, relays first, in the order given. *)
Theorem build_addr_ok_iff eid relays ips addr :
  build_addr eid relays ips = Ok addr ↔ addr_accepted eid relays ips addr.
Proof.
  split; [apply build_addr_sound|]. intros (Hlen & id & urls & socks & ? & ? & ? & ? & ->).
  unfold build_addr. rewrite (proj2 (Z.ltb_ge _ _)) by done.
  rewrite (proj2 (id_from_bytes_ok eid id)) by done. simpl.
  rewrite (proj2 (relays_ok relays (Relay <$> urls))) by eauto. simpl.
  by rewrite (proj2 (ips_ok ips (Ip <$> socks))) by eauto.
Qed.

(** C33: No address accepted from Elixir carries a relay URL with a user name,
    a password, a query or a fragment. *)
Theorem build_addr_no_credentials `{!AddrLaws} eid relays ips addr u :
  build_addr eid relays ips = Ok addr → In u (addr_relay_urls addr) → plain_http_url u.
Proof.
  intros (_ & id & urls & socks & _ & _ & Hr & _ & ->)%build_addr_sound.
  rewrite addr_relay_urls_from_parts, in_app_iff.
  intros [Hu|Hu]; apply list_elem_of_In, list_elem_of_fmap in Hu as (v & Hv & Hin); [|done].
  injection Hv as <-. apply list_elem_of_lookup in Hin as (i & Hi).
  destruct (Forall2_lookup_r _ _ _ _ _ Hr Hi) as (s & _ & _ & _ & Hp). done.
Qed.

(** C35: A 32-byte secret imports, and exporting the key gives the same bytes
    unless the binary cannot be allocated; any other length is refused. *)
Theorem secret_key_roundtrip `{!SecretKeyLaws} n b s :
  eval n (secret_key_import b) s =
    Some (if blen b =? KEY_SIZE then Ok (secret_from_bytes b)
          else Err (invalid atoms.secret_key_import "secret key must contain exactly 32 bytes"),
          s, []) ∧
  (blen b = KEY_SIZE → binary_alloc KEY_SIZE (w_ext s) = true →
   eval n (secret_key_export (secret_from_bytes b)) s = Some (Ok b, s, [])).
Proof.
  split.
  - simpl. unfold import_key, to_key_array. by destruct (blen b =? KEY_SIZE).
  - intros Hb Ha. simpl. rewrite secret_bytes_roundtrip, Hb by done. by rewrite Ha.
Qed.
End identity.
