(* ===== verification/IdentityFile.v ===== *)
(** The identity file (identity.rs, from [read_key] on): reading a key, creating
    it under a temporary name and publishing it with a hard link.

    A call of [std::fs] is one atomic step that the operating system may fail
    ([os_fault]); [create_dir_all] is one step here.  Symbolic links and
    permission bits are not modelled, and [..] is not resolved. *)
From S2P Require Import Prelude Prog Std Extern State Operations Identity.
From stdpp Require Import list options.
Local Open Scope Z_scope.
Local Open Scope prog_scope.
Local Open Scope iroh_scope.

Inductive io_kind : Type := AlreadyExists | OtherKind.

(** ** Calls of [std::fs] *)

(** The current directory and the root always exist. *)
Definition fs_is_dir (f : fs) (p : path) : bool :=
  match p with
  | [] | [RootDir] | [CurDir] => true
  | _ => match fs_nodes f !! p with Some Dir => true | _ => false end
  end.

Definition fs_exists (f : fs) (p : path) : bool :=
  match p with
  | [] => false
  | _ => fs_is_dir f p || match fs_nodes f !! p with Some _ => true | None => false end
  end.

(** Is it a regular file, and its length. *)
Definition fs_metadata (f : fs) (p : path) : result (bool * Z) io_kind :=
  match fs_file f p with
  | Some b => Ok (true, blen b)
  | None => if fs_exists f p then Ok (false, 0) else Err OtherKind
  end.

Definition fs_read (f : fs) (p : path) : result bytes io_kind := ok_or (fs_file f p) OtherKind.

(** Create the directories of the prefixes of [p], the shortest first. *)
Fixpoint fs_create_dirs (f : fs) (pre rest : path) : result unit io_kind * fs :=
  match rest with
  | [] => (Ok tt, f)
  | c :: rest =>
      let p := pre ++ [c] in
      if fs_is_dir f p then fs_create_dirs f p rest
      else match fs_nodes f !! p with
           | Some _ => (Err OtherKind, f)
           | None => fs_create_dirs (Fs (<[p := Dir]> (fs_nodes f)) (fs_inodes f) (fs_next_inode f)) p rest
           end
  end.
Definition fs_create_dir_all (f : fs) (p : path) : result unit io_kind * fs := fs_create_dirs f [] p.

(** [create_new(true)]: the handle is the inode. *)
Definition fs_create_new (f : fs) (p : path) : result nat io_kind * fs :=
  match path_parent p with
  | Some parent =>
      if negb (fs_is_dir f parent) then (Err OtherKind, f)
      else match fs_nodes f !! p with
           | Some _ => (Err AlreadyExists, f)
           | None => let i := fs_next_inode f in
                     (Ok i, Fs (<[p := File i]> (fs_nodes f)) (<[i := []]> (fs_inodes f)) (S i))
           end
  | None => (Err OtherKind, f)
  end.

(** What a write to the handle leaves in the file. *)
Definition fs_write (f : fs) (i : nat) (b : bytes) : fs :=
  Fs (fs_nodes f) (<[i := b]> (fs_inodes f)) (fs_next_inode f).

Definition fs_remove_file (f : fs) (p : path) : result unit io_kind * fs :=
  match fs_nodes f !! p with
  | Some (File _) => (Ok tt, Fs (delete p (fs_nodes f)) (fs_inodes f) (fs_next_inode f))
  | _ => (Err OtherKind, f)
  end.

(** A link never replaces an entry. *)
Definition fs_hard_link (f : fs) (src dst : path) : result unit io_kind * fs :=
  match fs_nodes f !! src with
  | Some (File i) =>
      match path_parent dst with
      | Some parent =>
          if negb (fs_is_dir f parent) then (Err OtherKind, f)
          else if fs_exists f dst then (Err AlreadyExists, f)
          else (Ok tt, Fs (<[dst := File i]> (fs_nodes f)) (fs_inodes f) (fs_next_inode f))
      | None => (Err OtherKind, f)
      end
  | _ => (Err OtherKind, f)
  end.

Section identity_file.
Context `{net : NetApi}.

Definition fs_call {R} (f : fs → result R io_kind * fs) : nif (result R io_kind) :=
  atomic (λ s, let '(fault, x) := os_fault (w_ext s) in
               if fault : bool then (Err OtherKind, set_w_ext x s)
               else let '(r, files) := f (w_fs s) in (r, set_w_fs files (set_w_ext x s))).

Definition fs_query {R} (f : fs → result R io_kind) : nif (result R io_kind) :=
  fs_call (λ files, (f files, files)).

(** [write_all]: a failed write leaves a prefix of the bytes. *)
Definition write_all (i : nat) (b : bytes) : nif (result unit io_kind) :=
  atomic (λ s, let '(fault, x) := os_fault (w_ext s) in
               if fault : bool
               then (Err OtherKind, set_w_fs (fs_write (w_fs s) i (take (os_written (w_ext s)) b)) (set_w_ext x s))
               else (Ok tt, set_w_fs (fs_write (w_fs s) i b) (set_w_ext x s))).

Definition sync_all : nif (result unit io_kind) := fs_query (λ _, Ok tt).

(** ** identity.rs *)

Definition invalid_format : NativeError := invalid atoms.identity_load "identity file has an invalid format".

(** [?] on a result that is already there *)
Definition returns {T} (r : nresult T) : nif (option (nresult T)) := Ret (Some r).

Definition read_key (p : path) : nif (option (nresult SecretKey)) :=
  let! metadata := fs_query (λ f, fs_metadata f p) in
  match metadata with
  | Err _ => returns (Err (io_error "identity file could not be read"))
  | Ok (is_file, len) =>
      if negb is_file || negb (len =? KEY_SIZE) then returns (Err invalid_format)
      else
        let! b := fs_query (λ f, fs_read f p) in
        match b with
        | Err _ => returns (Err (io_error "identity file could not be read"))
        | Ok b => returns (let? b := ok_or (to_key_array b) invalid_format in Ok (secret_from_bytes b))
        end
  end.

Definition no_parent : NativeError := invalid atoms.identity_load "identity path has no parent directory".

(** [TEMP_COUNTER.fetch_add(1)] *)
Definition next_temp : nif Z :=
  atomic (λ s, (w_temp_counter s, set_w_temp_counter (wrap64 (w_temp_counter s + 1)) s)).

Definition temp_name (name : string) (sequence : Z) : string :=
  ("." ++ name ++ "." ++ os_pid ++ "." ++ Display.dec sequence ++ ".tmp")%string.

Definition temp_path (p : path) : nif (nresult path) :=
  match path_parent p with
  | None => Ret (Err no_parent)
  | Some parent =>
      match path_file_name p with
      | None => Ret (Err (invalid atoms.identity_load "identity path is invalid"))
      | Some name => let! sequence := next_temp in
                     Ret (Ok (path_join parent (temp_name name sequence)))
      end
  end.

Definition create_temp (p : path) : nif (result nat io_kind) := fs_call (λ f, fs_create_new f p).

Definition remove_file (p : path) : nif unit :=
  let! _ := fs_call (λ f, fs_remove_file f p) in Ret tt.

(** [write_all(&bytes).and_then(|()| sync_all())] *)
Definition write_and_sync (i : nat) (b : bytes) : nif (result unit io_kind) :=
  let! written := write_all i b in
  match written with Ok _ => sync_all | Err e => Ret (Err e) end.

Definition create_identity (p : path) : nif (option (nresult SecretKey)) :=
  match path_parent p with
  | None => returns (Err no_parent)
  | Some parent =>
      let! created := fs_call (λ f, fs_create_dir_all f parent) in
      match created with
      | Err _ => returns (Err (io_error "identity directory could not be created"))
      | Ok _ =>
          let! key := external secret_generate in
          match key with
          | None => Ret None
          | Some key =>
              let! temp := temp_path p in
              match temp with
              | Err e => returns (Err e)
              | Ok temp =>
                  let! file := create_temp temp in
                  match file with
                  | Err _ => returns (Err (io_error "identity temporary file failed"))
                  | Ok file =>
                      let! write_result := write_and_sync file (secret_to_bytes key) in
                      match write_result with
                      | Err _ =>
                          remove_file temp ;!
                          returns (Err (io_error "identity temporary file could not be written"))
                      | Ok _ =>
                          let! publication := fs_call (λ f, fs_hard_link f temp p) in
                          remove_file temp ;!
                          match publication with
                          | Ok _ => returns (Ok key)
                          | Err AlreadyExists => read_key p
                          | Err OtherKind => returns (Err (io_error "identity file could not be published"))
                          end
                      end
                  end
              end
          end
      end
  end.

(** [path.exists()]: an error counts as no. *)
Definition exists_ (p : path) : nif bool :=
  let! r := fs_query (λ f, fs_metadata f p) in Ret (is_ok r).

Definition load_or_create (text : string) : nif (option (nresult SecretKey)) :=
  if is_empty_str text || (32 * 1024 <? str_len text) then
    returns (Err (invalid atoms.identity_load "identity path is invalid"))
  else
    let p := path_of_string text in
    let! exists_already := exists_ p in
    if exists_already : bool then read_key p else create_identity p.

Definition identity_load_or_create (text : string) : nif (nresult SecretKey) :=
  encode_guarded atoms.identity_load (load_or_create text).

(** ** What observers of the directory see *)

(** A name that [temp_path] produces. *)
Definition is_temp (p : path) : Prop := ∃ parent name sequence, p = path_join parent (temp_name name sequence).

(** Every entry names an inode that was allocated. *)
Definition fs_wf (f : fs) : Prop := ∀ p i, fs_nodes f !! p = Some (File i) → (i < fs_next_inode f)%nat.

(** [(p, i, b)]: the thread created the temporary file [p], whose inode [i] it
    alone writes and which holds [b]. *)
Abbreviation temp_token := (path * nat * bytes)%type.

(** An entry that is not temporary is an old one or a complete key. *)
Definition entry_ok (f0 f : fs) (p : path) (i : nat) : Prop :=
  (fs_nodes f0 !! p = Some (File i) ∧ (i < fs_next_inode f0)%nat) ∨
  (∃ b, fs_inodes f !! i = Some b ∧ blen b = KEY_SIZE ∧ (fs_next_inode f0 ≤ i)%nat).

(** Nothing old changes. *)
Record fs_extends (f0 f : fs) : Prop := {
  ext_inodes i : (i < fs_next_inode f0)%nat → fs_inodes f !! i = fs_inodes f0 !! i;
  ext_next : (fs_next_inode f0 ≤ fs_next_inode f)%nat;
  ext_nodes p n : ¬ is_temp p → fs_nodes f0 !! p = Some n → fs_nodes f !! p = Some n;
}.

Record file_inv (f0 f : fs) (g : gmultiset temp_token) : Prop := {
  fi_extends : fs_extends f0 f;
  fi_wf : fs_wf f;
  fi_entries p i : fs_nodes f !! p = Some (File i) → ¬ is_temp p → entry_ok f0 f p i;
  fi_temp p i b : 0 < tok (p, i, b) g →
    fs_nodes f !! p = Some (File i) ∧ fs_inodes f !! i = Some b ∧ is_temp p ∧ (fs_next_inode f0 ≤ i)%nat;
  fi_once t : tok t g ≤ 1;
  fi_path p p' i b b' : 0 < tok (p, i, b) g → 0 < tok (p', i, b') g → p = p';
}.

Abbreviation file_wp f0 p Q g := (wp (λ s, file_inv f0 (w_fs s)) p Q g).

#[export] Instance w_fs_aside : Aside w_fs.
Proof. by constructor. Qed.

(** Tokens may be forgotten. *)
Lemma file_inv_weaken f0 f g1 g2 : file_inv f0 f (g1 ⊎ g2) → file_inv f0 f g2.
Proof.
  intros [H1 H2 H3 H4 H5 H6].
  assert (Hle : ∀ t, tok t g2 ≤ tok t (g1 ⊎ g2)) by (intros t; rewrite tok_union; pose proof (tok_nonneg t g1); lia).
  constructor; [done..| | |].
  - intros p i b Ht. apply H4. specialize (Hle (p, i, b)). lia.
  - intros t. specialize (H5 t). specialize (Hle t). lia.
  - intros p p' i b b' Ht Ht'. pose proof (Hle (p, i, b)). pose proof (Hle (p', i, b')).
    apply (H6 p p' i b b'); lia.
Qed.

(** A step that only adds entries that are not files. *)
Lemma file_inv_dirs f0 f f' g :
  file_inv f0 f g →
  (∀ p n, fs_nodes f !! p = Some n → fs_nodes f' !! p = Some n) →
  (∀ p i, fs_nodes f' !! p = Some (File i) → fs_nodes f !! p = Some (File i)) →
  fs_inodes f' = fs_inodes f → fs_next_inode f' = fs_next_inode f → file_inv f0 f' g.
Proof.
  intros [[E1 E2 E3] H2 H3 H4 H5 H6] Hold Hnew Hi Hn. constructor; try done.
  - constructor; rewrite ?Hi, ?Hn; eauto.
  - intros p i Hp. rewrite Hn. eauto.
  - intros p i Hp Ht. unfold entry_ok. rewrite Hi. by apply H3; [apply Hnew|].
  - intros p i b Ht. rewrite Hi. destruct (H4 p i b Ht) as (? & ? & ? & ?). split_and!; eauto.
Qed.

Lemma fs_create_dirs_spec rest f pre :
  let f' := (fs_create_dirs f pre rest).2 in
  (∀ p n, fs_nodes f !! p = Some n → fs_nodes f' !! p = Some n) ∧
  (∀ p i, fs_nodes f' !! p = Some (File i) → fs_nodes f !! p = Some (File i)) ∧
  fs_inodes f' = fs_inodes f ∧ fs_next_inode f' = fs_next_inode f.
Proof.
  revert f pre. induction rest as [|c rest IH]; intros f pre; cbn [fs_create_dirs]; [done|].
  destruct (fs_is_dir f (pre ++ [c])); [apply IH|].
  destruct (fs_nodes f !! (pre ++ [c])) eqn:Hp; [done|]. cbv zeta.
  destruct (IH (Fs (<[pre ++ [c]:=Dir]> (fs_nodes f)) (fs_inodes f) (fs_next_inode f)) (pre ++ [c]))
    as (H1 & H2 & H3 & H4). simpl in *. split_and!; [| |done..].
  - intros p n Hpn. apply H1. rewrite lookup_insert_ne; [done|congruence].
  - intros p i Hpi%H2. destruct (decide (p = pre ++ [c])) as [->|].
    + by rewrite lookup_insert_eq in Hpi.
    + by rewrite lookup_insert_ne in Hpi.
Qed.

(** Only entries along the path are created. *)
Lemma fs_create_dirs_apart rest f pre q :
  (length pre + length rest < length q)%nat →
  fs_nodes (fs_create_dirs f pre rest).2 !! q = fs_nodes f !! q.
Proof.
  revert f pre. induction rest as [|c rest IH]; intros f pre Hq; cbn [fs_create_dirs]; [done|].
  simpl in Hq. assert (Hq' : (length (pre ++ [c]) + length rest < length q)%nat)
    by (rewrite length_app; simpl; lia).
  destruct (fs_is_dir f (pre ++ [c])); [by apply IH|].
  destruct (fs_nodes f !! (pre ++ [c])); [done|]. cbv zeta. rewrite IH by done. simpl.
  rewrite lookup_insert_ne; [done|]. intros E. rewrite E in Hq'. lia.
Qed.

Lemma fs_create_dirs_dir rest f pre :
  (fs_create_dirs f pre rest).1 = Ok tt → fs_is_dir f pre = true →
  fs_is_dir (fs_create_dirs f pre rest).2 (pre ++ rest) = true.
Proof.
  revert f pre. induction rest as [|c rest IH]; intros f pre; cbn [fs_create_dirs].
  { by rewrite app_nil_r. }
  replace (pre ++ c :: rest) with ((pre ++ [c]) ++ rest) by by rewrite <-app_assoc.
  destruct (fs_is_dir f (pre ++ [c])) eqn:Hd; [intros Hok _; by apply IH|].
  destruct (fs_nodes f !! (pre ++ [c])); [done|]. intros Hok _. apply IH; [done|].
  unfold fs_is_dir. simpl. destruct (pre ++ [c]) as [|[] [|]]; try done; by rewrite lookup_insert_eq.
Qed.

(** One call of [std::fs], which may also fail without effect. *)
Lemma file_wp_call {R} (f0 : fs) (f : fs → result R io_kind * fs) (Q : result R io_kind → gmultiset temp_token → Prop) g :
  Q (Err OtherKind) g →
  (∀ files F, file_inv f0 files (g ⊎ F) → ∃ g', file_inv f0 (f files).2 (g' ⊎ F) ∧ Q (f files).1 g') →
  file_wp f0 (fs_call f) Q g.
Proof.
  intros Herr Hf. apply wp_atomic. intros s F HI. destruct (os_fault (w_ext s)) as [[] x]; [by exists g|].
  destruct (Hf (w_fs s) F HI) as (g' & ? & ?). exists g'. by destruct (f (w_fs s)).
Qed.

Lemma file_wp_create_dirs (f0 : fs) (p : path) (Q : result unit io_kind → gmultiset temp_token → Prop) g :
  (∀ r, Q r g) → file_wp f0 (fs_call (λ f, fs_create_dir_all f p)) Q g.
Proof.
  intros HQ. apply file_wp_call; [apply HQ|]. intros files F HI. exists g. split; [|apply HQ].
  destruct (fs_create_dirs_spec p files []) as (? & ? & ? & ?). by eapply file_inv_dirs.
Qed.

Lemma file_wp_create_temp (f0 : fs) (p : path) (Q : result nat io_kind → gmultiset temp_token → Prop) g :
  is_temp p → (∀ i, Q (Ok i) ({[+ (p, i, [])  +]} ⊎ g)) → (∀ e, Q (Err e) g) →
  file_wp f0 (create_temp p) Q g.
Proof.
  intros Hp Hok Herr. apply file_wp_call; [apply Herr|]. intros f F HI. unfold fs_create_new.
  destruct (path_parent p) as [parent|]; [|by exists g; split; [|apply Herr]].
  destruct (fs_is_dir f parent); cbn [negb]; [|by exists g; split; [|apply Herr]].
  destruct (fs_nodes f !! p) eqn:Hn; [by exists g; split; [|apply Herr]|]. simpl.
  eexists. split; [|apply Hok]. set (i := fs_next_inode f).
  destruct HI as [[E1 E2 E3] H2 H3 H4 H5 H6]. rewrite <-(assoc_L (⊎)).
  assert (Hold : ∀ p' i' b', 0 < tok (p', i', b') (g ⊎ F) → p' ≠ p ∧ i' ≠ i).
  { intros p' i' b' (Hp' & _)%H4. split; [congruence|]. apply H2 in Hp'. unfold i. lia. }
  assert (Hcase : ∀ p' i' b', 0 < tok (p', i', b') ({[+ (p, i, []) +]} ⊎ (g ⊎ F)) →
    (p', i', b') = (p, i, []) ∨ 0 < tok (p', i', b') (g ⊎ F)).
  { intros p' i' b'. rewrite tok_union, tok_single. case_decide; [by left|right; lia]. }
  constructor; simpl.
  - constructor; simpl; [| lia |].
    + intros j Hj. rewrite lookup_insert_ne; [by apply E1|unfold i; lia].
    + intros p' n Ht Hp'. rewrite lookup_insert_ne; [by apply E3|intros ->; done].
  - intros p' j. simpl. destruct (decide (p' = p)) as [->|].
    + rewrite lookup_insert_eq. intros [= <-]. lia.
    + rewrite lookup_insert_ne by done. intros ?%H2. lia.
  - intros p' j. destruct (decide (p' = p)) as [->|]; [done|].
    rewrite lookup_insert_ne by done. intros Hj Ht. destruct (H3 p' j Hj Ht) as [?|(b & ? & ?)]; [by left|].
    right. exists b. simpl. rewrite lookup_insert_ne; [done|]. apply H2 in Hj. unfold i. lia.
  - intros p' i' b' [[= -> -> ->]|Ht]%Hcase.
    + rewrite !lookup_insert_eq. done.
    + destruct (Hold _ _ _ Ht). rewrite !lookup_insert_ne by congruence. eauto.
  - intros [[p' i'] b']. rewrite tok_union, tok_single. case_decide as Heq; [|apply H5].
    injection Heq as -> -> ->. destruct (Z.eq_dec (tok (p, i, []) (g ⊎ F)) 0); [lia|].
    destruct (Hold p i []); [|done]. pose proof (tok_nonneg (p, i, []) (g ⊎ F)). lia.
  - intros p1 p2 i' b1 b2 Ht1%Hcase Ht2%Hcase. destruct Ht1 as [[=]|Ht1], Ht2 as [[=]|Ht2]; subst.
    + done.
    + by destruct (Hold _ _ _ Ht2).
    + by destruct (Hold _ _ _ Ht1).
    + by eapply H6.
Qed.

Lemma temp_cases (t t' : temp_token) G :
  0 < tok t' ({[+ t +]} ⊎ G) → t' = t ∨ 0 < tok t' G.
Proof. rewrite tok_union, tok_single. case_decide; [by left|right; lia]. Qed.

(** The owner of a temporary file is alone with its inode and its name. *)
Lemma temp_exclusive (f0 f : fs) (p : path) (i : nat) (b : bytes) (G : gmultiset temp_token) :
  file_inv f0 f ({[+ (p, i, b) +]} ⊎ G) →
  (fs_nodes f !! p = Some (File i) ∧ fs_inodes f !! i = Some b ∧ is_temp p ∧ (fs_next_inode f0 ≤ i)%nat) ∧
  tok (p, i, b) G = 0 ∧ ∀ p' i' b', 0 < tok (p', i', b') G → p' ≠ p ∧ i' ≠ i.
Proof.
  intros [_ _ _ H4 H5 H6]. set (t := (p, i, b)).
  assert (Ht : 0 < tok t ({[+ t +]} ⊎ G)) by (rewrite tok_union, tok_single, decide_True by done;
    pose proof (tok_nonneg t G); lia).
  assert (H0 : tok t G = 0).
  { specialize (H5 t). rewrite tok_union, tok_single, decide_True in H5 by done.
    pose proof (tok_nonneg t G). lia. }
  split; [by apply H4|]. split; [done|]. intros p' i' b' Ht'.
  assert (Hin : 0 < tok (p', i', b') ({[+ t +]} ⊎ G)).
  { rewrite tok_union. pose proof (tok_nonneg (p', i', b') {[+ t +]}). lia. }
  destruct (H4 _ _ _ Ht) as (Hp & Hi & _), (H4 _ _ _ Hin) as (Hp' & Hi' & _).
  assert (Hne : (p', i', b') ≠ t) by (intros E; rewrite E, H0 in Ht'; lia).
  split; intros ->.
  - assert (i' = i) as -> by congruence. apply Hne. unfold t. congruence.
  - assert (p = p') as -> by (by eapply H6). apply Hne. unfold t. congruence.
Qed.

Lemma file_inv_write (f0 f : fs) (p : path) (i : nat) (b b' : bytes) (G : gmultiset temp_token) :
  blen b ≠ KEY_SIZE → file_inv f0 f ({[+ (p, i, b) +]} ⊎ G) →
  file_inv f0 (fs_write f i b') ({[+ (p, i, b') +]} ⊎ G).
Proof.
  intros Hb HI. destruct (temp_exclusive _ _ _ _ _ _ HI) as ((Hp & Hi & Htemp & Hnew) & _ & Hex).
  assert (HG := file_inv_weaken _ _ _ _ HI). destruct HI as [[E1 E2 E3] H2 H3 _ _ _].
  destruct HG as [_ _ _ H4 H5 H6]. constructor; simpl.
  - constructor; simpl; [|done|done]. intros j Hj. rewrite lookup_insert_ne by lia. by apply E1.
  - exact H2.
  - intros p' j Hj Ht. destruct (H3 p' j Hj Ht) as [?|(c & Hc & Hlen & ?)]; [by left|].
    right. exists c. simpl. rewrite lookup_insert_ne; [done|]. intros ->. congruence.
  - intros p' i' c [[=]|Ht]%temp_cases; subst.
    + by rewrite lookup_insert_eq.
    + destruct (Hex _ _ _ Ht). rewrite lookup_insert_ne by congruence. eauto.
  - intros [[p' i'] c]. rewrite tok_union, tok_single. case_decide as E; [|apply H5].
    injection E as -> -> ->. destruct (Z.eq_dec (tok (p, i, b') G) 0) as [->|]; [lia|].
    destruct (Hex p i b'); [|done]. pose proof (tok_nonneg (p, i, b') G). lia.
  - intros p1 p2 i' b1 b2 [[=]|Ht1]%temp_cases [[=]|Ht2]%temp_cases; subst.
    + done.
    + by destruct (Hex _ _ _ Ht2).
    + by destruct (Hex _ _ _ Ht1).
    + by eapply H6.
Qed.

Lemma file_wp_write (f0 : fs) (p : path) (i : nat) (b : bytes) (Q : result unit io_kind → gmultiset temp_token → Prop) g :
  Q (Ok tt) ({[+ (p, i, b) +]} ⊎ g) → (∀ e b', Q (Err e) ({[+ (p, i, b') +]} ⊎ g)) →
  file_wp f0 (write_all i b) Q ({[+ (p, i, []) +]} ⊎ g).
Proof.
  intros Hok Herr. apply wp_atomic. intros s F HI. change (gop ?x ?y) with (x ⊎ y) in *.
  rewrite <-(assoc_L (⊎)) in HI.
  assert (Hw : ∀ b', file_inv f0 (fs_write (w_fs s) i b') ({[+ (p, i, b') +]} ⊎ g ⊎ F)).
  { intros b'. rewrite <-(assoc_L (⊎)). by apply (file_inv_write _ _ _ _ []). }
  destruct (os_fault (w_ext s)) as [[] x]; simpl; eexists; (split; [apply Hw|auto]).
Qed.

Lemma file_inv_remove (f0 f : fs) (p : path) (i : nat) (b : bytes) (G : gmultiset temp_token) :
  file_inv f0 f ({[+ (p, i, b) +]} ⊎ G) → file_inv f0 (fs_remove_file f p).2 G.
Proof.
  intros HI. destruct (temp_exclusive _ _ _ _ _ _ HI) as ((Hp & Hi & Htemp & Hnew) & _ & Hex).
  apply file_inv_weaken in HI. unfold fs_remove_file. rewrite Hp. simpl.
  destruct HI as [[E1 E2 E3] H2 H3 H4 H5 H6].
  constructor; simpl; [|intros p' j|intros p' j|intros p' j c|done|done].
  - constructor; simpl; [done|done|]. intros p' n Ht Hn. rewrite lookup_delete_ne; [by apply E3|congruence].
  - simpl. intros [_ ?]%lookup_delete_Some. by apply (H2 p').
  - intros [_ ?]%lookup_delete_Some. by apply H3.
  - intros Ht. destruct (Hex _ _ _ Ht). rewrite lookup_delete_ne by congruence. eauto.
Qed.

Lemma file_wp_remove (f0 : fs) (p : path) (i : nat) (b : bytes) (Q : unit → gmultiset temp_token → Prop) g :
  Q tt g → file_wp f0 (remove_file p) Q ({[+ (p, i, b) +]} ⊎ g).
Proof.
  intros HQ. apply wp_bind, wp_atomic. intros s F HI. change (gop ?x ?y) with (x ⊎ y) in *.
  rewrite <-(assoc_L (⊎)) in HI. exists g. change (gop ?x ?y) with (x ⊎ y).
  destruct (os_fault (w_ext s)) as [[] x]; simpl; [split; [by eapply file_inv_weaken|done]|].
  apply file_inv_remove in HI. destruct (fs_remove_file (w_fs s) p) as [r f]. by split.
Qed.

(** Publishing a complete key. *)
Lemma file_wp_hard_link (f0 : fs) (temp p : path) (i : nat) (b : bytes)
    (Q : result unit io_kind → gmultiset temp_token → Prop) g :
  blen b = KEY_SIZE → (∀ r, Q r ({[+ (temp, i, b) +]} ⊎ g)) →
  file_wp f0 (fs_call (λ f, fs_hard_link f temp p)) Q ({[+ (temp, i, b) +]} ⊎ g).
Proof.
  intros Hb HQ. apply file_wp_call; [apply HQ|]. intros f F HI. eexists. split; [|apply HQ].
  rewrite <-(assoc_L (⊎)) in *.
  destruct (temp_exclusive _ _ _ _ _ _ HI) as ((Hp & Hi & Htemp & Hnew) & _ & Hex).
  unfold fs_hard_link. rewrite Hp. destruct (path_parent p) as [parent|] eqn:Hpar; [|done].
  destruct (fs_is_dir f parent); cbn [negb]; [|done]. destruct (fs_exists f p) eqn:He; [done|]. simpl.
  destruct p as [|c p]; [done|]. set (q := c :: p) in *.
  assert (Hnone : fs_nodes f !! q = None).
  { unfold fs_exists in He. simpl in He. apply orb_false_iff in He as [_ He]. by case_match. }
  destruct HI as [[E1 E2 E3] H2 H3 H4 H5 H6].
  constructor; simpl; [|intros p' j|intros p' j|intros p' j c'|done|done].
  - constructor; simpl; [done|done|]. intros p' n Ht Hn. apply E3 in Hn; [|done].
    rewrite lookup_insert_ne; [done|congruence].
  - simpl. destruct (decide (p' = q)) as [->|]; [rewrite lookup_insert_eq|rewrite lookup_insert_ne by done].
    + intros [= <-]. by apply (H2 temp).
    + apply H2.
  - destruct (decide (p' = q)) as [->|]; [rewrite lookup_insert_eq|rewrite lookup_insert_ne by done].
    + intros [= <-] _. right. by exists b.
    + apply H3.
  - intros Ht. destruct (H4 _ _ _ Ht) as (? & ? & ? & ?).
    rewrite lookup_insert_ne by congruence. done.
Qed.

Lemma file_wp_query {R} (f0 : fs) (f : fs → result R io_kind) (Q : result R io_kind → gmultiset temp_token → Prop) g :
  (∀ r, Q r g) → file_wp f0 (fs_query f) Q g.
Proof. intros HQ. apply file_wp_call; [apply HQ|]. intros files F HI. exists g. by split. Qed.

Lemma file_wp_read_key (f0 : fs) (p : path) (Q : option (nresult SecretKey) → gmultiset temp_token → Prop) g :
  (∀ r, Q r g) → file_wp f0 (read_key p) Q g.
Proof.
  intros HQ. apply wp_bind, file_wp_query. intros [[is_file len]|]; [|apply HQ].
  destruct (_ || _); [apply HQ|]. apply wp_bind, file_wp_query. intros [b|]; apply HQ.
Qed.

Lemma file_wp_temp_path (f0 : fs) (p : path) (Q : nresult path → gmultiset temp_token → Prop) g :
  (∀ temp, is_temp temp → Q (Ok temp) g) → (∀ e, Q (Err e) g) → file_wp f0 (temp_path p) Q g.
Proof.
  intros Hok Herr. unfold temp_path. destruct (path_parent p) as [parent|]; [|apply Herr].
  destruct (path_file_name p) as [name|]; [|apply Herr].
  apply wp_bind. wp_skip. apply Hok. by eexists parent, name, a.
Qed.

Context `{!SecretKeyLaws}.

Lemma file_wp_create_identity (f0 : fs) (p : path) (Q : option (nresult SecretKey) → gmultiset temp_token → Prop) g :
  (∀ r, Q r g) → file_wp f0 (create_identity p) Q g.
Proof using All.
  intros HQ. unfold create_identity. destruct (path_parent p) as [parent|]; [|apply HQ].
  apply wp_bind, file_wp_create_dirs. intros [[]|]; [|apply HQ].
  apply wp_bind. wp_skip. destruct a as [key|]; [|apply HQ].
  apply wp_bind, file_wp_temp_path; [|intros; apply HQ]. intros temp Htemp.
  apply wp_bind, file_wp_create_temp; [done| |intros; apply HQ]. intros i.
  apply wp_bind, wp_bind, file_wp_write.
  - apply file_wp_query. intros [[]|].
    + apply wp_bind, file_wp_hard_link; [apply secret_to_bytes_length|]. intros r.
      apply wp_bind, file_wp_remove. destruct r as [|[]]; [apply HQ|by apply file_wp_read_key|apply HQ].
    + apply wp_bind, file_wp_remove, HQ.
  - intros e b'. apply wp_bind, file_wp_remove, HQ.
Qed.

Lemma file_wp_load_or_create (f0 : fs) (text : string) (Q : nresult SecretKey → gmultiset temp_token → Prop) g :
  (∀ r, Q r g) → file_wp f0 (identity_load_or_create text) Q g.
Proof using All.
  intros HQ. apply wp_bind. apply (wp_mono _ _ (λ _ g', g' = g)); [intros r ? ->; apply HQ|].
  unfold load_or_create. destruct (_ || _); [done|]. apply wp_bind, wp_bind, file_wp_query. intros r.
  destruct (is_ok r); [by apply file_wp_read_key|by apply file_wp_create_identity].
Qed.

Lemma file_inv_initial (f0 : fs) : fs_wf f0 → file_inv f0 f0 gnil.
Proof.
  intros Hwf. constructor; [by constructor|done| | | |].
  - intros p i Hp _. left. split; [done|by eapply Hwf].
  - intros p i b. change gnil with (∅ : gmultiset temp_token). rewrite tok_empty. lia.
  - intros t. change gnil with (∅ : gmultiset temp_token). rewrite tok_empty. lia.
  - intros p p' i b b'. change gnil with (∅ : gmultiset temp_token). rewrite tok_empty. lia.
Qed.

(** What the invariant says of a path that is not temporary. *)
Lemma file_inv_file (f0 f : fs) (g : gmultiset temp_token) (p : path) (b : bytes) :
  fs_wf f0 → file_inv f0 f g → ¬ is_temp p → fs_file f p = Some b → fs_file f0 p = Some b ∨ blen b = KEY_SIZE.
Proof.
  intros Hwf [[E1 E2 E3] H2 H3 _ _ _] Ht. unfold fs_file.
  destruct (fs_nodes f !! p) as [[|i]|] eqn:Hp; try done. intros Hb.
  destruct (H3 p i Hp Ht) as [[-> Hi]|(c & Hc & Hlen & _)]; [left|right; congruence].
  by rewrite <-E1.
Qed.

Lemma file_inv_old (f0 f : fs) (g : gmultiset temp_token) (p : path) (b : bytes) :
  fs_wf f0 → file_inv f0 f g → ¬ is_temp p → fs_file f0 p = Some b → fs_file f p = Some b.
Proof.
  intros Hwf [[E1 E2 E3] _ _ _ _ _] Ht. unfold fs_file.
  destruct (fs_nodes f0 !! p) as [[|i]|] eqn:Hp; try done. intros Hb.
  rewrite (E3 _ _ Ht Hp). rewrite E1; [done|by eapply Hwf].
Qed.

(** ** Creating and loading without faults *)

Lemma path_split (p parent : path) name :
  path_parent p = Some parent → path_file_name p = Some name → p = parent ++ [Normal name].
Proof using Type.
  unfold path_parent, path_file_name. intros Hp Hn. destruct (last p) as [[| | |m]|] eqn:Hl; try done.
  injection Hn as ->. injection Hp as <-. apply last_Some in Hl as [q ->].
  by rewrite removelast_last.
Qed.

Lemma str_length_append (a b : string) : String.length (a ++ b) = (String.length a + String.length b)%nat.
Proof using Type. induction a as [|c a IH]; simpl; [done|]. f_equal. exact IH. Qed.

Lemma temp_name_ne name sequence : temp_name name sequence ≠ name.
Proof using Type.
  intros E. apply (f_equal String.length) in E. unfold temp_name in E.
  rewrite !str_length_append in E. simpl in E. lia.
Qed.

Lemma fs_exists_node (f : fs) p n : p ≠ [] → fs_nodes f !! p = Some n → fs_exists f p = true.
Proof using Type. intros Hne Hp. unfold fs_exists. destruct p; [done|]. rewrite Hp. apply orb_true_r. Qed.

Section no_faults.
Hypothesis no_fault : ∀ x, (os_fault x).1 = false.

Lemma eval_fs_call {R} n (f : fs → result R io_kind * fs) s :
  eval n (fs_call f) s =
    Some ((f (w_fs s)).1, set_w_fs (f (w_fs s)).2 (set_w_ext (os_fault (w_ext s)).2 s), []).
Proof using no_fault.
  unfold fs_call. rewrite eval_atomic. specialize (no_fault (w_ext s)).
  destruct (os_fault (w_ext s)) as [[] x]; simpl in *; [done|]. by destruct (f (w_fs s)).
Qed.

Lemma eval_write_all n i b s :
  eval n (write_all i b) s =
    Some (Ok tt, set_w_fs (fs_write (w_fs s) i b) (set_w_ext (os_fault (w_ext s)).2 s), []).
Proof using no_fault.
  unfold write_all. rewrite eval_atomic. specialize (no_fault (w_ext s)).
  by destruct (os_fault (w_ext s)) as [[] x].
Qed.

(** A file that holds a key is loaded, and stays as it is. *)
Lemma eval_read_key n p s b :
  fs_file (w_fs s) p = Some b → blen b = KEY_SIZE →
  ∃ x, eval n (read_key p) s = Some (Some (Ok (secret_from_bytes b)), set_w_ext x s, []).
Proof using no_fault.
  intros Hf Hb. eexists. unfold read_key, fs_query.
  rewrite eval_bind, eval_fs_call, and_then_nil. unfold fs_metadata. cbn [fst snd]. rewrite Hf, Hb.
  rewrite Z.eqb_refl. cbn [negb orb]. rewrite eval_bind, eval_fs_call, and_then_nil. unfold fs_read.
  cbn [fst snd]. change (w_fs (set_w_fs ?f ?s)) with f. rewrite Hf. unfold to_key_array. cbn [ok_or].
  rewrite Hb. destruct s. reflexivity.
Qed.

(** The directory after the publication of a key as [p] under inode [i]. *)
Definition published (f : fs) (p : path) (i : nat) (b : bytes) : fs :=
  Fs (<[p := File i]> (fs_nodes f)) (<[i := b]> (fs_inodes f)) (S i).

Lemma fs_publish (f : fs) (temp p parent : path) b :
  fs_is_dir f parent = true → path_parent temp = Some parent → path_parent p = Some parent →
  fs_nodes f !! temp = None → fs_exists f p = false → fs_nodes f !! p = None → p ≠ temp → p ≠ [] →
  parent ≠ temp →
  let i := fs_next_inode f in
  let f1 := (fs_create_new f temp).2 in
  (fs_create_new f temp).1 = Ok i ∧
  let f2 := fs_write f1 i b in
  (fs_hard_link f2 temp p).1 = Ok tt ∧
  (fs_remove_file (fs_hard_link f2 temp p).2 temp).2 = published f p i b.
Proof using Type.
  intros Hdir Ht Hp Hnt He Hnp Hne Hnil Hpar. unfold fs_create_new, fs_hard_link, fs_write.
  rewrite Ht, Hdir, Hnt. cbn [fst snd fs_nodes fs_inodes fs_next_inode negb]. split; [done|]. rewrite lookup_insert_eq, Hp.
  assert (Hd : ∀ n m l, fs_is_dir (Fs (<[temp:=File n]> (fs_nodes f)) m l) parent = true).
  { intros n m l. unfold fs_is_dir in *. simpl. destruct parent as [|[] [|]]; try done;
      by rewrite lookup_insert_ne by done. }
  rewrite Hd. cbn [negb].
  assert (Hex : ∀ n m l, fs_exists (Fs (<[temp:=File n]> (fs_nodes f)) m l) p = false).
  { intros n m l. unfold fs_exists, fs_is_dir in *. simpl. destruct p as [|[] [|]]; try done;
      by rewrite lookup_insert_ne by done. }
  rewrite Hex. split; [done|]. unfold fs_remove_file. simpl.
  rewrite lookup_insert_ne, lookup_insert_eq by done. unfold published. simpl. f_equal.
  - rewrite delete_insert_ne by done. by rewrite delete_insert_id.
  - by rewrite insert_insert_eq.
Qed.

Lemma fs_exists_same (f f' : fs) p :
  fs_nodes f !! p = fs_nodes f' !! p → fs_exists f p = fs_exists f' p.
Proof using Type. intros E. unfold fs_exists, fs_is_dir. rewrite E. done. Qed.

Lemma fs_exists_false (f : fs) p : p ≠ [] → fs_exists f p = false → fs_nodes f !! p = None ∧ fs_file f p = None.
Proof using Type.
  intros Hne He. unfold fs_exists, fs_file in *. destruct p as [|c p]; [done|].
  apply orb_false_iff in He as [_ He]. by destruct (fs_nodes f !! (c :: p)).
Qed.

Hypothesis generates : ∀ x, ∃ key x', secret_generate x = (Some key, x').

Lemma eval_create_identity n s p parent name :
  let temp := path_join parent (temp_name name (w_temp_counter s)) in
  path_parent p = Some parent → path_file_name p = Some name →
  (fs_create_dir_all (w_fs s) parent).1 = Ok tt →
  fs_exists (w_fs s) p = false → fs_nodes (w_fs s) !! temp = None →
  let files := (fs_create_dir_all (w_fs s) parent).2 in
  ∃ key s', eval n (create_identity p) s = Some (Some (Ok key), s', []) ∧
    w_fs s' = published files p (fs_next_inode files) (secret_to_bytes key).
Proof using no_fault generates.
  intros temp Hp Hn Hdirs He Htemp files. assert (Hsplit := path_split _ _ _ Hp Hn).
  assert (Hnil : p ≠ []) by (rewrite Hsplit; by destruct parent).
  assert (Hdir : fs_is_dir files parent = true) by exact (fs_create_dirs_dir parent (w_fs s) [] Hdirs eq_refl).
  assert (Hsame : ∀ c, fs_nodes files !! (parent ++ [c]) = fs_nodes (w_fs s) !! (parent ++ [c])).
  { intros c. apply fs_create_dirs_apart. rewrite length_app. simpl. lia. }
  assert (He' : fs_exists files p = false).
  { rewrite Hsplit in *. by rewrite (fs_exists_same files (w_fs s)). }
  destruct (fs_exists_false _ _ Hnil He') as [Hnp _].
  unfold create_identity. rewrite Hp, eval_bind, eval_fs_call, and_then_nil, Hdirs. cbn [fst snd].
  fold files. set (s1 := set_w_fs files _).
  destruct (generates (w_ext s1)) as (key & x & Hg). exists key.
  rewrite eval_bind. unfold external at 1. rewrite eval_atomic, Hg. cbn [fst snd]. rewrite and_then_nil.
  unfold temp_path. rewrite Hp, Hn. unfold next_temp. rewrite !eval_bind, eval_atomic, !and_then_nil, eval_ret.
  cbn [fst snd]. rewrite and_then_nil. change (w_temp_counter (set_w_ext x s1)) with (w_temp_counter s).
  fold temp. set (s2 := set_w_temp_counter _ _).
  assert (Hfs : w_fs s2 = files) by done.
  destruct (fs_publish files temp p parent (secret_to_bytes key)) as (H1 & H2 & H3); try done.
  { unfold path_parent, path_join, temp, path_join. rewrite last_snoc. f_equal. apply removelast_last. }
  { unfold temp, path_join. by rewrite Hsame. }
  { rewrite Hsplit. unfold temp, path_join. intros [_ [= E]]%app_inj_tail. by apply (temp_name_ne name (w_temp_counter s)). }
  { unfold temp, path_join. intros E. apply (f_equal length) in E. rewrite length_app in E. simpl in E. lia. }
  unfold create_temp. rewrite eval_bind, eval_fs_call, and_then_nil, Hfs, H1.
  set (s3 := set_w_fs (fs_create_new _ _).2 _).
  unfold write_and_sync. rewrite !eval_bind, eval_write_all, and_then_nil.
  set (s4 := set_w_fs (fs_write _ _ _) _).
  unfold sync_all, fs_query. rewrite eval_fs_call, and_then_nil. cbn [fst snd].
  set (s5 := set_w_fs (w_fs s4) _).
  assert (Hfs5 : w_fs s5 = fs_write (fs_create_new files temp).2 (fs_next_inode files) (secret_to_bytes key)) by done.
  rewrite eval_bind, eval_fs_call, and_then_nil, Hfs5, H2. set (s6 := set_w_fs (fs_hard_link _ _ _).2 _).
  unfold remove_file. rewrite !eval_bind, eval_fs_call, and_then_nil, eval_ret, and_then_nil.
  unfold returns. rewrite eval_ret. eexists. split; [reflexivity|]. exact H3.
Qed.
End no_faults.

(** C36: Take a path of 1 to 32768 bytes with a parent and a file name, that is not
    there yet, whose parent is a directory or can be created, and whose next
    temporary name is free.  When no system call fails and the key generator does
    not panic, [identity_load_or_create] creates the missing parents, publishes a
    file with exactly the bytes of the key it returns and leaves no temporary
    file; a second call returns the same key and changes nothing but the state
    of the operating system. *)
Theorem identity_create_then_load n text s parent name :
  let p := path_of_string text in
  let temp := path_join parent (temp_name name (w_temp_counter s)) in
  (∀ x, (os_fault x).1 = false) → (∀ x, ∃ key x', secret_generate x = (Some key, x')) →
  1 ≤ str_len text ≤ 32 * 1024 →
  path_parent p = Some parent → path_file_name p = Some name →
  (fs_create_dir_all (w_fs s) parent).1 = Ok tt →
  fs_exists (w_fs s) p = false → fs_nodes (w_fs s) !! temp = None →
  ∃ key s', eval n (identity_load_or_create text) s = Some (Ok key, s', []) ∧
    fs_is_dir (w_fs s') parent = true ∧
    fs_file (w_fs s') p = Some (secret_to_bytes key) ∧ fs_nodes (w_fs s') !! temp = None ∧
    ∃ x, eval n (identity_load_or_create text) s' = Some (Ok key, set_w_ext x s', []).
Proof using All.
  intros p temp Hnf Hgen Hlen Hp Hn Hdirs He Htemp. assert (Hsplit := path_split _ _ _ Hp Hn).
  assert (Hnil : p ≠ []) by (rewrite (path_split _ _ _ Hp Hn); destruct parent; done).
  assert (Hvalid : is_empty_str text || (32 * 1024 <? str_len text) = false).
  { apply orb_false_iff. split; [by destruct text|]. apply Z.ltb_ge. lia. }
  assert (Hcall : ∀ s, eval n (identity_load_or_create text) s =
    and_then (eval n (let! b := exists_ p in if b : bool then read_key p else create_identity p) s)
      (λ r, eval n (Ret (match r with Some r => r | None =>
         Err (native_error atoms.internal atoms.identity_load failed_internally) end)))).
  { intros s0. unfold identity_load_or_create, encode_guarded, guarded, load_or_create.
    by rewrite Hvalid, eval_bind. }
  assert (Hexists : ∀ s, eval n (exists_ p) s =
    Some (is_ok (fs_metadata (w_fs s) p), set_w_fs (w_fs s) (set_w_ext (os_fault (w_ext s)).2 s), [])).
  { intros s0. unfold exists_, fs_query. by rewrite eval_bind, eval_fs_call, and_then_nil, eval_ret. }
  destruct (fs_exists_false _ _ Hnil He) as [_ Hfile].
  set (s1 := set_w_fs (w_fs s) (set_w_ext (os_fault (w_ext s)).2 s)).
  destruct (eval_create_identity Hnf Hgen n s1 p parent name) as (key & s' & Heval & Hfs); try done.
  set (files := (fs_create_dir_all (w_fs s1) parent).2) in *.
  exists key, s'. rewrite Hcall, eval_bind, Hexists, and_then_nil. unfold fs_metadata. rewrite Hfile, He.
  cbn [is_ok]. fold s1. rewrite Heval, and_then_nil. split; [done|].
  assert (Hfile' : fs_file (w_fs s') p = Some (secret_to_bytes key)).
  { rewrite Hfs. unfold fs_file, published. simpl. by rewrite lookup_insert_eq, lookup_insert_eq. }
  split.
  { rewrite Hfs. assert (Hdir : fs_is_dir files parent = true) by exact (fs_create_dirs_dir parent (w_fs s1) [] Hdirs eq_refl).
    revert Hdir. unfold fs_is_dir, published. simpl. destruct parent as [|[] [|]] eqn:Epar; try done;
      rewrite <-Epar in *; (rewrite lookup_insert_ne; [done|]); rewrite Hsplit;
      intros E; apply (f_equal length) in E; rewrite length_app in E; simpl in E; lia. }
  split; [done|]. split.
  { rewrite Hfs. simpl. rewrite lookup_insert_ne.
    { unfold files, fs_create_dir_all, temp, path_join. rewrite fs_create_dirs_apart; [done|]. rewrite length_app. simpl. lia. }
    rewrite Hsplit.
    unfold temp, path_join. intros [_ [= E]]%app_inj_tail. by apply (temp_name_ne name (w_temp_counter s)). }
  rewrite Hcall, eval_bind, Hexists, and_then_nil. unfold fs_metadata. rewrite Hfile'. cbn [is_ok].
  destruct (eval_read_key Hnf n p (set_w_fs (w_fs s') (set_w_ext (os_fault (w_ext s')).2 s'))
              (secret_to_bytes key)) as [x ->]; [done|apply secret_to_bytes_length|].
  rewrite and_then_nil, secret_from_to. exists x. by destruct s'.
Qed.

End identity_file.

Abbreviation file_wp f0 p Q g := (wp (λ s, file_inv f0 (w_fs s)) p Q g).
