(* ===== verification/EndpointConfig.v ===== *)
(** Endpoint configuration (endpoint.rs): network profiles, validation of the
    options passed from Elixir, and the calls made on the [iroh] builder. *)
From S2P Require Import Prelude Prog Std Extern State Operations Identity.
From stdpp Require Import list options.
Local Open Scope Z_scope.
Local Open Scope iroh_scope.

Definition MAX_ALPNS : Z := 16.
Definition MAX_ALPN_BYTES : Z := 255.
Definition MAX_BIND_ADDRS : Z := 8.
Definition MAX_RELAYS : Z := 8.
Definition MAX_TOKEN_BYTES : Z := 4 * 1024.

Record NativeRelay : Type := {
  nr_url : string;
  nr_token : option string;
}.

Record NativeEndpointOptions : Type := {
  o_profile : atom;
  o_alpns : list string;
  o_bind_addrs : list string;
  o_relays : list NativeRelay;
  o_max_connections : Z;
  o_max_pending_accepts : Z;
  o_direct_ip : bool;
}.

(** [iter().any(|x| !seen.insert(x))]: does an element come back? *)
Fixpoint any_repeated {A} `{Countable A} (seen : gset A) (l : list A) : bool :=
  match l with
  | [] => false
  | x :: l => if bool_decide (x ∈ seen) then true else any_repeated ({[x]} ∪ seen) l
  end.

Definition alpn_invalid (alpn : string) : bool :=
  is_empty_str alpn || (MAX_ALPN_BYTES <? str_len alpn) || has_byte 0 alpn.

Definition token_invalid (token : string) : bool :=
  is_empty_str token || (MAX_TOKEN_BYTES <? str_len token) || has_byte 13 token || has_byte 10 token.

(** The chain of comparisons in [parse_config]. *)
Definition profile_of_atom (profile : atom) : option ProfileKind :=
  if bool_decide (profile = atoms.n0) then Some ProfileKind.N0
  else if bool_decide (profile = atoms.direct) then Some ProfileKind.Direct
  else if bool_decide (profile = atoms.no_relay) then Some ProfileKind.NoRelay
  else if bool_decide (profile = atoms.custom) then Some ProfileKind.Custom
  else None.

Definition bind_invalid (msg : string) : NativeError :=
  endpoint_error atoms.invalid_argument atoms.endpoint_bind msg.

Section config.
Context `{net : NetApi}.

Record BindConfig : Type := {
  c_profile : ProfileKind;
  c_alpns : list bytes;
  c_bind_addrs : list SocketAddr;
  c_relay_map : option RelayMap;
  c_direct_ip : bool;
}.

(** One round of the loop over the custom relays. *)
Definition custom_relay (relay : NativeRelay) : nresult relay_config :=
  let? url := ok_or (url_from_str (nr_url relay)) (bind_invalid "custom relay URL is invalid") in
  if relay_url_rejected url then
    Err (bind_invalid "custom relay URL must be HTTP(S) without credentials")
  else match nr_token relay with
       | Some token =>
           if token_invalid token then Err (bind_invalid "custom relay token is invalid")
           else Ok (RelayConfig url (Some token))
       | None => Ok (RelayConfig url None)
       end.

Definition parse_relays (profile : ProfileKind) (relays : list NativeRelay)
    : nresult (option RelayMap) :=
  if bool_decide (profile = ProfileKind.Custom) then
    if (vlen relays =? 0) || (MAX_RELAYS <? vlen relays) then
      Err (bind_invalid "custom profile requires one to eight relays")
    else
      let? configs := collect (custom_relay <$> relays) in
      Ok (Some (relay_map_from_iter configs))
  else if negb (vlen relays =? 0) then
    Err (bind_invalid "relay records require the custom profile")
  else Ok None.

Definition bind_socket (value : string) : nresult SocketAddr :=
  ok_or (socket_addr_from_str value) (bind_invalid "bind address is invalid").

Definition parse_config (profile : atom) (alpns bind_addrs : list string)
    (relays : list NativeRelay) (direct_ip : bool) : nresult BindConfig :=
  if (vlen alpns =? 0) || (MAX_ALPNS <? vlen alpns) then
    Err (bind_invalid "at least one bounded ALPN is required")
  else if existsb alpn_invalid alpns then
    Err (bind_invalid "ALPN values must contain 1 to 255 non-NUL bytes")
  else if any_repeated ∅ alpns then
    Err (bind_invalid "ALPN values must be unique")
  else if MAX_BIND_ADDRS <? vlen bind_addrs then
    Err (bind_invalid "too many bind addresses")
  else
    let? addrs := collect (bind_socket <$> bind_addrs) in
    if any_repeated ∅ (is_ipv4 <$> addrs) then
      Err (bind_invalid "only one bind address per IP family is supported")
    else
      let? kind := ok_or (profile_of_atom profile) (bind_invalid "network profile is invalid") in
      let? relay_map := parse_relays kind relays in
      if negb direct_ip && negb (vlen addrs =? 0) then
        Err (bind_invalid "bind addresses require direct IP transports")
      else
        Ok {| c_profile := kind; c_alpns := as_bytes <$> alpns; c_bind_addrs := addrs;
              c_relay_map := relay_map; c_direct_ip := direct_ip |}.

(** ** [endpoint_builder] *)

Definition call (c : builder_call) (b : builder) : builder :=
  Builder (b_preset b) (b_calls b ++ [c]).

Definition profile_builder (config : BindConfig) : nresult builder :=
  match c_profile config with
  | ProfileKind.N0 => Ok (Builder N0Preset [])
  | ProfileKind.Direct => Ok (call clear_address_lookup (call relay_mode_disabled (Builder MinimalPreset [])))
  | ProfileKind.NoRelay => Ok (Builder N0DisableRelayPreset [])
  | ProfileKind.Custom =>
      let? relay_map := ok_or (c_relay_map config)
                          (endpoint_error atoms.internal atoms.endpoint_bind
                             "custom relay configuration is unavailable") in
      Ok (call clear_address_lookup (call (relay_mode_custom relay_map) (Builder MinimalPreset [])))
  end.

(** The loop over the bind addresses: the builder may refuse one. *)
Fixpoint bind_all (addrs : list SocketAddr) (b : builder) : nresult builder :=
  match addrs with
  | [] => Ok b
  | a :: addrs =>
      if builder_bind_addr b a then bind_all addrs (call (bind_addr a) b)
      else Err (bind_invalid "bind address configuration is invalid")
  end.

Definition endpoint_builder (config : BindConfig) (secret_key : SecretKey) : nresult builder :=
  let? b := profile_builder config in
  let b := call (with_alpns (c_alpns config)) (call (with_secret_key secret_key) b) in
  if negb (c_direct_ip config) then Ok (call clear_ip_transports b)
  else if negb (vlen (c_bind_addrs config) =? 0) then
    bind_all (c_bind_addrs config) (call clear_ip_transports b)
  else Ok b.

(** ** Specifications *)

Definition alpn_valid (alpn : string) : Prop :=
  1 ≤ str_len alpn ≤ MAX_ALPN_BYTES ∧ has_byte 0 alpn = false.

Definition token_valid (token : string) : Prop :=
  1 ≤ str_len token ≤ MAX_TOKEN_BYTES ∧ has_byte 13 token = false ∧ has_byte 10 token = false.

Definition custom_relay_valid (r : NativeRelay) (c : relay_config) : Prop :=
  url_from_str (nr_url r) = Some c.1 ∧ plain_http_url c.1 ∧
  c.2 = nr_token r ∧ (∀ token, nr_token r = Some token → token_valid token).

Definition relays_valid (kind : ProfileKind) (relays : list NativeRelay)
    (m : option RelayMap) : Prop :=
  match kind with
  | ProfileKind.Custom => 1 ≤ vlen relays ≤ MAX_RELAYS ∧ ∃ l, m = Some (relay_map_from_iter l) ∧ Forall2 custom_relay_valid relays l
  | _ => relays = [] ∧ m = None
  end.

Lemma vlen_zero {A} (l : list A) : (vlen l =? 0) = true ↔ l = [].
Proof. unfold vlen. rewrite Z.eqb_eq. destruct l; simpl; split; intros ?; first [done|lia]. Qed.

Lemma str_len_nonempty s : is_empty_str s = false ↔ 1 ≤ str_len s.
Proof. unfold str_len. destruct s; simpl; split; intros ?; first [done|lia]. Qed.

Lemma any_repeated_spec {A} `{Countable A} (l : list A) seen :
  any_repeated seen l = false ↔ NoDup l ∧ ∀ x, x ∈ l → x ∉ seen.
Proof.
  revert seen. induction l as [|x l IH]; intros seen; simpl.
  - split; [|done]. intros _. split; [constructor|]. by intros x Hx%not_elem_of_nil.
  - case_bool_decide as Hx.
    + split; [done|]. intros [_ Hl]. destruct (Hl x); [by left|done].
    + rewrite IH, NoDup_cons. set_solver.
Qed.

Lemma any_repeated_NoDup {A} `{Countable A} (l : list A) : any_repeated ∅ l = false ↔ NoDup l.
Proof. rewrite any_repeated_spec. set_solver. Qed.

Lemma alpn_invalid_spec alpn : alpn_invalid alpn = false ↔ alpn_valid alpn.
Proof.
  unfold alpn_invalid, alpn_valid. rewrite !orb_false_iff, str_len_nonempty, Z.ltb_ge. tauto.
Qed.

Lemma token_invalid_spec token : token_invalid token = false ↔ token_valid token.
Proof.
  unfold token_invalid, token_valid. rewrite !orb_false_iff, str_len_nonempty, Z.ltb_ge. tauto.
Qed.

Lemma existsb_false_Forall {A} (f : A → bool) (P : A → Prop) l :
  (∀ x, f x = false ↔ P x) → existsb f l = false ↔ Forall P l.
Proof.
  intros Hf. induction l as [|x l IH]; simpl; [by split|].
  by rewrite orb_false_iff, Forall_cons, Hf, IH.
Qed.

Lemma profile_of_atom_spec profile kind :
  profile_of_atom profile = Some kind ↔ profile = ProfileKind.atom kind.
Proof.
  unfold profile_of_atom. split.
  - repeat case_bool_decide; intros [= <-]; by subst.
  - intros ->. by destruct kind.
Qed.

Lemma custom_relay_ok r c : custom_relay r = Ok c ↔ custom_relay_valid r c.
Proof.
  unfold custom_relay, custom_relay_valid. rewrite result_bind_ok. setoid_rewrite ok_or_ok.
  rewrite <-relay_url_rejected_spec. split.
  - intros (url & Hurl & Hc). repeat case_match; simplify_eq/=; split_and!; try done.
    intros token [= <-]. by apply token_invalid_spec.
  - intros (Hurl & Hrej & Htok & Hvalid). exists c.1. split; [done|]. rewrite Hrej.
    destruct c as [url tok]; simpl in *. subst tok. destruct (nr_token r) as [token|]; [|done].
    by rewrite (proj2 (token_invalid_spec token)) by auto.
Qed.

Lemma parse_relays_ok kind relays m : parse_relays kind relays = Ok m ↔ relays_valid kind relays m.
Proof.
  unfold parse_relays. case_bool_decide as Hk.
  - subst kind. simpl. destruct (orb _ _) eqn:E.
    + split; [done|]. intros [Hlen _]. apply orb_prop in E as [E|E]; lia.
    + apply orb_false_elim in E as [E1 E2]. rewrite result_bind_ok.
      setoid_rewrite (collect_fmap_ok custom_relay custom_relay_valid id);
        [|intros; rewrite custom_relay_ok; naive_solver].
      setoid_rewrite list_fmap_id. unfold vlen in *. split; [|naive_solver].
      intros (l & (? & -> & ?) & [= <-]). split; [lia|eauto].
  - destruct (vlen relays =? 0) eqn:E; simpl.
    + apply vlen_zero in E as ->. destruct kind; simpl; naive_solver.
    + split; [done|]. destruct kind; simpl; try done; intros [-> _]; done.
Qed.

(** What [parse_config] accepts, and with which result. *)
Definition config_valid (profile : atom) (alpns bind_addrs : list string)
    (relays : list NativeRelay) (direct_ip : bool) (config : BindConfig) : Prop :=
  1 ≤ vlen alpns ≤ MAX_ALPNS ∧ Forall alpn_valid alpns ∧ NoDup alpns ∧
  vlen bind_addrs ≤ MAX_BIND_ADDRS ∧
  Forall2 (λ s a, socket_addr_from_str s = Some a) bind_addrs (c_bind_addrs config) ∧
  NoDup (is_ipv4 <$> c_bind_addrs config) ∧
  profile = ProfileKind.atom (c_profile config) ∧
  relays_valid (c_profile config) relays (c_relay_map config) ∧
  (direct_ip = true ∨ bind_addrs = []) ∧
  c_alpns config = as_bytes <$> alpns ∧ c_direct_ip config = direct_ip.

Lemma bind_sockets_ok l addrs :
  collect (bind_socket <$> l) = Ok addrs ↔ Forall2 (λ s a, socket_addr_from_str s = Some a) l addrs.
Proof.
  rewrite collect_fmap_Forall2. unfold bind_socket.
  split; intros Hl; (eapply Forall2_impl; [exact Hl|]); simpl; intros s a; by rewrite ok_or_ok.
Qed.

Lemma parse_config_sound profile alpns binds relays direct_ip config :
  parse_config profile alpns binds relays direct_ip = Ok config →
  config_valid profile alpns binds relays direct_ip config.
Proof.
  unfold parse_config, config_valid. intros Hp.
  destruct (orb _ _) eqn:E1 in Hp; [done|]. apply orb_false_elim in E1 as [E1 E1'].
  destruct (existsb _ _) eqn:E2 in Hp; [done|].
  destruct (any_repeated _ _) eqn:E3 in Hp; [done|]. apply any_repeated_NoDup in E3.
  destruct (_ <? _) eqn:E4 in Hp; [done|].
  apply result_bind_ok in Hp as (addrs & Haddrs%bind_sockets_ok & Hp).
  destruct (any_repeated _ _) eqn:E5 in Hp; [done|]. apply any_repeated_NoDup in E5.
  apply result_bind_ok in Hp as (kind & Hkind%ok_or_ok%profile_of_atom_spec & Hp).
  apply result_bind_ok in Hp as (m & Hm%parse_relays_ok & Hp).
  destruct (andb _ _) eqn:E6 in Hp; [done|]. injection Hp as <-. simpl.
  split_and!; try done; try (unfold vlen in *; lia).
  - revert E2. apply existsb_false_Forall, alpn_invalid_spec.
  - apply andb_false_elim in E6 as [E6|E6]; apply negb_false_iff in E6; [by left|right].
    apply vlen_zero in E6. subst. by inversion Haddrs.
Qed.

Lemma parse_config_complete profile alpns binds relays direct_ip config :
  config_valid profile alpns binds relays direct_ip config →
  parse_config profile alpns binds relays direct_ip = Ok config.
Proof.
  intros (Hn & Hv & Hd & Hb & Haddrs & Hf & -> & Hr & Hdirect & Ha & Hdi).
  unfold parse_config.
  replace (orb _ _) with false by (unfold vlen, MAX_ALPNS in *; lia).
  rewrite (proj2 (existsb_false_Forall alpn_invalid _ _ alpn_invalid_spec) Hv).
  rewrite (proj2 (any_repeated_NoDup _) Hd).
  replace (_ <? _) with false by (unfold vlen, MAX_BIND_ADDRS in *; lia).
  rewrite (proj2 (bind_sockets_ok _ _) Haddrs). simpl.
  rewrite (proj2 (any_repeated_NoDup _) Hf).
  rewrite (proj2 (profile_of_atom_spec _ _) eq_refl). simpl.
  rewrite (proj2 (parse_relays_ok _ _ _) Hr). simpl.
  replace (andb _ _) with false.
  - destruct config; simpl in *. by subst.
  - symmetry. apply andb_false_iff. rewrite !negb_false_iff, vlen_zero.
    destruct Hdirect as [?| ->]; [by left|right]. by inversion Haddrs.
Qed.

(** C25: [parse_config] accepts exactly the documented options (1 to 16 distinct
    ALPNs of 1 to 255 non-NUL bytes; at most 8 parsable bind addresses, one per
    IP family, only with direct IP; a known profile; one to eight credential-free
    relays with header-safe tokens for the custom profile and none for the
    others).  ALPNs and bind addresses are kept as they are, in order; the relay
    map is what [iroh] collects from the relays in order, each with its own token,
    so what becomes of a URL given twice is up to [RelayMap]. *)
Theorem parse_config_ok_iff profile alpns binds relays direct_ip config :
  parse_config profile alpns binds relays direct_ip = Ok config ↔
  config_valid profile alpns binds relays direct_ip config.
Proof. split; [apply parse_config_sound|apply parse_config_complete]. Qed.

(** ** Isolation of the profiles *)

(** A builder call that [bind_all] or the later steps may append. *)
Lemma bind_all_ok addrs b b' :
  bind_all addrs b = Ok b' →
  b_preset b' = b_preset b ∧ b_calls b' = b_calls b ++ (bind_addr <$> addrs).
Proof.
  revert b. induction addrs as [|a addrs IH]; intros b; simpl.
  - intros [= <-]. by rewrite app_nil_r.
  - destruct (builder_bind_addr b a); [|done]. intros (E1 & E2)%IH. simpl in *.
    by rewrite E2, <-(assoc_L (++)).
Qed.

(** What the builder was told about relays and address lookup. *)
Definition isolation (config : BindConfig) (b : builder) : Prop :=
  match c_profile config with
  | ProfileKind.N0 => b_preset b = N0Preset ∧ relay_mode_disabled ∉ b_calls b ∧
                      clear_address_lookup ∉ b_calls b
  | ProfileKind.NoRelay => b_preset b = N0DisableRelayPreset ∧ clear_address_lookup ∉ b_calls b
  | ProfileKind.Direct => b_preset b = MinimalPreset ∧ relay_mode_disabled ∈ b_calls b ∧
                          clear_address_lookup ∈ b_calls b
  | ProfileKind.Custom => b_preset b = MinimalPreset ∧ clear_address_lookup ∈ b_calls b ∧
      ∃ relays, c_relay_map config = Some relays ∧ relay_mode_custom relays ∈ b_calls b ∧
                ∀ relays', relay_mode_custom relays' ∈ b_calls b → relays' = relays
  end.

(** The calls that configure IP transports. *)
Definition ip_calls (config : BindConfig) : list builder_call :=
  if negb (c_direct_ip config) then [clear_ip_transports]
  else if negb (vlen (c_bind_addrs config) =? 0)
       then clear_ip_transports :: (bind_addr <$> c_bind_addrs config) else [].

Lemma endpoint_builder_ok config key b :
  endpoint_builder config key = Ok b →
  ∃ b0, profile_builder config = Ok b0 ∧ b_preset b = b_preset b0 ∧
        b_calls b = b_calls b0 ++ [with_secret_key key; with_alpns (c_alpns config)] ++ ip_calls config.
Proof.
  unfold endpoint_builder, ip_calls. intros (b0 & Hb0 & Hb)%result_bind_ok. exists b0.
  split; [done|]. destruct (c_direct_ip config); simpl in *; [destruct (vlen _ =? 0); simpl in *|].
  - injection Hb as <-. simpl. by rewrite <-(assoc_L (++)).
  - apply bind_all_ok in Hb as [-> ->]. simpl. by rewrite <-!(assoc_L (++)).
  - injection Hb as <-. simpl. by rewrite <-!(assoc_L (++)).
Qed.

Lemma ip_calls_cases config c : c ∈ ip_calls config → c = clear_ip_transports ∨ ∃ a, c = bind_addr a.
Proof.
  unfold ip_calls. repeat case_match; set_unfold; [naive_solver| |naive_solver].
  intros [->|(a & -> & _)]; eauto.
Qed.

(** C27: The endpoint is built for exactly the network profile that was accepted:
    [direct] and [custom] start from the minimal preset and clear address lookup,
    [direct] disables relays and [custom] uses only the supplied ones, [n0] and
    [no_relay] keep lookup; without direct IP every IP transport is cleared and
    none is bound. *)
Theorem endpoint_builder_isolated profile alpns binds relays direct_ip config key b :
  parse_config profile alpns binds relays direct_ip = Ok config →
  endpoint_builder config key = Ok b →
  isolation config b ∧
  (direct_ip = false → clear_ip_transports ∈ b_calls b ∧ ∀ a, bind_addr a ∉ b_calls b).
Proof.
  intros (_ & _ & _ & _ & Haddrs & _ & _ & Hr & Hdirect & _ & Hd)%parse_config_sound
    (b0 & Hb0 & Hp & Hc)%endpoint_builder_ok.
  assert (Hip := ip_calls_cases config). split.
  - unfold isolation, profile_builder in *. rewrite Hp, Hc. clear Hc Hd Haddrs.
    destruct (c_profile config); simpl in *; [..|apply result_bind_ok in Hb0 as (m & Hm%ok_or_ok & Hb0)];
      injection Hb0 as <-; simpl; split_and!; try done; try set_solver.
  - intros ->. rewrite Hc. unfold ip_calls. rewrite Hd. simpl. split; [set_solver|].
    intros a. unfold profile_builder in Hb0. clear Hip.
    destruct (c_profile config); [..|apply result_bind_ok in Hb0 as (? & _ & Hb0)];
      injection Hb0 as <-; set_solver.
Qed.

(** C28: The internal error of [endpoint_builder] cannot occur on an accepted
    configuration: the builder succeeds, or [iroh] refused a bind address. *)
Theorem endpoint_builder_no_internal_error profile alpns binds relays direct_ip config key e :
  parse_config profile alpns binds relays direct_ip = Ok config →
  endpoint_builder config key = Err e →
  e = bind_invalid "bind address configuration is invalid" ∧ direct_ip = true ∧ binds ≠ [].
Proof.
  intros (_ & _ & _ & _ & Haddrs & _ & _ & Hr & _ & _ & Hd)%parse_config_sound.
  assert (∃ b0, profile_builder config = Ok b0) as [b0 Hb0].
  { unfold profile_builder. destruct (c_profile config); simpl in Hr; eauto.
    destruct Hr as (_ & l & -> & _). simpl. eauto. }
  assert (Hall : ∀ addrs b e, bind_all addrs b = Err e →
            e = bind_invalid "bind address configuration is invalid").
  { induction addrs as [|a addrs IH]; intros b1 e1; simpl; [done|].
    destruct (builder_bind_addr _ _); [apply IH|]. by intros [= <-]. }
  unfold endpoint_builder. rewrite Hb0, Hd. simpl.
  destruct direct_ip; simpl; [|done]. destruct (vlen _ =? 0) eqn:E; simpl; [done|].
  intros ?%Hall. split_and!; [done..|]. intros ->.
  apply Forall2_nil_inv_l in Haddrs. by rewrite Haddrs in E.
Qed.

End config.
