(* ===== verification/Endpoint.v ===== *)
(** Endpoints (endpoint.rs): the resource with its limits, the registry of
    active identities, bind, close and the other NIFs. *)
From S2P Require Import Prelude Prog Std Extern State Operations Identity EndpointConfig.
From stdpp Require Import list options.
Local Open Scope Z_scope.
Local Open Scope prog_scope.
Local Open Scope iroh_scope.

Record EndpointInfo : Type := {
  ei_endpoint_id : string;
  ei_relay_urls : list string;
  ei_ip_addrs : list string;
  ei_bound_sockets : list string;
  ei_profile : atom;
  ei_relay_enabled : bool;
  ei_address_lookup_enabled : bool;
  ei_direct_ip : bool;
  ei_online : bool;
  ei_closed : bool;
}.

Record EndpointSnapshot : Type := {
  es_active_endpoints : Z;
  es_active_identities : Z;
  es_active_operations : Z;
}.

Section endpoint.
Context `{net : NetApi}.

(** ** [impl EndpointResource] *)

(** [lock().ok().and_then(|value| ...)] *)
Definition locked {A} (m : mutex (option A)) : option A :=
  if poisoned m then None else content m.

Definition endpoint (e : nat) : nif (option Endpoint) := get_endpoint e (λ v, locked (ep_endpoint v)).

Definition address_lookup_enabled (e : nat) : nif bool :=
  get_endpoint e (λ v, ProfileKind.address_lookup_enabled (ep_profile v)).

(** [fetch_update]: one atomic update, or none when the closure gives [None]. *)
Definition begin_accept (e : nat) : nif bool :=
  on_endpoint e (λ v, if ep_pending_accepts v <? ep_max_pending_accepts v
                      then (true, set_ep_pending_accepts (ep_pending_accepts v + 1) v)
                      else (false, v)).

Definition finish_accept (e : nat) : nif unit :=
  on_endpoint e (λ v, (tt, if 1 <=? ep_pending_accepts v
                           then set_ep_pending_accepts (ep_pending_accepts v - 1) v else v)).

Definition claim_connection (e : nat) : nif bool :=
  on_endpoint e (λ v, if ep_active_connections v <? ep_max_connections v
                      then (true, set_ep_active_connections (ep_active_connections v + 1) v)
                      else (false, v)).

Definition release_connection (e : nat) : nif unit :=
  on_endpoint e (λ v, (tt, if 1 <=? ep_active_connections v
                           then set_ep_active_connections (ep_active_connections v - 1) v else v)).

Definition take_endpoint (e : nat) : nif (option Endpoint) :=
  on_endpoint e (λ v, if poisoned (ep_endpoint v) then (None, v)
                      else (content (ep_endpoint v), set_ep_endpoint (Mutex false None) v)).

(** The critical section of [release_identity] and of [release_reserved_identity]. *)
Definition remove_identity (endpoint_id : string) : nif unit :=
  modify (λ s, if poisoned (w_identities s) then s
               else set_w_identities (Mutex false (content (w_identities s) ∖ {[endpoint_id]})) s).

(** [ACTIVE_ENDPOINTS.fetch_add(1)] and [fetch_sub(1)] *)
Definition add_active_endpoint : nif unit :=
  modify (λ s, set_w_active_endpoints (wrap64 (w_active_endpoints s + 1)) s).
Definition sub_active_endpoint : nif unit :=
  modify (λ s, set_w_active_endpoints (wrap64 (w_active_endpoints s - 1)) s).

(** [released.swap(true)]: the endpoint ID if it was not released before. *)
Definition swap_released (e : nat) : nif (option string) :=
  on_endpoint e (λ v, (if ep_released v then None else Some (ep_endpoint_id v),
                       set_ep_released true v)).

Definition release_identity (e : nat) : nif unit :=
  let! first := swap_released e in
  match first with
  | Some endpoint_id => remove_identity endpoint_id ;! sub_active_endpoint
  | None => Ret tt
  end.

Definition abort (e : nat) : nif bool :=
  let! ep := take_endpoint e in
  release_identity e ;!
  Ret (match ep with Some _ => true | None => false end).

(** [impl Drop] and [Resource::down] *)
Definition endpoint_drop (e : nat) : nif unit := let! _ := abort e in Ret tt.
Definition endpoint_down (e : nat) : nif unit := let! _ := abort e in Ret tt.

(** ** The identity registry *)

Definition reserve_identity (endpoint_id : string) : nif (nresult unit) :=
  atomic (λ s,
    if poisoned (w_identities s) then
      (Err (endpoint_error atoms.internal atoms.endpoint_bind
              "endpoint identity registry is unavailable"), s)
    else if bool_decide (endpoint_id ∈ content (w_identities s)) then
      (Err (endpoint_error atoms.duplicate_identity atoms.endpoint_bind
              "endpoint identity is already active in this VM"), s)
    else (Ok tt, set_w_identities (Mutex false ({[endpoint_id]} ∪ content (w_identities s))) s)).

Definition release_reserved_identity (endpoint_id : string) : nif unit := remove_identity endpoint_id.

(** ** [endpoint_bind_start] *)

Definition limits_invalid (o : NativeEndpointOptions) : bool :=
  (o_max_connections o =? 0) || (1000000 <? o_max_connections o)
  || (o_max_pending_accepts o =? 0) || (1024 <? o_max_pending_accepts o).

(** The comparison chain that recomputes the profile for the resource. *)
Definition bound_profile (profile : atom) : ProfileKind :=
  if bool_decide (profile = atoms.n0) then ProfileKind.N0
  else if bool_decide (profile = atoms.direct) then ProfileKind.Direct
  else if bool_decide (profile = atoms.no_relay) then ProfileKind.NoRelay
  else ProfileKind.Custom.

(** [ResourceArc::new(EndpointResource { .. })] *)
Definition new_endpoint (ep : Endpoint) (endpoint_id : string) (profile : ProfileKind)
    (direct_ip : bool) (max_pending_accepts max_connections : Z) : nif nat :=
  atomic (λ s, let e := next_id (w_endpoints s) in
    (e, set_w_endpoints
          (<[e := EndpointRes (Mutex false (Some ep)) endpoint_id profile direct_ip false
                    0 max_pending_accepts 0 max_connections]> (w_endpoints s)) s)).

(** [runtime.spawn(builder.bind())] *)
Definition spawn_bind (b : builder) : nif nat :=
  let! tid := new_task bind_tasks in
  fork (let! start := await_in bind_tasks tid (λ s, [(Some tt, s)]) in
        let! out := match start with
                    | Some _ => await_in bind_tasks tid (poll_ext (builder_bind b))
                    | None => Ret None
                    end in
        complete_task bind_tasks tid out) ;!
  Ret tid.

(** The resource of a bound endpoint, handed to its owner. *)
Definition adopt_endpoint (ep : Endpoint) (endpoint_id : string) (profile : ProfileKind)
    (direct_ip : bool) (max_pending_accepts max_connections : Z) (caller : pid)
    : nif (nresult value) :=
  add_active_endpoint ;!
  let! e := new_endpoint ep endpoint_id profile direct_ip max_pending_accepts max_connections in
  let! monitored := monitor caller in
  if monitored : bool then Ret (Ok (VEndpoint e))
  else
    let! _ := abort e in
    endpoint_drop e ;!
    Ret (Err (endpoint_error atoms.cancelled atoms.endpoint_bind
                "endpoint owner is no longer available")).

Definition drop_endpoint_value (v : value) : nif unit :=
  match v with VEndpoint e => endpoint_drop e | _ => Ret tt end.

(** The result of the bind, once this task has decided to report it. *)
Definition bind_outcome (bind_result : option (option (option Endpoint))) (endpoint_id : string)
    (profile : ProfileKind) (direct_ip : bool) (max_pending_accepts max_connections : Z)
    (caller : pid) : nif (nresult value) :=
  match bind_result with
  | Some (Some (Some ep)) =>
      adopt_endpoint ep endpoint_id profile direct_ip max_pending_accepts max_connections caller
  | Some (Some None) =>
      release_reserved_identity endpoint_id ;!
      Ret (Err (endpoint_error atoms.bind_failed atoms.endpoint_bind "endpoint could not bind"))
  | Some None =>
      release_reserved_identity endpoint_id ;!
      Ret (Err (endpoint_error atoms.internal atoms.endpoint_bind "endpoint bind failed internally"))
  | None =>
      release_reserved_identity endpoint_id ;!
      Ret (Err (endpoint_error atoms.cancelled atoms.endpoint_bind "endpoint bind was cancelled"))
  end.

(** The task that supervises the bind. *)
Definition supervise_bind (o tid : nat) (caller : pid) (saved_ref : term) (endpoint_id : string)
    (profile : ProfileKind) (direct_ip : bool) (max_pending_accepts max_connections : Z) : nif unit :=
  let! bind_result := await_task bind_tasks o tid no_drop in
  let! should_complete := compare_exchange_state o RUNNING COMPLETED in
  (if should_complete : bool then
     let! result := bind_outcome bind_result endpoint_id profile direct_ip
                      max_pending_accepts max_connections caller in
     send_operation_result o drop_endpoint_value caller saved_ref result
   else release_reserved_identity endpoint_id) ;!
  demonitor caller ;!
  end_operation.

Definition endpoint_bind_start (caller : pid) (operation_ref : term) (secret_key : SecretKey)
    (options : NativeEndpointOptions) : nif (nresult nat) :=
  let! rt := runtime in
  match rt with
  | Err error => Ret (Err error)
  | Ok _ =>
      if limits_invalid options then
        Ret (Err (bind_invalid "endpoint limits are outside the supported range"))
      else
        match parse_config (o_profile options) (o_alpns options) (o_bind_addrs options)
                (o_relays options) (o_direct_ip options) with
        | Err error => Ret (Err error)
        | Ok config =>
            let endpoint_id := id_to_string (secret_public secret_key) in
            let! reserved := reserve_identity endpoint_id in
            match reserved with
            | Err error => Ret (Err error)
            | Ok _ =>
                match endpoint_builder config secret_key with
                | Err error => release_reserved_identity endpoint_id ;! Ret (Err error)
                | Ok b =>
                    let! o := new_operation in
                    let! monitored := monitor caller in
                    if negb monitored then
                      release_reserved_identity endpoint_id ;!
                      Ret (Err (endpoint_error atoms.cancelled atoms.endpoint_bind
                                  "endpoint owner is no longer available"))
                    else
                      begin_operation ;!
                      let! tid := spawn_bind b in
                      fork (supervise_bind o tid caller operation_ref endpoint_id
                              (bound_profile (o_profile options)) (o_direct_ip options)
                              (o_max_pending_accepts options) (o_max_connections options)) ;!
                      Ret (Ok o)
                end
            end
        end
  end.

(** ** The other NIFs *)

Definition endpoint_info_value (e : nat) : nif EndpointInfo :=
  let! profile := get_endpoint e ep_profile in
  let! endpoint_id := get_endpoint e ep_endpoint_id in
  let! direct_ip := get_endpoint e ep_direct_ip in
  let! maybe_endpoint := endpoint e in
  match maybe_endpoint with
  | Some value =>
      let! addr := observe (endpoint_addr value) in
      let! online := if ProfileKind.relay_enabled profile
                     then observe (λ x, existsb id (endpoint_home_relay_connected value x))
                     else observe (λ x, negb (endpoint_is_closed value x)) in
      let! sockets := observe (endpoint_bound_sockets value) in
      let! closed := observe (endpoint_is_closed value) in
      Ret {| ei_endpoint_id := endpoint_id;
             ei_relay_urls := url_to_string <$> addr_relay_urls addr;
             ei_ip_addrs := socket_addr_to_string <$> addr_ip_addrs addr;
             ei_bound_sockets := socket_addr_to_string <$> sockets;
             ei_profile := ProfileKind.atom profile;
             ei_relay_enabled := ProfileKind.relay_enabled profile;
             ei_address_lookup_enabled := ProfileKind.address_lookup_enabled profile;
             ei_direct_ip := direct_ip;
             ei_online := online;
             ei_closed := closed |}
  | None =>
      Ret {| ei_endpoint_id := endpoint_id;
             ei_relay_urls := [];
             ei_ip_addrs := [];
             ei_bound_sockets := [];
             ei_profile := ProfileKind.atom profile;
             ei_relay_enabled := ProfileKind.relay_enabled profile;
             ei_address_lookup_enabled := ProfileKind.address_lookup_enabled profile;
             ei_direct_ip := direct_ip;
             ei_online := false;
             ei_closed := true |}
  end.

Definition endpoint_info (e : nat) : nif (nresult EndpointInfo) :=
  let! info := endpoint_info_value e in Ret (Ok info).

Definition endpoint_abort (e : nat) : nif bool := abort e.

(** The async block of [endpoint_close_start]. *)
Definition close_future (e : nat) : future := Future
  (λ tid,
    let! taken := take_endpoint e in
    let! closed := match taken with
                   | Some value => await tid (poll_ext (endpoint_close_ext value))
                   | None => Ret (Some tt)
                   end in
    match closed with
    | Some _ => release_identity e ;! Ret (Some (Ok (VAtom atoms.closed)))
    | None => Ret None
    end)
  (Ret tt) no_drop.

Definition endpoint_close_start (caller : pid) (operation_ref : term) (e : nat)
    : nif (nresult nat) :=
  start_endpoint_operation caller operation_ref atoms.endpoint_close (close_future e).

Definition online_error (msg : string) : NativeError :=
  endpoint_error atoms.closed atoms.endpoint_online msg.

(** [select!] of [online()] and [closed()] *)
Definition online_or_closed (tid : nat) (value : Endpoint) : nif (option bool) :=
  await tid (λ s, ((λ o, (option_map (λ _, true) o.1, o.2)) <$> poll_ext (endpoint_online_ext value) s) ++
                  ((λ o, (option_map (λ _, false) o.1, o.2)) <$> poll_ext (endpoint_closed_ext value) s)).

Definition online_future (profile : ProfileKind) (value : option Endpoint) : future := Future
  (λ tid,
    match value with
    | None => Ret (Some (Err (online_error "endpoint is closed")))
    | Some value =>
        if ProfileKind.relay_enabled profile then
          let! r := online_or_closed tid value in
          Ret (option_map (λ online : bool,
                 if online then Ok (VAtom atoms.ok)
                 else Err (online_error "endpoint closed before becoming online")) r)
        else
          let! closed := observe (endpoint_is_closed value) in
          Ret (Some (if closed : bool then Err (online_error "endpoint is closed")
                     else Ok (VAtom atoms.ok)))
    end)
  (Ret tt) no_drop.

Definition endpoint_await_online_start (caller : pid) (operation_ref : term) (e : nat)
    : nif (nresult nat) :=
  let! profile := get_endpoint e ep_profile in
  let! value := endpoint e in
  start_endpoint_operation caller operation_ref atoms.endpoint_online (online_future profile value).

Definition endpoint_snapshot : nif (nresult EndpointSnapshot) :=
  let! identities := read (λ s, if poisoned (w_identities s) then 0
                                else Z.of_nat (size (content (w_identities s)))) in
  let! endpoints := read w_active_endpoints in
  let! operations := read w_active_operations in
  Ret (Ok {| es_active_endpoints := endpoints; es_active_identities := identities;
             es_active_operations := operations |}).

(** ** Identities are exclusive *)

(** [TId id]: the thread answers for the registry entry [id], which no unreleased
    resource backs; [TCount]: it answers for one unit of [ACTIVE_ENDPOINTS]. *)
Inductive ep_token : Type := TId (id : string) | TCount.

#[export] Instance ep_token_eq_dec : EqDecision ep_token.
Proof. solve_decision. Defined.
#[export] Instance ep_token_countable : Countable ep_token.
Proof.
  refine (inj_countable' (λ t, match t with TId i => Some i | TCount => None end)
            (λ x, match x with Some i => TId i | None => TCount end) _).
  by intros [].
Defined.

Definition identity_of (v : EndpointResource) : string * bool := (ep_endpoint_id v, ep_released v).

Definition ep_view (s : world) : mutex (gset string) * gmap nat (string * bool) * Z :=
  (w_identities s, identity_of <$> w_endpoints s, w_active_endpoints s).

Definition holds (id : string) (v : string * bool) : Z :=
  if bool_decide (v = (id, false)) then 1 else 0.
Definition unreleased (v : string * bool) : Z := if v.2 then 0 else 1.
(** Each entry of the registry is answered for once: by the unreleased resource
    with that identity, or by a thread. *)
Definition ep_inv (v : mutex (gset string) * gmap nat (string * bool) * Z)
    (g : gmultiset ep_token) : Prop :=
  poisoned v.1.1 = false ∧
  (∀ id, (if bool_decide (id ∈ content v.1.1) then 1 else 0) =
         msum (holds id) v.1.2 + tok (TId id) g) ∧
  v.2 = wrap64 (msum unreleased v.1.2 + tok TCount g).

Abbreviation ep_wp p Q g := (wp (λ s, ep_inv (ep_view s)) p Q g).

Lemma holds_nonneg id v : 0 ≤ holds id v.
Proof. unfold holds. case_bool_decide; lia. Qed.

Lemma ep_wp_reserve id (Q : nresult unit → gmultiset ep_token → Prop) g :
  Q (Ok tt) ({[+ TId id +]} ⊎ g) → (∀ e, Q (Err e) g) → ep_wp (reserve_identity id) Q g.
Proof.
  intros Hok Herr. apply wp_atomic. intros s F (Hp & Hid & Hn). simpl in *. rewrite Hp.
  case_bool_decide as Hin; simpl; [by exists g|]. eexists. split; [|exact Hok].
  split_and!; simpl; [done| |by toks]. intros id'. specialize (Hid id'). toks.
  destruct (decide (id' = id)) as [->|].
  - rewrite decide_True by done. rewrite bool_decide_false in Hid by done.
    rewrite bool_decide_true by set_solver. lia.
  - rewrite decide_False by congruence. rewrite (bool_decide_ext _ (id' ∈ content (w_identities s)));
      [lia|set_solver].
Qed.

Lemma ep_wp_remove id (Q : unit → gmultiset ep_token → Prop) g :
  Q tt g → ep_wp (remove_identity id) Q ({[+ TId id +]} ⊎ g).
Proof.
  intros HQ. apply wp_atomic. intros s F (Hp & Hid & Hn). simpl in *. rewrite Hp. exists g.
  split; [|done]. split_and!; simpl; [done| |by toks]. intros id'. assert (Hid' := Hid id').
  assert (0 ≤ msum (holds id') (identity_of <$> w_endpoints s)).
  { apply msum_nonneg. intros i v _. apply holds_nonneg. }
  assert (0 ≤ tok (TId id') g) by apply tok_nonneg. assert (0 ≤ tok (TId id') F) by apply tok_nonneg.
  toks. destruct (decide (id' = id)) as [->|].
  - rewrite decide_True in Hid' by done. rewrite bool_decide_false by set_solver.
    case_bool_decide; lia.
  - rewrite decide_False in Hid' by congruence.
    rewrite (bool_decide_ext _ (id' ∈ content (w_identities s))); [lia|set_solver].
Qed.

Lemma ep_wp_add (Q : unit → gmultiset ep_token → Prop) g :
  Q tt ({[+ TCount +]} ⊎ g) → ep_wp add_active_endpoint Q g.
Proof.
  intros HQ. apply wp_atomic. intros s F (Hp & Hid & Hn). eexists. split; [|exact HQ].
  split_and!; simpl in *; [done| |].
  - intros id. rewrite Hid. toks. done.
  - rewrite Hn, wrap64_add. f_equal. toks. lia.
Qed.

Lemma ep_wp_sub (Q : unit → gmultiset ep_token → Prop) g :
  Q tt g → ep_wp sub_active_endpoint Q ({[+ TCount +]} ⊎ g).
Proof.
  intros HQ. apply wp_atomic. intros s F (Hp & Hid & Hn). exists g. split; [|exact HQ].
  split_and!; simpl in *; [done| |].
  - intros id. rewrite Hid. toks. done.
  - rewrite Hn, wrap64_sub. f_equal. toks. lia.
Qed.

Lemma next_id_fmap {V W} (h : V → W) (m : gmap nat V) : (h <$> m) !! next_id m = None.
Proof. by rewrite lookup_fmap, next_id_fresh. Qed.

Lemma ep_wp_new ep id profile d mp mc (Q : nat → gmultiset ep_token → Prop) g :
  (∀ e, Q e g) → ep_wp (new_endpoint ep id profile d mp mc) Q ({[+ TId id +]} ⊎ ({[+ TCount +]} ⊎ g)).
Proof.
  intros HQ. apply wp_atomic. intros s F (Hp & Hid & Hn). exists g. split; [|apply HQ].
  split_and!; simpl in *; [done| |]; rewrite ?fmap_insert.
  - intros id'. rewrite Hid. rewrite msum_insert_new by apply next_id_fmap.
    unfold holds at 2, identity_of at 2. simpl. toks.
    destruct (decide (TId id' = TId id)) as [[= ->]|Hne].
    + rewrite bool_decide_true by done. simpl. lia.
    + rewrite bool_decide_false by congruence. simpl. lia.
  - rewrite Hn, msum_insert_new by apply next_id_fmap. unfold unreleased at 2. toks. simpl.
    f_equal. lia.
Qed.

Lemma holds_identity id v : holds id (identity_of v) =
  if decide (id = ep_endpoint_id v) then unreleased (identity_of v) else 0.
Proof.
  unfold holds, identity_of, unreleased. simpl.
  repeat case_decide; case_bool_decide; destruct (ep_released v); simplify_eq/=; congruence.
Qed.

Lemma ep_wp_swap e (Q : option string → gmultiset ep_token → Prop) g :
  (∀ id, Q (Some id) ({[+ TId id +]} ⊎ ({[+ TCount +]} ⊎ g))) → Q None g →
  ep_wp (swap_released e) Q g.
Proof.
  intros Hs Hn0. apply wp_atomic_opt. intros s F r s' (Hp & Hid & Hn) Hr.
  destruct (w_endpoints s !! e) as [v|] eqn:He; [|done]. injection Hr as <- <-. simpl in *.
  assert (Hv : (identity_of <$> w_endpoints s) !! e = Some (identity_of v)).
  { rewrite lookup_fmap. by rewrite He. }
  set (v' := set_ep_released true v).
  assert ((∀ id, holds id (identity_of v') = 0) ∧ unreleased (identity_of v') = 0) as [E1 E2].
  { split; [intros id; rewrite holds_identity; by case_decide|done]. }
  assert (Hsum : ∀ f, msum f (identity_of <$> <[e:=v']> (w_endpoints s)) =
    msum f (identity_of <$> w_endpoints s) - f (identity_of v) + f (identity_of v')).
  { intros f. rewrite fmap_insert. by apply msum_update. }
  destruct (ep_released v) eqn:Hrel.
  - assert (unreleased (identity_of v) = 0) by (unfold unreleased; simpl; rewrite Hrel; done).
    exists g. split; [|done]. split_and!; simpl; [done| |].
    + intros id. rewrite Hid, Hsum, E1, holds_identity. case_decide; lia.
    + rewrite Hn, Hsum. f_equal. lia.
  - assert (unreleased (identity_of v) = 1) by (unfold unreleased; simpl; rewrite Hrel; done).
    eexists. split; [|apply Hs]. split_and!; simpl; [done| |].
    + intros id. rewrite Hid, Hsum, E1, holds_identity. toks. repeat case_decide; simplify_eq; lia.
    + rewrite Hn, Hsum. f_equal. toks. lia.
Qed.

#[export] Instance ep_view_aside : Aside ep_view.
Proof. by constructor. Qed.

Lemma frames_on_endpoint {R T} (proj : world → T) (part : EndpointResource → T) e
    (f : EndpointResource → R * EndpointResource) :
  (∀ s v v', w_endpoints s !! e = Some v → part v' = part v →
     proj (set_w_endpoints (<[e := v']> (w_endpoints s)) s) = proj s) →
  (∀ v, part (f v).2 = part v) → frames proj (on_endpoint e f).
Proof.
  intros Hproj Hf. apply within_atomic_opt. intros s r s' Hs. outcome. unfold same.
  eapply Hproj; [done|apply Hf].
Qed.

Lemma ep_view_on_endpoint {R} e (f : EndpointResource → R * EndpointResource) :
  (∀ v, identity_of (f v).2 = identity_of v) → frames ep_view (on_endpoint e f).
Proof.
  intros Hf. apply within_atomic_opt. intros s r s' Hs. outcome. unfold same, ep_view. simpl.
  same_entry.
Qed.

Lemma ep_view_begin_accept e : frames ep_view (begin_accept e).
Proof. apply ep_view_on_endpoint. intros v. by case_match. Qed.
Lemma ep_view_finish_accept e : frames ep_view (finish_accept e).
Proof. apply ep_view_on_endpoint. intros v. simpl. by case_match. Qed.
Lemma ep_view_claim_connection e : frames ep_view (claim_connection e).
Proof. apply ep_view_on_endpoint. intros v. by case_match. Qed.
Lemma ep_view_release_connection e : frames ep_view (release_connection e).
Proof. apply ep_view_on_endpoint. intros v. simpl. by case_match. Qed.
Lemma ep_view_take_endpoint e : frames ep_view (take_endpoint e).
Proof. apply ep_view_on_endpoint. intros v. by case_match. Qed.

#[local] Hint Resolve ep_view_begin_accept ep_view_finish_accept ep_view_claim_connection
  ep_view_release_connection ep_view_take_endpoint : within.

Lemma ep_wp_release e (Q : unit → gmultiset ep_token → Prop) g :
  Q tt g → ep_wp (release_identity e) Q g.
Proof.
  intros HQ. apply wp_bind, ep_wp_swap; [intros id|done].
  by apply wp_bind, ep_wp_remove, ep_wp_sub.
Qed.

Lemma ep_wp_abort e (Q : bool → gmultiset ep_token → Prop) g :
  (∀ b, Q b g) → ep_wp (abort e) Q g.
Proof.
  intros HQ. apply wp_bind. wp_skip. apply wp_bind, ep_wp_release. apply HQ.
Qed.

Lemma ep_wp_endpoint_drop e (Q : unit → gmultiset ep_token → Prop) g :
  Q tt g → ep_wp (endpoint_drop e) Q g.
Proof. intros HQ. by apply wp_bind, ep_wp_abort. Qed.

Lemma ep_wp_bind_outcome r id profile d mp mc caller (Q : nresult value → gmultiset ep_token → Prop) g :
  (∀ v, Q v g) → ep_wp (bind_outcome r id profile d mp mc caller) Q ({[+ TId id +]} ⊎ g).
Proof.
  intros HQ. destruct r as [[[ep|]|]|]; [|apply wp_bind, ep_wp_remove, HQ..].
  apply wp_bind, ep_wp_add. rewrite (assoc_L (⊎)), (comm_L (⊎) {[+ TCount +]}), <-(assoc_L (⊎)).
  apply wp_bind, ep_wp_new. intros e. apply wp_bind. wp_skip. destruct a; [apply HQ|].
  apply wp_bind, ep_wp_abort. intros b. apply wp_bind, ep_wp_endpoint_drop, HQ.
Qed.

Lemma ep_wp_supervise_bind o tid caller ref id profile d mp mc :
  ep_wp (supervise_bind o tid caller ref id profile d mp mc) fin {[+ TId id +]}.
Proof.
  rewrite <-(right_id_L ∅ (⊎) {[+ TId id +]}).
  assert (Htail : ∀ r, ep_wp (let! b := compare_exchange_state o RUNNING COMPLETED in
     (if b : bool then let! result := bind_outcome r id profile d mp mc caller in
                       send_operation_result o drop_endpoint_value caller ref result
      else release_reserved_identity id) ;! demonitor caller ;! end_operation) fin ({[+ TId id +]} ⊎ ∅)).
  { intros r. apply wp_bind. wp_skip. apply wp_bind, (wp_mono _ _ fin).
    { intros [] ? ->. apply wp_bind. wp_skip. by wp_skip. }
    destruct a; [|by apply ep_wp_remove]. apply wp_bind, ep_wp_bind_outcome. intros v.
    apply wp_bind. wp_skip. apply wp_when; intros _; [|done].
    destruct v as [[]|]; try done. by apply ep_wp_endpoint_drop. }
  apply wp_bind, wp_bind. wp_skip. destruct a as [out|]; [apply Htail|].
  apply wp_bind. wp_skip. apply wp_bind. wp_skip. apply Htail.
Qed.

Lemma ep_wp_spawn_bind b (Q : nat → gmultiset ep_token → Prop) g :
  (∀ tid, Q tid g) → ep_wp (spawn_bind b) Q g.
Proof.
  intros HQ. apply wp_bind. wp_skip. rename a into tid. apply wp_bind, wp_fork_nil; [|apply HQ].
  apply wp_bind, wp_skip_step; [apply await_start_aside; apply _|]. intros start.
  assert (Htail : ∀ out, ep_wp (complete_task bind_tasks tid out) fin ∅).
  { intros out. apply wp_skip_step; [apply complete_bind_task_aside; apply _|by intros []]. }
  apply wp_bind. destruct start; [|apply Htail].
  apply wp_skip_step; [apply await_ext_aside; apply _|apply Htail].
Qed.

Lemma ep_wp_endpoint_bind_start caller ref key options (Q : nresult nat → gmultiset ep_token → Prop) g :
  (∀ r, Q r g) → ep_wp (endpoint_bind_start caller ref key options) Q g.
Proof.
  intros HQ. apply wp_bind. wp_skip. destruct a as [[]|error]; [|apply HQ].
  destruct (limits_invalid options); [apply HQ|]. destruct (parse_config _ _ _ _ _); [|apply HQ].
  apply wp_bind, ep_wp_reserve; [|intros; apply HQ].
  destruct (endpoint_builder _ _); [|apply wp_bind, ep_wp_remove, HQ].
  apply wp_bind. wp_skip. apply wp_bind. wp_skip. destruct a2; cbn [negb]; [|apply wp_bind, ep_wp_remove, HQ].
  apply wp_bind. wp_skip. apply wp_bind, ep_wp_spawn_bind. intros tid.
  eapply wp_bind, wp_fork; [done|apply ep_wp_supervise_bind|apply HQ].
Qed.

Lemma ep_close_future e : future_wp ep_view ep_inv (close_future e) ∅.
Proof.
  split; [|by split]. intros tid. apply wp_bind. wp_skip. apply wp_bind.
  assert (Hk : ∀ closed : option unit, ep_wp (match closed with
     | Some _ => release_identity e ;! Ret (Some (Ok (VAtom atoms.closed)))
     | None => Ret None end%prog : nif (option (nresult value))) (λ _ g', g' = (∅ : gmultiset ep_token)) ∅).
  { intros [[]|]; [|done]. by apply wp_bind, ep_wp_release. }
  destruct a; [|apply Hk]. apply wp_skip_step; [apply await_ext_aside; apply _|apply Hk].
Qed.

Lemma ep_wp_endpoint_close_start caller ref e (Q : nresult nat → gmultiset ep_token → Prop) g :
  (∀ r, Q r g) → ep_wp (endpoint_close_start caller ref e) Q g.
Proof.
  intros HQ. unfold endpoint_close_start.
  apply (wp_start_endpoint_operation ep_view ep_inv _ _ _ _ gnil g);
    [symmetry; apply gop_nil_l|apply ep_close_future|done].
Qed.

(** ** Endpoint operations as operations *)

Lemma op_wp_bind_outcome r id profile d mp mc caller (Q : nresult value → gmultiset op_token → Prop) g :
  (∀ v, Q v g) → op_wp (bind_outcome r id profile d mp mc caller) Q g.
Proof. intros HQ. wp_skip. apply HQ. Qed.

Lemma op_wp_endpoint_bind_start caller ref key options (Q : nresult nat → gmultiset op_token → Prop) g :
  (∀ r, Q r g) → op_wp (endpoint_bind_start caller ref key options) Q g.
Proof.
  intros HQ. apply wp_bind. wp_skip. destruct a as [[]|error]; [|apply HQ].
  destruct (limits_invalid options); [apply HQ|]. destruct (parse_config _ _ _ _ _); [|apply HQ].
  apply wp_bind. wp_skip. destruct a0; [|apply HQ].
  destruct (endpoint_builder _ _); [|apply wp_bind; wp_skip; apply HQ].
  apply wp_bind, op_wp_new. intros o. apply wp_bind. wp_skip.
  destruct a2; cbn [negb]; [|apply wp_bind; wp_skip; apply HQ].
  apply wp_bind. wp_skip. apply wp_bind. wp_skip. apply wp_bind, wp_fork_nil; [|apply HQ].
  assert (Htail : ∀ r, op_wp (let! b := compare_exchange_state o RUNNING COMPLETED in
     (if b : bool then let! result := bind_outcome r (id_to_string (secret_public key))
            (bound_profile (o_profile options)) (o_direct_ip options)
            (o_max_pending_accepts options) (o_max_connections options) caller in
          send_operation_result o drop_endpoint_value caller ref result
      else release_reserved_identity (id_to_string (secret_public key))) ;! demonitor caller ;! end_operation) fin gnil).
  { intros r. apply wp_bind, op_wp_complete; apply wp_bind.
    - apply wp_bind, op_wp_bind_outcome. intros v. apply wp_bind, op_wp_send. intros b. by wp_skips.
    - by wp_skips. }
  apply wp_bind, wp_bind, op_wp_join_or_cancelled. intros [out|]; [apply Htail|].
  apply wp_bind. wp_skip. apply wp_bind. wp_skip. apply Htail.
Qed.

Lemma active_wp_endpoint_bind_start caller ref key options (Q : nresult nat → Z → Prop) g :
  (∀ r, Q r g) → active_wp (endpoint_bind_start caller ref key options) Q g.
Proof.
  intros HQ. apply wp_bind. wp_skip. destruct a as [[]|error]; [|apply HQ].
  destruct (limits_invalid options); [apply HQ|]. destruct (parse_config _ _ _ _ _); [|apply HQ].
  apply wp_bind. wp_skip. destruct a0; [|apply HQ].
  destruct (endpoint_builder _ _); [|apply wp_bind; wp_skip; apply HQ].
  apply wp_bind. wp_skip. apply wp_bind. wp_skip.
  destruct a3; cbn [negb]; [|apply wp_bind; wp_skip; apply HQ].
  apply wp_bind, active_wp_begin, wp_bind. wp_skip.
  apply wp_bind, (wp_fork _ _ _ 1 g); [done| |apply HQ].
  apply wp_bind. wp_skip. apply wp_bind. wp_skip. apply wp_bind. wp_skip.
  apply wp_bind. wp_skip. by apply (active_wp_end _ 0).
Qed.

Lemma op_final_endpoint_bind_start caller ref key options :
  within op_final (endpoint_bind_start caller ref key options).
Proof. within_solve. Qed.

Lemma close_future_frames {T} (proj : world → T) `{!Aside proj} e :
  frames proj (take_endpoint e) → frames proj (release_identity e) → future_within (same proj) (close_future e).
Proof.
  intros Ht Hr. split; [|by split]. intros tid. apply within_bind; [done|]. intros [v|].
  - apply within_bind; [apply await_ext_aside; apply _|]. intros [[]|]; [|done]. by apply within_bind.
  - by apply within_bind; [|intros []; [apply within_bind|]].
Qed.

Lemma online_future_within Rel profile v :
  (∀ s, Rel s s) → (∀ s x, Rel s (set_w_ext x s)) → future_within Rel (online_future profile v).
Proof.
  intros HR Hx. split; [|by split]. intros tid. cbn [online_future fut_body].
  destruct v as [v|]; [|done]. destruct (ProfileKind.relay_enabled profile).
  - apply within_bind; [|done]. apply within_act. unfold online_or_closed, poll_ext. intros s r s' Hin.
    outcome; auto.
  - apply within_bind; [by within_solve|done].
Qed.

End endpoint.

Abbreviation ep_wp p Q g := (wp (λ s, ep_inv (ep_view s)) p Q g).

#[export] Hint Resolve ep_view_begin_accept ep_view_finish_accept ep_view_claim_connection
  ep_view_release_connection ep_view_take_endpoint op_final_endpoint_bind_start : within.
