(* ===== verification/Connection.v ===== *)
(** Connections (connection.rs): the resource with its single release, the
    accept permit, dialling, accepting with an allowlist, and the other NIFs. *)
From S2P Require Import Prelude Prog Std Extern State Operations Identity EndpointConfig Endpoint.
From stdpp Require Import list options.
Local Open Scope Z_scope.
Local Open Scope prog_scope.
Local Open Scope iroh_scope.

Record NativeDialTarget : Type := {
  dt_endpoint_id : string;
  dt_relay_urls : list string;
  dt_ip_addrs : list string;
}.

Record ConnectionInfo : Type := {
  ci_remote_id : string;
  ci_alpn : string;
  ci_side : atom;
  ci_role : atom;
  ci_stable_id : Z;
  ci_closed : bool;
}.

Record PathInfo : Type := {
  pi_kind : atom;
  pi_remote : string;
  pi_rtt_microseconds : Z;
  pi_selected : bool;
}.

Definition connection_error (cat op : atom) (msg : string) : NativeError := native_error cat op msg.

Section connection.
Context `{net : NetApi}.

(** ** [impl ConnectionResource] *)

(** [compare_exchange(false, true, ..).is_ok()] *)
Definition begin_datagram_send (c : nat) : nif bool :=
  on_connection c (λ r, if cr_datagram_send_busy r then (false, r)
                        else (true, set_cr_datagram_send_busy true r)).
Definition finish_datagram_send (c : nat) : nif unit :=
  on_connection c (λ r, (tt, set_cr_datagram_send_busy false r)).
Definition begin_datagram_recv (c : nat) : nif bool :=
  on_connection c (λ r, if cr_datagram_recv_busy r then (false, r)
                        else (true, set_cr_datagram_recv_busy true r)).
Definition finish_datagram_recv (c : nat) : nif unit :=
  on_connection c (λ r, (tt, set_cr_datagram_recv_busy false r)).

Definition connection (c : nat) : nif (option Connection) :=
  get_connection c (λ r, if negb (cr_released r) then Some (cr_connection r) else None).

(** [released.swap(true)]: what to release if it was not released before. *)
Definition swap_connection_released (c : nat) : nif (option (Connection * nat)) :=
  on_connection c (λ r, (if cr_released r then None else Some (cr_connection r, cr_endpoint r),
                         set_cr_released true r)).

(** [ACTIVE_CONNECTIONS.fetch_add(1)] and [fetch_sub(1)] *)
Definition add_active_connection : nif unit :=
  modify (λ s, set_w_active_connections (wrap64 (w_active_connections s + 1)) s).
Definition sub_active_connection : nif unit :=
  modify (λ s, set_w_active_connections (wrap64 (w_active_connections s - 1)) s).

Definition close (c : nat) : nif bool :=
  let! first := swap_connection_released c in
  match first with
  | Some (conn, e) =>
      external_ (conn_close_ext conn) ;!
      release_connection e ;!
      sub_active_connection ;!
      Ret true
  | None => Ret false
  end.

(** [impl Drop] and [Resource::down] *)
Definition connection_drop (c : nat) : nif unit := let! _ := close c in Ret tt.
Definition connection_down (c : nat) : nif unit := let! _ := close c in Ret tt.

(** [impl Drop for AcceptPermit] *)
Definition accept_permit_drop (e : nat) : nif unit := finish_accept e.

(** ** Dial targets and new connections *)

Definition parse_target (target : NativeDialTarget) : nresult EndpointAddr :=
  let? endpoint_id := ok_or (id_from_str (dt_endpoint_id target))
    (connection_error atoms.invalid_argument atoms.connection_connect
       "dial target endpoint ID is invalid") in
  map_err (λ _, connection_error atoms.invalid_argument atoms.connection_connect
                  "dial target address is invalid")
    (build_addr (id_as_bytes endpoint_id) (dt_relay_urls target) (dt_ip_addrs target)).

(** [ResourceArc::new(ConnectionResource { .. })] *)
Definition new_connection (conn : Connection) (e : nat) (role : ConnectionRole) : nif nat :=
  atomic (λ s, let c := next_id (w_connections s) in
    (c, set_w_connections
          (<[c := ConnectionRes conn e (id_to_string (conn_remote_id conn))
                    (from_utf8_lossy (conn_alpn conn)) role false false false]> (w_connections s)) s)).

Definition wrap_connection (conn : Connection) (e : nat) (owner : pid) (role : ConnectionRole)
    (operation : atom) : nif (nresult nat) :=
  let! claimed := claim_connection e in
  if negb claimed then
    external_ (conn_close_ext conn) ;!
    Ret (Err (connection_error atoms.capacity operation "endpoint connection limit is reached"))
  else
    add_active_connection ;!
    let! c := new_connection conn e role in
    let! monitored := monitor owner in
    if negb monitored then
      let! _ := close c in
      connection_drop c ;!
      Ret (Err (connection_error atoms.cancelled operation "connection owner is no longer available"))
    else Ret (Ok c).

(** The connection as the value of a future. *)
Definition wrap_value (p : nif (nresult nat)) : nif (option (nresult value)) :=
  let! r := p in
  Ret (Some (match r with Ok c => Ok (VConnection c) | Err e => Err e end)).

(** A completion that nobody received drops the connection. *)
Definition drop_connection_value (v : value) : nif unit :=
  match v with VConnection c => connection_drop c | _ => Ret tt end.

(** ** [connection_connect_start] *)

Definition connect_alpn_invalid (alpn : string) : bool :=
  is_empty_str alpn || (255 <? str_len alpn) || has_byte 0 alpn.

Definition connect_future (value : Endpoint) (target : EndpointAddr) (alpn : string)
    (e : nat) (owner : pid) : future := Future
  (λ tid,
    let?! conn := await_or tid (endpoint_connect value target (as_bytes alpn))
      (connection_error atoms.refused atoms.connection_connect "connection handshake failed") in
    wrap_value (wrap_connection conn e owner Outgoing atoms.connection_connect))
  (Ret tt) drop_connection_value.

Definition connection_connect_start (caller owner : pid) (operation_ref : term) (e : nat)
    (target : NativeDialTarget) (alpn : string) : nif (nresult nat) :=
  if connect_alpn_invalid alpn then
    Ret (Err (connection_error atoms.invalid_argument atoms.connection_connect "ALPN is invalid"))
  else
    match parse_target target with
    | Err error => Ret (Err error)
    | Ok target =>
        let! lookup := address_lookup_enabled e in
        if addr_is_empty target && negb lookup then
          Ret (Err (connection_error atoms.resolution atoms.connection_connect
                      "endpoint ID has no configured address information"))
        else
          let! value := endpoint e in
          match value with
          | None => Ret (Err (connection_error atoms.closed atoms.connection_connect
                                "endpoint is closed"))
          | Some value =>
              start_endpoint_operation caller operation_ref atoms.connection_connect
                (connect_future value target alpn e owner)
          end
    end.

(** ** [connection_accept_start] *)

(** The allowlist in canonical form. *)
Definition parse_allowed (allowed_ids : list string) : nresult (gset string) :=
  let? ids := collect ((λ v, ok_or (option_map id_to_string (id_from_str v))
      (connection_error atoms.invalid_argument atoms.connection_accept "peer allowlist is invalid"))
    <$> allowed_ids) in
  Ok (list_to_set ids).

Definition accept_error (cat : atom) (msg : string) : NativeError :=
  connection_error cat atoms.connection_accept msg.

Definition accept_future (value : Endpoint) (e : nat) (owner : pid) (allow_all : bool)
    (allowed_ids : gset string) : future := Future
  (λ tid,
    let?! incoming := await_or tid (endpoint_accept value)
      (accept_error atoms.closed "endpoint closed while accepting") in
    let?! accepting := (let! r := external (incoming_accept incoming) in
       Ret (Some (ok_or r (accept_error atoms.refused "incoming connection was refused")))) in
    let?! conn := await_or tid (accepting_await accepting)
      (accept_error atoms.refused "incoming handshake failed") in
    if negb allow_all && negb (bool_decide (id_to_string (conn_remote_id conn) ∈ allowed_ids)) then
      external_ (conn_close_ext conn) ;!
      Ret (Some (Err (accept_error atoms.unauthorized "authenticated peer is not allowed")))
    else wrap_value (wrap_connection conn e owner Incoming atoms.connection_accept))
  (accept_permit_drop e) drop_connection_value.

Definition connection_accept_start (caller owner : pid) (operation_ref : term) (e : nat)
    (allow_all : bool) (allowed_ids : list string) : nif (nresult nat) :=
  match parse_allowed allowed_ids with
  | Err error => Ret (Err error)
  | Ok allowed_ids =>
      let! begun := begin_accept e in
      if negb begun then
        Ret (Err (accept_error atoms.busy "an endpoint accept is already pending"))
      else
        let! value := endpoint e in
        match value with
        | None => accept_permit_drop e ;! Ret (Err (accept_error atoms.closed "endpoint is closed"))
        | Some value =>
            start_endpoint_operation caller operation_ref atoms.connection_accept
              (accept_future value e owner allow_all allowed_ids)
        end
  end.

(** ** The other NIFs *)

Definition info_value (c : nat) : nif ConnectionInfo :=
  let! r := get_connection c id in
  let! released := get_connection c cr_released in
  let! closed := if released : bool then Ret true
                 else observe (λ x, match conn_close_reason (cr_connection r) x with
                                    | Some _ => true | None => false end) in
  Ret {| ci_remote_id := cr_remote_id r;
         ci_alpn := cr_alpn r;
         ci_side := if conn_side_is_client (cr_connection r) then atoms.client else atoms.server;
         ci_role := match cr_role r with Outgoing => atoms.outgoing | Incoming => atoms.incoming end;
         ci_stable_id := conn_stable_id (cr_connection r);
         ci_closed := closed |}.

Definition connection_info (c : nat) : nif (nresult ConnectionInfo) :=
  let! info := info_value c in Ret (Ok info).

(** [rtt().as_micros().try_into().unwrap_or(u64::MAX)] *)
Definition rtt_to_u64 (micros : Z) : Z :=
  if (0 <=? micros) && (micros <=? U64_MAX) then micros else U64_MAX.

Definition path_info (p : path_value) : PathInfo :=
  {| pi_kind := if is_ip p then atoms.direct else if is_relay p then atoms.relay else atoms.unknown;
     pi_remote := match remote_addr p with
                  | Ip addr => socket_addr_to_string addr
                  | Relay url => url_to_string url
                  | OtherAddr text => text
                  end;
     pi_rtt_microseconds := rtt_to_u64 (rtt_micros p);
     pi_selected := true |}.

Definition connection_path (c : nat) : nif (nresult (option PathInfo)) :=
  let! conn := get_connection c cr_connection in
  let! paths := observe (conn_paths conn) in
  Ret (Ok (option_map path_info (List.find is_selected paths))).

Definition connection_close (c : nat) : nif bool := close c.

Definition closed_future (value : Connection) (c : nat) : future := Future
  (λ tid,
    let! r := await tid (poll_ext (conn_closed_ext value)) in
    match r with
    | Some _ => let! _ := close c in Ret (Some (Ok (VAtom atoms.closed)))
    | None => Ret None
    end)
  (Ret tt) no_drop.

Definition connection_closed_start (caller : pid) (operation_ref : term) (c : nat)
    : nif (nresult nat) :=
  let! value := get_connection c cr_connection in
  start_endpoint_operation caller operation_ref atoms.connection_closed (closed_future value c).

Definition connection_close_reason (c : nat) : nif (nresult atom) :=
  let! conn := get_connection c cr_connection in
  let! reason := observe (conn_close_reason conn) in
  let! closed := match reason with Some _ => Ret true | None => get_connection c cr_released end in
  Ret (Ok (if closed : bool then atoms.closed else atoms.nil)).

Definition connection_snapshot : nif (nresult Z) := let! n := read w_active_connections in Ret (Ok n).

(** ** Limits *)

Record limits : Type := Limits {
  l_active : Z;
  l_max : Z;
  l_pending : Z;
  l_max_pending : Z;
}.

Definition limits_of (v : EndpointResource) : limits :=
  Limits (ep_active_connections v) (ep_max_connections v)
    (ep_pending_accepts v) (ep_max_pending_accepts v).
Definition owned_by (r : ConnectionResource) : nat * bool := (cr_endpoint r, cr_released r).

(** [TSlot e]: the thread answers for one claimed connection of endpoint [e] that
    no open resource backs; [TActive]: for one unit of [ACTIVE_CONNECTIONS];
    [TPermit e]: for one pending accept. *)
Inductive conn_token : Type := TSlot (e : nat) | TActive | TPermit (e : nat).

#[export] Instance conn_token_eq_dec : EqDecision conn_token.
Proof. solve_decision. Defined.
#[export] Instance conn_token_countable : Countable conn_token.
Proof.
  refine (inj_countable'
    (λ t, match t with TSlot e => inl (inl e) | TPermit e => inl (inr e) | TActive => inr tt end)
    (λ x, match x with inl (inl e) => TSlot e | inl (inr e) => TPermit e | inr _ => TActive end) _).
  by intros [].
Defined.

Definition conn_state : Type := gmap nat limits * gmap nat (nat * bool) * Z.
Definition conn_view (s : world) : conn_state :=
  (limits_of <$> w_endpoints s, owned_by <$> w_connections s, w_active_connections s).

Definition open_on (e : nat) (v : nat * bool) : Z := if decide (v = (e, false)) then 1 else 0.
Definition is_open (v : nat * bool) : Z := if v.2 then 0 else 1.

(** What the counters of one endpoint say: [slots] connections are open or
    claimed, [permits] accepts are pending. *)
Definition limits_ok (o : option limits) (slots permits : Z) : Prop :=
  match o with
  | Some l => l_active l = slots ∧ l_active l ≤ Z.max 0 (l_max l) ∧
              l_pending l = permits ∧ l_pending l ≤ Z.max 0 (l_max_pending l)
  | None => slots = 0 ∧ permits = 0
  end.

Definition conn_inv (v : conn_state) (g : gmultiset conn_token) : Prop :=
  (∀ e, limits_ok (v.1.1 !! e) (msum (open_on e) v.1.2 + tok (TSlot e) g) (tok (TPermit e) g)) ∧
  v.2 = wrap64 (msum is_open v.1.2 + tok TActive g).

Abbreviation conn_wp p Q g := (wp (λ s, conn_inv (conn_view s)) p Q g).

#[export] Instance conn_view_aside : Aside conn_view.
Proof. by constructor. Qed.

Lemma open_nonneg e m : 0 ≤ msum (open_on e) m.
Proof. apply msum_nonneg. intros ? v _. unfold open_on. case_decide; lia. Qed.

(** One step on the counters of endpoint [e]. *)
Lemma conn_wp_on_endpoint {R} e (f : EndpointResource → R * EndpointResource)
    (Q : R → gmultiset conn_token → Prop) g :
  (∀ v F slots, 0 ≤ slots →
     limits_ok (Some (limits_of v)) (slots + tok (TSlot e) (g ⊎ F)) (tok (TPermit e) (g ⊎ F)) →
     ∃ g', limits_ok (Some (limits_of (f v).2)) (slots + tok (TSlot e) (g' ⊎ F)) (tok (TPermit e) (g' ⊎ F)) ∧
           (∀ t, t ≠ TSlot e → t ≠ TPermit e → tok t g' = tok t g) ∧ Q (f v).1 g') →
  conn_wp (on_endpoint e f) Q g.
Proof.
  intros Hf. apply wp_atomic_opt. intros s F r s' [He Hn] Hs.
  destruct (w_endpoints s !! e) as [v|] eqn:Hv; [|done]. injection Hs as <- <-. simpl in *.
  destruct (Hf v F (msum (open_on e) (owned_by <$> w_connections s))) as (g' & Hl & Ht & HQ).
  { apply open_nonneg. }
  { specialize (He e). rewrite lookup_fmap, Hv in He. exact He. }
  exists g'. split; [|done]. unfold conn_inv, conn_view. simpl. rewrite fmap_insert. split.
  - intros e'. destruct (decide (e' = e)) as [->|Hne]; [by rewrite lookup_insert_eq|].
    rewrite lookup_insert_ne by done. specialize (He e'). simpl in He.
    rewrite !tok_union, !Ht in * by congruence. done.
  - rewrite !tok_union, Ht by done. by rewrite !tok_union in Hn.
Qed.

Lemma conn_wp_begin_accept e (Q : bool → gmultiset conn_token → Prop) g :
  Q true ({[+ TPermit e +]} ⊎ g) → Q false g → conn_wp (begin_accept e) Q g.
Proof.
  intros Ht Hf. apply conn_wp_on_endpoint. intros v F slots Hs (? & ? & ? & ?).
  destruct (Z.ltb_spec (ep_pending_accepts v) (ep_max_pending_accepts v)); eexists; (split_and!; [| |eassumption]);
    intros; unfold limits_ok; toks; lia.
Qed.

Lemma conn_wp_finish_accept e (Q : unit → gmultiset conn_token → Prop) g :
  Q tt g → conn_wp (finish_accept e) Q ({[+ TPermit e +]} ⊎ g).
Proof.
  intros HQ. apply conn_wp_on_endpoint. intros v F slots Hs (? & ? & ? & ?). exists g.
  assert (0 ≤ tok (TPermit e) g) by apply tok_nonneg. assert (0 ≤ tok (TPermit e) F) by apply tok_nonneg.
  split_and!; [| |done]; toks.
  - destruct (Z.leb_spec 1 (ep_pending_accepts v)); simpl; lia.
  - intros. toks. lia.
Qed.

Lemma conn_wp_claim e (Q : bool → gmultiset conn_token → Prop) g :
  Q true ({[+ TSlot e +]} ⊎ g) → Q false g → conn_wp (claim_connection e) Q g.
Proof.
  intros Ht Hf. apply conn_wp_on_endpoint. intros v F slots Hs (? & ? & ? & ?).
  destruct (Z.ltb_spec (ep_active_connections v) (ep_max_connections v)); eexists; (split_and!; [| |eassumption]);
    intros; unfold limits_ok; toks; lia.
Qed.

Lemma conn_wp_release e (Q : unit → gmultiset conn_token → Prop) g :
  Q tt g → conn_wp (release_connection e) Q ({[+ TSlot e +]} ⊎ g).
Proof.
  intros HQ. apply conn_wp_on_endpoint. intros v F slots Hs (? & ? & ? & ?). exists g.
  assert (0 ≤ tok (TSlot e) g) by apply tok_nonneg. assert (0 ≤ tok (TSlot e) F) by apply tok_nonneg.
  split_and!; [| |done]; toks.
  - destruct (Z.leb_spec 1 (ep_active_connections v)); simpl; lia.
  - intros. toks. lia.
Qed.

(** A step that touches neither the counters of endpoints nor the tokens. *)
Lemma conn_wp_add (Q : unit → gmultiset conn_token → Prop) g :
  Q tt ({[+ TActive +]} ⊎ g) → conn_wp add_active_connection Q g.
Proof.
  intros HQ. apply wp_atomic. intros s F [He Hn]. eexists. split; [|exact HQ]. simpl in *. split.
  - intros e. specialize (He e). toks. done.
  - rewrite Hn, wrap64_add. toks. f_equal. lia.
Qed.

Lemma conn_wp_sub (Q : unit → gmultiset conn_token → Prop) g :
  Q tt g → conn_wp sub_active_connection Q ({[+ TActive +]} ⊎ g).
Proof.
  intros HQ. apply wp_atomic. intros s F [He Hn]. exists g. split; [|exact HQ]. simpl in *. split.
  - intros e. specialize (He e). toks. done.
  - rewrite Hn, wrap64_sub. toks. f_equal. lia.
Qed.

Lemma conn_wp_new conn e role (Q : nat → gmultiset conn_token → Prop) g :
  (∀ c, Q c g) → conn_wp (new_connection conn e role) Q ({[+ TSlot e +]} ⊎ ({[+ TActive +]} ⊎ g)).
Proof.
  intros HQ. apply wp_atomic. intros s F [He Hn]. exists g. split; [|apply HQ].
  unfold conn_inv, conn_view in *. simpl in *. rewrite fmap_insert. split.
  - intros e'. specialize (He e'). rewrite msum_insert_new by apply next_id_fmap.
    unfold open_on at 1, owned_by at 1. simpl. toks.
    destruct (decide (e' = e)) as [->|]; toks; [|done].
    match goal with H : limits_ok _ ?a _ |- limits_ok _ ?b _ => replace b with a by lia end. done.
  - rewrite Hn, msum_insert_new by apply next_id_fmap. unfold is_open at 2. toks. simpl. f_equal. lia.
Qed.

Lemma open_on_owned e r : open_on e (owned_by r) =
  if decide (e = cr_endpoint r) then is_open (owned_by r) else 0.
Proof.
  unfold open_on, owned_by, is_open. simpl.
  repeat case_decide; destruct (cr_released r); simplify_eq/=; congruence.
Qed.

Lemma conn_wp_swap c (Q : option (Connection * nat) → gmultiset conn_token → Prop) g :
  (∀ conn e, Q (Some (conn, e)) ({[+ TSlot e +]} ⊎ ({[+ TActive +]} ⊎ g))) → Q None g →
  conn_wp (swap_connection_released c) Q g.
Proof.
  intros Hs Hn0. apply wp_atomic_opt. intros s F r s' [He Hn] Hr.
  destruct (w_connections s !! c) as [v|] eqn:Hc; [|done]. injection Hr as <- <-. simpl in *.
  assert (Hv : (owned_by <$> w_connections s) !! c = Some (owned_by v)).
  { rewrite lookup_fmap. by rewrite Hc. }
  set (v' := set_cr_released true v).
  assert ((∀ e, open_on e (owned_by v') = 0) ∧ is_open (owned_by v') = 0) as [E1 E2].
  { split; [intros e; rewrite open_on_owned; by case_decide|done]. }
  assert (Hsum : ∀ f, msum f (owned_by <$> <[c:=v']> (w_connections s)) =
    msum f (owned_by <$> w_connections s) - f (owned_by v) + f (owned_by v')).
  { intros f. rewrite fmap_insert. by apply msum_update. }
  assert (is_open (owned_by v) = if cr_released v then 0 else 1) as E3 by done.
  destruct (cr_released v) eqn:Hrel.
  - exists g. split; [|done]. unfold conn_inv, conn_view. simpl. split.
    + intros e. specialize (He e). rewrite Hsum, E1, open_on_owned. simpl in He.
      destruct (decide (e = cr_endpoint v)); rewrite ?E3, Z.sub_0_r, Z.add_0_r; done.
    + rewrite Hn, Hsum. f_equal. lia.
  - eexists. split; [|apply Hs]. unfold conn_inv, conn_view. simpl. split.
    + intros e. specialize (He e). rewrite Hsum, E1, open_on_owned. simpl in He.
      destruct (decide (e = cr_endpoint v)) as [->|]; toks.
      * rewrite E3. match goal with H : limits_ok _ ?a _ |- limits_ok _ ?b _ =>
          replace b with a by lia end. done.
      * match goal with H : limits_ok _ ?a _ |- limits_ok _ ?b _ =>
          replace b with a by lia end. done.
    + rewrite Hn, Hsum. toks. f_equal. lia.
Qed.

Lemma conn_wp_new_endpoint ep id profile d mp mc (Q : nat → gmultiset conn_token → Prop) g :
  (∀ e, Q e g) → conn_wp (new_endpoint ep id profile d mp mc) Q g.
Proof.
  intros HQ. apply wp_atomic. intros s F [He Hn]. exists g. split; [|apply HQ].
  unfold conn_inv, conn_view in *. simpl in *. rewrite fmap_insert. split; [|done].
  intros e. specialize (He e). destruct (decide (e = next_id (w_endpoints s))) as [->|].
  - rewrite lookup_insert_eq. rewrite next_id_fmap in He. simpl in *. lia.
  - by rewrite lookup_insert_ne.
Qed.

Lemma conn_view_on_endpoint {R} e (f : EndpointResource → R * EndpointResource) :
  (∀ v, limits_of (f v).2 = limits_of v) → frames conn_view (on_endpoint e f).
Proof.
  intros Hf. apply within_atomic_opt. intros s r s' Hs. outcome. unfold same, conn_view. simpl.
  same_entry.
Qed.

Lemma conn_view_take_endpoint e : frames conn_view (take_endpoint e).
Proof. apply conn_view_on_endpoint. intros v. by case_match. Qed.
Lemma conn_view_swap_released e : frames conn_view (swap_released e).
Proof. by apply conn_view_on_endpoint. Qed.

#[local] Hint Resolve conn_view_take_endpoint conn_view_swap_released : within.

Lemma conn_wp_close c (Q : bool → gmultiset conn_token → Prop) g :
  (∀ b, Q b g) → conn_wp (close c) Q g.
Proof.
  intros HQ. apply wp_bind, conn_wp_swap; [intros conn e|apply HQ].
  apply wp_bind. wp_skip. apply wp_bind, conn_wp_release, wp_bind, conn_wp_sub, HQ.
Qed.

Lemma conn_wp_drop c (Q : unit → gmultiset conn_token → Prop) g :
  Q tt g → conn_wp (connection_drop c) Q g.
Proof. intros HQ. by apply wp_bind, conn_wp_close. Qed.

Lemma conn_wp_wrap conn e owner role op (Q : nresult nat → gmultiset conn_token → Prop) g :
  (∀ r, Q r g) → conn_wp (wrap_connection conn e owner role op) Q g.
Proof.
  intros HQ. apply wp_bind, conn_wp_claim; cbn [negb]; [|apply wp_bind; wp_skip; apply HQ].
  apply wp_bind, conn_wp_add. rewrite (assoc_L (⊎)), (comm_L (⊎) {[+ TActive +]}), <-(assoc_L (⊎)).
  apply wp_bind, conn_wp_new. intros c. apply wp_bind. wp_skip. destruct a; cbn [negb]; [apply HQ|].
  apply wp_bind, conn_wp_close. intros b. apply wp_bind, conn_wp_drop, HQ.
Qed.

Lemma conn_wp_wrap_value conn e owner role op (g : gmultiset conn_token) :
  conn_wp (wrap_value (wrap_connection conn e owner role op)) (λ _ g', g' = g) g.
Proof. by apply wp_bind, conn_wp_wrap. Qed.

Lemma conn_drop_value v : conn_wp (drop_connection_value v) fin gnil.
Proof. destruct v; simpl; try done. by apply conn_wp_drop. Qed.

(** The [?] operator keeps the tokens. *)
Lemma wp_fut_bind {A B G} `{Ghost G} (I : world → G → Prop) (p : nif (option (nresult A)))
    (k : A → nif (option (nresult B))) g :
  wp I p (λ _ g', g' = g) g → (∀ a, wp I (k a) (λ _ g', g' = g) g) →
  wp I (fut_bind p k) (λ _ g', g' = g) g.
Proof.
  intros Hp Hk. apply wp_bind. eapply wp_mono; [|exact Hp]. intros [[a|err]|] ? ->; [apply Hk|done..].
Qed.

Lemma conn_await_or {R} tid (f : ext → list (option (option R) * ext)) err (g : gmultiset conn_token) :
  conn_wp (await_or tid f err) (λ _ g', g' = g) g.
Proof. by apply wp_bind; wp_skip. Qed.

Lemma conn_connect_future value target alpn e owner :
  future_wp conn_view conn_inv (connect_future value target alpn e owner) gnil.
Proof.
  split_and!; [intros tid|done|apply conn_drop_value].
  apply wp_fut_bind; [apply conn_await_or|]. intros conn. apply conn_wp_wrap_value.
Qed.

Lemma conn_accept_future value e owner allow_all allowed :
  future_wp conn_view conn_inv (accept_future value e owner allow_all allowed) ({[+ TPermit e +]} ⊎ gnil).
Proof.
  split_and!; [intros tid| |apply conn_drop_value].
  - apply wp_fut_bind; [apply conn_await_or|]. intros incoming.
    apply wp_fut_bind; [by apply wp_bind; wp_skip|]. intros accepting.
    apply wp_fut_bind; [apply conn_await_or|]. intros conn.
    destruct (_ && _); [by apply wp_bind; wp_skip|apply conn_wp_wrap_value].
  - by apply conn_wp_finish_accept.
Qed.

Lemma conn_closed_future value c : future_wp conn_view conn_inv (closed_future value c) gnil.
Proof.
  split_and!; [intros tid|done|done]. apply wp_bind. wp_skip.
  destruct a; [|done]. by apply wp_bind, conn_wp_close.
Qed.

Lemma conn_close_future e : future_wp conn_view conn_inv (close_future e) gnil.
Proof.
  apply future_frames_wp, close_future_frames; [apply _|apply conn_view_take_endpoint|within_solve].
Qed.

Lemma conn_online_future profile v : future_wp conn_view conn_inv (online_future profile v) gnil.
Proof. by apply future_frames_wp, online_future_within. Qed.

Lemma conn_wp_start caller ref name F (Q : nresult nat → gmultiset conn_token → Prop) g :
  future_wp conn_view conn_inv F gnil → (∀ r, Q r g) →
  conn_wp (start_endpoint_operation caller ref name F) Q g.
Proof.
  intros HF HQ. apply (wp_start_endpoint_operation conn_view conn_inv _ _ _ _ gnil g);
    [symmetry; apply gop_nil_l|done|done].
Qed.

Lemma conn_wp_connect_start caller owner ref e target alpn (Q : nresult nat → gmultiset conn_token → Prop) g :
  (∀ r, Q r g) → conn_wp (connection_connect_start caller owner ref e target alpn) Q g.
Proof.
  intros HQ. unfold connection_connect_start. destruct (connect_alpn_invalid alpn); [apply HQ|].
  destruct (parse_target target); [|apply HQ]. apply wp_bind. wp_skip.
  destruct (_ && _); [apply HQ|]. apply wp_bind. wp_skip. destruct a1; [|apply HQ].
  apply conn_wp_start; [apply conn_connect_future|done].
Qed.

Lemma conn_wp_accept_start caller owner ref e all ids (Q : nresult nat → gmultiset conn_token → Prop) g :
  (∀ r, Q r g) → conn_wp (connection_accept_start caller owner ref e all ids) Q g.
Proof.
  intros HQ. unfold connection_accept_start. destruct (parse_allowed ids); [|apply HQ].
  apply wp_bind, conn_wp_begin_accept; cbn [negb]; [|apply HQ].
  apply wp_bind. wp_skip. destruct a0; [|apply wp_bind, conn_wp_finish_accept, HQ].
  eapply (wp_start_endpoint_operation conn_view conn_inv _ _ _ _ ({[+ TPermit e +]} ⊎ gnil) g);
    [|apply conn_accept_future|done].
  simpl. by rewrite (right_id_L ∅ (⊎)).
Qed.

Lemma conn_wp_closed_start caller ref c (Q : nresult nat → gmultiset conn_token → Prop) g :
  (∀ r, Q r g) → conn_wp (connection_closed_start caller ref c) Q g.
Proof.
  intros HQ. apply wp_bind. wp_skip. apply conn_wp_start; [apply conn_closed_future|done].
Qed.

Lemma conn_wp_endpoint_close_start caller ref e (Q : nresult nat → gmultiset conn_token → Prop) g :
  (∀ r, Q r g) → conn_wp (endpoint_close_start caller ref e) Q g.
Proof. intros HQ. apply conn_wp_start; [apply conn_close_future|done]. Qed.

Lemma conn_wp_await_online_start caller ref e (Q : nresult nat → gmultiset conn_token → Prop) g :
  (∀ r, Q r g) → conn_wp (endpoint_await_online_start caller ref e) Q g.
Proof.
  intros HQ. apply wp_bind. wp_skip. apply wp_bind. wp_skip.
  apply conn_wp_start; [apply conn_online_future|done].
Qed.

Lemma conn_wp_endpoint_bind_start caller ref key options (Q : nresult nat → gmultiset conn_token → Prop) g :
  (∀ r, Q r g) → conn_wp (endpoint_bind_start caller ref key options) Q g.
Proof.
  intros HQ. apply wp_bind. wp_skip. destruct a as [[]|error]; [|apply HQ].
  destruct (limits_invalid options); [apply HQ|]. destruct (parse_config _ _ _ _ _); [|apply HQ].
  apply wp_bind. wp_skip. destruct a0; [|apply HQ].
  destruct (endpoint_builder _ _); [|apply wp_bind; wp_skip; apply HQ].
  apply wp_bind. wp_skip. apply wp_bind. wp_skip.
  destruct a3; cbn [negb]; [|apply wp_bind; wp_skip; apply HQ].
  apply wp_bind. wp_skip. apply wp_bind. wp_skip. apply wp_bind, wp_fork_nil; [|apply HQ].
  apply wp_bind. wp_skip. apply wp_bind. wp_skip. apply wp_bind.
  eapply (wp_mono _ _ fin); [intros [] ? ->; by wp_skips|].
  destruct a6; [|by wp_skip]. apply wp_bind.
  eapply (wp_mono _ _ (λ _, fin tt)).
  { intros v ? ->. apply wp_bind. wp_skip. apply wp_when; intros _; [|done].
    destruct v as [[]|]; try done. by wp_skip. }
  destruct a5 as [[[ep|]|]|]; [|by apply wp_bind; wp_skip..].
  apply wp_bind. wp_skip. apply wp_bind, conn_wp_new_endpoint. intros e. by wp_skip.
Qed.

(** ** Connection operations as operations *)

Lemma connect_future_within value target alpn e owner :
  let F := connect_future value target alpn e owner in
  future_within op_final F ∧ future_within (same op_view) F ∧
  future_within (same w_active_operations) F ∧ future_within (same ep_view) F.
Proof. cbv zeta. future_solve connect_future. Qed.

Lemma accept_future_within value e owner all ids :
  let F := accept_future value e owner all ids in
  future_within op_final F ∧ future_within (same op_view) F ∧
  future_within (same w_active_operations) F ∧ future_within (same ep_view) F.
Proof. cbv zeta. future_solve accept_future. Qed.

Lemma closed_future_within value c :
  let F := closed_future value c in
  future_within op_final F ∧ future_within (same op_view) F ∧
  future_within (same w_active_operations) F ∧ future_within (same ep_view) F.
Proof. cbv zeta. future_solve closed_future. Qed.

(** ** The allowlist *)

(** A step that creates a connection resource creates an incoming one whose peer
    is in [allowed]. *)
Definition admits (allowed : gset string) (s s' : world) : Prop :=
  ∀ c r, w_connections s' !! c = Some r → w_connections s !! c = None →
    cr_role r = Incoming ∧ cr_remote_id r ∈ allowed.

Lemma admits_same allowed s s' : w_connections s' = w_connections s → admits allowed s s'.
Proof. intros E c r. rewrite E. congruence. Qed.

Lemma admits_update allowed s s' c r r' :
  w_connections s !! c = Some r → w_connections s' = <[c := r']> (w_connections s) → admits allowed s s'.
Proof.
  intros Hc E c0 r0. rewrite E. destruct (decide (c0 = c)) as [->|].
  - rewrite lookup_insert_eq. congruence.
  - rewrite lookup_insert_ne by done. congruence.
Qed.

Lemma admits_new allowed conn e :
  id_to_string (conn_remote_id conn) ∈ allowed → within (admits allowed) (new_connection conn e Incoming).
Proof.
  intros Hid. apply within_atomic. intros s c r. simpl. intros Hr Hn.
  destruct (decide (c = next_id (w_connections s))) as [->|].
  - rewrite lookup_insert_eq in Hr. by injection Hr as <-.
  - rewrite lookup_insert_ne in Hr by done. congruence.
Qed.

#[local] Hint Extern 2 (admits _ _ _) => apply admits_same; reflexivity : within.
#[local] Hint Extern 3 (admits _ _ _) => eapply admits_update; [eassumption|reflexivity] : within.

Lemma admits_wrap allowed conn e owner op :
  id_to_string (conn_remote_id conn) ∈ allowed →
  within (admits allowed) (wrap_connection conn e owner Incoming op).
Proof. intros Hid%(admits_new allowed conn e). within_solve. Qed.

#[local] Hint Extern 1 (within (admits _) (await_in _ _ (poll_ext _))) =>
  apply within_await_ext; intros; by apply admits_same : within.
#[local] Hint Extern 1 (within (admits _) (await _ (poll_ext _))) =>
  apply within_await_ext; intros; by apply admits_same : within.

Lemma admits_accept_future allowed value e owner :
  future_within (admits allowed) (accept_future value e owner false allowed).
Proof.
  unfold accept_future. split_and!; [intros tid; cbn [fut_body]|intros; cbn [fut_captured fut_drop_output]; within_solve..].
  apply within_bind; [within_solve|]. intros [[incoming|]|]; [|done..].
  apply within_bind; [within_solve|]. intros [[accepting|]|]; [|done..].
  apply within_bind; [within_solve|]. intros [[conn|]|]; [|done..].
  destruct (bool_decide _) eqn:Hin; cbn [negb andb].
  - apply within_bind; [|done]. apply admits_wrap. by apply bool_decide_eq_true in Hin.
  - within_solve.
Qed.

(** C6: With an allowlist, whatever the interleaving, no step of an accept (its NIF,
    its future, its supervisor) creates a connection resource for a peer whose
    authenticated endpoint ID is not in the list. *)
Theorem accept_only_allowed caller owner ref e allowed_ids allowed :
  parse_allowed allowed_ids = Ok allowed →
  within (admits allowed) (connection_accept_start caller owner ref e false allowed_ids).
Proof.
  intros Hp. unfold connection_accept_start. rewrite Hp.
  apply within_bind; [within_solve|]. intros []; cbn [negb]; [|done].
  apply within_bind; [within_solve|]. intros [value|]; [|within_solve].
  destruct (admits_accept_future allowed value e owner) as (? & ? & ?). within_solve.
Qed.

(** ** Functional behaviour *)

Lemma eval_on_connection {R} n c (f : ConnectionResource → R * ConnectionResource) s r :
  w_connections s !! c = Some r →
  eval n (on_connection c f) s =
    Some ((f r).1, set_w_connections (<[c := (f r).2]> (w_connections s)) s, []).
Proof. intros Hc. apply eval_atomic_opt. by rewrite Hc. Qed.

Lemma eval_on_endpoint {R} n e (f : EndpointResource → R * EndpointResource) s v :
  w_endpoints s !! e = Some v →
  eval n (on_endpoint e f) s =
    Some ((f v).1, set_w_endpoints (<[e := (f v).2]> (w_endpoints s)) s, []).
Proof. intros He. apply eval_atomic_opt. by rewrite He. Qed.

(** The world after the first [close] of a connection with [v] its endpoint. *)
Definition closed_world (s : world) (c : nat) (r : ConnectionResource) (v : EndpointResource) : world :=
  set_w_active_connections (wrap64 (w_active_connections s - 1))
    (set_w_endpoints (<[cr_endpoint r := if 1 <=? ep_active_connections v
                          then set_ep_active_connections (ep_active_connections v - 1) v else v]>
                        (w_endpoints s))
      (set_w_ext (conn_close_ext (cr_connection r) (w_ext s))
        (set_w_connections (<[c := set_cr_released true r]> (w_connections s)) s))).

(** C37: [connection_close] closes an open connection with [iroh], returns its slot to
    the endpoint and the count, and says [true]; on a closed one it says [false]
    and changes nothing, so closing twice is closing once. *)
Theorem connection_close_spec n c s r v :
  w_connections s !! c = Some r → w_endpoints s !! cr_endpoint r = Some v →
  eval n (connection_close c) s =
    Some (if cr_released r then (false, s, []) else (true, closed_world s c r v, [])) ∧
  ∀ b s' ts, eval n (connection_close c) s = Some (b, s', ts) →
             eval n (connection_close c) s' = Some (false, s', []).
Proof.
  intros Hc He.
  assert (Hrel : ∀ s r, w_connections s !! c = Some r → cr_released r = true →
            eval n (connection_close c) s = Some (false, s, [])).
  { clear s r v Hc He. intros s r Hc Hrel. unfold connection_close, close, swap_connection_released.
    rewrite eval_bind, (eval_on_connection _ _ _ _ _ Hc), and_then_nil. simpl. rewrite Hrel.
    assert (set_cr_released true r = r) as -> by (destruct r; unfold set_cr_released; simpl in *; by subst).
    rewrite insert_id by done. by destruct s. }
  assert (Hopen : cr_released r = false →
            eval n (connection_close c) s = Some (true, closed_world s c r v, [])).
  { intros E. unfold connection_close, close, swap_connection_released, release_connection.
    rewrite eval_bind, (eval_on_connection _ _ _ _ _ Hc), and_then_nil. simpl. rewrite E.
    simpl. by rewrite He. }
  destruct (cr_released r) eqn:E.
  - rewrite (Hrel s r) by done. split; [done|]. intros b s' ts [= <- <- <-]. eauto.
  - rewrite Hopen by done. split; [done|]. intros b s' ts [= <- <- <-].
    apply (Hrel _ (set_cr_released true r)); [|done]. simpl. by rewrite lookup_insert_eq.
Qed.

(** C38: At the connection limit a new connection is closed and refused with
    [capacity]: no resource is created and no counter moves. *)
Theorem wrap_connection_at_capacity n conn e owner role op s v :
  w_endpoints s !! e = Some v → ep_max_connections v ≤ ep_active_connections v →
  eval n (wrap_connection conn e owner role op) s =
    Some (Err (connection_error atoms.capacity op "endpoint connection limit is reached"),
          set_w_ext (conn_close_ext conn (w_ext s)) s, []).
Proof.
  intros He Hmax. unfold wrap_connection, claim_connection.
  rewrite eval_bind, (eval_on_endpoint _ _ _ _ _ He), and_then_nil.
  rewrite (proj2 (Z.ltb_ge _ _)) by done. simpl. rewrite insert_id by done. by destruct s.
Qed.

(** The world in which [conn] has become the connection [c] of the endpoint [e]. *)
Definition wrapped_world (conn : Connection) (e : nat) (v : EndpointResource) (role : ConnectionRole)
    (released : bool) (s : world) : world :=
  set_w_connections
    (<[next_id (w_connections s) :=
         ConnectionRes conn e (id_to_string (conn_remote_id conn)) (from_utf8_lossy (conn_alpn conn))
           role released false false]> (w_connections s))
    (if released then s
     else set_w_active_connections (wrap64 (w_active_connections s + 1))
            (set_w_endpoints (<[e := set_ep_active_connections (ep_active_connections v + 1) v]>
                                (w_endpoints s)) s)).

Lemma eval_wrap_connection n conn e owner role op s v alive x :
  w_endpoints s !! e = Some v → ep_active_connections v < ep_max_connections v →
  0 ≤ ep_active_connections v → 0 ≤ w_active_connections s ≤ U64_MAX →
  beam_monitor owner (w_ext s) = (alive, x) →
  eval n (wrap_connection conn e owner role op) s =
    Some (if alive
          then (Ok (next_id (w_connections s)), set_w_ext x (wrapped_world conn e v role false s), [])
          else (Err (connection_error atoms.cancelled op "connection owner is no longer available"),
                set_w_ext (conn_close_ext conn x) (wrapped_world conn e v role true s), [])).
Proof.
  intros He Hmax Hpos Hact Hm. unfold wrap_connection, claim_connection.
  rewrite eval_bind, (eval_on_endpoint _ _ _ _ _ He), and_then_nil.
  rewrite (proj2 (Z.ltb_lt _ _)) by done. simpl. rewrite Hm. destruct alive; [done|].
  simpl. repeat (rewrite lookup_insert_eq; simpl). rewrite (proj2 (Z.leb_le _ _)) by lia. simpl.
  repeat (rewrite lookup_insert_eq; simpl).
  do 2 f_equal. unfold wrapped_world, set_w_connections, set_w_ext; simpl.
  rewrite !insert_insert_eq, wrap64_sub, !Z.add_simpl_r, wrap64_small by (unfold U64_MAX in *; lia).
  assert (set_ep_active_connections (ep_active_connections v)
            (set_ep_active_connections (ep_active_connections v + 1) v) = v) as -> by by destruct v.
  by rewrite (insert_id _ _ _ He).
Qed.

(** C34: The body of an accept, once the network delivers a connection.  A peer that
    is not in the allowlist is closed and refused as [unauthorized], and nothing
    else changes.  An admitted peer at the connection limit is closed and refused
    as [capacity].  Below it a resource is made that records the remote ID, the
    ALPN and the role, and the count of the endpoint and that of the process go
    up by one; when the owner is already gone the connection is closed, the
    resource is released, both counts are as before, and the accept is
    [cancelled]. *)
Theorem accept_peer_spec n tid value e owner allow_all allowed s v incoming accepting conn x1 x2 x3 l1 l3 :
  w_endpoints s !! e = Some v → 0 ≤ ep_active_connections v → 0 ≤ w_active_connections s ≤ U64_MAX →
  endpoint_accept value (w_ext s) = (Some (Some incoming), x1) :: l1 →
  incoming_accept incoming x1 = (Some accepting, x2) →
  accepting_await accepting x2 = (Some (Some conn), x3) :: l3 →
  let accepted := eval n (fut_body (accept_future value e owner allow_all allowed) tid) s in
  let refused cat msg x s' := accepted = Some (Some (Err (NativeErr cat "connection_accept" msg ∅)),
                                               set_w_ext (conn_close_ext conn x) s', []) in
  let admitted := allow_all = true ∨ id_to_string (conn_remote_id conn) ∈ allowed in
  (¬ admitted → refused "unauthorized" "authenticated peer is not allowed" x3 s) ∧
  (admitted → ep_max_connections v ≤ ep_active_connections v →
     refused "capacity" "endpoint connection limit is reached" x3 s) ∧
  (admitted → ep_active_connections v < ep_max_connections v →
   let alive := (beam_monitor owner x3).1 in let x4 := (beam_monitor owner x3).2 in
   let c := next_id (w_connections s) in
   let opened released := ConnectionRes conn e (id_to_string (conn_remote_id conn))
                            (from_utf8_lossy (conn_alpn conn)) Incoming released false false in
   (alive = true →
    accepted = Some (Some (Ok (VConnection c)),
      set_w_ext x4 (set_w_active_connections (wrap64 (w_active_connections s + 1))
        (set_w_endpoints (<[e := set_ep_active_connections (ep_active_connections v + 1) v]> (w_endpoints s))
          (set_w_connections (<[c := opened false]> (w_connections s)) s))), [])) ∧
   (alive = false →
    refused "cancelled" "connection owner is no longer available" x4
      (set_w_connections (<[c := opened true]> (w_connections s)) s))).
Proof.
  intros He Hpos Hact Hin Hacc Hconn accepted refused admitted.
  assert (Hbody : accepted =
    eval n (if negb allow_all && negb (bool_decide (id_to_string (conn_remote_id conn) ∈ allowed)) then
              external_ (conn_close_ext conn) ;!
              Ret (Some (Err (accept_error atoms.unauthorized "authenticated peer is not allowed")))
            else wrap_value (wrap_connection conn e owner Incoming atoms.connection_accept)) (set_w_ext x3 s)).
  { unfold accepted, accept_future, await_or, await, await_in, poll_ext. simpl. rewrite Hin. simpl.
    rewrite Hacc. simpl. rewrite Hconn. done. }
  assert (Hadmit : negb allow_all && negb (bool_decide (id_to_string (conn_remote_id conn) ∈ allowed)) = true
                   ↔ ¬ admitted).
  { unfold admitted. destruct allow_all; simpl; [naive_solver|].
    rewrite negb_true_iff, bool_decide_eq_false. naive_solver. }
  unfold refused. rewrite Hbody. clear accepted refused Hbody Hin Hacc Hconn.
  destruct (negb allow_all && _); [split; [intros _; reflexivity|]; split; intros ?; exfalso; by apply Hadmit|].
  split_and!; [intros Hno%Hadmit; discriminate| |]; intros _ Hmax; unfold wrap_value; rewrite eval_bind.
  - unfold wrap_connection, claim_connection. rewrite eval_bind, (eval_on_endpoint _ _ _ _ v), and_then_nil by done.
    rewrite (proj2 (Z.ltb_ge _ _)) by done. simpl. rewrite insert_id by done. by destruct s.
  - rewrite (eval_wrap_connection _ _ _ _ _ _ _ v (beam_monitor owner x3).1 (beam_monitor owner x3).2)
      by first [done|simpl; apply surjective_pairing].
    split; intros ->; by rewrite and_then_nil.
Qed.

(** C39: Dialling is refused before anything happens, with the state unchanged: a bad
    ALPN and a bad target as [invalid_argument], an address without transports on
    an endpoint without lookup as [resolution], a closed endpoint as [closed]. *)
Theorem connect_refused_early n caller owner ref e target alpn s v :
  w_endpoints s !! e = Some v →
  let refused cat := ∃ msg, eval n (connection_connect_start caller owner ref e target alpn) s =
                       Some (Err (native_error cat atoms.connection_connect msg), s, []) in
  (¬ alpn_valid alpn → refused atoms.invalid_argument) ∧
  (alpn_valid alpn → is_ok (parse_target target) = false → refused atoms.invalid_argument) ∧
  (∀ addr, alpn_valid alpn → parse_target target = Ok addr →
     (addr_is_empty addr = true → ProfileKind.address_lookup_enabled (ep_profile v) = false →
      refused atoms.resolution) ∧
     (addr_is_empty addr = false ∨ ProfileKind.address_lookup_enabled (ep_profile v) = true →
      content (ep_endpoint v) = None → refused atoms.closed)).
Proof.
  intros He refused.
  assert (Ha : alpn_valid alpn ↔ connect_alpn_invalid alpn = false) by (symmetry; apply alpn_invalid_spec).
  assert (Hg : ∀ R (f : EndpointResource → R), eval n (get_endpoint e f) s = Some (f v, s, [])).
  { intros R f. apply eval_atomic_opt. by rewrite He. }
  unfold refused, connection_connect_start. split_and!.
  - intros Hn. destruct (connect_alpn_invalid alpn); [by eexists|]. by exfalso; apply Hn, Ha.
  - intros ->%Ha Ht. unfold parse_target in *. destruct (id_from_str _); simpl in *; [|by eexists].
    destruct (build_addr _ _ _); simpl in *; [done|by eexists].
  - intros addr ->%Ha ->. unfold address_lookup_enabled. rewrite eval_bind, Hg, and_then_nil. split.
    + intros -> ->. by eexists.
    + intros Hl Hnone. replace (addr_is_empty addr && _) with false by (destruct Hl as [->| ->]; simpl; rewrite ?andb_false_r; done).
      unfold endpoint, locked. rewrite eval_bind, Hg, and_then_nil, Hnone.
      destruct (poisoned _); by eexists.
Qed.

End connection.

Abbreviation conn_wp p Q g := (wp (λ s, conn_inv (conn_view s)) p Q g).

#[export] Hint Resolve conn_view_take_endpoint conn_view_swap_released : within.
