(* ===== verification/Stream.v ===== *)
(** Streams and datagrams (stream.rs): the stream resource and its two halves,
    leases, the accounting of queued bytes, sending in chunks, receiving,
    aborting, and datagrams. *)
From S2P Require Import Prelude Prog Std Extern State Operations Identity EndpointConfig Endpoint.
From S2P Require Import Connection.
From stdpp Require Import list options.
Local Open Scope Z_scope.
Local Open Scope prog_scope.
Local Open Scope iroh_scope.

Record StreamInfo : Type := {
  si_id : Z;
  si_direction : atom;
  si_send : bool;
  si_recv : bool;
  si_send_closed : bool;
  si_recv_closed : bool;
}.

Record StreamSnapshot : Type := {
  ss_active_streams : Z;
  ss_queued_bytes : Z;
  ss_peak_queued_bytes : Z;
}.

Record DatagramInfo : Type := {
  di_max_size : option Z;
  di_send_buffer_space : Z;
}.

Definition stream_error (op cat : atom) (msg : string) : NativeError := native_error cat op msg.

(** [enum ReadResult] and its [Encoder]. *)
Inductive ReadResult : Type := Eof | Data (b : bytes).
Definition encode_read (r : ReadResult) : value :=
  match r with Eof => VAtom atoms.eof | Data b => VBinary b end.

Section stream.
Context `{net : NetApi}.

Record SendLease : Type := {
  sl_resource : nat;
  sl_stream : option SendStream;
}.

Record RecvLease : Type := {
  rl_resource : nat;
  rl_stream : option RecvStream;
}.

Record DatagramPermit : Type := {
  dp_connection : nat;
  dp_send : bool;
}.

(** ** [impl StreamResource] *)

(** The critical section of [request_reset]: the stream found in the slot is taken
    and reset. *)
Definition reset_slot (st : nat) (code : Z) : nif unit :=
  on_stream_ext st (λ r x,
    if poisoned (st_send r) then (tt, r, x)
    else match content (st_send r) with
         | Some stream =>
             (tt, set_st_send (Mutex false None) r,
              match varint_from_u64 code with
              | Some code => send_reset stream code x
              | None => x
              end)
         | None => (tt, r, x)
         end).

Definition request_reset (st : nat) (code : Z) : nif unit :=
  on_stream st (λ r, (tt, set_st_reset_code code r)) ;!
  on_stream st (λ r, (tt, set_st_send_closed true r)) ;!
  on_stream st (λ r, (tt, set_st_reset_notify true r)) ;!
  reset_slot st code.

Definition stop_slot (st : nat) (code : Z) : nif unit :=
  on_stream_ext st (λ r x,
    if poisoned (st_recv r) then (tt, r, x)
    else match content (st_recv r) with
         | Some stream =>
             (tt, set_st_recv (Mutex false None) r,
              match varint_from_u64 code with
              | Some code => recv_stop stream code x
              | None => x
              end)
         | None => (tt, r, x)
         end).

Definition request_stop (st : nat) (code : Z) : nif unit :=
  on_stream st (λ r, (tt, set_st_stop_code code r)) ;!
  on_stream st (λ r, (tt, set_st_recv_closed true r)) ;!
  on_stream st (λ r, (tt, set_st_stop_notify true r)) ;!
  stop_slot st code.

(** [ACTIVE_STREAMS.fetch_add(1)] and [fetch_sub(1)] *)
Definition add_active_stream : nif unit :=
  modify (λ s, set_w_active_streams (wrap64 (w_active_streams s + 1)) s).
Definition sub_active_stream : nif unit :=
  modify (λ s, set_w_active_streams (wrap64 (w_active_streams s - 1)) s).

Definition swap_stream_released (st : nat) : nif bool :=
  on_stream st (λ r, (st_released r, set_st_released true r)).

Definition close (st : nat) : nif bool :=
  let! released := swap_stream_released st in
  if released : bool then Ret false
  else
    request_reset st 0 ;!
    request_stop st 0 ;!
    sub_active_stream ;!
    Ret true.

(** [impl Drop] and [Resource::down] *)
Definition stream_drop (st : nat) : nif unit := let! _ := close st in Ret tt.
Definition stream_down (st : nat) : nif unit := let! _ := close st in Ret tt.

(** ** Leases *)

Definition set_send_busy (st : nat) (b : bool) : nif unit :=
  on_stream st (λ r, (tt, set_st_send_busy b r)).
Definition set_recv_busy (st : nat) (b : bool) : nif unit :=
  on_stream st (λ r, (tt, set_st_recv_busy b r)).

(** The critical section that puts a stream back. *)
Definition restore_send (st : nat) (stream : SendStream) : nif unit :=
  on_stream st (λ r, (tt, if poisoned (st_send r) then r
                          else set_st_send (Mutex false (Some stream)) r)).
Definition restore_recv (st : nat) (stream : RecvStream) : nif unit :=
  on_stream st (λ r, (tt, if poisoned (st_recv r) then r
                          else set_st_recv (Mutex false (Some stream)) r)).

(** [impl Drop for SendLease] *)
Definition send_lease_drop (lease : SendLease) : nif unit :=
  set_send_busy (sl_resource lease) false ;!
  let! closed := get_stream (sl_resource lease) st_send_closed in
  when (negb closed)
    (match sl_stream lease with
     | Some stream => restore_send (sl_resource lease) stream
     | None => Ret tt
     end).

(** [impl Drop for RecvLease] *)
Definition recv_lease_drop (lease : RecvLease) : nif unit :=
  set_recv_busy (rl_resource lease) false ;!
  let! closed := get_stream (rl_resource lease) st_recv_closed in
  when (negb closed)
    (match rl_stream lease with
     | Some stream => restore_recv (rl_resource lease) stream
     | None => Ret tt
     end).

(** [compare_exchange(false, true, ..).is_ok()] *)
Definition claim_send_busy (st : nat) : nif bool :=
  on_stream st (λ r, if st_send_busy r then (false, r) else (true, set_st_send_busy true r)).
Definition claim_recv_busy (st : nat) : nif bool :=
  on_stream st (λ r, if st_recv_busy r then (false, r) else (true, set_st_recv_busy true r)).

(** [lock().ok().and_then(|mut value| value.take())] *)
Definition take_send_slot (st : nat) : nif (option SendStream) :=
  on_stream st (λ r, if poisoned (st_send r) then (None, r)
                     else (content (st_send r), set_st_send (Mutex false None) r)).
Definition take_recv_slot (st : nat) : nif (option RecvStream) :=
  on_stream st (λ r, if poisoned (st_recv r) then (None, r)
                     else (content (st_recv r), set_st_recv (Mutex false None) r)).

Definition take_send (st : nat) (operation : atom) : nif (nresult SendLease) :=
  let! closed := get_stream st st_send_closed in
  if closed : bool then Ret (Err (stream_error operation atoms.closed "send half is closed"))
  else
    let! claimed := claim_send_busy st in
    if negb claimed then Ret (Err (stream_error operation atoms.busy "send half is busy"))
    else
      let! value := take_send_slot st in
      match value with
      | Some stream => Ret (Ok {| sl_resource := st; sl_stream := Some stream |})
      | None =>
          set_send_busy st false ;!
          Ret (Err (stream_error operation atoms.closed "send half is unavailable"))
      end.

Definition take_recv (st : nat) (operation : atom) : nif (nresult RecvLease) :=
  let! closed := get_stream st st_recv_closed in
  if closed : bool then Ret (Err (stream_error operation atoms.closed "receive half is closed"))
  else
    let! claimed := claim_recv_busy st in
    if negb claimed then Ret (Err (stream_error operation atoms.busy "receive half is busy"))
    else
      let! value := take_recv_slot st in
      match value with
      | Some stream => Ret (Ok {| rl_resource := st; rl_stream := Some stream |})
      | None =>
          set_recv_busy st false ;!
          Ret (Err (stream_error operation atoms.closed "receive half is unavailable"))
      end.

(** ** [QueueGuard] *)

(** [QUEUED_BYTES.fetch_add(bytes) + bytes] *)
Definition add_queued (n : Z) : nif Z :=
  atomic (λ s, let current := wrap64 (w_queued_bytes s + n) in (current, set_w_queued_bytes current s)).

(** [PEAK_QUEUED_BYTES.compare_exchange_weak(peak, current, ..)]: it may fail spuriously. *)
Definition compare_exchange_weak_peak (peak current : Z) : nif (result Z Z) :=
  Act (λ s, (if w_peak_queued_bytes s =? peak
             then [(Ok peak, set_w_peak_queued_bytes current s)] else []) ++
            [(Err (w_peak_queued_bytes s), s)]) Ret.

Definition QueueGuard_new (n : Z) : nif Z :=
  let! current := add_queued n in
  let! peak := read w_peak_queued_bytes in
  looped peak (λ peak : Z,
    if peak <? current then
      let! exchanged := compare_exchange_weak_peak peak current in
      match exchanged with
      | Ok _ => Ret (inr tt)
      | Err observed => Ret (inl observed)
      end
    else Ret (inr tt)) ;!
  Ret n.

(** [impl Drop for QueueGuard] *)
Definition queue_guard_drop (n : Z) : nif unit :=
  modify (λ s, set_w_queued_bytes (wrap64 (w_queued_bytes s - n)) s).

(** ** Opening and accepting *)

(** [ResourceArc::new(StreamResource { .. })] *)
Definition new_stream (send : option SendStream) (recv : option RecvStream) (c : nat) (id : Z)
    : nif nat :=
  atomic (λ s, let st := next_id (w_streams s) in
    (st, set_w_streams
           (<[st := StreamRes (Mutex false send) (Mutex false recv) c id false false false false
                      NO_ABORT NO_ABORT false false false]> (w_streams s)) s)).

Definition stream_id (send : option SendStream) (recv : option RecvStream) : option Z :=
  match send with
  | Some stream => Some (send_id stream)
  | None => option_map recv_id recv
  end.

Definition wrap_stream (send : option SendStream) (recv : option RecvStream) (c : nat)
    (owner : pid) (operation : atom) : nif (nresult nat) :=
  match ok_or (stream_id send recv) (stream_error operation atoms.internal "stream has no halves") with
  | Err error => Ret (Err error)
  | Ok id =>
      add_active_stream ;!
      let! st := new_stream send recv c id in
      let! monitored := monitor owner in
      if negb monitored then
        let! _ := close st in
        stream_drop st ;!
        Ret (Err (stream_error operation atoms.cancelled "stream owner is no longer available"))
      else Ret (Ok st)
  end.

Definition connection_value (c : nat) (operation : atom) : nif (nresult Connection) :=
  let! value := connection c in
  Ret (ok_or value (stream_error operation atoms.closed "connection is closed")).

(** The stream as the value of a future. *)
Definition stream_value (p : nif (nresult nat)) : nif (option (nresult value)) :=
  let! r := p in
  Ret (Some (match r with Ok st => Ok (VStream st) | Err e => Err e end)).

Definition drop_stream_value (v : value) : nif unit :=
  match v with VStream st => stream_drop st | _ => Ret tt end.

Definition open_uni_future (value : Connection) (c : nat) (owner : pid) : future := Future
  (λ tid,
    let?! send := await_or tid (conn_open_uni value)
      (stream_error atoms.stream_open_uni atoms.closed "unidirectional stream could not be opened") in
    stream_value (wrap_stream (Some send) None c owner atoms.stream_open_uni))
  (Ret tt) drop_stream_value.

Definition open_bi_future (value : Connection) (c : nat) (owner : pid) : future := Future
  (λ tid,
    let?! halves := await_or tid (conn_open_bi value)
      (stream_error atoms.stream_open_bi atoms.closed "bidirectional stream could not be opened") in
    stream_value (wrap_stream (Some halves.1) (Some halves.2) c owner atoms.stream_open_bi))
  (Ret tt) drop_stream_value.

Definition accept_uni_future (value : Connection) (c : nat) (owner : pid) : future := Future
  (λ tid,
    let?! recv := await_or tid (conn_accept_uni value)
      (stream_error atoms.stream_accept_uni atoms.closed "unidirectional stream could not be accepted") in
    stream_value (wrap_stream None (Some recv) c owner atoms.stream_accept_uni))
  (Ret tt) drop_stream_value.

Definition accept_bi_future (value : Connection) (c : nat) (owner : pid) : future := Future
  (λ tid,
    let?! halves := await_or tid (conn_accept_bi value)
      (stream_error atoms.stream_accept_bi atoms.closed "bidirectional stream could not be accepted") in
    stream_value (wrap_stream (Some halves.1) (Some halves.2) c owner atoms.stream_accept_bi))
  (Ret tt) drop_stream_value.

Definition stream_open_uni_start (caller owner : pid) (operation_ref : term) (c : nat)
    : nif (nresult nat) :=
  let! value := connection_value c atoms.stream_open_uni in
  match value with
  | Err error => Ret (Err error)
  | Ok value => start_endpoint_operation caller operation_ref atoms.stream_open_uni
                  (open_uni_future value c owner)
  end.

Definition stream_open_bi_start (caller owner : pid) (operation_ref : term) (c : nat)
    : nif (nresult nat) :=
  let! value := connection_value c atoms.stream_open_bi in
  match value with
  | Err error => Ret (Err error)
  | Ok value => start_endpoint_operation caller operation_ref atoms.stream_open_bi
                  (open_bi_future value c owner)
  end.

Definition stream_accept_uni_start (caller owner : pid) (operation_ref : term) (c : nat)
    : nif (nresult nat) :=
  let! value := connection_value c atoms.stream_accept_uni in
  match value with
  | Err error => Ret (Err error)
  | Ok value => start_endpoint_operation caller operation_ref atoms.stream_accept_uni
                  (accept_uni_future value c owner)
  end.

Definition stream_accept_bi_start (caller owner : pid) (operation_ref : term) (c : nat)
    : nif (nresult nat) :=
  let! value := connection_value c atoms.stream_accept_bi in
  match value with
  | Err error => Ret (Err error)
  | Ok value => start_endpoint_operation caller operation_ref atoms.stream_accept_bi
                  (accept_bi_future value c owner)
  end.

(** ** Sending *)

(** An await point inside [select!]: [Some None] when the notification of the
    resource, whose permit is then consumed, is chosen.  The macro polls its
    branches in a random order, so either may be chosen when both are ready. *)
Definition select_notified {R} (tid st : nat) (permit : StreamResource → bool)
    (consume : StreamResource → StreamResource) (f : ext → list (option R * ext))
    : nif (option (option R)) :=
  await tid (λ s,
    ((λ o, (option_map Some o.1, o.2)) <$> poll_ext f s) ++
    match w_streams s !! st with
    | Some r => if permit r then [(Some None, set_w_streams (<[st := consume r]> (w_streams s)) s)]
                else []
    | None => []
    end).

Definition select_reset {R} (tid st : nat) (f : ext → list (option R * ext)) : nif (option (option R)) :=
  select_notified tid st st_reset_notify (set_st_reset_notify false) f.
Definition select_stop {R} (tid st : nat) (f : ext → list (option R * ext)) : nif (option (option R)) :=
  select_notified tid st st_stop_notify (set_st_stop_notify false) f.

Definition send_failed : NativeError :=
  stream_error atoms.stream_send atoms.peer_aborted "stream send failed".

(** The arm of [select!] that handles the notification. *)
Definition reset_requested (st : nat) (stream : SendStream) : nif (option (nresult value)) :=
  let! code := get_stream st st_reset_code in
  match varint_from_u64 code with
  | Some code => external_ (send_reset stream code)
  | None => Ret tt
  end ;!
  Ret (Some (Err (stream_error atoms.stream_send atoms.peer_aborted "send half was reset"))).

(** [&data[from..to]]: [None] when the range is out of bounds, a panic. *)
Definition slice (data : bytes) (from to : Z) : option bytes :=
  if (0 <=? from) && (from <=? to) && (to <=? blen data)
  then Some (take (Z.to_nat (to - from)) (drop (Z.to_nat from) data)) else None.

(** [(written + chunk_size).min(data.len())] *)
Definition chunk_end (written chunk_size : Z) (data : bytes) : Z :=
  Z.min (wrap64 (written + chunk_size)) (blen data).

(** A call on a slice of the data; the panic of the slice ends the future. *)
Definition on_slice {R} (data : bytes) (from to : Z) (p : bytes → nif (option R)) : nif (option R) :=
  match slice data from to with Some b => p b | None => Ret None end.

(** One round of the loop that sends everything. *)
Definition send_round (tid st : nat) (stream : SendStream) (data : bytes) (chunk_size written : Z)
    : nif (Z + option (nresult value)) :=
  if written <? blen data then
    let end_ := chunk_end written chunk_size data in
    let! r := on_slice data written end_ (λ b, select_reset tid st (send_write_all stream b)) in
    match r with
    | None => Ret (inr None)
    | Some None => let! out := reset_requested st stream in Ret (inr out)
    | Some (Some None) => Ret (inr (Some (Err send_failed)))
    | Some (Some (Some _)) => Ret (inl end_)
    end
  else Ret (inr (Some (Ok (VUsize (blen data))))).

(** The [select!] of the send future; [write] is its first branch. *)
Definition write_or_reset (tid st : nat) (stream : SendStream) (data : bytes) (send_all : bool)
    (chunk_size : Z) : nif (option (nresult value)) :=
  if send_all then looped 0 (send_round tid st stream data chunk_size)
  else
    let end_ := Z.min chunk_size (blen data) in
    let! r := on_slice data 0 end_ (λ b, select_reset tid st (send_write stream b)) in
    match r with
    | None => Ret None
    | Some None => reset_requested st stream
    | Some (Some None) => Ret (Some (Err send_failed))
    | Some (Some (Some n)) => Ret (Some (Ok (VUsize n)))
    end.

(** When the body ends, its local [_queued] is dropped before the captured lease. *)
Definition send_future (lease : SendLease) (queued : Z) (data : bytes) (send_all : bool)
    (chunk_size : Z) : future := Future
  (λ tid,
    match sl_stream lease with
    | None => Ret (Some (Err (stream_error atoms.stream_send atoms.closed "send half is unavailable")))
    | Some stream => write_or_reset tid (sl_resource lease) stream data send_all chunk_size
    end)
  (queue_guard_drop queued ;! send_lease_drop lease) no_drop.

Definition start_stream_send (caller : pid) (operation_ref : term) (st : nat) (data : bytes)
    (send_all : bool) (chunk_size : Z) : nif (nresult nat) :=
  if (blen data =? 0) || (chunk_size =? 0) then
    Ret (Err (stream_error atoms.stream_send atoms.invalid_argument
                "send data and chunk size must be positive"))
  else
    let! lease := take_send st atoms.stream_send in
    match lease with
    | Err error => Ret (Err error)
    | Ok lease =>
        let! queued := QueueGuard_new (blen data) in
        start_endpoint_operation caller operation_ref atoms.stream_send
          (send_future lease queued data send_all chunk_size)
    end.

Definition stream_send_start (caller : pid) (operation_ref : term) (st : nat) (data : bytes)
    (send_all : bool) (chunk_size : Z) : nif (nresult nat) :=
  start_stream_send caller operation_ref st data send_all chunk_size.

Definition stream_send_iodata_start (caller : pid) (operation_ref : term) (st : nat) (data : term)
    (expected_size max_bytes : Z) : nif (nresult nat) :=
  if (expected_size =? 0) || (max_bytes <? expected_size) || (max_bytes =? 0)
     || (64 * 1024 * 1024 + 4 <? max_bytes) then
    Ret (Err (stream_error atoms.stream_send atoms.invalid_argument
                "iodata size is outside the configured bound"))
  else
    let mismatch := stream_error atoms.stream_send atoms.invalid_argument
                      "iodata does not match the declared size" in
    match binary_from_iolist data with
    | Some binary =>
        if blen binary =? expected_size then
          start_stream_send caller operation_ref st binary true (64 * 1024)
        else Ret (Err mismatch)
    | None => Ret (Err mismatch)
    end.

(** ** Receiving *)

Definition stop_requested (st : nat) (stream : RecvStream) : nif (option (nresult value)) :=
  let! code := get_stream st st_stop_code in
  match varint_from_u64 code with
  | Some code => external_ (recv_stop stream code)
  | None => Ret tt
  end ;!
  Ret (Some (Err (stream_error atoms.stream_recv atoms.peer_aborted "receive half was stopped"))).

Definition read_or_stop (tid st : nat) (stream : RecvStream) (max_bytes : Z)
    : nif (option (nresult value)) :=
  let! r := select_stop tid st (recv_read_chunk stream max_bytes) in
  match r with
  | None => Ret None
  | Some None => stop_requested st stream
  | Some (Some None) =>
      Ret (Some (Err (stream_error atoms.stream_recv atoms.peer_aborted "stream receive failed")))
  | Some (Some (Some chunk)) =>
      Ret (Some (Ok (encode_read (match chunk with None => Eof | Some b => Data b end))))
  end.

Definition recv_future (lease : RecvLease) (max_bytes : Z) : future := Future
  (λ tid,
    match rl_stream lease with
    | None => Ret (Some (Err (stream_error atoms.stream_recv atoms.closed "receive half is unavailable")))
    | Some stream => read_or_stop tid (rl_resource lease) stream max_bytes
    end)
  (recv_lease_drop lease) no_drop.

Definition stream_recv_start (caller : pid) (operation_ref : term) (st : nat) (max_bytes : Z)
    : nif (nresult nat) :=
  if (max_bytes =? 0) || (16 * 1024 * 1024 <? max_bytes) then
    Ret (Err (stream_error atoms.stream_recv atoms.invalid_argument
                "receive limit must be between 1 and 16777216 bytes"))
  else
    let! lease := take_recv st atoms.stream_recv in
    match lease with
    | Err error => Ret (Err error)
    | Ok lease =>
        start_endpoint_operation caller operation_ref atoms.stream_recv (recv_future lease max_bytes)
    end.

(** ** Finishing, resetting, stopping, aborting *)

Definition validate_abort_code (code : Z) (operation : atom) : nresult VarInt :=
  if MAX_ABORT_CODE <? code then
    Err (stream_error operation atoms.invalid_argument "abort code exceeds QUIC varint range")
  else ok_or (varint_from_u64 code)
         (stream_error operation atoms.invalid_argument "abort code is invalid").

Definition stream_finish (st : nat) : nif (nresult atom) :=
  let! busy := get_stream st st_send_busy in
  if busy : bool then Ret (Err (stream_error atoms.stream_finish atoms.busy "send half is busy"))
  else
    on_stream st (λ r, (tt, set_st_send_closed true r)) ;!
    let! value := take_send_slot st in
    match value with
    | None => Ret (Err (stream_error atoms.stream_finish atoms.closed "send half is closed"))
    | Some stream =>
        let! finished := external (send_finish stream) in
        Ret (if finished : bool then Ok atoms.ok
             else Err (stream_error atoms.stream_finish atoms.closed "send half is closed"))
    end.

Definition stream_reset (st : nat) (code : Z) : nif (nresult atom) :=
  match validate_abort_code code atoms.stream_reset with
  | Err error => Ret (Err error)
  | Ok _ => request_reset st code ;! Ret (Ok atoms.ok)
  end.

Definition stream_stop (st : nat) (code : Z) : nif (nresult atom) :=
  match validate_abort_code code atoms.stream_stop with
  | Err error => Ret (Err error)
  | Ok _ => request_stop st code ;! Ret (Ok atoms.ok)
  end.

Definition stream_abort (st : nat) (code : Z) : nif bool :=
  if MAX_ABORT_CODE <? code then Ret false
  else
    request_reset st code ;!
    request_stop st code ;!
    close st.

(** [lock().map(|value| value.is_some()).unwrap_or(false)] *)
Definition slot_is_some {A} (m : mutex (option A)) : bool :=
  if poisoned m then false else match content m with Some _ => true | None => false end.

Definition stream_info (st : nat) : nif (nresult StreamInfo) :=
  let! send := get_stream st (λ r, slot_is_some (st_send r)) in
  let! send := if send : bool then Ret true else get_stream st st_send_busy in
  let! recv := get_stream st (λ r, slot_is_some (st_recv r)) in
  let! recv := if recv : bool then Ret true else get_stream st st_recv_busy in
  let! id := get_stream st st_id in
  let! send_closed := get_stream st st_send_closed in
  let! recv_closed := get_stream st st_recv_closed in
  Ret (Ok {| si_id := id;
             si_direction := if send && recv then atoms.bi else atoms.uni;
             si_send := send; si_recv := recv;
             si_send_closed := send_closed; si_recv_closed := recv_closed |}).

(** ** Datagrams *)

(** [impl Drop for DatagramPermit] *)
Definition datagram_permit_drop (permit : DatagramPermit) : nif unit :=
  if dp_send permit then finish_datagram_send (dp_connection permit)
  else finish_datagram_recv (dp_connection permit).

Definition datagram_send_future (value : Connection) (permit : DatagramPermit) (queued : Z)
    (data : bytes) (wait_for_capacity : bool) : future := Future
  (λ tid,
    let?! _ := (if wait_for_capacity then
                  await_or tid (conn_send_datagram_wait value data)
                    (stream_error atoms.datagram_send atoms.capacity "datagram could not be queued")
                else
                  let! sent := external (conn_send_datagram value data) in
                  Ret (Some (if sent : bool then Ok tt
                             else Err (stream_error atoms.datagram_send atoms.capacity
                                         "datagram send buffer has no capacity")))) in
    Ret (Some (Ok (VAtom atoms.ok))))
  (queue_guard_drop queued ;! datagram_permit_drop permit) no_drop.

Definition datagram_send_start (caller : pid) (operation_ref : term) (c : nat) (data : bytes)
    (wait_for_capacity : bool) : nif (nresult nat) :=
  let! value := connection_value c atoms.datagram_send in
  match value with
  | Err error => Ret (Err error)
  | Ok value =>
      let! max_size := observe (conn_max_datagram_size value) in
      if (blen data =? 0) || (default 0 max_size <? blen data) then
        Ret (Err (stream_error atoms.datagram_send atoms.too_large
                    "datagram is empty, unsupported, or exceeds the current maximum"))
      else
        let! begun := begin_datagram_send c in
        if negb begun then
          Ret (Err (stream_error atoms.datagram_send atoms.busy "datagram sender is busy"))
        else
          let! queued := QueueGuard_new (blen data) in
          start_endpoint_operation caller operation_ref atoms.datagram_send
            (datagram_send_future value {| dp_connection := c; dp_send := true |} queued data
               wait_for_capacity)
  end.

Definition datagram_recv_future (value : Connection) (permit : DatagramPermit) : future := Future
  (λ tid,
    let?! b := await_or tid (conn_read_datagram value)
      (stream_error atoms.datagram_recv atoms.closed "datagram receive failed") in
    Ret (Some (Ok (VBinary b))))
  (datagram_permit_drop permit) no_drop.

Definition datagram_recv_start (caller : pid) (operation_ref : term) (c : nat)
    : nif (nresult nat) :=
  let! value := connection_value c atoms.datagram_recv in
  match value with
  | Err error => Ret (Err error)
  | Ok value =>
      let! begun := begin_datagram_recv c in
      if negb begun then
        Ret (Err (stream_error atoms.datagram_recv atoms.busy "datagram receiver is busy"))
      else
        start_endpoint_operation caller operation_ref atoms.datagram_recv
          (datagram_recv_future value {| dp_connection := c; dp_send := false |})
  end.

Definition datagram_info (c : nat) : nif (nresult DatagramInfo) :=
  let! value := connection_value c atoms.datagram_info in
  match value with
  | Ok value =>
      let! max_size := observe (conn_max_datagram_size value) in
      let! space := observe (conn_datagram_space value) in
      Ret (Ok {| di_max_size := max_size; di_send_buffer_space := space |})
  | Err error => Ret (Err error)
  end.

Definition stream_snapshot : nif (nresult StreamSnapshot) :=
  let! active := read w_active_streams in
  let! queued := read w_queued_bytes in
  let! peak := read w_peak_queued_bytes in
  Ret (Ok {| ss_active_streams := active; ss_queued_bytes := queued;
             ss_peak_queued_bytes := peak |}).

Lemma within_select {R} (Rel : world → world → Prop) tid st permit consume
    (f : ext → list (option R * ext)) :
  (∀ s, Rel s s) → (∀ s x, Rel s (set_w_ext x s)) →
  (∀ s r, w_streams s !! st = Some r → Rel s (set_w_streams (<[st := consume r]> (w_streams s)) s)) →
  within Rel (select_notified tid st permit consume f).
Proof.
  intros HR Hx Hc. apply within_act. unfold poll_ext. intros s r s' Hin. outcome; auto.
Qed.

#[local] Hint Extern 1 (within _ (select_notified _ _ _ _ _)) =>
  apply within_select; intros; reflexivity : within.

(** ** Leases, permits and the count of streams *)

(** [TStream]: the thread answers for one unit of [ACTIVE_STREAMS]; the others:
    it holds the busy flag of a half of a stream or of a connection. *)
Inductive stream_token : Type :=
  | TStream | TSend (st : nat) | TRecv (st : nat) | TDSend (c : nat) | TDRecv (c : nat).

#[export] Instance stream_token_eq_dec : EqDecision stream_token.
Proof. solve_decision. Defined.
#[export] Instance stream_token_countable : Countable stream_token.
Proof.
  refine (inj_countable'
    (λ t, match t with TStream => (0, 0)%nat | TSend n => (1, n)%nat | TRecv n => (2, n)%nat
                     | TDSend n => (3, n)%nat | TDRecv n => (4, n)%nat end)
    (λ x, match x with (0, _)%nat => TStream | (1, n)%nat => TSend n | (2, n)%nat => TRecv n
                     | (3, n)%nat => TDSend n | (_, n) => TDRecv n end) _).
  by intros [].
Defined.

Definition stream_flags (r : StreamResource) : bool * bool * bool :=
  (st_send_busy r, st_recv_busy r, st_released r).
Definition datagram_flags (r : ConnectionResource) : bool * bool :=
  (cr_datagram_send_busy r, cr_datagram_recv_busy r).

Definition stream_state : Type := gmap nat (bool * bool * bool) * gmap nat (bool * bool) * Z.
Definition stream_view (s : world) : stream_state :=
  (stream_flags <$> w_streams s, datagram_flags <$> w_connections s, w_active_streams s).

(** The two busy flags of a resource that [n] and [m] threads hold. *)
Definition flags_ok (o : option (bool * bool)) (n m : Z) : Prop :=
  match o with
  | Some (a, b) => Z.b2z a = n ∧ Z.b2z b = m
  | None => n = 0 ∧ m = 0
  end.
Definition live (v : bool * bool * bool) : Z := if v.2 then 0 else 1.

Definition stream_inv (v : stream_state) (g : gmultiset stream_token) : Prop :=
  (∀ st, flags_ok (fst <$> v.1.1 !! st) (tok (TSend st) g) (tok (TRecv st) g)) ∧
  (∀ c, flags_ok (v.1.2 !! c) (tok (TDSend c) g) (tok (TDRecv c) g)) ∧
  v.2 = wrap64 (msum live v.1.1 + tok TStream g).

Abbreviation st_wp p Q g := (wp (λ s, stream_inv (stream_view s)) p Q g).

#[export] Instance stream_view_aside : Aside stream_view.
Proof. by constructor. Qed.

Lemma stream_view_on_stream {R} st (f : StreamResource → R * StreamResource) :
  (∀ r, stream_flags (f r).2 = stream_flags r) → frames stream_view (on_stream st f).
Proof.
  intros Hf. apply within_atomic_opt. intros s r s' Hs. outcome. unfold same, stream_view. simpl.
  same_entry.
Qed.

Lemma stream_view_on_stream_ext {R} st (f : StreamResource → ext → R * StreamResource * ext) :
  (∀ r x, stream_flags (f r x).1.2 = stream_flags r) → frames stream_view (on_stream_ext st f).
Proof.
  intros Hf. apply within_atomic_opt. intros s r s' Hs.
  destruct (w_streams s !! st) as [v|] eqn:Hv; [|done]. specialize (Hf v (w_ext s)).
  destruct (f v (w_ext s)) as [[r0 v'] x]. injection Hs as <- <-. unfold same, stream_view. simpl in *.
  by rewrite (fmap_insert_same _ _ _ v).
Qed.

Lemma stream_view_on_connection {R} c (f : ConnectionResource → R * ConnectionResource) :
  (∀ r, datagram_flags (f r).2 = datagram_flags r) → frames stream_view (on_connection c f).
Proof.
  intros Hf. apply within_atomic_opt. intros s r s' Hs. outcome. unfold same, stream_view. simpl.
  same_entry.
Qed.

Lemma conn_view_on_connection {R} c (f : ConnectionResource → R * ConnectionResource) :
  (∀ r, owned_by (f r).2 = owned_by r) → frames conn_view (on_connection c f).
Proof.
  intros Hf. apply within_atomic_opt. intros s r s' Hs. outcome. unfold same, conn_view. simpl.
  same_entry.
Qed.

Lemma stream_view_request_reset st code : frames stream_view (request_reset st code).
Proof.
  repeat (apply within_bind; [by apply stream_view_on_stream|intros _]).
  apply stream_view_on_stream_ext. intros r x. by repeat case_match.
Qed.
Lemma stream_view_request_stop st code : frames stream_view (request_stop st code).
Proof.
  repeat (apply within_bind; [by apply stream_view_on_stream|intros _]).
  apply stream_view_on_stream_ext. intros r x. by repeat case_match.
Qed.
Lemma stream_view_send_closed st b : frames stream_view (on_stream st (λ r, (tt, set_st_send_closed b r))).
Proof. by apply stream_view_on_stream. Qed.
Lemma stream_view_take_send st : frames stream_view (take_send_slot st).
Proof. apply stream_view_on_stream. intros r. by case_match. Qed.
Lemma stream_view_take_recv st : frames stream_view (take_recv_slot st).
Proof. apply stream_view_on_stream. intros r. by case_match. Qed.
Lemma stream_view_restore_send st x : frames stream_view (restore_send st x).
Proof. apply stream_view_on_stream. intros r. simpl. by case_match. Qed.
Lemma stream_view_restore_recv st x : frames stream_view (restore_recv st x).
Proof. apply stream_view_on_stream. intros r. simpl. by case_match. Qed.
Lemma stream_view_swap_connection c : frames stream_view (swap_connection_released c).
Proof. by apply stream_view_on_connection. Qed.
Lemma stream_view_select {R} tid st permit consume (f : ext → list (option R * ext)) :
  (∀ r, stream_flags (consume r) = stream_flags r) →
  frames stream_view (select_notified tid st permit consume f).
Proof.
  intros Hf. apply within_act. unfold poll_ext. intros s r s' Hin. outcome; unfold same, stream_view; simpl;
    try done. same_entry.
Qed.
Lemma stream_view_select_reset {R} tid st (f : ext → list (option R * ext)) :
  frames stream_view (select_reset tid st f).
Proof. by apply stream_view_select. Qed.
Lemma stream_view_select_stop {R} tid st (f : ext → list (option R * ext)) :
  frames stream_view (select_stop tid st f).
Proof. by apply stream_view_select. Qed.

#[local] Hint Resolve stream_view_request_reset stream_view_request_stop stream_view_send_closed
  stream_view_take_send stream_view_take_recv stream_view_restore_send stream_view_restore_recv
  stream_view_swap_connection stream_view_select_reset stream_view_select_stop : within.

(** One step on the flags of stream [st] that leaves [released] alone. *)
Lemma st_wp_on_stream {R} st (f : StreamResource → R * StreamResource)
    (Q : R → gmultiset stream_token → Prop) g :
  (∀ r F, flags_ok (Some (stream_flags r).1) (tok (TSend st) (g ⊎ F)) (tok (TRecv st) (g ⊎ F)) →
     st_released (f r).2 = st_released r ∧
     ∃ g', flags_ok (Some (stream_flags (f r).2).1) (tok (TSend st) (g' ⊎ F)) (tok (TRecv st) (g' ⊎ F)) ∧
           (∀ t, t ≠ TSend st → t ≠ TRecv st → tok t g' = tok t g) ∧ Q (f r).1 g') →
  st_wp (on_stream st f) Q g.
Proof.
  intros Hf. apply wp_atomic_opt. intros s F r s' (Hs & Hc & Hn) Hr.
  destruct (w_streams s !! st) as [v|] eqn:Hv; [|done]. injection Hr as <- <-. simpl in *.
  destruct (Hf v F) as (Hrel & g' & Hl & Ht & HQ).
  { specialize (Hs st). rewrite lookup_fmap, Hv in Hs. exact Hs. }
  exists g'. split; [|done]. unfold stream_inv, stream_view. simpl. rewrite fmap_insert. split_and!.
  - intros st'. destruct (decide (st' = st)) as [->|Hne]; [by rewrite lookup_insert_eq|].
    rewrite lookup_insert_ne by done. specialize (Hs st'). simpl in Hs.
    rewrite !tok_union, !Ht in * by congruence. done.
  - intros c. specialize (Hc c). simpl in Hc. by rewrite !tok_union, !Ht in * by congruence.
  - rewrite (msum_update _ _ _ (stream_flags v)) by (rewrite lookup_fmap; rewrite Hv; done).
    unfold live at 2 3. simpl. rewrite Hrel, !tok_union, Ht by done. rewrite !tok_union in Hn.
    rewrite Hn. f_equal. lia.
Qed.

Lemma st_wp_on_connection {R} c (f : ConnectionResource → R * ConnectionResource)
    (Q : R → gmultiset stream_token → Prop) g :
  (∀ r F, flags_ok (Some (datagram_flags r)) (tok (TDSend c) (g ⊎ F)) (tok (TDRecv c) (g ⊎ F)) →
     ∃ g', flags_ok (Some (datagram_flags (f r).2)) (tok (TDSend c) (g' ⊎ F)) (tok (TDRecv c) (g' ⊎ F)) ∧
           (∀ t, t ≠ TDSend c → t ≠ TDRecv c → tok t g' = tok t g) ∧ Q (f r).1 g') →
  st_wp (on_connection c f) Q g.
Proof.
  intros Hf. apply wp_atomic_opt. intros s F r s' (Hs & Hc & Hn) Hr.
  destruct (w_connections s !! c) as [v|] eqn:Hv; [|done]. injection Hr as <- <-. simpl in *.
  destruct (Hf v F) as (g' & Hl & Ht & HQ).
  { specialize (Hc c). rewrite lookup_fmap, Hv in Hc. exact Hc. }
  exists g'. split; [|done]. unfold stream_inv, stream_view. simpl. rewrite fmap_insert. split_and!.
  - intros st. specialize (Hs st). simpl in Hs. by rewrite !tok_union, !Ht in * by congruence.
  - intros c'. destruct (decide (c' = c)) as [->|Hne]; [by rewrite lookup_insert_eq|].
    rewrite lookup_insert_ne by done. specialize (Hc c'). simpl in Hc.
    rewrite !tok_union, !Ht in * by congruence. done.
  - rewrite !tok_union, Ht by congruence. by rewrite tok_union in Hn.
Qed.

(** The token of a flag that this thread sets or clears. *)
Ltac flag_step g' :=
  intros; exists g'; unfold flags_ok, stream_flags, datagram_flags in *; simpl in *;
  split_and!; intros; toks; destruct_and?; try done; lia.

Lemma b2z_tok b t (g : gmultiset stream_token) : Z.b2z b = 1 + tok t g → b = true ∧ tok t g = 0.
Proof. assert (0 ≤ tok t g) by apply tok_nonneg. destruct b; simpl; [|lia]. split; [done|lia]. Qed.

Lemma st_wp_claim_send st (Q : bool → gmultiset stream_token → Prop) g :
  Q true ({[+ TSend st +]} ⊎ g) → Q false g → st_wp (claim_send_busy st) Q g.
Proof.
  intros Ht Hf. apply st_wp_on_stream. intros r F Hr. destruct (st_send_busy r) eqn:E; (split; [done|]).
  - by flag_step g.
  - unfold flags_ok, stream_flags in Hr. simpl in Hr. rewrite E in Hr. flag_step ({[+ TSend st +]} ⊎ g).
Qed.

Lemma st_wp_claim_recv st (Q : bool → gmultiset stream_token → Prop) g :
  Q true ({[+ TRecv st +]} ⊎ g) → Q false g → st_wp (claim_recv_busy st) Q g.
Proof.
  intros Ht Hf. apply st_wp_on_stream. intros r F Hr. destruct (st_recv_busy r) eqn:E; (split; [done|]).
  - by flag_step g.
  - unfold flags_ok, stream_flags in Hr. simpl in Hr. rewrite E in Hr. flag_step ({[+ TRecv st +]} ⊎ g).
Qed.

Lemma st_wp_begin_dsend c (Q : bool → gmultiset stream_token → Prop) g :
  Q true ({[+ TDSend c +]} ⊎ g) → Q false g → st_wp (begin_datagram_send c) Q g.
Proof.
  intros Ht Hf. apply st_wp_on_connection. intros r F Hr. destruct (cr_datagram_send_busy r) eqn:E.
  - by flag_step g.
  - unfold flags_ok, datagram_flags in Hr. rewrite E in Hr. flag_step ({[+ TDSend c +]} ⊎ g).
Qed.

Lemma st_wp_begin_drecv c (Q : bool → gmultiset stream_token → Prop) g :
  Q true ({[+ TDRecv c +]} ⊎ g) → Q false g → st_wp (begin_datagram_recv c) Q g.
Proof.
  intros Ht Hf. apply st_wp_on_connection. intros r F Hr. destruct (cr_datagram_recv_busy r) eqn:E.
  - by flag_step g.
  - unfold flags_ok, datagram_flags in Hr. rewrite E in Hr. flag_step ({[+ TDRecv c +]} ⊎ g).
Qed.

Lemma st_wp_finish_dsend c (Q : unit → gmultiset stream_token → Prop) g :
  Q tt g → st_wp (finish_datagram_send c) Q ({[+ TDSend c +]} ⊎ g).
Proof.
  intros HQ. apply st_wp_on_connection. intros r F [Hr ?]. exists g. toks.
  rewrite <-Z.add_assoc, <-tok_union in Hr. apply b2z_tok in Hr as [? Hr]. toks.
  unfold flags_ok, datagram_flags. simpl. split_and!; [lia|lia| |done]. intros. toks. lia.
Qed.

Lemma st_wp_finish_drecv c (Q : unit → gmultiset stream_token → Prop) g :
  Q tt g → st_wp (finish_datagram_recv c) Q ({[+ TDRecv c +]} ⊎ g).
Proof.
  intros HQ. apply st_wp_on_connection. intros r F [? Hr]. exists g. toks.
  rewrite <-Z.add_assoc, <-tok_union in Hr. apply b2z_tok in Hr as [? Hr]. toks.
  unfold flags_ok, datagram_flags. simpl. split_and!; [lia|lia| |done]. intros. toks. lia.
Qed.

Lemma st_wp_clear_send st (Q : unit → gmultiset stream_token → Prop) g :
  Q tt g → st_wp (set_send_busy st false) Q ({[+ TSend st +]} ⊎ g).
Proof.
  intros HQ. apply st_wp_on_stream. intros r F [Hr ?]. split; [done|]. exists g. toks.
  rewrite <-Z.add_assoc, <-tok_union in Hr. apply b2z_tok in Hr as [? Hr]. toks.
  unfold flags_ok, stream_flags. simpl. split_and!; [lia|lia| |done]. intros. toks. lia.
Qed.

Lemma st_wp_clear_recv st (Q : unit → gmultiset stream_token → Prop) g :
  Q tt g → st_wp (set_recv_busy st false) Q ({[+ TRecv st +]} ⊎ g).
Proof.
  intros HQ. apply st_wp_on_stream. intros r F [? Hr]. split; [done|]. exists g. toks.
  rewrite <-Z.add_assoc, <-tok_union in Hr. apply b2z_tok in Hr as [? Hr]. toks.
  unfold flags_ok, stream_flags. simpl. split_and!; [lia|lia| |done]. intros. toks. lia.
Qed.

Lemma st_wp_add (Q : unit → gmultiset stream_token → Prop) g :
  Q tt ({[+ TStream +]} ⊎ g) → st_wp add_active_stream Q g.
Proof.
  intros HQ. apply wp_atomic. intros s F (Hs & Hc & Hn). eexists. split; [|exact HQ].
  simpl in *. split_and!.
  - intros st. specialize (Hs st). by toks.
  - intros c. specialize (Hc c). by toks.
  - rewrite Hn, wrap64_add. toks. f_equal. lia.
Qed.

Lemma st_wp_sub (Q : unit → gmultiset stream_token → Prop) g :
  Q tt g → st_wp sub_active_stream Q ({[+ TStream +]} ⊎ g).
Proof.
  intros HQ. apply wp_atomic. intros s F (Hs & Hc & Hn). exists g. split; [|exact HQ].
  simpl in *. split_and!.
  - intros st. specialize (Hs st). by toks.
  - intros c. specialize (Hc c). by toks.
  - rewrite Hn, wrap64_sub. toks. f_equal. lia.
Qed.

Lemma st_wp_new send recv c id (Q : nat → gmultiset stream_token → Prop) g :
  (∀ st, Q st g) → st_wp (new_stream send recv c id) Q ({[+ TStream +]} ⊎ g).
Proof.
  intros HQ. apply wp_atomic. intros s F (Hs & Hc & Hn). exists g. split; [|apply HQ].
  unfold stream_inv, stream_view in *. simpl in *. rewrite fmap_insert. split_and!.
  - intros st. specialize (Hs st). toks. destruct (decide (st = next_id (w_streams s))) as [->|].
    + rewrite lookup_insert_eq. rewrite next_id_fmap in Hs. simpl in *. lia.
    + by rewrite lookup_insert_ne.
  - intros c'. specialize (Hc c'). by toks.
  - rewrite Hn, msum_insert_new by apply next_id_fmap. unfold live at 2. toks. simpl. f_equal. lia.
Qed.

Lemma st_wp_new_connection conn e role (Q : nat → gmultiset stream_token → Prop) g :
  (∀ c, Q c g) → st_wp (new_connection conn e role) Q g.
Proof.
  intros HQ. apply wp_atomic. intros s F (Hs & Hc & Hn). exists g. split; [|apply HQ].
  unfold stream_inv, stream_view in *. simpl in *. rewrite fmap_insert. split_and!; [done| |done].
  intros c. specialize (Hc c). destruct (decide (c = next_id (w_connections s))) as [->|].
  - rewrite lookup_insert_eq. rewrite next_id_fmap in Hc. simpl in *. lia.
  - by rewrite lookup_insert_ne.
Qed.

Lemma st_wp_swap st (Q : bool → gmultiset stream_token → Prop) g :
  Q false ({[+ TStream +]} ⊎ g) → Q true g → st_wp (swap_stream_released st) Q g.
Proof.
  intros Hf Ht. apply wp_atomic_opt. intros s F r s' (Hs & Hc & Hn) Hr.
  destruct (w_streams s !! st) as [v|] eqn:Hv; [|done]. injection Hr as <- <-. simpl in *.
  set (v' := set_st_released true v).
  assert (Hlookup : ∀ st', fst <$> (stream_flags <$> <[st:=v']> (w_streams s)) !! st' =
                           fst <$> (stream_flags <$> w_streams s) !! st').
  { intros st'. rewrite !lookup_fmap. destruct (decide (st' = st)) as [->|].
    - rewrite lookup_insert_eq. by rewrite Hv.
    - by rewrite lookup_insert_ne. }
  assert (Hsum : msum live (stream_flags <$> <[st:=v']> (w_streams s)) =
    msum live (stream_flags <$> w_streams s) - (if st_released v then 0 else 1)).
  { rewrite fmap_insert, (msum_update _ _ _ (stream_flags v)).
    - unfold live at 2 3. simpl. lia.
    - rewrite lookup_fmap. by rewrite Hv. }
  exists (if st_released v then g else {[+ TStream +]} ⊎ g).
  split; [|by destruct (st_released v)]. unfold stream_inv, stream_view. cbn [fst snd].
  split_and!; simpl.
  - intros st'. rewrite Hlookup. specialize (Hs st'). destruct (st_released v); [done|]. by toks.
  - intros c. specialize (Hc c). destruct (st_released v); [done|]. by toks.
  - rewrite Hsum, Hn. destruct (st_released v); toks; f_equal; lia.
Qed.

Lemma st_wp_close st (Q : bool → gmultiset stream_token → Prop) g :
  (∀ b, Q b g) → st_wp (close st) Q g.
Proof.
  intros HQ. apply wp_bind, st_wp_swap; [|apply HQ].
  apply wp_bind. wp_skip. apply wp_bind. wp_skip. apply wp_bind, st_wp_sub, HQ.
Qed.

Lemma st_wp_stream_drop st (Q : unit → gmultiset stream_token → Prop) g :
  Q tt g → st_wp (stream_drop st) Q g.
Proof. intros HQ. by apply wp_bind, st_wp_close. Qed.

Lemma st_drop_value v : st_wp (drop_stream_value v) fin gnil.
Proof. destruct v; simpl; try done. by apply st_wp_stream_drop. Qed.

Lemma st_wp_wrap_stream send recv c owner op (g : gmultiset stream_token) :
  st_wp (stream_value (wrap_stream send recv c owner op)) (λ _ g', g' = g) g.
Proof.
  apply wp_bind. unfold wrap_stream. destruct (ok_or _ _); [|done].
  apply wp_bind, st_wp_add, wp_bind, st_wp_new. intros st. apply wp_bind. wp_skip.
  destruct a0; cbn [negb]; [done|]. apply wp_bind, st_wp_close. intros b.
  by apply wp_bind, st_wp_stream_drop.
Qed.

Lemma st_wp_take_send st op (Q : nresult SendLease → gmultiset stream_token → Prop) g :
  (∀ stream, Q (Ok {| sl_resource := st; sl_stream := Some stream |}) ({[+ TSend st +]} ⊎ g)) →
  (∀ e, Q (Err e) g) → st_wp (take_send st op) Q g.
Proof.
  intros Hok Herr. apply wp_bind. wp_skip. destruct a; [apply Herr|].
  apply wp_bind, st_wp_claim_send; cbn [negb]; [|apply Herr].
  apply wp_bind. wp_skip. destruct a; [apply Hok|]. apply wp_bind, st_wp_clear_send, Herr.
Qed.

Lemma st_wp_take_recv st op (Q : nresult RecvLease → gmultiset stream_token → Prop) g :
  (∀ stream, Q (Ok {| rl_resource := st; rl_stream := Some stream |}) ({[+ TRecv st +]} ⊎ g)) →
  (∀ e, Q (Err e) g) → st_wp (take_recv st op) Q g.
Proof.
  intros Hok Herr. apply wp_bind. wp_skip. destruct a; [apply Herr|].
  apply wp_bind, st_wp_claim_recv; cbn [negb]; [|apply Herr].
  apply wp_bind. wp_skip. destruct a; [apply Hok|]. apply wp_bind, st_wp_clear_recv, Herr.
Qed.

Lemma st_wp_send_lease_drop lease (Q : unit → gmultiset stream_token → Prop) g :
  Q tt g → st_wp (send_lease_drop lease) Q ({[+ TSend (sl_resource lease) +]} ⊎ g).
Proof.
  intros HQ. apply wp_bind, st_wp_clear_send, wp_bind. wp_skip.
  apply wp_when; intros _; [|done]. wp_skip. by destruct a0.
Qed.

Lemma st_wp_recv_lease_drop lease (Q : unit → gmultiset stream_token → Prop) g :
  Q tt g → st_wp (recv_lease_drop lease) Q ({[+ TRecv (rl_resource lease) +]} ⊎ g).
Proof.
  intros HQ. apply wp_bind, st_wp_clear_recv, wp_bind. wp_skip.
  apply wp_when; intros _; [|done]. wp_skip. by destruct a0.
Qed.

Lemma st_await_or {R} tid (f : ext → list (option (option R) * ext)) err (g : gmultiset stream_token) :
  st_wp (await_or tid f err) (λ _ g', g' = g) g.
Proof. by apply wp_bind; wp_skip. Qed.

Lemma st_open_futures value c owner :
  future_wp stream_view stream_inv (open_uni_future value c owner) gnil ∧
  future_wp stream_view stream_inv (open_bi_future value c owner) gnil ∧
  future_wp stream_view stream_inv (accept_uni_future value c owner) gnil ∧
  future_wp stream_view stream_inv (accept_bi_future value c owner) gnil.
Proof.
  split_and!; (split; [intros tid|split; [done|apply st_drop_value]]);
    (apply wp_fut_bind; [apply st_await_or|intros; apply st_wp_wrap_stream]).
Qed.

Lemma st_send_future lease queued data all chunk :
  future_wp stream_view stream_inv (send_future lease queued data all chunk)
    ({[+ TSend (sl_resource lease) +]} ⊎ gnil).
Proof.
  split; [intros tid|split; [|done]].
  - apply wp_frames; [|done]. cbn [send_future fut_body]. within_solve.
  - apply wp_bind. wp_skip. by apply st_wp_send_lease_drop.
Qed.

Lemma st_recv_future lease max_bytes :
  future_wp stream_view stream_inv (recv_future lease max_bytes)
    ({[+ TRecv (rl_resource lease) +]} ⊎ gnil).
Proof.
  split; [intros tid|split; [|done]].
  - apply wp_frames; [|done]. cbn [recv_future fut_body]. within_solve.
  - by apply st_wp_recv_lease_drop.
Qed.

Lemma st_datagram_send_future value c queued data wait :
  future_wp stream_view stream_inv
    (datagram_send_future value {| dp_connection := c; dp_send := true |} queued data wait)
    ({[+ TDSend c +]} ⊎ gnil).
Proof.
  split; [intros tid|split; [|done]].
  - apply wp_frames; [|done]. cbn [datagram_send_future fut_body]. within_solve.
  - apply wp_bind. wp_skip. by apply st_wp_finish_dsend.
Qed.

Lemma st_datagram_recv_future value c :
  future_wp stream_view stream_inv
    (datagram_recv_future value {| dp_connection := c; dp_send := false |}) ({[+ TDRecv c +]} ⊎ gnil).
Proof.
  split; [intros tid|split; [|done]].
  - apply wp_frames; [|done]. cbn [datagram_recv_future fut_body]. within_solve.
  - by apply st_wp_finish_drecv.
Qed.

Lemma st_wp_start caller ref name F t (Q : nresult nat → gmultiset stream_token → Prop) g :
  future_wp stream_view stream_inv F ({[+ t +]} ⊎ gnil) → (∀ r, Q r g) →
  st_wp (start_endpoint_operation caller ref name F) Q ({[+ t +]} ⊎ g).
Proof.
  intros HF HQ. eapply (wp_start_endpoint_operation stream_view stream_inv); [|exact HF|exact HQ].
  simpl. by rewrite (right_id_L ∅ (⊎)).
Qed.

Lemma st_wp_start_nil caller ref name F (Q : nresult nat → gmultiset stream_token → Prop) g :
  future_wp stream_view stream_inv F gnil → (∀ r, Q r g) →
  st_wp (start_endpoint_operation caller ref name F) Q g.
Proof.
  intros HF HQ. apply (wp_start_endpoint_operation stream_view stream_inv _ _ _ _ gnil g);
    [symmetry; apply gop_nil_l|done|done].
Qed.

Lemma st_wp_start_stream_send caller ref st data all chunk (Q : nresult nat → gmultiset stream_token → Prop) g :
  (∀ r, Q r g) → st_wp (start_stream_send caller ref st data all chunk) Q g.
Proof.
  intros HQ. unfold start_stream_send. destruct (_ || _); [apply HQ|].
  apply wp_bind, st_wp_take_send; [|intros; apply HQ]. intros stream. apply wp_bind. wp_skip.
  apply st_wp_start; [apply st_send_future|done].
Qed.

Lemma st_wp_stream_recv_start caller ref st max (Q : nresult nat → gmultiset stream_token → Prop) g :
  (∀ r, Q r g) → st_wp (stream_recv_start caller ref st max) Q g.
Proof.
  intros HQ. unfold stream_recv_start. destruct (_ || _); [apply HQ|].
  apply wp_bind, st_wp_take_recv; [|intros; apply HQ]. intros stream.
  apply st_wp_start; [apply st_recv_future|done].
Qed.

Lemma st_wp_datagram_send_start caller ref c data wait (Q : nresult nat → gmultiset stream_token → Prop) g :
  (∀ r, Q r g) → st_wp (datagram_send_start caller ref c data wait) Q g.
Proof.
  intros HQ. apply wp_bind. wp_skip. destruct a; [|apply HQ]. apply wp_bind. wp_skip.
  destruct (_ || _); [apply HQ|]. apply wp_bind, st_wp_begin_dsend; cbn [negb]; [|apply HQ].
  apply wp_bind. wp_skip. apply st_wp_start; [apply st_datagram_send_future|done].
Qed.

Lemma st_wp_datagram_recv_start caller ref c (Q : nresult nat → gmultiset stream_token → Prop) g :
  (∀ r, Q r g) → st_wp (datagram_recv_start caller ref c) Q g.
Proof.
  intros HQ. apply wp_bind. wp_skip. destruct a; [|apply HQ].
  apply wp_bind, st_wp_begin_drecv; cbn [negb]; [|apply HQ].
  apply st_wp_start; [apply st_datagram_recv_future|done].
Qed.

Lemma st_wp_open_start caller owner ref c (Q : nresult nat → gmultiset stream_token → Prop) g :
  (∀ r, Q r g) →
  st_wp (stream_open_uni_start caller owner ref c) Q g ∧
  st_wp (stream_open_bi_start caller owner ref c) Q g ∧
  st_wp (stream_accept_uni_start caller owner ref c) Q g ∧
  st_wp (stream_accept_bi_start caller owner ref c) Q g.
Proof.
  intros HQ. split_and!; apply wp_bind; wp_skip; (destruct a as [value|]; [|apply HQ]);
    (apply st_wp_start_nil; [apply (st_open_futures value c owner)|done]).
Qed.

(** The futures of connection.rs and endpoint.rs hold no token of this component. *)
Lemma st_wp_wrap_connection conn e owner role op (g : gmultiset stream_token) :
  st_wp (wrap_value (wrap_connection conn e owner role op)) (λ _ g', g' = g) g.
Proof.
  apply wp_bind, wp_bind. wp_skip. destruct a; cbn [negb]; [|by apply wp_bind; wp_skip].
  apply wp_bind. wp_skip. apply wp_bind, st_wp_new_connection. intros c. apply wp_bind. wp_skip.
  destruct a0; cbn [negb]; [done|]. apply wp_bind. wp_skip. by apply wp_bind; wp_skip.
Qed.

Lemma st_drop_connection_value v : st_wp (drop_connection_value v) fin gnil.
Proof. destruct v; try done. apply wp_frames; [cbn [drop_connection_value]; within_solve|by intros []]. Qed.

Lemma st_connect_future value target alpn e owner :
  future_wp stream_view stream_inv (connect_future value target alpn e owner) gnil.
Proof.
  split; [intros tid|split; [done|exact st_drop_connection_value]].
  apply wp_fut_bind; [apply st_await_or|]. intros. apply st_wp_wrap_connection.
Qed.

Lemma st_accept_future value e owner all allowed :
  future_wp stream_view stream_inv (accept_future value e owner all allowed) gnil.
Proof.
  split; [intros tid|split; [|exact st_drop_connection_value]].
  - apply wp_fut_bind; [apply st_await_or|]. intros incoming.
    apply wp_fut_bind; [by apply wp_bind; wp_skip|]. intros accepting.
    apply wp_fut_bind; [apply st_await_or|]. intros conn.
    destruct (_ && _); [by apply wp_bind; wp_skip|apply st_wp_wrap_connection].
  - apply wp_frames; [cbn [accept_future fut_captured]; within_solve|by intros []].
Qed.

Lemma st_closed_future conn c : future_wp stream_view stream_inv (closed_future conn c) gnil.
Proof.
  split; [intros tid|done]. apply wp_frames; [|done]. cbn [closed_future fut_body]. within_solve.
Qed.

Lemma st_close_future e : future_wp stream_view stream_inv (close_future e) gnil.
Proof.
  split; [intros tid|done]. apply wp_frames; [|done]. cbn [close_future fut_body]. within_solve.
Qed.

Lemma st_online_future profile v : future_wp stream_view stream_inv (online_future profile v) gnil.
Proof. by apply future_frames_wp, online_future_within. Qed.

(** ** Queued bytes *)

(** The ghost state is the number of bytes whose guards the threads hold. *)
Abbreviation queue_wp p Q g := (wp (λ s, counter_inv (w_queued_bytes s)) p Q g).

#[export] Instance queued_aside : Aside w_queued_bytes.
Proof. by constructor. Qed.

Lemma queue_wp_new n (Q : Z → Z → Prop) g : Q n (n + g) → queue_wp (QueueGuard_new n) Q g.
Proof.
  intros HQ. apply wp_bind, wp_atomic. intros s F HI. exists (n + g). split.
  { unfold counter_inv in *. simpl in *. rewrite HI, wrap64_add. f_equal. lia. }
  apply wp_bind. wp_skip. apply wp_bind. wp_skip. by destruct a0.
Qed.

Lemma queue_wp_drop n (Q : unit → Z → Prop) g : Q tt g → queue_wp (queue_guard_drop n) Q (n + g).
Proof.
  intros HQ. apply wp_atomic. intros s F HI. exists g. split; [|done].
  unfold counter_inv in *. simpl in *. rewrite HI, wrap64_sub. f_equal. lia.
Qed.

Lemma queue_send_future lease n data all chunk :
  future_wp w_queued_bytes counter_inv (send_future lease n data all chunk) n.
Proof.
  split; [intros tid|split; [|done]].
  - apply wp_frames; [|done]. cbn [send_future fut_body]. within_solve.
  - replace n with (n + 0) at 2 by lia. apply wp_bind, queue_wp_drop.
    apply wp_frames; [within_solve|by intros []].
Qed.

Lemma queue_datagram_send_future value permit n data wait :
  future_wp w_queued_bytes counter_inv (datagram_send_future value permit n data wait) n.
Proof.
  split; [intros tid|split; [|done]].
  - apply wp_frames; [|done]. cbn [datagram_send_future fut_body]. within_solve.
  - replace n with (n + 0) at 2 by lia. apply wp_bind, queue_wp_drop.
    apply wp_frames; [within_solve|by intros []].
Qed.

Lemma queue_wp_start_stream_send caller ref st data all chunk (Q : nresult nat → Z → Prop) g :
  (∀ r, Q r g) → queue_wp (start_stream_send caller ref st data all chunk) Q g.
Proof.
  intros HQ. unfold start_stream_send. destruct (_ || _); [apply HQ|].
  apply wp_bind. wp_skip. destruct a as [lease|]; [|apply HQ]. apply wp_bind, queue_wp_new.
  eapply (wp_start_endpoint_operation w_queued_bytes counter_inv);
    [done|apply queue_send_future|done].
Qed.

Lemma queue_wp_datagram_send_start caller ref c data wait (Q : nresult nat → Z → Prop) g :
  (∀ r, Q r g) → queue_wp (datagram_send_start caller ref c data wait) Q g.
Proof.
  intros HQ. apply wp_bind. wp_skip. destruct a; [|apply HQ]. apply wp_bind. wp_skip.
  destruct (_ || _); [apply HQ|]. apply wp_bind. wp_skip. destruct a1; cbn [negb]; [|apply HQ].
  apply wp_bind, queue_wp_new.
  eapply (wp_start_endpoint_operation w_queued_bytes counter_inv);
    [done|apply queue_datagram_send_future|done].
Qed.

(** ** The futures of this component and the other components *)

Lemma conn_view_begin_datagram c :
  frames conn_view (begin_datagram_send c) ∧ frames conn_view (begin_datagram_recv c) ∧
  frames conn_view (finish_datagram_send c) ∧ frames conn_view (finish_datagram_recv c).
Proof. split_and!; apply conn_view_on_connection; intros r; by repeat case_match. Qed.

Lemma conn_view_datagram_drop permit : frames conn_view (datagram_permit_drop permit).
Proof. unfold datagram_permit_drop. destruct (dp_send permit); apply conn_view_begin_datagram. Qed.

#[local] Hint Resolve conn_view_datagram_drop : within.
#[local] Hint Extern 1 (within _ (select_notified _ _ _ _ _)) =>
  apply within_select; intros; first [reflexivity | apply op_final_same; reflexivity] : within.

(** A future that leaves the other components alone. *)
Definition future_apart (F : future) : Prop :=
  future_within op_final F ∧ future_within (same op_view) F ∧
  future_within (same w_active_operations) F ∧ future_within (same ep_view) F ∧
  future_within (same conn_view) F.

Lemma open_uni_apart value c owner : future_apart (open_uni_future value c owner).
Proof. unfold future_apart. future_solve open_uni_future. Qed.
Lemma open_bi_apart value c owner : future_apart (open_bi_future value c owner).
Proof. unfold future_apart. future_solve open_bi_future. Qed.
Lemma accept_uni_apart value c owner : future_apart (accept_uni_future value c owner).
Proof. unfold future_apart. future_solve accept_uni_future. Qed.
Lemma accept_bi_apart value c owner : future_apart (accept_bi_future value c owner).
Proof. unfold future_apart. future_solve accept_bi_future. Qed.
Lemma send_apart lease n data all chunk : future_apart (send_future lease n data all chunk).
Proof. unfold future_apart. future_solve send_future. Qed.
Lemma recv_apart lease n : future_apart (recv_future lease n).
Proof. unfold future_apart. future_solve recv_future. Qed.
Lemma datagram_send_apart value permit n data wait :
  future_apart (datagram_send_future value permit n data wait).
Proof. unfold future_apart. future_solve datagram_send_future. Qed.
Lemma datagram_recv_apart value permit : future_apart (datagram_recv_future value permit).
Proof. unfold future_apart. future_solve datagram_recv_future. Qed.

End stream.

Abbreviation st_wp p Q g := (wp (λ s, stream_inv (stream_view s)) p Q g).
Abbreviation queue_wp p Q g := (wp (λ s, counter_inv (w_queued_bytes s)) p Q g).

#[export] Hint Resolve stream_view_request_reset stream_view_request_stop stream_view_send_closed
  stream_view_take_send stream_view_take_recv stream_view_restore_send stream_view_restore_recv
  stream_view_swap_connection stream_view_select_reset stream_view_select_stop : within.
#[export] Hint Extern 1 (within _ (select_notified _ _ _ _ _)) =>
  apply within_select; intros; first [reflexivity | apply op_final_same; reflexivity] : within.
#[export] Hint Extern 1 (within (same conn_view) (begin_datagram_send _)) =>
  apply conn_view_begin_datagram : within.
#[export] Hint Extern 1 (within (same conn_view) (begin_datagram_recv _)) =>
  apply conn_view_begin_datagram : within.
