(* ===== verification/System.v ===== *)
(** The whole native layer: every NIF and resource callback as a thread, their
    interleavings, and what holds in every state they reach. *)
From S2P Require Import Prelude Prog Std Extern State Operations Identity IdentityFile EndpointConfig.
From S2P Require Import Endpoint Connection Stream.
From stdpp Require Import list options.
Local Open Scope Z_scope.
Local Open Scope prog_scope.

Section system.
Context `{net : NetApi}.

(** The exported NIFs with their arguments, and the [Drop] and [down] callbacks. *)
Inductive nif_call : Type :=
  | NativeVersions
  | OperationStart (caller : pid) (ref : term) (kind : atom) (delay_ms : Z)
  | OperationCancel (o : nat)
  | OperationDown (o : nat)
  | OperationSnapshot
  | IdentityGenerate
  | IdentityLoadOrCreate (path : string)
  | SecretKeyImport (b : bytes)
  | SecretKeyExport (key : SecretKey)
  | SecretKeyEndpointId (key : SecretKey)
  | EndpointIdParse (text : string)
  | EndpointIdFromBytes (b : bytes)
  | EndpointAddrNormalize (eid : bytes) (relays ips : list string)
  | EndpointTicketFromAddrText (eid : bytes) (relays ips : list string)
  | EndpointTicketFromAddrBytes (eid : bytes) (relays ips : list string)
  | EndpointTicketParseText (text : string)
  | EndpointTicketParseBytes (b : bytes)
  | EndpointTicketTextToBytes (text : string)
  | EndpointBindStart (caller : pid) (ref : term) (key : SecretKey) (options : NativeEndpointOptions)
  | EndpointInfoCall (e : nat)
  | EndpointAbort (e : nat)
  | EndpointCloseStart (caller : pid) (ref : term) (e : nat)
  | EndpointAwaitOnlineStart (caller : pid) (ref : term) (e : nat)
  | EndpointSnapshotCall
  | EndpointDrop (e : nat)
  | EndpointDown (e : nat)
  | ConnectionConnectStart (caller owner : pid) (ref : term) (e : nat) (target : NativeDialTarget)
      (alpn : string)
  | ConnectionAcceptStart (caller owner : pid) (ref : term) (e : nat) (allow_all : bool)
      (allowed_ids : list string)
  | ConnectionInfoCall (c : nat)
  | ConnectionPath (c : nat)
  | ConnectionClose (c : nat)
  | ConnectionClosedStart (caller : pid) (ref : term) (c : nat)
  | ConnectionCloseReason (c : nat)
  | ConnectionSnapshotCall
  | ConnectionDrop (c : nat)
  | ConnectionDown (c : nat)
  | StreamOpenUniStart (caller owner : pid) (ref : term) (c : nat)
  | StreamOpenBiStart (caller owner : pid) (ref : term) (c : nat)
  | StreamAcceptUniStart (caller owner : pid) (ref : term) (c : nat)
  | StreamAcceptBiStart (caller owner : pid) (ref : term) (c : nat)
  | StreamSendStart (caller : pid) (ref : term) (st : nat) (data : bytes) (send_all : bool)
      (chunk_size : Z)
  | StreamSendIodataStart (caller : pid) (ref : term) (st : nat) (data : term)
      (expected_size max_bytes : Z)
  | StreamRecvStart (caller : pid) (ref : term) (st : nat) (max_bytes : Z)
  | StreamFinish (st : nat)
  | StreamReset (st : nat) (code : Z)
  | StreamStop (st : nat) (code : Z)
  | StreamAbort (st : nat) (code : Z)
  | StreamInfoCall (st : nat)
  | StreamSnapshotCall
  | StreamDrop (st : nat)
  | StreamDown (st : nat)
  | DatagramSendStart (caller : pid) (ref : term) (c : nat) (data : bytes) (wait : bool)
  | DatagramRecvStart (caller : pid) (ref : term) (c : nat)
  | DatagramInfoCall (c : nat).

Definition discard {A} (p : nif A) : nif unit := let! _ := p in Ret tt.

Definition run_call (call : nif_call) : nif unit :=
  match call with
  | NativeVersions => discard (Ret native_versions)
  | OperationStart caller ref kind d => discard (operation_start caller ref kind d)
  | OperationCancel o => discard (operation_cancel o)
  | OperationDown o => operation_down o
  | OperationSnapshot => discard operation_snapshot
  | IdentityGenerate => discard identity_generate
  | IdentityLoadOrCreate path => discard (identity_load_or_create path)
  | SecretKeyImport b => discard (secret_key_import b)
  | SecretKeyExport key => discard (secret_key_export key)
  | SecretKeyEndpointId key => discard (secret_key_endpoint_id key)
  | EndpointIdParse text => discard (endpoint_id_parse text)
  | EndpointIdFromBytes b => discard (endpoint_id_from_bytes b)
  | EndpointAddrNormalize eid relays ips => discard (endpoint_addr_normalize eid relays ips)
  | EndpointTicketFromAddrText eid relays ips => discard (endpoint_ticket_from_addr_text eid relays ips)
  | EndpointTicketFromAddrBytes eid relays ips => discard (endpoint_ticket_from_addr_bytes eid relays ips)
  | EndpointTicketParseText text => discard (endpoint_ticket_parse_text text)
  | EndpointTicketParseBytes b => discard (endpoint_ticket_parse_bytes b)
  | EndpointTicketTextToBytes text => discard (endpoint_ticket_text_to_bytes text)
  | EndpointBindStart caller ref key options => discard (endpoint_bind_start caller ref key options)
  | EndpointInfoCall e => discard (endpoint_info e)
  | EndpointAbort e => discard (endpoint_abort e)
  | EndpointCloseStart caller ref e => discard (endpoint_close_start caller ref e)
  | EndpointAwaitOnlineStart caller ref e => discard (endpoint_await_online_start caller ref e)
  | EndpointSnapshotCall => discard endpoint_snapshot
  | EndpointDrop e => endpoint_drop e
  | EndpointDown e => endpoint_down e
  | ConnectionConnectStart caller owner ref e target alpn =>
      discard (connection_connect_start caller owner ref e target alpn)
  | ConnectionAcceptStart caller owner ref e allow_all allowed_ids =>
      discard (connection_accept_start caller owner ref e allow_all allowed_ids)
  | ConnectionInfoCall c => discard (connection_info c)
  | ConnectionPath c => discard (connection_path c)
  | ConnectionClose c => discard (connection_close c)
  | ConnectionClosedStart caller ref c => discard (connection_closed_start caller ref c)
  | ConnectionCloseReason c => discard (connection_close_reason c)
  | ConnectionSnapshotCall => discard connection_snapshot
  | ConnectionDrop c => connection_drop c
  | ConnectionDown c => connection_down c
  | StreamOpenUniStart caller owner ref c => discard (stream_open_uni_start caller owner ref c)
  | StreamOpenBiStart caller owner ref c => discard (stream_open_bi_start caller owner ref c)
  | StreamAcceptUniStart caller owner ref c => discard (stream_accept_uni_start caller owner ref c)
  | StreamAcceptBiStart caller owner ref c => discard (stream_accept_bi_start caller owner ref c)
  | StreamSendStart caller ref st data send_all chunk_size =>
      discard (stream_send_start caller ref st data send_all chunk_size)
  | StreamSendIodataStart caller ref st data expected_size max_bytes =>
      discard (stream_send_iodata_start caller ref st data expected_size max_bytes)
  | StreamRecvStart caller ref st max_bytes => discard (stream_recv_start caller ref st max_bytes)
  | StreamFinish st => discard (stream_finish st)
  | StreamReset st code => discard (stream_reset st code)
  | StreamStop st code => discard (stream_stop st code)
  | StreamAbort st code => discard (stream_abort st code)
  | StreamInfoCall st => discard (stream_info st)
  | StreamSnapshotCall => discard stream_snapshot
  | StreamDrop st => stream_drop st
  | StreamDown st => stream_down st
  | DatagramSendStart caller ref c data wait => discard (datagram_send_start caller ref c data wait)
  | DatagramRecvStart caller ref c => discard (datagram_recv_start caller ref c)
  | DatagramInfoCall c => discard (datagram_info c)
  end.

(** Between two steps the outside world may change in any way. *)
Definition outside (s s' : world) : Prop := ∃ x, s' = set_w_ext x s.

(** The states that the calls reach, in every interleaving with the tasks they
    spawn, with the threads that remain. *)
Definition reaches (calls : list nif_call) (s : world) (ps : list (nif unit)) (s' : world) : Prop :=
  rtc (pool_step outside) (run_call <$> calls, s) (ps, s').

Section invariants.
Context {T G : Type} `{Ghost G} (proj : world → T) (J : T → G → Prop).
Hypothesis proj_ext : ∀ x s, proj (set_w_ext x s) = proj s.
Hypothesis calls_ok : ∀ call, wp (λ s, J (proj s)) (run_call call) fin gnil.

Lemma threads_ok (calls : list nif_call) :
  Forall2 (λ p g, wp (λ s, J (proj s)) p fin g) (run_call <$> calls) (replicate (List.length calls) gnil).
Proof using calls_ok. induction calls; simpl; constructor; auto. Qed.

Lemma outside_ok s s' g : outside s s' → J (proj s) g → J (proj s') g.
Proof using proj_ext. intros [x ->]. by rewrite proj_ext. Qed.

Lemma start_ok (calls : list nif_call) s : J (proj s) gnil → J (proj s) (gsum (replicate (List.length calls) gnil)).
Proof using Type. rewrite gsum_nil; [done|]. induction calls; simpl; constructor; auto. Qed.

(** The invariant holds wherever the calls lead. *)
Lemma reaches_invariant calls s ps s' :
  J (proj s) gnil → reaches calls s ps s' → ∃ g, J (proj s') g.
Proof using All.
  intros HI Hr. eapply (pool_invariant (λ s, J (proj s)) outside);
    [apply outside_ok|apply threads_ok|by apply start_ok|exact Hr].
Qed.

(** Once every thread has finished, no token is left. *)
Lemma reaches_quiescent calls s ps s' :
  J (proj s) gnil → reaches calls s ps s' → forallb finished ps = true → J (proj s') gnil.
Proof using All.
  intros HI Hr Hfin. eapply (pool_quiescent (λ s, J (proj s)) outside);
    [apply outside_ok|apply threads_ok|by apply start_ok|exact Hr|exact Hfin].
Qed.
End invariants.

(** What every step of every call respects, every interleaving respects. *)
Lemma reaches_within (Rel : world → world → Prop) `{!Reflexive Rel, !Transitive Rel} calls s ps s' :
  (∀ x s, Rel s (set_w_ext x s)) → (∀ call, within Rel (run_call call)) →
  reaches calls s ps s' → Rel s s'.
Proof.
  intros Hx Hcalls Hr.
  assert (Henv : ∀ s1 s2, outside s1 s2 → Rel s1 s2) by (intros s1 s2 [x ->]; apply Hx).
  assert (Hall : Forall (within Rel) (run_call <$> calls)) by (clear Hr; induction calls; simpl; constructor; auto).
  by destruct (pool_within Rel outside Henv (run_call <$> calls, s) (ps, s') Hall Hr).
Qed.

(** The run of a schedule from the calls. *)
Lemma sched_reaches calls s sched ps s' :
  run_sched sched (run_call <$> calls, s) = Some (ps, s') → reaches calls s ps s'.
Proof. apply run_sched_steps. Qed.

(** ** Every call keeps every invariant *)

Lemma wp_discard {A G} `{Ghost G} (I : world → G → Prop) (p : nif A) g :
  wp I p (λ _ g', g' = gnil) g → wp I (discard p) fin g.
Proof. intros Hp. apply wp_bind. eapply wp_mono; [|exact Hp]. by intros a ? ->. Qed.

Lemma close_future_apart e :
  future_within op_final (close_future e) ∧ future_within (same op_view) (close_future e) ∧
  future_within (same w_active_operations) (close_future e).
Proof.
  unfold close_future, future_within. split_and!; intros; cbn [fut_body fut_captured fut_drop_output];
    within_solve.
Qed.

End system.

(** What is known of the future of a [start_endpoint_operation]. *)
Ltac future_known :=
  match goal with
  | |- future_within _ (open_uni_future ?a ?b ?c) => destruct (open_uni_apart a b c) as (?&?&?&?&?)
  | |- future_within _ (open_bi_future ?a ?b ?c) => destruct (open_bi_apart a b c) as (?&?&?&?&?)
  | |- future_within _ (accept_uni_future ?a ?b ?c) => destruct (accept_uni_apart a b c) as (?&?&?&?&?)
  | |- future_within _ (accept_bi_future ?a ?b ?c) => destruct (accept_bi_apart a b c) as (?&?&?&?&?)
  | |- future_within _ (send_future ?a ?b ?c ?d ?e) => destruct (send_apart a b c d e) as (?&?&?&?&?)
  | |- future_within _ (recv_future ?a ?b) => destruct (recv_apart a b) as (?&?&?&?&?)
  | |- future_within _ (datagram_send_future ?a ?b ?c ?d ?e) =>
      destruct (datagram_send_apart a b c d e) as (?&?&?&?&?)
  | |- future_within _ (datagram_recv_future ?a ?b) => destruct (datagram_recv_apart a b) as (?&?&?&?&?)
  | |- future_within _ (connect_future ?a ?b ?c ?d ?e) =>
      destruct (connect_future_within a b c d e) as (?&?&?&?)
  | |- future_within _ (accept_future ?a ?b ?c ?d ?e) =>
      destruct (accept_future_within a b c d e) as (?&?&?&?)
  | |- future_within _ (closed_future ?a ?b) => destruct (closed_future_within a b) as (?&?&?&?)
  | |- future_within _ (close_future ?e) => destruct (close_future_apart e) as (?&?&?)
  | |- future_within _ (online_future _ _) =>
      apply online_future_within; intros; first [reflexivity | apply op_final_same; reflexivity]
  end; try assumption.

(** Walk to the [start_endpoint_operation] at the end of a NIF. *)
Ltac walk start :=
  repeat first
    [ done
    | match goal with
      | |- wp _ (start_endpoint_operation _ _ _ _) _ _ => start
      | |- wp _ (bind _ _) _ _ => apply wp_bind; wp_skip
      | |- wp _ (if ?b then _ else _) _ _ => destruct b
      | |- wp _ (match ?x with _ => _ end) _ _ => destruct x
      | |- wp _ (Ret _) _ _ => reflexivity
      | |- wp _ ?p _ _ => let h := head_of p in progress unfold h
      end ].

(** The same for a relation that every step respects. *)
Ltac walk_within start :=
  repeat first
    [ done
    | match goal with
      | |- within _ (start_endpoint_operation _ _ _ _) => start
      | |- within _ (bind _ _) => apply within_bind; [by within_solve|intros]
      | |- within _ (if ?b then _ else _) => destruct b
      | |- within _ (match ?x with _ => _ end) => destruct x
      | |- within _ (Ret _) => exact I
      | |- within _ ?p => let h := head_of p in progress unfold h
      end ].

(** One call: those that start an operation are walked, the others leave the view
    of the component alone. *)
Ltac by_call start :=
  lazymatch goal with
  | |- wp _ (endpoint_close_start _ _ _) _ _ => walk start
  | |- wp _ (endpoint_await_online_start _ _ _) _ _ => walk start
  | |- wp _ (connection_connect_start _ _ _ _ _ _) _ _ => walk start
  | |- wp _ (connection_accept_start _ _ _ _ _ _) _ _ => walk start
  | |- wp _ (connection_closed_start _ _ _) _ _ => walk start
  | |- wp _ (stream_open_uni_start _ _ _ _) _ _ => walk start
  | |- wp _ (stream_open_bi_start _ _ _ _) _ _ => walk start
  | |- wp _ (stream_accept_uni_start _ _ _ _) _ _ => walk start
  | |- wp _ (stream_accept_bi_start _ _ _ _) _ _ => walk start
  | |- wp _ (stream_send_start _ _ _ _ _ _) _ _ => walk start
  | |- wp _ (stream_send_iodata_start _ _ _ _ _ _) _ _ => walk start
  | |- wp _ (stream_recv_start _ _ _ _) _ _ => walk start
  | |- wp _ (datagram_send_start _ _ _ _ _) _ _ => walk start
  | |- wp _ (datagram_recv_start _ _ _) _ _ => walk start
  | |- _ => wp_skip; repeat case_match; done
  end.

(** The parts of a future, step by step. *)
Ltac future_direct :=
  lazymatch goal with
  | |- future_within _ (online_future _ _) => future_known
  | |- future_within _ ?F =>
      let h := head_of F in
      unfold h, future_within; split_and!; intros; cbn [fut_body fut_captured fut_drop_output];
      within_solve
  end.

(** One call within a relation: [start] closes the operation it starts. *)
Ltac by_call_within start :=
  lazymatch goal with
  | |- within _ (endpoint_close_start _ _ _) => walk_within start
  | |- within _ (endpoint_await_online_start _ _ _) => walk_within start
  | |- within _ (connection_connect_start _ _ _ _ _ _) => walk_within start
  | |- within _ (connection_accept_start _ _ _ _ _ _) => walk_within start
  | |- within _ (connection_closed_start _ _ _) => walk_within start
  | |- within _ (stream_open_uni_start _ _ _ _) => walk_within start
  | |- within _ (stream_open_bi_start _ _ _ _) => walk_within start
  | |- within _ (stream_accept_uni_start _ _ _ _) => walk_within start
  | |- within _ (stream_accept_bi_start _ _ _ _) => walk_within start
  | |- within _ (stream_send_start _ _ _ _ _ _) => walk_within start
  | |- within _ (stream_send_iodata_start _ _ _ _ _ _) => walk_within start
  | |- within _ (stream_recv_start _ _ _ _) => walk_within start
  | |- within _ (datagram_send_start _ _ _ _ _) => walk_within start
  | |- within _ (datagram_recv_start _ _ _) => walk_within start
  | |- _ => by within_solve
  end.
