(* ===== verification/Invariants.v ===== *)
(** Every call keeps the invariant of every component. *)
From S2P Require Import Prelude Prog Std Extern State Operations Identity IdentityFile EndpointConfig.
From S2P Require Import Endpoint Connection Stream System.
From stdpp Require Import list options.
Local Open Scope Z_scope.
Local Open Scope prog_scope.

Section invariants.
Context `{net : NetApi}.

Lemma op_call call : op_wp (run_call call) fin gnil.
Proof.
  destruct call; cbn [run_call]; try apply wp_discard;
    lazymatch goal with
    | |- wp _ (operation_start _ _ _ _) _ _ => by apply op_wp_operation_start
    | |- wp _ (operation_cancel _) _ _ => by apply op_wp_cancel
    | |- wp _ (Operations.cancel _) _ _ => by apply op_wp_cancel
    | |- wp _ (endpoint_bind_start _ _ _ _) _ _ => by apply op_wp_endpoint_bind_start
    | |- _ => by_call ltac:(apply op_wp_start_endpoint_operation; [future_known|done])
    end.
Qed.

Lemma active_call call : active_wp (run_call call) fin gnil.
Proof.
  destruct call; cbn [run_call]; try apply wp_discard;
    lazymatch goal with
    | |- wp _ (operation_start _ _ _ _) _ _ => by apply active_wp_operation_start
    | |- wp _ (endpoint_bind_start _ _ _ _) _ _ => by apply active_wp_endpoint_bind_start
    | |- _ => by_call ltac:(apply active_wp_start_endpoint_operation; [future_known|done])
    end.
Qed.

Lemma op_final_call call : within op_final (run_call call).
Proof.
  destruct call; cbn [run_call]; unfold discard; try (apply within_bind; [|done]);
    by_call_within ltac:(apply op_final_start_endpoint_operation; future_known).
Qed.

Lemma ep_call call : ep_wp (run_call call) fin gnil.
Proof.
  destruct call; cbn [run_call]; try apply wp_discard;
    lazymatch goal with
    | |- wp _ (endpoint_bind_start _ _ _ _) _ _ => by apply ep_wp_endpoint_bind_start
    | |- wp _ (endpoint_close_start _ _ _) _ _ => by apply ep_wp_endpoint_close_start
    | |- wp _ (endpoint_abort _) _ _ => by apply ep_wp_abort
    | |- wp _ (Endpoint.abort _) _ _ => by apply ep_wp_abort
    | |- _ => by_call ltac:(apply wp_skip_step;
                [apply start_endpoint_operation_aside; [apply _|future_known]|done])
    end.
Qed.

Lemma conn_call call : conn_wp (run_call call) fin gnil.
Proof.
  destruct call; cbn [run_call]; try apply wp_discard;
    lazymatch goal with
    | |- wp _ (endpoint_bind_start _ _ _ _) _ _ => by apply conn_wp_endpoint_bind_start
    | |- wp _ (endpoint_close_start _ _ _) _ _ => by apply conn_wp_endpoint_close_start
    | |- wp _ (endpoint_await_online_start _ _ _) _ _ => by apply conn_wp_await_online_start
    | |- wp _ (connection_connect_start _ _ _ _ _ _) _ _ => by apply conn_wp_connect_start
    | |- wp _ (connection_accept_start _ _ _ _ _ _) _ _ => by apply conn_wp_accept_start
    | |- wp _ (connection_closed_start _ _ _) _ _ => by apply conn_wp_closed_start
    | |- wp _ (connection_close _) _ _ => by apply conn_wp_close
    | |- wp _ (Connection.close _) _ _ => by apply conn_wp_close
    | |- _ => by_call ltac:(apply wp_skip_step;
                [apply start_endpoint_operation_aside; [apply _|future_known]|done])
    end.
Qed.

Ltac st_future :=
  lazymatch goal with
  | |- future_wp _ _ (connect_future _ _ _ _ _) _ => apply st_connect_future
  | |- future_wp _ _ (accept_future _ _ _ _ _) _ => apply st_accept_future
  | |- future_wp _ _ (closed_future _ _) _ => apply st_closed_future
  | |- future_wp _ _ (close_future _) _ => apply st_close_future
  | |- future_wp _ _ (online_future _ _) _ => apply st_online_future
  end.

Lemma st_call call : st_wp (run_call call) fin gnil.
Proof.
  destruct call; cbn [run_call]; try apply wp_discard;
    lazymatch goal with
    | |- wp _ (endpoint_bind_start _ _ _ _) _ _ => wp_skip; done
    | |- wp _ (stream_send_start _ _ _ _ _ _) _ _ => by apply st_wp_start_stream_send
    | |- wp _ (stream_send_iodata_start _ _ _ _ _ _) _ _ =>
        unfold stream_send_iodata_start; repeat case_match; try done; by apply st_wp_start_stream_send
    | |- wp _ (stream_recv_start _ _ _ _) _ _ => by apply st_wp_stream_recv_start
    | |- wp _ (datagram_send_start _ _ _ _ _) _ _ => by apply st_wp_datagram_send_start
    | |- wp _ (datagram_recv_start _ _ _) _ _ => by apply st_wp_datagram_recv_start
    | |- wp _ (stream_open_uni_start ?a ?b ?c ?d) ?Q ?g => by destruct (st_wp_open_start a b c d Q g) as (?&?&?&?)
    | |- wp _ (stream_open_bi_start ?a ?b ?c ?d) ?Q ?g => by destruct (st_wp_open_start a b c d Q g) as (?&?&?&?)
    | |- wp _ (stream_accept_uni_start ?a ?b ?c ?d) ?Q ?g => by destruct (st_wp_open_start a b c d Q g) as (?&?&?&?)
    | |- wp _ (stream_accept_bi_start ?a ?b ?c ?d) ?Q ?g => by destruct (st_wp_open_start a b c d Q g) as (?&?&?&?)
    | |- wp _ (Stream.close _) _ _ => by apply st_wp_close
    | |- wp _ (stream_abort _ _) _ _ =>
        unfold stream_abort; case_match; [done|]; apply wp_bind; wp_skip; apply wp_bind; wp_skip;
        by apply st_wp_close
    | |- _ => by_call ltac:(apply st_wp_start_nil; [st_future|done])
    end.
Qed.

Lemma queue_call call : queue_wp (run_call call) fin gnil.
Proof.
  destruct call; cbn [run_call]; try apply wp_discard;
    lazymatch goal with
    | |- wp _ (stream_send_start _ _ _ _ _ _) _ _ => by apply queue_wp_start_stream_send
    | |- wp _ (stream_send_iodata_start _ _ _ _ _ _) _ _ =>
        unfold stream_send_iodata_start; repeat case_match; try done; by apply queue_wp_start_stream_send
    | |- wp _ (datagram_send_start _ _ _ _ _) _ _ => by apply queue_wp_datagram_send_start
    | |- _ => by_call ltac:(apply wp_skip_step;
                [apply start_endpoint_operation_aside; [apply _|future_direct]|done])
    end.
Qed.

Lemma file_call `{!SecretKeyLaws} (f0 : fs) call : file_wp f0 (run_call call) fin gnil.
Proof.
  destruct call; cbn [run_call]; try apply wp_discard;
    lazymatch goal with
    | |- wp _ (identity_load_or_create _) _ _ => by apply file_wp_load_or_create
    | |- _ => by_call ltac:(apply wp_skip_step;
                [apply start_endpoint_operation_aside; [apply _|future_direct]|done])
    end.
Qed.

End invariants.
