(* ===== verification/Lifecycle.v ===== *)
(** What never goes back: a resource keeps its identity for ever, a released
    resource and a closed stream half stay so, an endpoint that was taken out of
    its slot is not put back, and the peak of the queue only grows. *)
From S2P Require Import Prelude Prog Std Extern State Operations Identity IdentityFile EndpointConfig.
From S2P Require Import Endpoint Connection Stream System.
From stdpp Require Import list options.
Local Open Scope Z_scope.
Local Open Scope prog_scope.

Definition implb_le (a b : bool) : Prop := a = true → b = true.

Section lifecycle.
Context `{net : NetApi}.

Record endpoint_later (v v' : EndpointResource) : Prop := {
  el_id : ep_endpoint_id v' = ep_endpoint_id v;
  el_profile : ep_profile v' = ep_profile v;
  el_max : ep_max_connections v' = ep_max_connections v;
  el_max_accepts : ep_max_pending_accepts v' = ep_max_pending_accepts v;
  el_released : implb_le (ep_released v) (ep_released v');
  el_taken : content (ep_endpoint v) = None → content (ep_endpoint v') = None;
}.

Record connection_later (r r' : ConnectionResource) : Prop := {
  cl_connection : cr_connection r' = cr_connection r;
  cl_endpoint : cr_endpoint r' = cr_endpoint r;
  cl_remote_id : cr_remote_id r' = cr_remote_id r;
  cl_alpn : cr_alpn r' = cr_alpn r;
  cl_role : cr_role r' = cr_role r;
  cl_released : implb_le (cr_released r) (cr_released r');
}.

Record stream_later (r r' : StreamResource) : Prop := {
  sl_id : st_id r' = st_id r;
  sl_connection : st_connection r' = st_connection r;
  sl_released : implb_le (st_released r) (st_released r');
  sl_send_closed : implb_le (st_send_closed r) (st_send_closed r');
  sl_recv_closed : implb_le (st_recv_closed r) (st_recv_closed r');
}.

(** Every resource of [m] is in [m'], later. *)
Definition heap_later {V} (R : V → V → Prop) (m m' : gmap nat V) : Prop :=
  ∀ i v, m !! i = Some v → ∃ v', m' !! i = Some v' ∧ R v v'.

Record later (s s' : world) : Prop := {
  later_endpoints : heap_later endpoint_later (w_endpoints s) (w_endpoints s');
  later_connections : heap_later connection_later (w_connections s) (w_connections s');
  later_streams : heap_later stream_later (w_streams s) (w_streams s');
  later_peak : w_peak_queued_bytes s ≤ w_peak_queued_bytes s';
}.

#[export] Instance endpoint_later_pre : PreOrder endpoint_later.
Proof.
  split; [constructor; unfold implb_le; auto|]. intros x y z [] []. constructor; unfold implb_le in *; try congruence; auto.
Qed.
#[export] Instance connection_later_pre : PreOrder connection_later.
Proof.
  split; [constructor; unfold implb_le; auto|]. intros x y z [] []. constructor; unfold implb_le in *; try congruence; auto.
Qed.
#[export] Instance stream_later_pre : PreOrder stream_later.
Proof.
  split; [constructor; unfold implb_le; auto|]. intros x y z [] []. constructor; unfold implb_le in *; try congruence; auto.
Qed.

#[export] Instance heap_later_pre {V} (R : V → V → Prop) `{!PreOrder R} : PreOrder (heap_later R).
Proof.
  split.
  - intros m i v Hv. exists v. split; [done|reflexivity].
  - intros m1 m2 m3 H12 H23 i v Hv. destruct (H12 i v Hv) as (v2 & Hv2 & ?).
    destruct (H23 i v2 Hv2) as (v3 & Hv3 & ?). exists v3. split; [done|by etrans].
Qed.

#[export] Instance later_refl : Reflexive later.
Proof. intros s. constructor; reflexivity || lia. Qed.
#[export] Instance later_trans : Transitive later.
Proof. intros s1 s2 s3 [] []. constructor; [by etrans..|lia]. Qed.

Lemma heap_later_update {V} (R : V → V → Prop) `{!PreOrder R} (m : gmap nat V) i v v' :
  m !! i = Some v → R v v' → heap_later R m (<[i := v']> m).
Proof.
  intros Hi HR j w Hj. destruct (decide (j = i)) as [->|].
  - rewrite lookup_insert_eq. simplify_eq. eauto.
  - rewrite lookup_insert_ne by done. exists w. split; [done|reflexivity].
Qed.

Lemma heap_later_new {V} (R : V → V → Prop) `{!PreOrder R} (m : gmap nat V) v :
  heap_later R m (<[next_id m := v]> m).
Proof. intros i w Hi. exists w. split; [by apply lookup_insert_next|reflexivity]. Qed.

(** Close a step: which heap it touches, and how. *)
Ltac later_step :=
  constructor; simpl;
  first [ reflexivity | lia | apply heap_later_new; apply _
        | eapply heap_later_update; [apply _|eassumption|];
          constructor; unfold implb_le; simpl; first [done | congruence | tauto] ].

#[local] Hint Extern 3 (later _ _) => later_step : within.
#[local] Hint Extern 1 (within later (await_in _ _ (poll_ext _))) =>
  apply within_await_ext; intros; later_step : within.
#[local] Hint Extern 1 (within later (await _ (poll_ext _))) =>
  apply within_await_ext; intros; later_step : within.

Lemma later_select {R} tid st (f : ext → list (option R * ext)) :
  within later (select_reset tid st f) ∧ within later (select_stop tid st f).
Proof. split; (apply within_select; intros; later_step). Qed.

Lemma later_queue_guard n : within later (QueueGuard_new n).
Proof.
  apply within_bind; [by within_solve|]. intros current. apply within_bind; [by within_solve|].
  intros peak0. apply within_bind; [|by within_solve]. intros.
  apply within_looped. intros peak.
  destruct (Z.ltb_spec peak current); [|done]. apply within_bind; [|by within_solve].
  apply within_act. intros s r s' Hin. outcome; later_step.
Qed.

#[local] Hint Extern 1 (within later (select_reset _ _ _)) => apply later_select : within.
#[local] Hint Extern 1 (within later (select_stop _ _ _)) => apply later_select : within.
#[local] Hint Resolve later_queue_guard : within.

Lemma later_start caller ref name F :
  future_within later F → within later (start_endpoint_operation caller ref name F).
Proof. intros (? & ? & ?). within_solve. Qed.

Lemma later_online_future profile v : future_within later (online_future profile v).
Proof. apply online_future_within; intros; later_step. Qed.

Ltac later_future :=
  lazymatch goal with
  | |- future_within _ (online_future _ _) => apply later_online_future
  | _ => future_direct
  end.

Lemma later_call call : within later (run_call call).
Proof.
  destruct call; cbn [run_call]; unfold discard; try (apply within_bind; [|done]);
    by_call_within ltac:(apply later_start; later_future).
Qed.

End lifecycle.
