(* ===== verification/Safety.v ===== *)
(** What holds of the native layer whatever calls are made and however their
    steps interleave with the tasks they spawn and with the outside world. *)
From S2P Require Import Prelude Prog Std Extern State Operations Identity IdentityFile EndpointConfig.
From S2P Require Import Endpoint Connection Stream System Invariants Lifecycle.
From stdpp Require Import list options.
Local Open Scope Z_scope.

Section safety.
Context `{net : NetApi}.

(** ** The initial state *)

Lemma op_initial x f : op_inv (op_view (initial_world x f)) gnil.
Proof. intros o. simpl. rewrite lookup_empty. unfold sent. simpl. by rewrite multiplicity_empty. Qed.

Lemma active_initial x f : counter_inv (w_active_operations (initial_world x f)) gnil.
Proof. reflexivity. Qed.

Lemma ep_initial x f : ep_inv (ep_view (initial_world x f)) gnil.
Proof.
  split_and!; [done| |done]. intros id. simpl. rewrite fmap_empty, msum_empty. unfold tok. simpl.
  by rewrite multiplicity_empty.
Qed.

Lemma conn_initial x f : conn_inv (conn_view (initial_world x f)) gnil.
Proof.
  split; [|done]. intros e. simpl. rewrite !fmap_empty, lookup_empty, msum_empty. unfold tok. simpl.
  by rewrite !multiplicity_empty.
Qed.

Lemma stream_initial x f : stream_inv (stream_view (initial_world x f)) gnil.
Proof.
  split_and!; [| |done]; intros i; simpl; rewrite !fmap_empty, lookup_empty; unfold tok; simpl;
    by rewrite !multiplicity_empty.
Qed.

Lemma queue_initial x f : counter_inv (w_queued_bytes (initial_world x f)) gnil.
Proof. reflexivity. Qed.

(** ** Operations *)


(** C2: Once every thread has finished, each operation that completed has sent
    exactly one message: no completion is lost. *)
Theorem completed_means_sent x f calls ps s o r :
  reaches calls (initial_world x f) ps s → forallb finished ps = true →
  w_operations s !! o = Some r → op_state r = COMPLETED → sent o (w_mail s) = 1%nat.
Proof.
  intros Hr Hfin Ho Hc.
  assert (Hg := reaches_quiescent op_view op_inv (λ _ _, eq_refl) op_call _ _ _ _ (op_initial x f) Hr Hfin o).
  simpl in Hg. rewrite Ho in Hg. rewrite !multiplicity_empty in Hg.
  unfold op_consistent in Hg. rewrite Hc in Hg. unfold COMPLETED, RUNNING, CANCELLED in Hg. lia.
Qed.


(** C12: When every thread has finished no operation is counted as active. *)
Theorem active_operations_quiescent x f calls ps s :
  reaches calls (initial_world x f) ps s → forallb finished ps = true → w_active_operations s = 0.
Proof.
  intros Hr Hfin.
  exact (reaches_quiescent w_active_operations counter_inv (λ _ _, eq_refl) active_call _ _ _ _
           (active_initial x f) Hr Hfin).
Qed.

(** ** Endpoints *)

Definition unreleased_with (id : string) (v : EndpointResource) : bool :=
  bool_decide (ep_endpoint_id v = id) && negb (ep_released v).
Definition ep_open (v : EndpointResource) : bool := negb (ep_released v).

Lemma msum_holds id (m : gmap nat EndpointResource) :
  msum (holds id) (identity_of <$> m) = count (unreleased_with id) m.
Proof.
  apply msum_count. intros v. rewrite holds_identity. unfold unreleased_with, unreleased. simpl.
  case_decide; case_bool_decide; destruct (ep_released v); simpl; congruence.
Qed.

Lemma msum_unreleased (m : gmap nat EndpointResource) :
  msum unreleased (identity_of <$> m) = count ep_open m.
Proof. apply msum_count. intros v. unfold unreleased, ep_open. simpl. by destruct (ep_released v). Qed.

(** C4: Two endpoint resources that are not released never share an identity, and
    the identity of each is in the registry. *)
Theorem identities_exclusive x f calls ps s e1 e2 v1 v2 :
  reaches calls (initial_world x f) ps s →
  w_endpoints s !! e1 = Some v1 → w_endpoints s !! e2 = Some v2 →
  ep_released v1 = false → ep_released v2 = false →
  ep_endpoint_id v1 ∈ content (w_identities s) ∧
  (ep_endpoint_id v1 = ep_endpoint_id v2 → e1 = e2).
Proof.
  intros Hr H1 H2 R1 R2.
  destruct (reaches_invariant ep_view ep_inv (λ _ _, eq_refl) ep_call _ _ _ _ (ep_initial x f) Hr)
    as [g (_ & Hid & _)].
  specialize (Hid (ep_endpoint_id v1)). simpl in Hid.
  assert (Hn : ∀ i v, (identity_of <$> w_endpoints s) !! i = Some v → 0 ≤ holds (ep_endpoint_id v1) v)
    by (intros; apply holds_nonneg).
  assert (Ht := tok_nonneg (TId (ep_endpoint_id v1)) g).
  assert (L : ∀ e v, w_endpoints s !! e = Some v → (identity_of <$> w_endpoints s) !! e = Some (identity_of v)).
  { intros e v He. rewrite lookup_fmap. by rewrite He. }
  assert (E1 : holds (ep_endpoint_id v1) (identity_of v1) = 1).
  { rewrite holds_identity, decide_True by done. unfold unreleased. simpl. by rewrite R1. }
  split.
  - pose proof (msum_lookup_le _ _ e1 _ Hn (L _ _ H1)). case_bool_decide; [done|lia].
  - intros E. destruct (decide (e1 = e2)) as [|Hne]; [done|].
    pose proof (msum_lookup_le2 _ _ e1 e2 _ _ Hn Hne (L _ _ H1) (L _ _ H2)).
    assert (holds (ep_endpoint_id v1) (identity_of v2) = 1).
    { rewrite holds_identity, decide_True by done. unfold unreleased. simpl. by rewrite R2. }
    case_bool_decide; lia.
Qed.

(** C8: When every thread has finished, the registry holds exactly the identities of
    the endpoints that are not released, and the count of active endpoints is
    their number: a failed or cancelled bind leaks neither. *)
Theorem endpoints_quiescent x f calls ps s :
  reaches calls (initial_world x f) ps s → forallb finished ps = true →
  (∀ id, id ∈ content (w_identities s) ↔
     ∃ e v, w_endpoints s !! e = Some v ∧ ep_released v = false ∧ ep_endpoint_id v = id) ∧
  w_active_endpoints s = wrap64 (count ep_open (w_endpoints s)).
Proof.
  intros Hr Hfin.
  destruct (reaches_quiescent ep_view ep_inv (λ _ _, eq_refl) ep_call _ _ _ _ (ep_initial x f) Hr Hfin)
    as (_ & Hid & Hn).
  simpl in Hid, Hn. rewrite msum_unreleased in Hn. unfold tok in Hn. rewrite multiplicity_empty in Hn.
  split; [|by rewrite Hn, Z.add_0_r].
  intros id. specialize (Hid id). rewrite msum_holds in Hid. unfold tok in Hid.
  rewrite multiplicity_empty in Hid. unfold count in Hid.
  assert (Hsize : (∃ e v, w_endpoints s !! e = Some v ∧ ep_released v = false ∧ ep_endpoint_id v = id) ↔
    filter (λ kv : nat * EndpointResource, unreleased_with id kv.2 = true) (w_endpoints s) ≠ ∅).
  { split.
    - intros (e & v & He & Hrel & Heid) Hempty.
      apply (map_empty_filter_1 _ _ Hempty e v He). simpl. unfold unreleased_with.
      rewrite bool_decide_true by done. by rewrite Hrel.
    - intros Hne. apply map_choose in Hne as (e & v & [He HP]%map_lookup_filter_Some).
      unfold unreleased_with in HP. simpl in HP. apply andb_prop in HP as [HP1 HP2].
      apply bool_decide_eq_true in HP1. exists e, v. split_and!; [done| |done].
      by destruct (ep_released v). }
  rewrite Hsize, <-map_size_non_empty_iff. case_bool_decide; split; intros; try done; lia.
Qed.

(** ** Connections *)

Definition open_connection (e : nat) (r : ConnectionResource) : bool :=
  bool_decide (cr_endpoint r = e) && negb (cr_released r).
Definition conn_open (r : ConnectionResource) : bool := negb (cr_released r).

Lemma msum_open_on e (m : gmap nat ConnectionResource) :
  msum (open_on e) (owned_by <$> m) = count (open_connection e) m.
Proof.
  apply msum_count. intros r. rewrite open_on_owned. unfold open_connection, is_open. simpl.
  case_decide; case_bool_decide; destruct (cr_released r); simpl; congruence.
Qed.

Lemma msum_is_open (m : gmap nat ConnectionResource) : msum is_open (owned_by <$> m) = count conn_open m.
Proof. apply msum_count. intros r. unfold is_open, conn_open. simpl. by destruct (cr_released r). Qed.

(** C5: An endpoint never has more open connections than [max_connections], nor
    more pending accepts than [max_pending_accepts], whatever connects and
    accepts run at once. *)
Theorem connection_limits x f calls ps s e v :
  reaches calls (initial_world x f) ps s → w_endpoints s !! e = Some v →
  count (open_connection e) (w_connections s) ≤ ep_active_connections v ≤ Z.max 0 (ep_max_connections v) ∧
  0 ≤ ep_pending_accepts v ≤ Z.max 0 (ep_max_pending_accepts v).
Proof.
  intros Hr He.
  destruct (reaches_invariant conn_view conn_inv (λ _ _, eq_refl) conn_call _ _ _ _ (conn_initial x f) Hr)
    as [g [Hl _]].
  specialize (Hl e). simpl in Hl. rewrite lookup_fmap, He in Hl. simpl in Hl. rewrite msum_open_on in Hl.
  pose proof (tok_nonneg (TSlot e) g). pose proof (tok_nonneg (TPermit e) g). lia.
Qed.

(** C9: When every thread has finished, the counter of an endpoint is the number
    of its open connections, no accept is pending, and [ACTIVE_CONNECTIONS] is
    the number of open connections: no slot or permit leaks on any path. *)
Theorem connections_quiescent x f calls ps s :
  reaches calls (initial_world x f) ps s → forallb finished ps = true →
  (∀ e v, w_endpoints s !! e = Some v →
     ep_active_connections v = count (open_connection e) (w_connections s) ∧ ep_pending_accepts v = 0) ∧
  w_active_connections s = wrap64 (count conn_open (w_connections s)).
Proof.
  intros Hr Hfin.
  destruct (reaches_quiescent conn_view conn_inv (λ _ _, eq_refl) conn_call _ _ _ _ (conn_initial x f) Hr Hfin)
    as [Hl Hn].
  simpl in Hn. rewrite msum_is_open in Hn. unfold tok in Hn. rewrite multiplicity_empty in Hn. split.
  - intros e v He. specialize (Hl e). simpl in Hl. rewrite lookup_fmap, He in Hl. simpl in Hl.
    rewrite msum_open_on in Hl. unfold tok in Hl. rewrite !multiplicity_empty in Hl. lia.
  - by rewrite Hn, Z.add_0_r.
Qed.

(** ** Streams and datagrams *)

Definition stream_open (r : StreamResource) : bool := negb (st_released r).

(** C10: When every thread has finished, no half of a stream and no datagram
    direction of a connection is left busy, and [ACTIVE_STREAMS] is the number
    of streams that are not released: every lease and permit was returned. *)
Theorem streams_quiescent x f calls ps s :
  reaches calls (initial_world x f) ps s → forallb finished ps = true →
  (∀ st r, w_streams s !! st = Some r → st_send_busy r = false ∧ st_recv_busy r = false) ∧
  (∀ c r, w_connections s !! c = Some r →
     cr_datagram_send_busy r = false ∧ cr_datagram_recv_busy r = false) ∧
  w_active_streams s = wrap64 (count stream_open (w_streams s)).
Proof.
  intros Hr Hfin.
  destruct (reaches_quiescent stream_view stream_inv (λ _ _, eq_refl) st_call _ _ _ _ (stream_initial x f) Hr Hfin)
    as (Hs & Hc & Hn).
  simpl in Hn. rewrite (msum_count _ _ stream_open) in Hn;
    [|intros r; unfold live, stream_open; simpl; by destruct (st_released r)].
  unfold tok in Hn. rewrite multiplicity_empty in Hn. split_and!.
  - intros st r Hst. specialize (Hs st). simpl in Hs. rewrite lookup_fmap, Hst in Hs. simpl in Hs.
    unfold tok in Hs. rewrite !multiplicity_empty in Hs.
    destruct (st_send_busy r), (st_recv_busy r); simpl in Hs; lia || done.
  - intros c r Hst. specialize (Hc c). simpl in Hc. rewrite lookup_fmap, Hst in Hc. simpl in Hc.
    unfold tok in Hc. rewrite !multiplicity_empty in Hc.
    destruct (cr_datagram_send_busy r), (cr_datagram_recv_busy r); simpl in Hc; lia || done.
  - by rewrite Hn, Z.add_0_r.
Qed.

(** C11: When every thread has finished the queue accounts for no byte: each send
    and datagram gives back what it queued, also when it fails, is cancelled or
    panics. *)
Theorem queued_bytes_quiescent x f calls ps s :
  reaches calls (initial_world x f) ps s → forallb finished ps = true → w_queued_bytes s = 0.
Proof.
  intros Hr Hfin.
  exact (reaches_quiescent w_queued_bytes counter_inv (λ _ _, eq_refl) queue_call _ _ _ _
           (queue_initial x f) Hr Hfin).
Qed.

(** ** Lifecycles *)


(** ** Identity files *)

(** C7: Whatever calls race on the directory and whatever system calls fail, a file
    under a name that is not temporary is either one that was there before, with
    its old content, or a complete 32-byte key; no old file is ever changed. *)
Theorem identity_files_complete `{!SecretKeyLaws} x f calls ps s p :
  fs_wf f → ¬ is_temp p → reaches calls (initial_world x f) ps s →
  (∀ b, fs_file f p = Some b → fs_file (w_fs s) p = Some b) ∧
  (∀ b, fs_file (w_fs s) p = Some b → fs_file f p = Some b ∨ blen b = KEY_SIZE).
Proof.
  intros Hwf Hp Hr.
  destruct (reaches_invariant w_fs (file_inv f) (λ _ _, eq_refl) (file_call f) calls
              (initial_world x f) ps s (file_inv_initial f Hwf) Hr) as [g Hg].
  split; intros b Hb; [by eapply file_inv_old|by eapply file_inv_file].
Qed.

End safety.
