(* ===== verification/EndpointSpec.v ===== *)
(** What binding, aborting and reporting on an endpoint compute, run alone. *)
From S2P Require Import Prelude Prog Std Extern State Operations Identity EndpointConfig Endpoint.
From S2P Require Import Connection.
From stdpp Require Import list options.
Local Open Scope Z_scope.
Local Open Scope prog_scope.

Section endpoint_spec.
Context `{net : NetApi}.

Lemma eval_get_endpoint {R} n e (f : EndpointResource → R) s v :
  w_endpoints s !! e = Some v → eval n (get_endpoint e f) s = Some (f v, s, []).
Proof. intros Hv. apply eval_atomic_opt. by rewrite Hv. Qed.

(** The world after [abort] of an endpoint [v] that nobody had released. *)
Definition aborted_world (s : world) (e : nat) (v : EndpointResource) : world :=
  set_w_active_endpoints (wrap64 (w_active_endpoints s - 1))
    (set_w_identities (Mutex false (content (w_identities s) ∖ {[ep_endpoint_id v]}))
      (set_w_endpoints
        (<[e := set_ep_released true (set_ep_endpoint (Mutex false None) v)]> (w_endpoints s)) s)).

(** C29: The first [endpoint_abort] takes the endpoint out of its slot, removes its
    identity from the registry and its unit from the count, and says whether the
    slot was full; the identity can be reserved again at once; a second abort says
    [false] and changes nothing. *)
Theorem endpoint_abort_spec n e s v :
  w_endpoints s !! e = Some v → ep_released v = false →
  poisoned (ep_endpoint v) = false → poisoned (w_identities s) = false →
  let s' := aborted_world s e v in
  eval n (endpoint_abort e) s =
    Some (match content (ep_endpoint v) with Some _ => true | None => false end, s', []) ∧
  (∃ s'', eval n (reserve_identity (ep_endpoint_id v)) s' = Some (Ok tt, s'', [])) ∧
  eval n (endpoint_abort e) s' = Some (false, s', []).
Proof.
  intros Hv Hrel Hp Hi s'.
  assert (Ha : ∀ s v, w_endpoints s !! e = Some v → poisoned (ep_endpoint v) = false →
    eval n (endpoint_abort e) s =
      and_then (eval n (release_identity e)
                  (set_w_endpoints (<[e := set_ep_endpoint (Mutex false None) v]> (w_endpoints s)) s))
        (λ _, eval n (Ret (match content (ep_endpoint v) with Some _ => true | None => false end)))).
  { clear. intros s v Hv Hp. unfold endpoint_abort, abort, take_endpoint.
    rewrite eval_bind, (eval_on_endpoint _ _ _ _ _ Hv), Hp, and_then_nil. cbn [fst snd].
    by rewrite eval_bind. }
  split_and!.
  - rewrite (Ha _ _ Hv Hp). unfold release_identity, swap_released.
    rewrite eval_bind, (eval_on_endpoint _ _ _ _ (set_ep_endpoint (Mutex false None) v)), and_then_nil
      by apply lookup_insert_eq.
    simpl. rewrite Hrel. simpl. rewrite Hi. simpl. by rewrite insert_insert_eq.
  - eexists. unfold reserve_identity. rewrite eval_atomic. simpl.
    rewrite bool_decide_false by set_solver. reflexivity.
  - rewrite (Ha _ (set_ep_released true (set_ep_endpoint (Mutex false None) v)));
      [|apply lookup_insert_eq|done].
    unfold release_identity, swap_released.
    rewrite eval_bind, (eval_on_endpoint _ _ _ _ (set_ep_released true (set_ep_endpoint (Mutex false None) v))),
      and_then_nil by apply lookup_insert_eq.
    simpl. unfold s', aborted_world. simpl. by rewrite !insert_insert_eq.
Qed.

(** The state after [runtime()] when building it answers [built]. *)
Definition runtime_world (built : bool) (x : ext) (s : world) : world :=
  set_w_runtime (Some built) (set_w_ext x s).

(** [runtime()] either finds the runtime or builds it, once. *)
Lemma eval_runtime n s built s' :
  match w_runtime s with
  | Some b => built = b ∧ s' = s
  | None => built = (runtime_build (w_ext s)).1 ∧
            s' = runtime_world built (runtime_build (w_ext s)).2 s
  end →
  eval n runtime s =
    Some (if built then Ok tt
          else Err (native_error atoms.internal atoms.native_smoke "managed native runtime could not be started"),
          s', []).
Proof.
  intros Hb. unfold runtime, runtime_get_or_init. rewrite eval_bind, eval_atomic.
  destruct (w_runtime s) as [b|]; destruct Hb as [-> ->].
  - rewrite and_then_nil. by destruct b.
  - destruct (runtime_build (w_ext s)) as [b x]. rewrite and_then_nil. by destruct b.
Qed.

(** C30: Apart from building the runtime on the first call, [endpoint_bind_start]
    refuses without any effect: a runtime that does not start as [internal], bad
    limits as [invalid_argument], a bad configuration with its own error, and an
    identity that is already active as [duplicate_identity], in this order (the
    registry not poisoned), before anything is allocated, spawned or reserved. *)
Theorem bind_refused_early n caller ref key o s built s' :
  poisoned (w_identities s) = false →
  match w_runtime s with
  | Some b => built = b ∧ s' = s
  | None => built = (runtime_build (w_ext s)).1 ∧
            s' = set_w_runtime (Some built) (set_w_ext (runtime_build (w_ext s)).2 s)
  end →
  let bind := eval n (endpoint_bind_start caller ref key o) s in
  let config := parse_config (o_profile o) (o_alpns o) (o_bind_addrs o) (o_relays o) (o_direct_ip o) in
  let refused cat op msg := bind = Some (Err (NativeErr cat op msg ∅), s', []) in
  (built = false → refused "internal" "native_smoke" "managed native runtime could not be started") ∧
  (built = true → limits_invalid o = true →
     refused "invalid_argument" "endpoint_bind" "endpoint limits are outside the supported range") ∧
  (built = true → limits_invalid o = false → ∀ error, config = Err error →
     bind = Some (Err error, s', [])) ∧
  (built = true → limits_invalid o = false → is_ok config = true →
     id_to_string (secret_public key) ∈ content (w_identities s) →
     refused "duplicate_identity" "endpoint_bind" "endpoint identity is already active in this VM").
Proof.
  intros Hp Hb bind config refused.
  assert (Hids : w_identities s' = w_identities s) by (destruct (w_runtime s); destruct Hb as [_ ->]; done).
  unfold refused, bind, endpoint_bind_start. rewrite eval_bind, (eval_runtime n s built s') by exact Hb.
  rewrite and_then_nil. fold config. split_and!.
  - by intros ->.
  - by intros -> ->.
  - by intros -> -> error ->.
  - intros -> -> Hok Hin. destruct config as [c|]; [|done]. rewrite eval_bind.
    unfold reserve_identity. rewrite eval_atomic, Hids, Hp, bool_decide_true by done. by rewrite and_then_nil.
Qed.

(** C31: [endpoint_info] never fails; for an endpoint that was taken it reports a
    closed, offline endpoint without addresses, and for an open one its addresses,
    and as online a connected home relay, or not being closed without relays. *)
Theorem endpoint_info_spec n e s v :
  w_endpoints s !! e = Some v → poisoned (ep_endpoint v) = false →
  ∃ info, eval n (endpoint_info e) s = Some (Ok info, s, []) ∧
    ei_endpoint_id info = ep_endpoint_id v ∧ ei_profile info = ProfileKind.atom (ep_profile v) ∧
    match content (ep_endpoint v) with
    | None => ei_closed info = true ∧ ei_online info = false ∧ ei_relay_urls info = [] ∧
              ei_ip_addrs info = [] ∧ ei_bound_sockets info = []
    | Some ep =>
        ei_closed info = endpoint_is_closed ep (w_ext s) ∧
        ei_relay_urls info = url_to_string <$> addr_relay_urls (endpoint_addr ep (w_ext s)) ∧
        ei_ip_addrs info = socket_addr_to_string <$> addr_ip_addrs (endpoint_addr ep (w_ext s)) ∧
        (ei_online info = true ↔
           if ProfileKind.relay_enabled (ep_profile v)
           then true ∈ endpoint_home_relay_connected ep (w_ext s)
           else endpoint_is_closed ep (w_ext s) = false)
    end.
Proof.
  intros Hv Hp. unfold endpoint_info, endpoint_info_value, endpoint, locked.
  rewrite !eval_bind, !(eval_get_endpoint _ _ _ _ _ Hv), !and_then_nil.
  rewrite !eval_bind, !(eval_get_endpoint _ _ _ _ _ Hv), !and_then_nil.
  rewrite !eval_bind, !(eval_get_endpoint _ _ _ _ _ Hv), !and_then_nil.
  rewrite !eval_bind, !(eval_get_endpoint _ _ _ _ _ Hv), !and_then_nil, Hp.
  destruct (content (ep_endpoint v)) as [ep|].
  - destruct (ProfileKind.relay_enabled (ep_profile v)); simpl; eexists; (split; [reflexivity|]); simpl;
      split_and!; try done.
    + rewrite existsb_exists. split.
      * intros (b & Hin & Hb). destruct b; [|done]. by apply list_elem_of_In.
      * intros Hin. exists true. split; [by apply list_elem_of_In|done].
    + rewrite negb_true_iff. done.
  - simpl. eexists. split; [reflexivity|]. by split_and!.
Qed.

End endpoint_spec.
