(* ===== verification/Loopback.v ===== *)
(** A concrete outside world: pure functions for keys, addresses and tickets that
    satisfy [AddrLaws] and [SecretKeyLaws], and an obliging network whose state is
    the log of what was done to it; only the stream numbered [STALLED] never
    accepts or delivers a byte.  The closed instances of the theorems are
    evaluated in it. *)
From Stdlib Require Import Ascii String.
From S2P Require Import Prelude Prog Std Extern State Identity.
From stdpp Require Import gmap strings list options.
Local Open Scope Z_scope.

(** ** Text of a countable value *)

Fixpoint bits (p : positive) : string :=
  match p with
  | xH => EmptyString
  | xO p => String "0"%char (bits p)
  | xI p => String "1"%char (bits p)
  end.

Fixpoint parse_bits (s : string) : option positive :=
  match s with
  | EmptyString => Some xH
  | String c s => p ← parse_bits s; if Ascii.eqb c "0"%char then Some (xO p) else Some (xI p)
  end.

Lemma parse_bits_bits p : parse_bits (bits p) = Some p.
Proof. induction p as [p IH|p IH|]; simpl; rewrite ?IH; done. Qed.

#[export] Instance SocketAddr_countable : Countable SocketAddr.
Proof.
  refine (inj_countable'
    (λ a, match a with V4 o p => inl (o, p) | V6 l p sc => inr (l, p, sc) end)
    (λ x, match x with inl (o, p) => V4 o p | inr (l, p, sc) => V6 l p sc end) _).
  by intros [].
Defined.

#[export] Instance transport_addr_eq_dec {U} `{EqDecision U} : EqDecision (transport_addr U).
Proof. solve_decision. Defined.
#[export] Instance transport_addr_countable {U} `{Countable U} : Countable (transport_addr U).
Proof.
  refine (inj_countable'
    (λ a, match a with Relay u => inl (inl u) | Ip a => inl (inr a) | OtherAddr t => inr t end)
    (λ x, match x with inl (inl u) => Relay u | inl (inr a) => Ip a | inr t => OtherAddr t end) _).
  by intros [].
Defined.

(** ** Keys, addresses, tickets *)

Definition key : Type := dsig (λ b : bytes, blen b = KEY_SIZE).

Definition zero_key : key := dexist (replicate 32 "000"%char) eq_refl.

Definition key_of_bytes (b : bytes) : key :=
  match decide (blen b = KEY_SIZE) with left p => dexist b p | right _ => zero_key end.

Definition loop_addr : Type := bytes * list (transport_addr string).

Definition loop_id (b : bytes) : option bytes := if blen b =? KEY_SIZE then Some b else None.

Definition loop_ticket (s : string) : option loop_addr := parse_bits s ≫= decode.

#[export] Instance loopback_identity : IdentityApi := {|
  SecretKey := key;
  EndpointId := bytes;
  RelayUrl := string;
  EndpointAddr := loop_addr;
  EndpointTicket := loop_addr;
  RelayMap := gmap string (option string);
  relay_map_from_iter l := list_to_map (reverse l);
  secret_from_bytes := key_of_bytes;
  secret_to_bytes := proj1_sig;
  secret_public := proj1_sig;
  id_from_bytes_ext := Some;
  id_as_bytes b := b;
  id_from_str s := loop_id (as_bytes s);
  id_to_string := of_bytes;
  url_from_str s := if String.prefix "https://" s then Some s else None;
  url_to_string s := s;
  url_scheme _ := "https"%string;
  url_host_str s := Some s;
  url_username _ := EmptyString;
  url_password _ := None;
  url_query _ := None;
  url_fragment _ := None;
  addr_from_parts id l := (id, l);
  addr_id := fst;
  addr_relay_urls a := omap (λ t, match t with Relay u => Some u | _ => None end) a.2;
  addr_ip_addrs a := omap (λ t, match t with Ip a => Some a | _ => None end) a.2;
  addr_is_empty a := match a.2 with [] => true | _ => false end;
  ticket_new a := a;
  ticket_endpoint_addr t := t;
  ticket_to_string t := bits (encode t);
  ticket_from_str := loop_ticket;
  ticket_encode_bytes t := as_bytes (bits (encode t));
  ticket_decode_bytes b := loop_ticket (of_bytes b);
|}.

(** ** The network *)

(** What was done, in order: the name of the call and the bytes it carried. *)
Definition event_log : Type := list (string * bytes).

Definition logged {A} (a : A) (name : string) (b : bytes) (x : event_log) : list (option A * event_log) :=
  [(Some a, x ++ [(name, b)])].

Definition STALLED : Z := 9.

#[export] Instance loopback : NetApi := {|
  ext := event_log;
  Endpoint := unit;
  IncomingConn := unit;
  Accepting := unit;
  Connection := bytes;
  SendStream := Z;
  RecvStream := Z;
  VarInt := Z;
  runtime_build x := (true, x);
  beam_monitor _ x := (true, x);
  beam_demonitor _ x := x;
  beam_send _ x := (true, x);
  sleep_ext _ x := [x];
  binary_alloc _ _ := true;
  binary_from_iolist t := Some (replicate t "a"%char);
  os_fault x := (false, x);
  os_written _ := 0%nat;
  os_pid := "42"%string;
  secret_generate x := (Some (key_of_bytes (replicate 32 "k"%char)), x);
  builder_bind_addr _ a := is_ipv4 a;
  builder_bind _ := logged (Some tt) "bind" [];
  endpoint_close_ext _ := logged tt "endpoint close" [];
  endpoint_online_ext _ x := [(Some tt, x)];
  endpoint_closed_ext _ _ := [];
  endpoint_is_closed _ _ := false;
  endpoint_addr _ _ := (replicate 32 "k"%char, [Ip (V4 (127, 0, 0, 1) 4433)]);
  endpoint_home_relay_connected _ _ := [true];
  endpoint_bound_sockets _ _ := [V4 (127, 0, 0, 1) 4433];
  endpoint_connect _ a _ := logged (Some (addr_id a)) "connect" (addr_id a);
  endpoint_accept _ := logged (Some tt) "accept" [];
  incoming_accept _ x := (Some tt, x);
  accepting_await _ x := [(Some (Some (replicate 32 "p"%char)), x)];
  conn_remote_id c := c;
  conn_alpn _ := as_bytes "app/1";
  conn_side_is_client _ := true;
  conn_stable_id _ := 7;
  conn_close_ext c x := x ++ [("close"%string, c)];
  conn_closed_ext _ x := [(Some tt, x)];
  conn_close_reason _ _ := None;
  conn_paths _ _ := [];
  conn_open_uni _ := logged (Some 2) "open uni" [];
  conn_open_bi _ := logged (Some (0, 0)) "open bi" [];
  conn_accept_uni _ := logged (Some 3) "accept uni" [];
  conn_accept_bi _ := logged (Some (1, 1)) "accept bi" [];
  send_id st := st;
  recv_id st := st;
  varint_from_u64 c := if c <=? MAX_ABORT_CODE then Some c else None;
  send_write_all st b x := if st =? STALLED then [] else logged (Some tt) "write" b x;
  send_write st b x := if st =? STALLED then [] else logged (Some (blen b)) "write" b x;
  send_finish _ x := (true, x ++ [("finish"%string, [])]);
  send_reset _ code x := x ++ [("reset"%string, as_bytes (Display.dec code))];
  recv_read_chunk st n x := if st =? STALLED then []
    else logged (Some (Some (replicate (Z.to_nat n) "r"%char))) "read" [] x;
  recv_stop _ code x := x ++ [("stop"%string, as_bytes (Display.dec code))];
  conn_max_datagram_size _ _ := Some 1200;
  conn_datagram_space _ _ := 65536;
  conn_send_datagram _ b x := (true, x ++ [("datagram"%string, b)]);
  conn_send_datagram_wait _ b := logged (Some tt) "datagram" b;
  conn_read_datagram _ := logged (Some (as_bytes "hi")) "read datagram" [];
|}.

Lemma in_omap {A B} (f : A → option B) (l : list A) b : In b (omap f l) ↔ ∃ a, In a l ∧ f a = Some b.
Proof.
  rewrite <-list_elem_of_In, list_elem_of_omap. split; intros (a & Ha & Hf); exists a;
    (split; [|done]); by apply list_elem_of_In.
Qed.

#[export] Instance loopback_addr_laws : AddrLaws.
Proof.
  constructor. intros id l u. simpl. rewrite in_omap. split; [|intros; by exists (Relay u)].
  by intros ([] & ? & [= ->]).
Qed.

#[export] Instance loopback_key_laws : SecretKeyLaws.
Proof.
  constructor.
  - intros b Hb. simpl. unfold key_of_bytes. destruct (decide (blen b = KEY_SIZE)); [done|by destruct n].
  - intros k. simpl. unfold key_of_bytes. destruct (decide _) as [|n].
    + by apply dsig_eq.
    + destruct n. exact (proj2_dsig k).
  - intros k. exact (proj2_dsig k).
Qed.

Definition empty_fs : fs := Fs ∅ ∅ 0.
Definition quiet : ext := [] : event_log.
Definition start : world := initial_world quiet empty_fs.
