(* ===== verification/StreamSpec.v ===== *)
(** What the operations of stream.rs do: leases, sending in chunks, the queue
    accounting, resets and aborts.  Most theorems run one operation alone. *)
From S2P Require Import Prelude Prog Std Extern State Operations Identity EndpointConfig Endpoint.
From S2P Require Import Connection Stream System Invariants Safety.
From stdpp Require Import list options.
Local Open Scope Z_scope.
Local Open Scope prog_scope.

Section stream_spec.
Context `{net : NetApi}.

(** ** Steps on one stream *)

Definition with_stream (st : nat) (r : StreamResource) (s : world) : world :=
  set_w_streams (<[st := r]> (w_streams s)) s.

Lemma with_stream_lookup st r s : w_streams (with_stream st r s) !! st = Some r.
Proof. apply lookup_insert_eq. Qed.

Lemma with_stream_twice st r r' s : with_stream st r' (with_stream st r s) = with_stream st r' s.
Proof. unfold with_stream, set_w_streams. simpl. by rewrite insert_insert_eq. Qed.

Lemma with_stream_same st r s : w_streams s !! st = Some r → with_stream st r s = s.
Proof. intros Hr. unfold with_stream. rewrite insert_id by done. by destruct s. Qed.

Lemma with_stream_ext st r x s : with_stream st r (set_w_ext x s) = set_w_ext x (with_stream st r s).
Proof. done. Qed.

Lemma set_w_ext_same s : set_w_ext (w_ext s) s = s.
Proof. by destruct s. Qed.

Lemma eval_on_stream {R} n st (f : StreamResource → R * StreamResource) s r :
  w_streams s !! st = Some r →
  eval n (on_stream st f) s = Some ((f r).1, with_stream st (f r).2 s, []).
Proof. intros Hr. apply eval_atomic_opt. by rewrite Hr. Qed.

Lemma eval_get_stream {R} n st (f : StreamResource → R) s r :
  w_streams s !! st = Some r → eval n (get_stream st f) s = Some (f r, s, []).
Proof. intros Hr. apply eval_atomic_opt. by rewrite Hr. Qed.

Lemma eval_on_stream_ext {R} n st (f : StreamResource → ext → R * StreamResource * ext) s r :
  w_streams s !! st = Some r →
  eval n (on_stream_ext st f) s =
    Some ((f r (w_ext s)).1.1, set_w_ext (f r (w_ext s)).2 (with_stream st (f r (w_ext s)).1.2 s), []).
Proof.
  intros Hr. apply eval_atomic_opt. rewrite Hr. by destruct (f r (w_ext s)) as [[? ?] ?].
Qed.

(** ** Leases *)

(** The stream while its send half is leased. *)
Definition send_leased (r : StreamResource) : StreamResource :=
  set_st_send (Mutex false None) (set_st_send_busy true r).

Lemma eval_take_send n st op s r :
  w_streams s !! st = Some r → poisoned (st_send r) = false →
  eval n (take_send st op) s =
    Some (if st_send_closed r then (Err (stream_error op atoms.closed "send half is closed"), s, [])
          else if st_send_busy r then (Err (stream_error op atoms.busy "send half is busy"), s, [])
          else match content (st_send r) with
               | Some stream => (Ok {| sl_resource := st; sl_stream := Some stream |},
                                 with_stream st (send_leased r) s, [])
               | None => (Err (stream_error op atoms.closed "send half is unavailable"), s, [])
               end).
Proof.
  intros Hr Hp. unfold take_send. rewrite eval_bind, (eval_get_stream _ _ _ _ _ Hr), and_then_nil.
  destruct (st_send_closed r); [done|]. unfold claim_send_busy.
  rewrite eval_bind, (eval_on_stream _ _ _ _ _ Hr), and_then_nil.
  destruct (st_send_busy r) eqn:Hb; cbn [negb fst snd].
  { by rewrite (with_stream_same _ _ _ Hr). }
  unfold take_send_slot. rewrite eval_bind, (eval_on_stream _ _ _ _ _ (with_stream_lookup _ _ _)), and_then_nil.
  cbn [fst snd st_send set_st_send_busy]. rewrite Hp. cbn [fst snd]. rewrite with_stream_twice.
  destruct (content (st_send r)) eqn:Hc; [done|]. unfold set_send_busy.
  rewrite (eval_bind n (on_stream _ _)), (eval_on_stream _ _ _ _ _ (with_stream_lookup _ _ _)), and_then_nil.
  cbn [snd]. rewrite with_stream_twice.
  assert (set_st_send_busy false (set_st_send (Mutex false None) (set_st_send_busy true r)) = r) as ->.
  { destruct r as [[] ? ? ? ? ? ? ? ? ? ? ? ?]. simpl in *. by subst. }
  by rewrite (with_stream_same _ _ _ Hr).
Qed.

(** While the busy flag is set nobody else gets the half, whatever its slot holds. *)
Lemma eval_take_send_busy n st op s r :
  w_streams s !! st = Some r → st_send_busy r = true →
  eval n (take_send st op) s =
    Some (Err (if st_send_closed r then stream_error op atoms.closed "send half is closed"
               else stream_error op atoms.busy "send half is busy"), s, []).
Proof.
  intros Hr Hb. unfold take_send. rewrite eval_bind, (eval_get_stream _ _ _ _ _ Hr), and_then_nil.
  destruct (st_send_closed r); [done|]. unfold claim_send_busy.
  rewrite eval_bind, (eval_on_stream _ _ _ _ _ Hr), and_then_nil, Hb. cbn [negb fst snd].
  by rewrite (with_stream_same _ _ _ Hr).
Qed.

Lemma eval_stream_finish_busy n st s r :
  w_streams s !! st = Some r → st_send_busy r = true →
  eval n (stream_finish st) s =
    Some (Err (stream_error atoms.stream_finish atoms.busy "send half is busy"), s, []).
Proof.
  intros Hr Hb. unfold stream_finish.
  by rewrite eval_bind, (eval_get_stream _ _ _ _ _ Hr), and_then_nil, Hb.
Qed.

(** A lease that is not dropped keeps the half busy in every interleaving. *)
Lemma lease_keeps_busy st ps s ps' s' gs :
  Forall2 (λ p g, st_wp p fin g) ps gs → stream_inv (stream_view s) ({[+ TSend st +]} ⊎ gsum gs) →
  rtc (pool_step outside) (ps, s) (ps', s') →
  ∃ r, w_streams s' !! st = Some r ∧ st_send_busy r = true.
Proof.
  intros Hps HI Hsteps.
  destruct (pool_invariant (λ s g, stream_inv (stream_view s) ({[+ TSend st +]} ⊎ g)) outside
              ltac:(intros ? ? ? [x ->]; done) ps s ps' s' gs) as [g [Hg _]]; [|exact HI|exact Hsteps|].
  { eapply Forall2_impl; [exact Hps|]. intros p g Hp.
    exact (wp_withheld (λ s, stream_inv (stream_view s)) {[+ TSend st +]} p fin g Hp). }
  specialize (Hg st). simpl in Hg. rewrite lookup_fmap in Hg. assert (0 ≤ tok (TSend st) g) by apply tok_nonneg.
  destruct (w_streams s' !! st) as [r|]; simpl in Hg; toks; [|lia].
  exists r. split; [done|]. destruct (st_send_busy r); [done|]. simpl in Hg. lia.
Qed.

(** C15: Let [take_send] succeed, as one step, in any state that calls reach (the
    mutex of the slot not poisoned), with any of their threads still running.  The
    lease holds the stream that was in the slot, which is emptied, and as long as
    the lease is not dropped, whatever those threads and any further calls do, the
    half stays busy: every other [take_send] is refused, as closed when the half
    was closed in the meantime and as busy otherwise, every [stream_finish] is
    refused as busy, and neither has any effect. *)
Theorem take_send_exclusive n x f calls ps s st op r s' lease :
  reaches calls (initial_world x f) ps s →
  w_streams s !! st = Some r → poisoned (st_send r) = false →
  eval n (take_send st op) s = Some (Ok lease, s', []) →
  (sl_resource lease = st ∧ sl_stream lease = content (st_send r) ∧ sl_stream lease ≠ None ∧
   s' = with_stream st (send_leased r) s) ∧
  ∀ more ps' s'', rtc (pool_step outside) (ps ++ (run_call <$> more), s') (ps', s'') →
    ∃ r', w_streams s'' !! st = Some r' ∧ st_send_busy r' = true ∧
      ∀ m op',
        eval m (take_send st op') s'' =
          Some (Err (if st_send_closed r' then stream_error op' atoms.closed "send half is closed"
                     else stream_error op' atoms.busy "send half is busy"), s'', []) ∧
        eval m (stream_finish st) s'' =
          Some (Err (stream_error atoms.stream_finish atoms.busy "send half is busy"), s'', []).
Proof.
  intros Hreach Hr Hp Ht. split.
  - rewrite (eval_take_send _ _ _ _ _ Hr Hp) in Ht.
    destruct (st_send_closed r), (st_send_busy r), (content (st_send r)); try done. by injection Ht as <- <-.
  - intros more ps' s'' Hsteps.
    destruct (pool_ok_steps (λ s, stream_inv (stream_view s)) outside ltac:(intros ? ? ? [y ->]; done)
                _ _ Hreach) as (gs & Hps & HI).
    { eexists. split; [apply (threads_ok stream_view stream_inv st_call)|].
      apply (start_ok stream_view stream_inv), stream_initial. }
    simpl in Hps, HI. rewrite <-(gop_nil_l (gsum gs)) in HI.
    assert (Hw : st_wp (take_send st op) (λ r g, match r with Ok _ => g = {[+ TSend st +]} ⊎ gnil | Err _ => True end) gnil)
      by (apply st_wp_take_send; done).
    destruct (wp_eval _ _ _ _ _ _ _ _ _ _ Hw HI Ht) as (g' & gcs & HI' & -> & Hcs).
    apply Forall2_nil_inv_l in Hcs as ->. change (gsum []) with (gnil (G := gmultiset stream_token)) in HI'.
    change ({[+ TSend st +]} ⊎ gnil) with (gop {[+ TSend st +]} (gnil (G := gmultiset stream_token))) in HI'.
    rewrite gop_nil_l, gop_nil_r in HI'.
    destruct (lease_keeps_busy st (ps ++ (run_call <$> more)) s' ps' s''
                (gs ++ ((λ _, gnil) <$> more))) as (r' & Hr' & Hb); [|..|exact Hsteps|].
    { apply Forall2_app; [done|]. apply Forall2_fmap, Forall_Forall2_diag, Forall_forall.
      intros c _. apply st_call. }
    { rewrite gsum_app, (gsum_nil (_ <$> more)); [by rewrite gop_nil_r|].
      apply Forall_fmap, Forall_forall. by intros. }
    exists r'. split; [done|]. split; [done|]. intros m op'.
    split; [by apply eval_take_send_busy|by eapply eval_stream_finish_busy].
Qed.

Lemma eval_send_lease_drop n lease s r :
  w_streams s !! sl_resource lease = Some r → poisoned (st_send r) = false →
  eval n (send_lease_drop lease) s =
    Some (tt, with_stream (sl_resource lease)
            (match sl_stream lease with
             | Some stream => if st_send_closed r then set_st_send_busy false r
                              else set_st_send (Mutex false (Some stream)) (set_st_send_busy false r)
             | None => set_st_send_busy false r
             end) s, []).
Proof.
  intros Hr Hp. unfold send_lease_drop, set_send_busy.
  rewrite eval_bind, (eval_on_stream _ _ _ _ _ Hr), and_then_nil. cbn [snd].
  rewrite eval_bind, (eval_get_stream _ _ _ _ _ (with_stream_lookup _ _ _)), and_then_nil. simpl.
  destruct (st_send_closed r); simpl; [by destruct (sl_stream lease)|].
  destruct (sl_stream lease) as [stream|]; simpl; [|done].
  rewrite !lookup_insert_eq. simpl. rewrite Hp, insert_insert_eq. done.
Qed.

(** C16: Taking the send half and dropping the lease gives the stream back exactly
    as it was, whatever the branch. *)
Theorem send_lease_roundtrip n st op s r :
  w_streams s !! st = Some r → poisoned (st_send r) = false →
  eval n (let! lease := take_send st op in
          match lease with Ok lease => send_lease_drop lease | Err _ => Ret tt end) s =
    Some (tt, s, []).
Proof.
  intros Hr Hp. rewrite eval_bind, (eval_take_send _ _ _ _ _ Hr Hp).
  destruct (st_send_closed r) eqn:Hcl; [done|]. destruct (st_send_busy r) eqn:Hb; [done|].
  destruct (content (st_send r)) as [stream|] eqn:Hc; [|done]. rewrite and_then_nil.
  erewrite eval_send_lease_drop; [|apply with_stream_lookup|done]. simpl. rewrite Hcl, with_stream_twice.
  assert (set_st_send (Mutex false (Some stream)) (set_st_send_busy false (send_leased r)) = r) as ->.
  { destruct r as [[] ? ? ? ? ? ? ? ? ? ? ? ?]. simpl in *. by subst. }
  by rewrite with_stream_same.
Qed.

(** ** Resets *)

(** The stream after [request_reset] with [code]. *)
Definition reset_stream (code : Z) (r : StreamResource) : StreamResource :=
  set_st_send (Mutex false None)
    (set_st_reset_notify true (set_st_send_closed true (set_st_reset_code code r))).

Definition reset_ext (code : Z) (r : StreamResource) (x : ext) : ext :=
  match content (st_send r), varint_from_u64 code with
  | Some stream, Some code => send_reset stream code x
  | _, _ => x
  end.

Lemma eval_request_reset n st code s r :
  w_streams s !! st = Some r → poisoned (st_send r) = false →
  eval n (request_reset st code) s =
    Some (tt, set_w_ext (reset_ext code r (w_ext s)) (with_stream st (reset_stream code r) s), []).
Proof.
  intros Hr Hp. unfold request_reset, reset_slot.
  rewrite eval_bind, (eval_on_stream _ _ _ _ _ Hr), and_then_nil. cbn [snd].
  rewrite eval_bind, (eval_on_stream _ _ _ _ _ (with_stream_lookup _ _ _)), and_then_nil. cbn [snd].
  rewrite eval_bind, (eval_on_stream _ _ _ _ _ (with_stream_lookup _ _ _)), and_then_nil. cbn [snd].
  rewrite (eval_on_stream_ext _ _ _ _ _ (with_stream_lookup _ _ _)). rewrite !with_stream_twice.
  simpl. rewrite Hp. unfold reset_stream, reset_ext.
  destruct r as [[p c] ? ? ? ? ? ? ? ? ? ? ? ?]. simpl in *. subst p.
  destruct c; simpl; rewrite ?with_stream_twice; done.
Qed.

Definition stop_stream (code : Z) (r : StreamResource) : StreamResource :=
  set_st_recv (Mutex false None)
    (set_st_stop_notify true (set_st_recv_closed true (set_st_stop_code code r))).

Definition stop_ext (code : Z) (r : StreamResource) (x : ext) : ext :=
  match content (st_recv r), varint_from_u64 code with
  | Some stream, Some code => recv_stop stream code x
  | _, _ => x
  end.

Lemma eval_request_stop n st code s r :
  w_streams s !! st = Some r → poisoned (st_recv r) = false →
  eval n (request_stop st code) s =
    Some (tt, set_w_ext (stop_ext code r (w_ext s)) (with_stream st (stop_stream code r) s), []).
Proof.
  intros Hr Hp. unfold request_stop, stop_slot.
  rewrite eval_bind, (eval_on_stream _ _ _ _ _ Hr), and_then_nil. cbn [snd].
  rewrite eval_bind, (eval_on_stream _ _ _ _ _ (with_stream_lookup _ _ _)), and_then_nil. cbn [snd].
  rewrite eval_bind, (eval_on_stream _ _ _ _ _ (with_stream_lookup _ _ _)), and_then_nil. cbn [snd].
  rewrite (eval_on_stream_ext _ _ _ _ _ (with_stream_lookup _ _ _)). rewrite !with_stream_twice.
  simpl. rewrite Hp. unfold stop_stream, stop_ext.
  destruct r as [? [p c] ? ? ? ? ? ? ? ? ? ? ?]. simpl in *. subst p.
  destruct c; simpl; rewrite ?with_stream_twice; done.
Qed.

(** C18: [stream_reset] with a valid code resets the stream found in the slot with
    that code, empties the slot, closes the send half for good and stores the code
    and the wake-up for a send in flight; an invalid code changes nothing. *)
Theorem stream_reset_spec n st code s r :
  w_streams s !! st = Some r → poisoned (st_send r) = false →
  eval n (stream_reset st code) s =
    Some (match validate_abort_code code atoms.stream_reset with
          | Ok _ => (Ok atoms.ok,
                     set_w_ext (reset_ext code r (w_ext s)) (with_stream st (reset_stream code r) s), [])
          | Err e => (Err e, s, [])
          end).
Proof.
  intros Hr Hp. unfold stream_reset. destruct (validate_abort_code code atoms.stream_reset); [|done].
  by rewrite eval_bind, (eval_request_reset _ _ _ _ _ Hr Hp), and_then_nil.
Qed.

(** C17: A reset that arrives while a send holds the lease keeps the stream from
    coming back: when the lease is dropped the slot stays empty and the half
    stays closed. *)
Theorem reset_during_lease n st code s r stream :
  w_streams s !! st = Some r → content (st_send r) = Some stream → poisoned (st_send r) = false →
  st_send_closed r = false → st_send_busy r = false →
  ∃ s', eval n (let! lease := take_send st atoms.stream_send in
                request_reset st code ;!
                match lease with Ok lease => send_lease_drop lease | Err _ => Ret tt end) s =
          Some (tt, s', []) ∧
        w_ext s' = w_ext s ∧
        ∃ r', w_streams s' !! st = Some r' ∧ content (st_send r') = None ∧
              st_send_closed r' = true ∧ st_send_busy r' = false ∧ st_reset_code r' = code.
Proof.
  intros Hr Hc Hp Hcl Hb. rewrite eval_bind, (eval_take_send _ _ _ _ _ Hr Hp), Hcl, Hb, Hc, and_then_nil.
  rewrite eval_bind. erewrite eval_request_reset; [|apply with_stream_lookup|done]. rewrite and_then_nil.
  erewrite eval_send_lease_drop; [|simpl; apply lookup_insert_eq|done]. simpl.
  eexists. split; [reflexivity|]. split; [done|]. simpl. rewrite lookup_insert_eq.
  eexists. split; [reflexivity|]. done.
Qed.

(** C40: The drop of a lease loads the closed flag and then refills the slot, so a
    [stream_reset] with a valid code that runs between the two is lost: it closes
    the half and finds the slot empty, and then the stream is put back, although
    the network was told nothing.  In the state after both, a [take_send] is
    refused as closed, but a second [stream_reset] finds the stream and does reset
    it with its code. *)
Theorem reset_lost_in_lease_drop st code c s r stream :
  w_streams s !! st = Some r → content (st_send r) = None → poisoned (st_send r) = false →
  st_send_closed r = false → validate_abort_code code atoms.stream_reset = Ok c →
  ∃ s' r',
    rtc (pool_step outside)
      ([send_lease_drop {| sl_resource := st; sl_stream := Some stream |};
        let! _ := stream_reset st code in Ret tt], s)
      ([Ret tt; Ret tt], s') ∧
    w_ext s' = w_ext s ∧ w_streams s' !! st = Some r' ∧
    st_send_closed r' = true ∧ st_send_busy r' = false ∧ content (st_send r') = Some stream ∧
    (∀ n op, eval n (take_send st op) s' =
               Some (Err (stream_error op atoms.closed "send half is closed"), s', [])) ∧
    ∀ n, ∃ s'', eval n (stream_reset st code) s' = Some (Ok atoms.ok, s'', []) ∧
                w_ext s'' = send_reset stream c (w_ext s').
Proof.
  intros Hr Hc Hp Hcl Hv. unfold stream_reset. rewrite Hv.
  assert (Hvar : varint_from_u64 code = Some c).
  { unfold validate_abort_code in Hv. destruct (_ <? _); [done|]. by apply ok_or_ok in Hv. }
  eexists _, _. split.
  { apply (run_sched_steps _ [(0,0); (0,0); (1,0); (1,0); (1,0); (1,0); (0,0)]%nat).
    simpl. rewrite Hr. simpl. rewrite lookup_insert_eq. simpl. rewrite Hcl. simpl.
    repeat (rewrite lookup_insert_eq; simpl). rewrite Hp. simpl. rewrite Hc. simpl.
    repeat (rewrite lookup_insert_eq; simpl). reflexivity. }
  split; [done|]. split; [simpl; apply lookup_insert_eq|]. rewrite Hp.
  split_and!; [done..| |]; intros n.
  - intros op. unfold take_send. rewrite eval_bind. erewrite eval_get_stream; [|simpl; apply lookup_insert_eq].
    done.
  - eexists. split.
    + rewrite eval_bind. erewrite eval_request_reset; [|simpl; apply lookup_insert_eq|done].
      rewrite and_then_nil. reflexivity.
    + simpl. unfold reset_ext. simpl. by rewrite Hvar.
Qed.

(** ** Waking a blocked operation *)

Lemma slice_some (data : bytes) a b :
  0 ≤ a ≤ b → b ≤ blen data →
  ∃ c, slice data a b = Some c ∧ blen c = b - a ∧
       c ++ drop (Z.to_nat b) data = drop (Z.to_nat a) data.
Proof.
  intros Ha Hb. unfold slice. replace (_ && _) with true by lia. eexists. split; [reflexivity|].
  unfold blen in *. rewrite length_take, length_drop. split; [lia|].
  rewrite <-(take_drop (Z.to_nat (b - a)) (drop (Z.to_nat a) data)) at 2. rewrite drop_drop.
  do 2 f_equal. lia.
Qed.

Lemma eval_select_blocked {R} n tid st permit consume (f : ext → list (option R * ext)) s r :
  w_streams s !! st = Some r → f (w_ext s) = [] → permit r = true →
  eval n (select_notified tid st permit consume f) s =
    Some (Some None, with_stream st (consume r) s, []).
Proof.
  intros Hr Hf Hp. unfold select_notified, await, await_in. cbn [eval].
  unfold poll_ext. by rewrite Hf, Hr, Hp.
Qed.

Lemma eval_reset_requested n st stream c s r :
  w_streams s !! st = Some r → varint_from_u64 (st_reset_code r) = Some c →
  eval n (reset_requested st stream) s =
    Some (Some (Err (NativeErr "peer_aborted" "stream_send" "send half was reset" ∅)),
          set_w_ext (send_reset stream c (w_ext s)) s, []).
Proof.
  intros Hr Hc. unfold reset_requested. rewrite eval_bind, (eval_get_stream _ _ _ _ _ Hr), and_then_nil, Hc.
  done.
Qed.

Lemma eval_stop_requested n st stream c s r :
  w_streams s !! st = Some r → varint_from_u64 (st_stop_code r) = Some c →
  eval n (stop_requested st stream) s =
    Some (Some (Err (NativeErr "peer_aborted" "stream_recv" "receive half was stopped" ∅)),
          set_w_ext (recv_stop stream c (w_ext s)) s, []).
Proof.
  intros Hr Hc. unfold stop_requested. rewrite eval_bind, (eval_get_stream _ _ _ _ _ Hr), and_then_nil, Hc.
  done.
Qed.

(** A blocked send takes the wake-up, whichever of the two ways it writes. *)
Lemma eval_blocked_send n tid st stream data send_all chunk_size c s r :
  w_streams s !! st = Some r → st_reset_notify r = true → varint_from_u64 (st_reset_code r) = Some c →
  1 ≤ chunk_size ≤ U64_MAX → 1 ≤ blen data → (1 ≤ n)%nat →
  (∀ b, send_write_all stream b (w_ext s) = [] ∧ send_write stream b (w_ext s) = []) →
  eval n (write_or_reset tid st stream data send_all chunk_size) s =
    Some (Some (Err (NativeErr "peer_aborted" "stream_send" "send half was reset" ∅)),
          set_w_ext (send_reset stream c (w_ext s)) (with_stream st (set_st_reset_notify false r) s), []).
Proof.
  intros Hr Hnotify Hc Hchunk Hdata Hn Hblocked. destruct n as [|n]; [lia|].
  assert (Hend : chunk_end 0 chunk_size data = Z.min chunk_size (blen data)).
  { unfold chunk_end. rewrite wrap64_small; [done|]. unfold U64_MAX in *. lia. }
  destruct (slice_some data 0 (Z.min chunk_size (blen data))) as (b & Hb & _); [lia..|].
  destruct (Hblocked b) as [Hall Hsome].
  assert (Hreq := eval_reset_requested (S n) st stream c _ _ (with_stream_lookup st (set_st_reset_notify false r) s) Hc).
  unfold write_or_reset, on_slice. destruct send_all.
  - unfold looped. cbn [eval eval_loop]. unfold send_round. rewrite (proj2 (Z.ltb_lt _ _)) by lia.
    unfold on_slice. rewrite Hend, Hb, eval_bind. unfold select_reset.
    rewrite (eval_select_blocked _ _ _ _ _ _ _ _ Hr) by done. rewrite and_then_nil.
    by rewrite eval_bind, Hreq.
  - rewrite Hb, eval_bind. unfold select_reset.
    rewrite (eval_select_blocked _ _ _ _ _ _ _ _ Hr) by done. by rewrite and_then_nil, Hreq.
Qed.

Lemma eval_blocked_recv n tid st stream max_bytes c s r :
  w_streams s !! st = Some r → st_stop_notify r = true → varint_from_u64 (st_stop_code r) = Some c →
  recv_read_chunk stream max_bytes (w_ext s) = [] →
  eval n (read_or_stop tid st stream max_bytes) s =
    Some (Some (Err (NativeErr "peer_aborted" "stream_recv" "receive half was stopped" ∅)),
          set_w_ext (recv_stop stream c (w_ext s)) (with_stream st (set_st_stop_notify false r) s), []).
Proof.
  intros Hr Hnotify Hc Hblocked. unfold read_or_stop, select_stop.
  rewrite eval_bind, (eval_select_blocked _ _ _ _ _ _ _ _ Hr) by done.
  rewrite and_then_nil.
  exact (eval_stop_requested _ _ _ _ _ _ (with_stream_lookup st (set_st_stop_notify false r) s) Hc).
Qed.

(** C26: A reset with a valid code reaches a send of at least one byte that holds
    the half, so that its slot is empty, and is blocked because the network accepts
    nothing; a stop likewise reaches a receive that is blocked because there is
    nothing to read.  The wake-up ends the operation with the category
    [peer_aborted], the stream is aborted with exactly the code that was given, the
    half is closed, the wake-up is used up, and nothing else changes. *)
Theorem abort_code_reaches_blocked_operation n tid st code c s r :
  w_streams s !! st = Some r →
  code ≤ MAX_ABORT_CODE → varint_from_u64 code = Some c → (1 ≤ n)%nat →
  (∀ stream data send_all chunk_size,
     st_send r = Mutex false None → 1 ≤ chunk_size ≤ U64_MAX → 1 ≤ blen data →
     (∀ b, send_write_all stream b (w_ext s) = [] ∧ send_write stream b (w_ext s) = []) →
     eval n (let! ok := stream_reset st code in
             let! sent := write_or_reset tid st stream data send_all chunk_size in
             Ret (ok, sent)) s =
       Some (Ok atoms.ok, Some (Err (NativeErr "peer_aborted" "stream_send" "send half was reset" ∅)),
             set_w_ext (send_reset stream c (w_ext s))
               (with_stream st (set_st_send_closed true (set_st_reset_code code
                                  (set_st_reset_notify false r))) s), [])) ∧
  (∀ stream max_bytes,
     st_recv r = Mutex false None → recv_read_chunk stream max_bytes (w_ext s) = [] →
     eval n (let! ok := stream_stop st code in
             let! received := read_or_stop tid st stream max_bytes in
             Ret (ok, received)) s =
       Some (Ok atoms.ok, Some (Err (NativeErr "peer_aborted" "stream_recv" "receive half was stopped" ∅)),
             set_w_ext (recv_stop stream c (w_ext s))
               (with_stream st (set_st_recv_closed true (set_st_stop_code code
                                  (set_st_stop_notify false r))) s), [])).
Proof.
  intros Hr Hcode Hvar Hn. unfold stream_reset, stream_stop, validate_abort_code.
  rewrite (proj2 (Z.ltb_ge _ _)) by done. rewrite Hvar. cbn [ok_or]. split.
  - intros stream data send_all chunk_size Hs Hchunk Hdata Hblocked.
    rewrite !eval_bind, (eval_request_reset _ _ _ _ _ Hr), !and_then_nil, eval_ret, and_then_nil by by rewrite Hs.
    unfold reset_ext. rewrite Hs. cbn [content].
    rewrite <-with_stream_ext, set_w_ext_same, eval_bind, (eval_blocked_send _ _ _ _ _ _ _ c _ _ (with_stream_lookup _ _ _)) by done.
    rewrite and_then_nil, eval_ret. do 2 f_equal.
    destruct r as [? ? ? ? ? ? ? ? ? ? ? ? ?]. simpl in *. subst.
    by rewrite !with_stream_twice.
  - intros stream max_bytes Hv Hblocked.
    rewrite !eval_bind, (eval_request_stop _ _ _ _ _ Hr), !and_then_nil, eval_ret, and_then_nil by by rewrite Hv.
    unfold stop_ext. rewrite Hv. cbn [content].
    rewrite <-with_stream_ext, set_w_ext_same, eval_bind, (eval_blocked_recv _ _ _ _ _ c _ _ (with_stream_lookup _ _ _)) by done.
    rewrite and_then_nil, eval_ret. do 2 f_equal.
    destruct r as [? ? ? ? ? ? ? ? ? ? ? ? ?]. simpl in *. subst.
    by rewrite !with_stream_twice.
Qed.

(** ** Aborting *)

Lemma eval_close n st s r :
  w_streams s !! st = Some r → poisoned (st_send r) = false → poisoned (st_recv r) = false →
  eval n (Stream.close st) s =
    Some (if st_released r then (false, s, [])
          else (true,
                set_w_active_streams (wrap64 (w_active_streams s - 1))
                  (set_w_ext (stop_ext 0 r (reset_ext 0 r (w_ext s)))
                    (with_stream st (stop_stream 0 (reset_stream 0 (set_st_released true r))) s)), [])).
Proof.
  intros Hr Hp Hq. unfold Stream.close, swap_stream_released.
  rewrite eval_bind, (eval_on_stream _ _ _ _ _ Hr), and_then_nil. cbn [fst snd].
  destruct (st_released r) eqn:Hrel.
  { rewrite eval_ret. assert (set_st_released true r = r) as -> by (destruct r; simpl in *; by subst).
    by rewrite (with_stream_same _ _ _ Hr). }
  rewrite eval_bind, (eval_request_reset _ _ _ _ _ (with_stream_lookup _ _ _)), and_then_nil by done.
  rewrite <-!with_stream_ext, ?with_stream_twice.
  rewrite eval_bind, (eval_request_stop _ _ _ _ _ (with_stream_lookup _ _ _)), and_then_nil by done.
  rewrite <-!with_stream_ext, ?with_stream_twice. done.
Qed.

(** C19: [stream_abort] with a code out of range does nothing and says [false];
    otherwise both halves are closed for good and their slots emptied, a stream
    found in a slot is reset or stopped with the code, the stream is released, and
    the result says whether it was not released before.  But the final [close] of
    a stream that was not released stores 0 over both codes, so a send or a receive
    in flight, which loads the code when it wakes up, may abort with 0. *)
Theorem stream_abort_spec n st code s r :
  w_streams s !! st = Some r → poisoned (st_send r) = false → poisoned (st_recv r) = false →
  (MAX_ABORT_CODE < code → eval n (stream_abort st code) s = Some (false, s, [])) ∧
  (code ≤ MAX_ABORT_CODE →
   ∃ s' r', eval n (stream_abort st code) s = Some (negb (st_released r), s', []) ∧
     w_streams s' !! st = Some r' ∧
     w_ext s' = stop_ext code r (reset_ext code r (w_ext s)) ∧
     content (st_send r') = None ∧ content (st_recv r') = None ∧
     st_send_closed r' = true ∧ st_recv_closed r' = true ∧ st_released r' = true ∧
     st_reset_code r' = (if st_released r then code else 0) ∧
     st_stop_code r' = (if st_released r then code else 0)).
Proof.
  intros Hr Hp Hq. unfold stream_abort. split; intros Hcode.
  { by rewrite (proj2 (Z.ltb_lt _ _)). }
  rewrite (proj2 (Z.ltb_ge _ _)) by done.
  rewrite eval_bind, (eval_request_reset _ _ _ _ _ Hr Hp), and_then_nil.
  rewrite <-!with_stream_ext, ?with_stream_twice.
  rewrite eval_bind, (eval_request_stop _ _ _ _ _ (with_stream_lookup _ _ _)), and_then_nil by done.
  rewrite <-!with_stream_ext, ?with_stream_twice.
  rewrite (eval_close _ _ _ _ (with_stream_lookup _ _ _)) by done. simpl.
  destruct (st_released r) eqn:Hrel; eexists _, _; (split; [reflexivity|]); simpl;
    rewrite lookup_insert_eq; (split; [reflexivity|]); done.
Qed.

(** C20: An abort code is accepted exactly up to 2^62 - 1, the range of a QUIC
    variable-length integer. *)
Theorem validate_abort_code_range code op :
  (∀ c, 0 ≤ c ≤ MAX_ABORT_CODE → varint_from_u64 c ≠ None) → 0 ≤ code →
  is_ok (validate_abort_code code op) = true ↔ code < 2 ^ 62.
Proof.
  intros Hv Hcode. unfold validate_abort_code. change (2 ^ 62) with (MAX_ABORT_CODE + 1).
  destruct (Z.ltb_spec MAX_ABORT_CODE code); simpl; [split; [done|lia]|].
  specialize (Hv code ltac:(lia)). destruct (varint_from_u64 code); [|done]. split; [lia|done].
Qed.

(** ** The queue *)

(** C21: A new guard adds its bytes to the queue and raises the peak to the new
    level when it is higher; dropping the guard takes the bytes back. *)
Theorem queue_guard_spec n b s :
  (1 ≤ n)%nat →
  eval n (QueueGuard_new b) s =
    Some (b, set_w_peak_queued_bytes (Z.max (w_peak_queued_bytes s) (wrap64 (w_queued_bytes s + b)))
               (set_w_queued_bytes (wrap64 (w_queued_bytes s + b)) s), []) ∧
  (0 ≤ w_queued_bytes s ≤ U64_MAX → ∀ s' ts, eval n (QueueGuard_new b) s = Some (b, s', ts) →
   ∃ s'', eval n (queue_guard_drop b) s' = Some (tt, s'', []) ∧ w_queued_bytes s'' = w_queued_bytes s).
Proof.
  intros Hn.
  assert (E : eval n (QueueGuard_new b) s =
    Some (b, set_w_peak_queued_bytes (Z.max (w_peak_queued_bytes s) (wrap64 (w_queued_bytes s + b)))
               (set_w_queued_bytes (wrap64 (w_queued_bytes s + b)) s), [])).
  { destruct n as [|n]; [lia|]. unfold QueueGuard_new, add_queued. set (cur := wrap64 _). simpl.
    destruct (Z.ltb_spec (w_peak_queued_bytes s) (wrap64 (w_queued_bytes s + b))); simpl.
    - rewrite Z.eqb_refl. simpl. by rewrite Z.max_r by lia.
    - rewrite Z.max_l by lia. by destruct s. }
  split; [done|]. intros Hq s' ts. rewrite E. intros [= <- <-]. eexists. split; [reflexivity|]. simpl.
  rewrite wrap64_sub. replace (w_queued_bytes s + b - b) with (w_queued_bytes s) by lia.
  apply wrap64_small. unfold U64_MAX in *. lia.
Qed.

(** ** Sending everything *)

Section send_all.
Variables (stream : SendStream) (chunk_size : Z).
(** The bytes that the stream has accepted. *)
Variable accepted : ext → bytes.
(** [write_all] of a chunk succeeds and appends it. *)
Hypothesis write_ok : ∀ b x, 1 ≤ blen b ≤ chunk_size →
  ∃ x' l, send_write_all stream b x = (Some (Some tt), x') :: l ∧ accepted x' = accepted x ++ b.

Lemma chunk_end_bounds written (data : bytes) :
  1 ≤ chunk_size ≤ U64_MAX → blen data ≤ 2 ^ 63 - 1 → 0 ≤ written < blen data →
  (written = 0 ∨ chunk_size < blen data) →
  written < chunk_end written chunk_size data ≤ blen data ∧
  chunk_end written chunk_size data ≤ written + chunk_size ∧
  (chunk_end written chunk_size data = blen data ∨ chunk_size < blen data).
Proof using Type.
  intros Hc Hd Hw Hor. unfold chunk_end.
  assert (wrap64 (written + chunk_size) = written + chunk_size) as ->.
  { apply wrap64_small. unfold U64_MAX in *. destruct Hor as [->|]; lia. }
  lia.
Qed.

Lemma eval_send_round n tid st (data : bytes) written s :
  1 ≤ chunk_size ≤ U64_MAX → blen data ≤ 2 ^ 63 - 1 → 0 ≤ written < blen data →
  (written = 0 ∨ chunk_size < blen data) →
  let end_ := chunk_end written chunk_size data in
  ∃ x, eval n (send_round tid st stream data chunk_size written) s = Some (inl end_, set_w_ext x s, []) ∧
       accepted x ++ drop (Z.to_nat end_) data = accepted (w_ext s) ++ drop (Z.to_nat written) data.
Proof using write_ok.
  intros Hc Hd Hw Hor end_. destruct (chunk_end_bounds written data Hc Hd Hw Hor) as (? & ? & _).
  destruct (slice_some data written end_) as (c & Hslice & Hlen & Hdrop); [unfold end_; lia..|].
  destruct (write_ok c (w_ext s)) as (x & l & Hx & Ha); [unfold end_ in *; lia|].
  exists x. split; [|by rewrite Ha, <-app_assoc, Hdrop].
  unfold send_round, on_slice. rewrite (proj2 (Z.ltb_lt _ _)) by lia. fold end_. rewrite Hslice. simpl.
  unfold poll_ext. by rewrite Hx.
Qed.

Lemma eval_send_loop n tid st (data : bytes) :
  1 ≤ chunk_size ≤ U64_MAX → blen data ≤ 2 ^ 63 - 1 →
  ∀ m written s, 0 ≤ written ≤ blen data → blen data - written < Z.of_nat m →
  (written = 0 ∨ written = blen data ∨ chunk_size < blen data) →
  ∃ x, eval_loop (λ w, eval n (send_round tid st stream data chunk_size w)) (λ b, eval n (Ret b)) m written s =
         Some (Some (Ok (VUsize (blen data))), set_w_ext x s, []) ∧
       accepted x = accepted (w_ext s) ++ drop (Z.to_nat written) data.
Proof using write_ok.
  intros Hc Hd. induction m as [|m IH]; intros written s Hw Hm Hor; [lia|]. cbn [eval_loop].
  destruct (Z.eq_dec written (blen data)) as [->|Hne].
  - exists (w_ext s). unfold send_round at 1. rewrite Z.ltb_irrefl. simpl. split; [by destruct s|].
    rewrite drop_ge by (unfold blen; lia). by rewrite app_nil_r.
  - assert (Hor' : written = 0 ∨ chunk_size < blen data) by (destruct Hor as [|[|]]; auto; lia).
    destruct (eval_send_round n tid st data written s) as (x & -> & Hx); [done..|lia|done|].
    destruct (chunk_end_bounds written data) as (Hb1 & Hb2 & Hb3); [done..|lia|done|].
    destruct (IH (chunk_end written chunk_size data) (set_w_ext x s)) as (y & -> & Hy); [lia..| |].
    { destruct Hb3; auto. }
    exists y. split; [done|]. by rewrite Hy.
Qed.

(** C14: When the stream accepts every chunk of 1 to [chunk_size] bytes at once and
    no reset was requested before, sending everything writes exactly the data, in
    order, in such chunks, and reports its length.  The loop ends after at most
    one round per byte, and no slice of the data is out of range, which would
    panic, however large [chunk_size] is. *)
Theorem send_all_writes_data n tid st (data : bytes) s :
  1 ≤ chunk_size ≤ U64_MAX → blen data ≤ 2 ^ 63 - 1 → (List.length data < n)%nat →
  ∃ x, eval n (write_or_reset tid st stream data true chunk_size) s =
         Some (Some (Ok (VUsize (blen data))), set_w_ext x s, []) ∧
       accepted x = accepted (w_ext s) ++ data.
Proof using write_ok.
  intros Hc Hd Hn. unfold write_or_reset, looped.
  exact (eval_send_loop n tid st data Hc Hd n 0 s ltac:(unfold blen; lia) ltac:(unfold blen; lia)
           (or_introl eq_refl)).
Qed.
End send_all.

End stream_spec.
