(* ===== verification/Witnesses.v ===== *)
(** Closed instances: each theorem with hypotheses applied to a run in the
    concrete outside world of [Loopback.v], and runs that show behaviours worth
    knowing. *)
From Stdlib Require Import Ascii String.
From S2P Require Import Prelude Prog Std Extern State Operations Identity IdentityFile EndpointConfig.
From S2P Require Import Endpoint Connection Stream System Invariants Lifecycle Safety EndpointSpec StreamSpec.
From S2P Require Import Loopback.
From stdpp Require Import list options.
Local Open Scope Z_scope.
Local Open Scope prog_scope.

(** ** Running to the end *)

(** The first thread that can move, from thread [i] on. *)
Fixpoint first_ready (i : nat) (ps : list (nif unit)) (s : world) : option nat :=
  match ps with
  | [] => None
  | p :: ps => match step p s with [] => first_ready (S i) ps s | _ => Some i end
  end.

(** A schedule that always runs that thread, with its first outcome. *)
Fixpoint drive (fuel : nat) (c : list (nif unit) * world) : list (nat * nat) :=
  match fuel with
  | O => []
  | S fuel =>
      match first_ready 0 c.1 c.2 with
      | Some t => match run_sched [(t, 0%nat)] c with
                  | Some c' => (t, 0%nat) :: drive fuel c'
                  | None => []
                  end
      | None => []
      end
  end.

Definition options : NativeEndpointOptions := {|
  o_profile := atoms.direct; o_alpns := ["app/1"%string]; o_bind_addrs := []; o_relays := [];
  o_direct_ip := true; o_max_pending_accepts := 2; o_max_connections := 1 |}.

Definition me : pid := 1%nat.
Definition peer : string := of_bytes (replicate 32 "p"%char).
Definition target : NativeDialTarget :=
  {| dt_endpoint_id := peer; dt_relay_urls := []; dt_ip_addrs := ["127.0.0.1:4433"%string] |}.

(** Load an identity, bind an endpoint, dial, fail to dial above the limit, accept
    nobody, open a stream, send five bytes in chunks of two, receive, send a
    datagram, cancel, close everything. *)
Definition scenario : list nif_call :=
  [ IdentityLoadOrCreate "/id";
    OperationStart me 99%nat atoms.ok 10;
    OperationCancel 0;
    EndpointBindStart me 100%nat (key_of_bytes []) options;
    EndpointBindStart me 108%nat (key_of_bytes (replicate 32 "z"%char)) options;
    ConnectionConnectStart me me 101%nat 0 target "app/1";
    ConnectionConnectStart me me 102%nat 0 target "app/1";
    StreamOpenBiStart me me 104%nat 0;
    StreamSendStart me 105%nat 0 (as_bytes "hello") true 2;
    StreamRecvStart me 106%nat 0 4;
    DatagramSendStart me 107%nat 0 (as_bytes "dgram") true ].

Definition pool0 : list (nif unit) * world := (run_call <$> scenario, start).
Definition schedule : list (nat * nat) := drive 600 pool0.
Definition outcome_ : option (list (nif unit) * world) := run_sched schedule pool0.
Definition last_state : list (nif unit) * world := default pool0 outcome_.

Lemma scenario_runs : outcome_ = Some last_state.
Proof.
  unfold last_state. destruct outcome_ eqn:E; [done|].
  assert (H : match outcome_ with Some _ => true | None => false end = true) by (vm_compute; reflexivity).
  by rewrite E in H.
Qed.

Lemma scenario_reaches : reaches scenario (initial_world quiet empty_fs) last_state.1 last_state.2.
Proof.
  apply (sched_reaches _ _ schedule). rewrite <-surjective_pairing. exact scenario_runs.
Qed.

Lemma scenario_finished : forallb finished last_state.1 = true.
Proof. vm_compute. reflexivity. Qed.

Definition final_state : world := last_state.2.

(** ** Runs of the whole layer *)


Lemma completed_means_sent_witness : sent 3 (w_mail final_state) = 1%nat.
Proof.
  apply (completed_means_sent quiet empty_fs scenario _ _ 3 (OperationRes COMPLETED false)
           scenario_reaches scenario_finished); vm_compute; reflexivity.
Defined.


Lemma active_operations_quiescent_witness : w_active_operations final_state = 0.
Proof. apply (active_operations_quiescent quiet empty_fs scenario _ _ scenario_reaches scenario_finished). Defined.

(** An entry that passes a test. *)
Definition check {A} (o : option A) (P : A → bool) : bool :=
  match o with Some a => P a | None => false end.

Lemma check_some {A} (o : option A) (P : A → bool) : check o P = true → ∃ a, o = Some a ∧ P a = true.
Proof. destruct o; [eauto|done]. Qed.

(** The two endpoints that are bound at the end. *)
Definition bound_with (id : string) (v : EndpointResource) : bool :=
  String.eqb (ep_endpoint_id v) id && negb (ep_released v) && (ep_max_connections v =? 1).
Definition id0 : string := of_bytes (replicate 32 "000"%char).
Definition id1 : string := of_bytes (replicate 32 "z"%char).

Lemma bound_with_spec id v :
  bound_with id v = true → ep_endpoint_id v = id ∧ ep_released v = false ∧ ep_max_connections v = 1.
Proof.
  unfold bound_with. intros [[E1 E2]%andb_prop E3]%andb_prop.
  split_and!; [by apply String.eqb_eq|by destruct (ep_released v)|by apply Z.eqb_eq].
Qed.

Lemma endpoint0_bound : ∃ v, w_endpoints final_state !! 0%nat = Some v ∧ bound_with id0 v = true.
Proof. apply check_some. vm_compute. reflexivity. Qed.
Lemma endpoint1_bound : ∃ v, w_endpoints final_state !! 1%nat = Some v ∧ bound_with id1 v = true.
Proof. apply check_some. vm_compute. reflexivity. Qed.

Lemma identities_exclusive_witness :
  ∃ v0 v1, w_endpoints final_state !! 0%nat = Some v0 ∧ w_endpoints final_state !! 1%nat = Some v1 ∧
    ep_endpoint_id v0 ∈ content (w_identities final_state) ∧
    (ep_endpoint_id v0 = ep_endpoint_id v1 → 0%nat = 1%nat).
Proof.
  destruct endpoint0_bound as (v0 & H0 & (E0 & R0 & _)%bound_with_spec).
  destruct endpoint1_bound as (v1 & H1 & (E1 & R1 & _)%bound_with_spec).
  exists v0, v1. split; [exact H0|]. split; [exact H1|].
  apply (identities_exclusive quiet empty_fs scenario _ _ 0 1 v0 v1 scenario_reaches H0 H1 R0 R1).
Defined.

Lemma endpoints_quiescent_witness :
  w_active_endpoints final_state = wrap64 (count ep_open (w_endpoints final_state)) ∧
  w_active_endpoints final_state = 2.
Proof.
  split; [|vm_compute; reflexivity].
  apply (endpoints_quiescent quiet empty_fs scenario _ _ scenario_reaches scenario_finished).
Defined.

Lemma connection_limits_witness : count (open_connection 0) (w_connections final_state) ≤ 1.
Proof.
  destruct endpoint0_bound as (v & Hv & (_ & _ & Hmax)%bound_with_spec).
  destruct (connection_limits quiet empty_fs scenario _ _ 0 v scenario_reaches Hv) as [[H1 H2] _].
  rewrite Hmax in H2. unfold final_state. lia.
Defined.

Lemma connections_quiescent_witness :
  w_active_connections final_state = wrap64 (count conn_open (w_connections final_state)) ∧
  w_active_connections final_state = 1.
Proof.
  split; [|vm_compute; reflexivity].
  apply (connections_quiescent quiet empty_fs scenario _ _ scenario_reaches scenario_finished).
Defined.

Lemma streams_quiescent_witness :
  w_active_streams final_state = wrap64 (count stream_open (w_streams final_state)) ∧
  w_active_streams final_state = 1.
Proof.
  split; [|vm_compute; reflexivity].
  apply (streams_quiescent quiet empty_fs scenario _ _ scenario_reaches scenario_finished).
Defined.

Lemma queued_bytes_quiescent_witness :
  w_queued_bytes final_state = 0 ∧ w_peak_queued_bytes final_state = 10.
Proof.
  split; [|vm_compute; reflexivity].
  apply (queued_bytes_quiescent quiet empty_fs scenario _ _ scenario_reaches scenario_finished).
Defined.


Definition id_path : path := [RootDir; Normal "id"].

Lemma id_path_not_temp : ¬ is_temp id_path.
Proof.
  intros (parent & name & sequence & E). unfold id_path, path_join in E.
  change [RootDir; Normal "id"] with ([RootDir] ++ [Normal "id"]) in E.
  apply app_inj_tail in E as [_ [= E]].
Qed.

Lemma id_file : fs_file (w_fs final_state) id_path = Some (replicate 32 "k"%char).
Proof. vm_compute. reflexivity. Qed.

Lemma empty_fs_wf : fs_wf empty_fs.
Proof. intros p i. simpl. rewrite lookup_empty. discriminate. Qed.

Lemma identity_files_complete_witness :
  fs_file empty_fs id_path = Some (replicate 32 "k"%char) ∨ blen (replicate 32 "k"%char) = KEY_SIZE.
Proof.
  apply (identity_files_complete quiet empty_fs scenario _ _ id_path empty_fs_wf id_path_not_temp
           scenario_reaches), id_file.
Defined.

(** ** Connections *)

Lemma accept_only_allowed_witness :
  parse_allowed [peer] = Ok {[peer]} ∧
  within (admits {[peer]}) (connection_accept_start me me 1%nat 0 false [peer]).
Proof.
  assert (H : parse_allowed [peer] = Ok {[peer]}) by (vm_compute; reflexivity).
  split; [exact H|]. exact (accept_only_allowed me me 1%nat 0 [peer] {[peer]} H).
Defined.

Definition an_endpoint : EndpointResource :=
  EndpointRes (Mutex false (Some tt)) id1 ProfileKind.Direct true false 0 2 1 1.
Definition conn_p : Connection := replicate 32 "p"%char.
Definition conn_q : Connection := replicate 32 "q"%char.
Definition a_connection : ConnectionResource :=
  ConnectionRes conn_p 0 peer "app/1" Outgoing false false false.

(** One endpoint at its limit, with its connection. *)
Definition connected : world :=
  set_w_runtime (Some true)
    (set_w_identities (Mutex false {[id1]})
      (set_w_active_endpoints 1
        (set_w_active_connections 1
          (set_w_connections {[0%nat := a_connection]} (set_w_endpoints {[0%nat := an_endpoint]} start))))).

Lemma connection_close_spec_witness :
  eval 0 (connection_close 0) connected = Some (true, closed_world connected 0 a_connection an_endpoint, []).
Proof. apply (connection_close_spec 0 0 connected a_connection an_endpoint); reflexivity. Defined.

Lemma wrap_connection_at_capacity_witness :
  eval 0 (wrap_connection conn_q 0 me Incoming atoms.connection_accept) connected =
    Some (Err (connection_error atoms.capacity atoms.connection_accept "endpoint connection limit is reached"),
          set_w_ext (conn_close_ext conn_q (w_ext connected)) connected, []).
Proof.
  apply (wrap_connection_at_capacity 0 conn_q 0 me Incoming atoms.connection_accept
           connected an_endpoint); [reflexivity|discriminate].
Defined.

Definition loop_endpoint : @Endpoint _ loopback := tt.
Definition loop_incoming : @IncomingConn _ loopback := tt.
Definition loop_accepting : @Accepting _ loopback := tt.
Definition accepted_log : ext := [("accept"%string, [])] : event_log.

(** An endpoint without connections accepts the peer that calls. *)
Definition listening : world :=
  set_w_endpoints {[0%nat := set_ep_active_connections 0 an_endpoint]} start.

Lemma accept_peer_spec_witness :
  eval 0 (fut_body (accept_future loop_endpoint 0 me false ∅) 0) listening =
    Some (Some (Err (NativeErr "unauthorized" "connection_accept" "authenticated peer is not allowed" ∅)),
          set_w_ext (accepted_log ++ [("close"%string, conn_p)]) listening, []) ∧
  ∃ s', eval 0 (fut_body (accept_future loop_endpoint 0 me false {[peer]}) 0) listening =
          Some (Some (Ok (VConnection 0)), s', []) ∧
        w_connections s' = {[0%nat := ConnectionRes conn_p 0 peer "app/1" Incoming false false false]} ∧
        w_active_connections s' = 1.
Proof.
  split.
  - apply (accept_peer_spec 0 0 loop_endpoint 0 me false ∅ listening (set_ep_active_connections 0 an_endpoint)
             loop_incoming loop_accepting conn_p accepted_log accepted_log accepted_log [] []);
      [reflexivity|vm_compute; discriminate|vm_compute; split; discriminate|reflexivity..|].
    intros [H|H]; [discriminate|by apply elem_of_empty in H].
  - destruct (proj2 (proj2 (accept_peer_spec 0 0 loop_endpoint 0 me false {[peer]} listening
                (set_ep_active_connections 0 an_endpoint) loop_incoming loop_accepting conn_p
                accepted_log accepted_log accepted_log [] []
                eq_refl ltac:(vm_compute; discriminate) ltac:(vm_compute; split; discriminate)
                eq_refl eq_refl eq_refl))) as [H _]; [right; by apply elem_of_singleton|reflexivity|].
    eexists. split; [apply H; reflexivity|]. split; reflexivity.
Defined.

Definition bare_target : NativeDialTarget :=
  {| dt_endpoint_id := peer; dt_relay_urls := []; dt_ip_addrs := [] |}.

Lemma connect_refused_early_witness :
  ∃ msg, eval 0 (connection_connect_start me me 1%nat 0 bare_target "app/1") connected =
         Some (Err (native_error atoms.resolution atoms.connection_connect msg), connected, []).
Proof.
  apply (connect_refused_early 0 me me 1%nat 0 bare_target "app/1" connected an_endpoint eq_refl)
    with (addr := (replicate 32 "p"%char, [])); [split; [split; vm_compute; discriminate|reflexivity]|
      reflexivity..].
Defined.

(** ** Streams *)

Definition send5 : @SendStream _ loopback := 5.
Definition recv6 : @RecvStream _ loopback := 6.
Definition code7 : @VarInt _ loopback := 7.
Definition stalled_send : @SendStream _ loopback := STALLED.
Definition stalled_recv : @RecvStream _ loopback := STALLED.
Definition a_stream : StreamResource :=
  StreamRes (Mutex false (Some send5)) (Mutex false (Some recv6)) 0 4 false false false false NO_ABORT NO_ABORT
    false false false.
Definition streaming : world := set_w_active_streams 1 (set_w_streams {[0%nat := a_stream]} start).

(** The state after a send has leased stream 0. *)
Definition lease0 (s : world) : world :=
  match eval 0 (take_send 0 atoms.stream_send) s with
  | Some (_, s, _) => s
  | None => s
  end.

Definition free_stream (r : StreamResource) : bool :=
  negb (poisoned (st_send r)) && negb (st_send_closed r) && negb (st_send_busy r) &&
  match content (st_send r) with Some _ => true | None => false end.

Lemma take_free s r : w_streams s !! 0%nat = Some r → free_stream r = true →
  poisoned (st_send r) = false ∧
  ∃ lease, eval 0 (take_send 0 atoms.stream_send) s = Some (Ok lease, lease0 s, []).
Proof.
  unfold free_stream. intros Hr Hfree.
  destruct (poisoned (st_send r)) eqn:Hp, (st_send_closed r) eqn:Hc, (st_send_busy r) eqn:Hb,
    (content (st_send r)) as [stream|] eqn:Hs; try discriminate.
  assert (E := eval_take_send 0 0 atoms.stream_send s r Hr Hp). rewrite Hc, Hb, Hs in E.
  split; [done|]. unfold lease0. rewrite E. by eexists.
Qed.

(** After the scenario, that lease meets another send and a reset. *)
Definition leased : world := lease0 final_state.
Definition rivals : list nif_call := [StreamSendStart me 109%nat 0 (as_bytes "x") true 2; StreamReset 0 7].
Definition contended0 : list (nif unit) * world := (last_state.1 ++ (run_call <$> rivals), leased).
Definition contended_ : option (list (nif unit) * world) := run_sched (drive 100 contended0) contended0.
Definition contended : list (nif unit) * world := default contended0 contended_.

Lemma contended_runs : contended_ = Some contended.
Proof.
  unfold contended. destruct contended_ eqn:E; [done|].
  assert (H : match contended_ with Some _ => true | None => false end = true) by (vm_compute; reflexivity).
  by rewrite E in H.
Qed.

Lemma stream0_free : ∃ r, w_streams final_state !! 0%nat = Some r ∧ free_stream r = true.
Proof. apply check_some. vm_compute. reflexivity. Qed.

Lemma take_send_exclusive_witness :
  ∃ r', w_streams contended.2 !! 0%nat = Some r' ∧ st_send_busy r' = true ∧
    eval 0 (stream_finish 0) contended.2 =
      Some (Err (stream_error atoms.stream_finish atoms.busy "send half is busy"), contended.2, []).
Proof.
  destruct stream0_free as (r & Hr & Hfree). destruct (take_free _ _ Hr Hfree) as [Hp [lease Htake]].
  destruct (proj2 (take_send_exclusive 0 quiet empty_fs scenario last_state.1 final_state 0 atoms.stream_send
              r leased lease scenario_reaches Hr Hp Htake) rivals contended.1 contended.2)
    as (r' & H1 & H2 & H3).
  { apply (run_sched_steps _ (drive 100 contended0)). rewrite <-surjective_pairing. exact contended_runs. }
  exists r'. split; [exact H1|]. split; [exact H2|]. apply (H3 0%nat atoms.stream_send).
Defined.

Lemma send_lease_roundtrip_witness :
  eval 0 (let! lease := take_send 0 atoms.stream_send in
          match lease with Ok lease => send_lease_drop lease | Err _ => Ret tt end) streaming =
    Some (tt, streaming, []).
Proof. apply (send_lease_roundtrip 0 0 atoms.stream_send streaming a_stream); reflexivity. Defined.

Lemma stream_reset_spec_witness :
  eval 0 (stream_reset 0 7) streaming =
    Some (Ok atoms.ok, set_w_ext (reset_ext 7 a_stream (w_ext streaming))
                         (with_stream 0 (reset_stream 7 a_stream) streaming), []) ∧
  reset_ext 7 a_stream (w_ext streaming) = [("reset"%string, as_bytes "7")].
Proof. split; [apply (stream_reset_spec 0 0 7 streaming a_stream)|]; reflexivity. Defined.

Lemma reset_during_lease_witness :
  ∃ s', eval 0 (let! lease := take_send 0 atoms.stream_send in
                request_reset 0 7 ;!
                match lease with Ok lease => send_lease_drop lease | Err _ => Ret tt end) streaming =
          Some (tt, s', []) ∧
        w_ext s' = w_ext streaming ∧
        ∃ r', w_streams s' !! 0%nat = Some r' ∧ content (st_send r') = None ∧
              st_send_closed r' = true ∧ st_send_busy r' = false ∧ st_reset_code r' = 7.
Proof. apply (reset_during_lease 0 0 7 streaming a_stream send5); reflexivity. Defined.

Lemma reset_lost_in_lease_drop_witness :
  ∃ s' s'', w_ext s' = [] ∧ eval 0 (stream_reset 0 7) s' = Some (Ok atoms.ok, s'', []) ∧
    w_ext s'' = [("reset"%string, as_bytes "7")].
Proof.
  destruct (reset_lost_in_lease_drop 0 7 code7 (with_stream 0 (send_leased a_stream) streaming)
              (send_leased a_stream) send5) as (s' & r' & _ & H1 & _ & _ & _ & _ & _ & H2); [reflexivity..|].
  destruct (H2 0%nat) as (s'' & H3 & H4). rewrite H1 in H4.
  exists s', s''. split; [exact H1|]. split; [exact H3|exact H4].
Defined.

(** A send and a receive that hold the halves of a stalled stream. *)
Definition leased_stream : StreamResource :=
  StreamRes (Mutex false None) (Mutex false None) 0 4 true true false false NO_ABORT NO_ABORT false false false.
Definition stalled : world := set_w_streams {[0%nat := leased_stream]} start.

Lemma abort_code_reaches_blocked_operation_witness :
  (∃ s', eval 1 (let! ok := stream_reset 0 7 in
                 let! sent := write_or_reset 0 0 stalled_send (as_bytes "hello") true 2 in
                 Ret (ok, sent)) stalled =
           Some (Ok atoms.ok, Some (Err (NativeErr "peer_aborted" "stream_send" "send half was reset" ∅)), s', []) ∧
         w_ext s' = [("reset"%string, as_bytes "7")]) ∧
  (∃ s', eval 1 (let! ok := stream_stop 0 7 in
                 let! received := read_or_stop 0 0 stalled_recv 10 in
                 Ret (ok, received)) stalled =
           Some (Ok atoms.ok, Some (Err (NativeErr "peer_aborted" "stream_recv" "receive half was stopped" ∅)), s', []) ∧
         w_ext s' = [("stop"%string, as_bytes "7")]).
Proof.
  destruct (abort_code_reaches_blocked_operation 1 0 0 7 code7 stalled leased_stream) as [H1 H2];
    [reflexivity|discriminate|reflexivity|lia|].
  split; eexists.
  - split; [apply (H1 stalled_send (as_bytes "hello") true 2);
      [reflexivity|vm_compute; split; discriminate|vm_compute; discriminate|split; reflexivity]|reflexivity].
  - split; [apply (H2 stalled_recv 10); reflexivity|reflexivity].
Defined.

(** The abort code is lost for an operation in flight. *)
Lemma stream_abort_spec_witness :
  ∃ s' r', eval 0 (stream_abort 0 7) streaming = Some (true, s', []) ∧
    w_streams s' !! 0%nat = Some r' ∧ st_reset_code r' = 0 ∧ st_stop_code r' = 0.
Proof.
  destruct (proj2 (stream_abort_spec 0 0 7 streaming a_stream eq_refl eq_refl eq_refl))
    as (s' & r' & H1 & H2 & _ & _ & _ & _ & _ & _ & H3 & H4); [discriminate|].
  exists s', r'. split; [exact H1|]. split; [exact H2|]. split; [exact H3|exact H4].
Defined.

Lemma varint_in_range c : 0 ≤ c ≤ MAX_ABORT_CODE → varint_from_u64 c ≠ None.
Proof. intros [_ Hc]. simpl. by rewrite (proj2 (Z.leb_le _ _)). Qed.

Lemma validate_abort_code_range_witness :
  is_ok (validate_abort_code (2 ^ 62) atoms.stream_reset) = true ↔ 2 ^ 62 < 2 ^ 62.
Proof. apply (validate_abort_code_range (2 ^ 62) atoms.stream_reset varint_in_range). lia. Defined.

Lemma queue_guard_spec_witness :
  eval 1 (QueueGuard_new 10) streaming =
    Some (10, set_w_peak_queued_bytes 10 (set_w_queued_bytes 10 streaming), []).
Proof. apply (queue_guard_spec 1 10 streaming). lia. Defined.

(** The bytes of the writes in the log. *)
Definition written (x : event_log) : bytes :=
  concat ((λ e : string * bytes, if String.eqb e.1 "write" then e.2 else []) <$> x).

Lemma written_write x b : written (x ++ [("write"%string, b)]) = written x ++ b.
Proof. unfold written. rewrite fmap_app, concat_app. simpl. by rewrite app_nil_r. Qed.

Lemma loopback_writes (chunk_size : Z) (b : bytes) (x : ext) :
  1 ≤ blen b ≤ chunk_size →
  ∃ x' l, send_write_all send5 b x = (Some (Some tt), x') :: l ∧ written x' = written x ++ b.
Proof. intros _. eexists _, []. split; [reflexivity|]. apply written_write. Qed.

Lemma send_all_writes_data_witness :
  ∃ x, eval 10 (write_or_reset 0 0 send5 (as_bytes "hello") true 2) start =
         Some (Some (Ok (VUsize 5)), set_w_ext x start, []) ∧
       written x = as_bytes "hello".
Proof.
  destruct (send_all_writes_data send5 2 written (loopback_writes 2) 10 0 0 (as_bytes "hello") start)
    as (x & H1 & H2); [vm_compute; split; discriminate|vm_compute; discriminate|simpl; lia|].
  exists x. split; [exact H1|exact H2].
Defined.

(** ** Operations *)

(** Operation 0 is running and its future has ended with [Ok 5]; operation 1 was
    cancelled too late to stop the same. *)
Definition ended : task (nresult value) := Task false (Some (Some (Ok (VUsize 5)))).
Definition operating : world :=
  set_w_active_operations 2
    (set_w_tasks {[0%nat := ended]}
      (set_w_operations (<[1%nat := OperationRes CANCELLED true]> {[0%nat := OperationRes RUNNING false]}) start)).

Definition quiet_future : future :=
  Future (λ _, Ret (Some (Ok (VUsize 5)))) (Ret tt) (λ _, Ret tt).

Lemma cancel_spec_witness :
  eval 0 (Operations.cancel 1) operating =
    Some (false, set_w_operations
                   (<[1%nat := OperationRes CANCELLED true]> (w_operations operating)) operating, []).
Proof. apply (cancel_spec 0 1 operating (OperationRes CANCELLED true)). reflexivity. Defined.

(** The future panics: its task has no value. *)
Definition panicked : world := set_w_tasks {[0%nat := Task false (Some None)]} operating.

Lemma supervise_completes_witness :
  (∃ s', eval 0 (supervise 0 0 me 7%nat atoms.stream_send quiet_future) operating = Some (tt, s', []) ∧
         w_mail s' = [Mail me 7%nat (Ok (VUsize 5)) 0 true] ∧ w_active_operations s' = 1) ∧
  (∃ s', eval 0 (supervise 0 0 me 7%nat atoms.stream_send quiet_future) panicked = Some (tt, s', []) ∧
         w_mail s' = [Mail me 7%nat (Err (NativeErr "internal" "stream_send"
                                            "endpoint operation failed internally" ∅)) 0 true]).
Proof.
  assert (H1 := supervise_completes 0 0 0 me 7%nat atoms.stream_send quiet_future operating
                  (Some (Ok (VUsize 5))) true quiet eq_refl eq_refl eq_refl).
  assert (H2 := supervise_completes 0 0 0 me 7%nat atoms.stream_send quiet_future panicked
                  None true quiet eq_refl eq_refl eq_refl).
  split; eexists.
  - split; [exact H1|]. split; reflexivity.
  - split; [exact H2|reflexivity].
Defined.

(** Operation 1 dialled and was cancelled after its connection was made. *)
Definition dialled : world :=
  set_w_tasks {[0%nat := Task false (Some (Some (Ok (VConnection 0))))]}
    (set_w_operations {[1%nat := OperationRes CANCELLED true]} connected).
Definition dial_future : future := connect_future tt (replicate 32 "p"%char, []) "app/1" 0 me.

Lemma supervise_cancelled_witness :
  ∃ s', eval 0 (supervise 1 0 me 7%nat atoms.connection_connect dial_future) dialled = Some (tt, s', []) ∧
        w_ext s' = [("close"%string, conn_p)] ∧ w_active_connections s' = 0 ∧
        w_operations s' = w_operations dialled ∧ w_mail s' = w_mail dialled.
Proof.
  destruct (supervise_cancelled 0 1 0 me 7%nat atoms.connection_connect dial_future dialled
              (Some (Ok (VConnection 0))) true eq_refl eq_refl) as [H1 H2].
  assert (H3 := H2 (proj1 (proj2 (connect_future_within _ _ _ _ _)))).
  eexists. split; [exact H1|]. split; [reflexivity|]. split; [reflexivity|]. exact (H3 _ _ H1).
Defined.

(** ** Endpoints *)

Lemma endpoint_abort_spec_witness :
  eval 0 (endpoint_abort 0) connected = Some (true, aborted_world connected 0 an_endpoint, []) ∧
  content (w_identities (aborted_world connected 0 an_endpoint)) = ∅.
Proof.
  split; [|vm_compute; reflexivity].
  apply (endpoint_abort_spec 0 0 connected an_endpoint); reflexivity.
Defined.

Definition zkey : SecretKey := key_of_bytes (replicate 32 "z"%char).

(** The first call of all builds the runtime, and finds the identity active. *)
Definition unbuilt : world := set_w_runtime None connected.

Lemma bind_refused_early_witness :
  eval 0 (endpoint_bind_start me 1%nat zkey options) unbuilt =
    Some (Err (NativeErr "duplicate_identity" "endpoint_bind" "endpoint identity is already active in this VM" ∅),
          connected, []).
Proof.
  apply (bind_refused_early 0 me 1%nat zkey options unbuilt true connected);
    [reflexivity|split; reflexivity|reflexivity|reflexivity|vm_compute; reflexivity|].
  apply elem_of_singleton. vm_compute. reflexivity.
Defined.

Lemma endpoint_info_spec_witness :
  ∃ info, eval 0 (endpoint_info 0) connected = Some (Ok info, connected, []) ∧
    ei_closed info = false ∧ ei_online info = true.
Proof.
  destruct (endpoint_info_spec 0 0 connected an_endpoint) as (info & H1 & _ & _ & H2 & _ & _ & H3);
    [reflexivity|reflexivity|].
  exists info. split; [exact H1|]. split; [exact H2|]. apply H3. reflexivity.
Defined.

(** ** Configurations *)

(** An IPv6 socket, which the loopback builder refuses. *)
Definition v6_config : BindConfig := {|
  c_profile := ProfileKind.Direct; c_alpns := [as_bytes "app/1"];
  c_bind_addrs := [V6 [0; 0; 0; 0; 0; 0; 0; 1] 1 0]; c_relay_map := None; c_direct_ip := true |}.
Definition relay_a : NativeRelay := {| nr_url := "https://a"; nr_token := Some "token"%string |}.
Definition custom_config : BindConfig := {|
  c_profile := ProfileKind.Custom; c_alpns := [as_bytes "app/1"]; c_bind_addrs := [];
  c_relay_map := Some (relay_map_from_iter [RelayConfig ("https://a"%string : RelayUrl) (Some "token"%string)]);
  c_direct_ip := false |}.

Lemma endpoint_builder_isolated_witness :
  ∃ b, endpoint_builder custom_config zkey = Ok b ∧ isolation custom_config b ∧
       clear_ip_transports ∈ b_calls b.
Proof.
  eexists. split; [reflexivity|].
  epose proof (endpoint_builder_isolated atoms.custom ["app/1"%string] [] [relay_a] false custom_config zkey
                 _ eq_refl eq_refl) as [H1 H2].
  split; [exact H1|]. apply (H2 eq_refl).
Defined.

Lemma endpoint_builder_no_internal_error_witness :
  ∃ e, endpoint_builder v6_config zkey = Err e ∧
       e = bind_invalid "bind address configuration is invalid".
Proof.
  eexists. split; [reflexivity|].
  apply (endpoint_builder_no_internal_error atoms.direct ["app/1"%string] ["[::1]:1"%string] []
           true v6_config zkey); reflexivity.
Defined.

(** ** Addresses, tickets, keys *)

Definition eid : bytes := replicate 32 "p"%char.
Definition relays : list string := ["https://a"%string].
Definition ips : list string := ["127.0.0.1:1"%string].
Definition an_addr : @EndpointAddr loopback_identity :=
  (eid, [Relay "https://a"%string; Ip (V4 (127, 0, 0, 1) 1)]).

Lemma build_addr_no_credentials_witness :
  plain_http_url ("https://a"%string : @RelayUrl loopback_identity).
Proof.
  apply (build_addr_no_credentials eid relays ips an_addr); [reflexivity|]. left. reflexivity.
Defined.

Lemma secret_key_roundtrip_witness :
  eval 0 (secret_key_export (key_of_bytes eid)) start = Some (Ok eid, start, []).
Proof. apply (secret_key_roundtrip 0 eid start); reflexivity. Defined.

Lemma identity_create_then_load_witness :
  ∃ key s', eval 0 (identity_load_or_create "/data/id") start = Some (Ok key, s', []) ∧
            fs_is_dir (w_fs s') [RootDir; Normal "data"] = true ∧
            fs_file (w_fs s') [RootDir; Normal "data"; Normal "id"] = Some (secret_to_bytes key).
Proof.
  destruct (identity_create_then_load 0 "/data/id" start [RootDir; Normal "data"] "id") as (key & s' & H1 & H2 & H3 & _);
    [reflexivity|intros; eexists _, _; reflexivity|vm_compute; split; discriminate|reflexivity..|].
  exists key, s'. split; [exact H1|]. split; [exact H2|exact H3].
Defined.
